(** * Net-OnlineCode: the graph decoder of [C/graph.c]

    A shallow embedding of the Online Code graph decoder and the proofs of
    its structural properties.

    Modelling conventions.
    - A C [int] is a [Z].  In [oc_graph_init] the conversion of the
      [float] product, the two sums that size the arrays and the doubled
      counters of the first pass are checked against the range of a
      32-bit [int]; the other counters and indices count nodes, edges
      and calls, and no wrap-around is modelled for them.
    - A heap array of [int] is a [list Z] of the allocated length; a
      length-prefixed array [[k, d1, .., dk]] keeps its count in cell 0 and
      may carry stale cells after cell [k].
    - A pointer slot holding [NULL] or an array is an [option (list Z)].
    - The singly linked lists of [oc_uni_block] cells (the n-edges of a
      node, the pending queue, the solved list) are lists of the cell
      values, head cell first.
    - Every operation returns an [option]: [None] stands for a failed
      [assert], a read through a [NULL] array slot, an access outside an
      array of the graph or undefined [int] arithmetic.  An allocation
      of a non-negative number of cells is assumed to succeed.
    - The graph model ends at the graph structure.  The cells of the
      block pool and its statics ([free_head], [free_tail], [null_ring],
      [ouser]) are not part of it, nor are the calls that touch nothing
      else: [free_block] at the end of [oc_delete_n_edge] and at
      [discard:], and the release of the pool at [finish:].  Whether
      such a call finds its ring is a question about the pool, which is
      modelled on an explicit heap further down.  The instrumentation
      counters are left out. *)

From Stdlib Require Import ZArith List Lia Bool Permutation.
From Stdlib Require Import Floats.SpecFloat.
From Stdlib Require QArith Qround.
Import ListNotations.
Open Scope Z_scope.

(** ** Arrays indexed by [int] *)

Module Arr.

Definition zget {A} (l : list A) (i : Z) : option A :=
  if i <? 0 then None else nth_error l (Z.to_nat i).

Fixpoint upd {A} (l : list A) (n : nat) (x : A) : list A :=
  match l, n with
  | [], _ => []
  | _ :: t, O => x :: t
  | h :: t, S m => h :: upd t m x
  end.

Definition zset {A} (l : list A) (i : Z) (x : A) : option (list A) :=
  if (0 <=? i) && (i <? Z.of_nat (length l)) then Some (upd l (Z.to_nat i) x)
  else None.

(** [calloc(n, sizeof(T))]: [n] zeroed cells.  A negative [int] count
    converts to a [size_t] beyond every object size and [calloc] returns
    [NULL]: [None]. *)
Definition calloc {A} (zero : A) (n : Z) : option (list A) :=
  if n <? 0 then None else Some (repeat zero (Z.to_nat n)).

(** The number of rounds of [while (count--)]: a negative count walks off
    the array. *)
Definition while_count (count : Z) : option nat :=
  if count <? 0 then None else Some (Z.to_nat count).

Definition c_assert (b : bool) : option unit := if b then Some tt else None.

(** The sum of two [int]; outside the range of a 32-bit [int] it is
    undefined. *)
Definition int_add (a b : Z) : option Z :=
  let s := a + b in
  if (- 2 ^ 31 <=? s) && (s <=? 2 ^ 31 - 1) then Some s else None.

End Arr.
Import Arr.

Notation "x <- e ;; k" :=
  (match e with Some x => k | None => None end)
  (at level 61, e at next level, right associativity).
Notation "' p <- e ;; k" :=
  (match e with Some p => k | None => None end)
  (at level 61, p pattern, e at next level, right associativity).
Notation "e ;;; k" :=
  (match e with Some _ => k | None => None end)
  (at level 61, right associativity).

(** ** The graph structure *)

Record oc_graph := mk_graph {
  mblocks : Z;
  ablocks : Z;
  coblocks : Z;
  nodes : Z;
  node_space : Z;
  unsolved_count : Z;
  done : bool;
  v_edges : list (option (list Z));
  n_edges : list (list Z);
  edge_count : list Z;
  solved : list bool;
  xor_list : list (option (list Z));
  pending : list Z
}.

Definition set_nodes g x :=
  mk_graph (mblocks g) (ablocks g) (coblocks g) x (node_space g)
    (unsolved_count g) (done g) (v_edges g) (n_edges g) (edge_count g)
    (solved g) (xor_list g) (pending g).
Definition set_unsolved_count g x :=
  mk_graph (mblocks g) (ablocks g) (coblocks g) (nodes g) (node_space g)
    x (done g) (v_edges g) (n_edges g) (edge_count g)
    (solved g) (xor_list g) (pending g).
Definition set_done g x :=
  mk_graph (mblocks g) (ablocks g) (coblocks g) (nodes g) (node_space g)
    (unsolved_count g) x (v_edges g) (n_edges g) (edge_count g)
    (solved g) (xor_list g) (pending g).
Definition set_v_edges g x :=
  mk_graph (mblocks g) (ablocks g) (coblocks g) (nodes g) (node_space g)
    (unsolved_count g) (done g) x (n_edges g) (edge_count g)
    (solved g) (xor_list g) (pending g).
Definition set_n_edges g x :=
  mk_graph (mblocks g) (ablocks g) (coblocks g) (nodes g) (node_space g)
    (unsolved_count g) (done g) (v_edges g) x (edge_count g)
    (solved g) (xor_list g) (pending g).
Definition set_edge_count g x :=
  mk_graph (mblocks g) (ablocks g) (coblocks g) (nodes g) (node_space g)
    (unsolved_count g) (done g) (v_edges g) (n_edges g) x
    (solved g) (xor_list g) (pending g).
Definition set_solved g x :=
  mk_graph (mblocks g) (ablocks g) (coblocks g) (nodes g) (node_space g)
    (unsolved_count g) (done g) (v_edges g) (n_edges g) (edge_count g)
    x (xor_list g) (pending g).
Definition set_xor_list g x :=
  mk_graph (mblocks g) (ablocks g) (coblocks g) (nodes g) (node_space g)
    (unsolved_count g) (done g) (v_edges g) (n_edges g) (edge_count g)
    (solved g) x (pending g).
Definition set_pending g x :=
  mk_graph (mblocks g) (ablocks g) (coblocks g) (nodes g) (node_space g)
    (unsolved_count g) (done g) (v_edges g) (n_edges g) (edge_count g)
    (solved g) (xor_list g) x.

(** ** Edges and the pending queue *)

(** [oc_create_n_edge]: a new cell at the head of [n_edges[lower]]. *)
Definition oc_create_n_edge (g : oc_graph) (upper lower : Z) : option oc_graph :=
  c_assert (upper >? lower) ;;;
  cells <- zget (n_edges g) lower ;;
  ne <- zset (n_edges g) lower (upper :: cells) ;;
  Some (set_n_edges g ne).

Definition oc_push_pending (g : oc_graph) (value : Z) : oc_graph :=
  set_pending g (pending g ++ [value]).

Definition oc_shift_pending (g : oc_graph) : option (Z * oc_graph) :=
  match pending g with
  | [] => None
  | node :: rest => Some (node, set_pending g rest)
  end.

Definition oc_flush_pending (g : oc_graph) : oc_graph := set_pending g [].

(** [oc_push_solved]: append a cell to the caller's solved list. *)
Definition oc_push_solved (value : Z) (solved_list : list Z) : list Z :=
  solved_list ++ [value].

(** The walk of [oc_delete_n_edge] along a cell list: the first cell whose
    value is [upper] is unlinked; [None] when the walk reaches the end.
    The unlinked cell goes to [free_block], which leaves the graph as it
    is. *)
Fixpoint unlink (upper : Z) (cells : list Z) : option (list Z) :=
  match cells with
  | [] => None
  | v :: rest =>
      if v =? upper then Some rest
      else rest' <- unlink upper rest ;; Some (v :: rest')
  end.

Definition oc_delete_n_edge (g : oc_graph) (upper lower : Z) (decrement : bool)
  : option oc_graph :=
  c_assert (upper >? lower) ;;;
  c_assert (upper >=? mblocks g) ;;;
  g1 <- (if decrement then
           c <- zget (edge_count g) (upper - mblocks g) ;;
           c_assert (negb (c =? 0)) ;;;
           ec <- zset (edge_count g) (upper - mblocks g) (c - 1) ;;
           Some (set_edge_count g ec)
         else Some g) ;;
  cells <- zget (n_edges g1) lower ;;
  cells' <- unlink upper cells ;;
  ne <- zset (n_edges g1) lower cells' ;;
  Some (set_n_edges g1 ne).

(** The loop [for (i = down[0]; i > 0; --i)] of [oc_decommission_node]. *)
Fixpoint decommission_loop (i : nat) (g : oc_graph) (node : Z) (down : list Z)
  : option oc_graph :=
  match i with
  | O => Some g
  | S j =>
      lower <- zget down (Z.of_nat i) ;;
      g' <- oc_delete_n_edge g node lower false ;;
      decommission_loop j g' node down
  end.

Definition oc_decommission_node (g : oc_graph) (node : Z) : option oc_graph :=
  c_assert (node >=? mblocks g) ;;;
  down <- zget (v_edges g) (node - mblocks g) ;;
  ve <- zset (v_edges g) (node - mblocks g) None ;;
  let g1 := set_v_edges g ve in
  match down with
  | None => Some g1
  | Some arr =>
      k <- zget arr 0 ;;
      decommission_loop (Z.to_nat k) g1 node arr
  end.

(** [while (count--) *(xp++) = *(src++)]. *)
Fixpoint copy_cells (count : nat) (src : list Z) (si : Z) (dst : list Z) (di : Z)
  : option (list Z) :=
  match count with
  | O => Some dst
  | S c =>
      tmp <- zget src si ;;
      dst' <- zset dst di tmp ;;
      copy_cells c src (si + 1) dst' (di + 1)
  end.

Definition oc_propagate_xor (xors edges : list Z) : option (list Z) :=
  x0 <- zget xors 0 ;;
  e0 <- zget edges 0 ;;
  let tmp := x0 + e0 in
  p <- calloc 0 (tmp + 1) ;;
  p <- zset p 0 tmp ;;
  count <- while_count x0 ;;
  p <- copy_cells count xors 1 p 1 ;;
  count' <- while_count e0 ;;
  copy_cells count' edges 1 p (1 + x0).

(** The deletion loop of [oc_aux_rule]: [while (count--)] over [*(p++)]. *)
Fixpoint aux_rule_loop (count : nat) (g : oc_graph) (aux_node : Z)
  (p : list Z) (pi : Z) : option oc_graph :=
  match count with
  | O => Some g
  | S c =>
      lower <- zget p pi ;;
      g' <- oc_delete_n_edge g aux_node lower false ;;
      aux_rule_loop c g' aux_node p (pi + 1)
  end.

Definition oc_aux_rule (g : oc_graph) (aux_node : Z) : option oc_graph :=
  c_assert (aux_node >=? mblocks g) ;;;
  c_assert (aux_node <? coblocks g) ;;;
  sv <- zset (solved g) aux_node true ;;
  let g := set_solved g sv in
  slot <- zget (v_edges g) (aux_node - mblocks g) ;;
  xl <- zset (xor_list g) aux_node slot ;;
  let g := set_xor_list g xl in
  ve <- zset (v_edges g) (aux_node - mblocks g) None ;;
  let g := set_v_edges g ve in
  p <- slot ;;
  k <- zget p 0 ;;
  count <- while_count k ;;
  aux_rule_loop count g aux_node p 1.

(** The walk of [oc_cascade] along the cells of [n_edges[node]]. *)
Fixpoint cascade_loop (cells : list Z) (g : oc_graph) (node : Z)
  : option oc_graph :=
  match cells with
  | [] => Some g
  | to :: rest =>
      c_assert (negb (to =? node)) ;;;
      c <- zget (edge_count g) (to - mblocks g) ;;
      c_assert (negb (c =? 0)) ;;;
      ec <- zset (edge_count g) (to - mblocks g) (c - 1) ;;
      let g1 := set_edge_count g ec in
      let g2 := if c - 1 <? 2 then oc_push_pending g1 to else g1 in
      cascade_loop rest g2 node
  end.

Definition oc_cascade (g : oc_graph) (node : Z) : option oc_graph :=
  c_assert (node <? coblocks g) ;;;
  cells <- zget (n_edges g) node ;;
  cascade_loop cells g node.

(** ** Check-block ingest *)

(** First pass of [oc_graph_check_block]: count the solved down-edges. *)
Fixpoint count_solved_loop (count : nat) (g : oc_graph) (v : list Z) (ep : Z)
  (solved_count : Z) : option Z :=
  match count with
  | O => Some solved_count
  | S c =>
      tmp <- zget v ep ;;
      c_assert (tmp <? coblocks g) ;;;
      s <- zget (solved g) tmp ;;
      count_solved_loop c g v (ep + 1)
        (if s then solved_count + 1 else solved_count)
  end.

(** Second pass: a solved entry moves to the xor list (cell [xp] of [xl])
    and the last live entry (cell [endp]) is swapped into its place; an
    unsolved entry gets its up-edge and [ep] moves on. *)
Fixpoint prune_loop (count : nat) (g : oc_graph) (node : Z) (v : list Z)
  (ep endp : Z) (xl : list Z) (xp : Z)
  : option (oc_graph * list Z * list Z) :=
  match count with
  | O => Some (g, v, xl)
  | S c =>
      tmp <- zget v ep ;;
      s <- zget (solved g) tmp ;;
      if s then
        xl' <- zset xl xp tmp ;;
        last <- zget v endp ;;
        v' <- zset v ep last ;;
        prune_loop c g node v' ep (endp - 1) xl' (xp + 1)
      else
        g' <- oc_create_n_edge g node tmp ;;
        prune_loop c g' node v (ep + 1) endp xl xp
  end.

(** [oc_graph_check_block] returns its [int] result and the graph.  The
    slot [xor_list[node]] points to the array that the second pass fills
    through [xp]; the model stores the filled array. *)
Definition oc_graph_check_block (g : oc_graph) (v_edges_in : list Z)
  : option (Z * oc_graph) :=
  let node := nodes g in
  let g := set_nodes g (node + 1) in
  if node >=? node_space g then Some (-1, g)
  else
    k <- zget v_edges_in 0 ;;
    count <- while_count k ;;
    solved_count <- count_solved_loop count g v_edges_in 1 0 ;;
    xp <- calloc 0 (solved_count + 2) ;;
    zset (xor_list g) node (Some xp) ;;;
    xp <- zset xp 0 (solved_count + 1) ;;
    xp <- zset xp 1 node ;;
    v <- zset v_edges_in 0 (k - solved_count) ;;
    '(g, v, xp) <- prune_loop count g node v 1 k xp 2 ;;
    xl <- zset (xor_list g) node (Some xp) ;;
    let g := set_xor_list g xl in
    ve <- zset (v_edges g) (node - mblocks g) (Some v) ;;
    let g := set_v_edges g ve in
    v0 <- zget v 0 ;;
    ec <- zset (edge_count g) (node - mblocks g) v0 ;;
    let g := set_edge_count g ec in
    Some (node, oc_push_pending g node).

(** ** The resolver *)

(** The search loop of the propagation rule: [to] starts at [-1]; the
    result is [(to, i)] on leaving the loop. *)
Fixpoint scan_unsolved (n : nat) (g : oc_graph) (arr : list Z) (i : Z)
  : option (Z * Z) :=
  match n with
  | O => Some (-1, i)
  | S n' =>
      d <- zget arr (1 + i) ;;
      s <- zget (solved g) d ;;
      if s then scan_unsolved n' g arr (i + 1) else Some (d, i)
  end.

(** The propagation rule up to the decommissioning of [from]
    (graph.c lines 685-724); returns the node it solved. *)
Definition propagation_rule (g : oc_graph) (from : Z) : option (Z * oc_graph) :=
  slot <- zget (v_edges g) (from - mblocks g) ;;
  arr <- slot ;;
  xor_count <- zget arr 0 ;;
  '(to, i) <- scan_unsolved (Z.to_nat xor_count) g arr 0 ;;
  c_assert (negb (to =? -1)) ;;;
  c_assert (i <? xor_count) ;;;
  last <- zget arr xor_count ;;
  arr <- zset arr (1 + i) last ;;
  arr <- zset arr 0 (xor_count - 1) ;;
  ve <- zset (v_edges g) (from - mblocks g) (Some arr) ;;
  let g := set_v_edges g ve in
  g <- oc_delete_n_edge g from to true ;;
  (if to <? mblocks g then
     xt <- zget (xor_list g) to ;;
     c_assert (match xt with None => true | Some _ => false end)
   else Some tt) ;;;
  xf <- zget (xor_list g) from ;;
  xors <- xf ;;
  vslot <- zget (v_edges g) (from - mblocks g) ;;
  edges <- vslot ;;
  p <- oc_propagate_xor xors edges ;;
  st <- zget (solved g) to ;;
  c_assert (negb st) ;;;
  sv <- zset (solved g) to true ;;
  let g := set_solved g sv in
  xt <- zget (xor_list g) to ;;
  c_assert (match xt with None => true | Some _ => false end) ;;;
  xl <- zset (xor_list g) to (Some p) ;;
  let g := set_xor_list g xl in
  g <- oc_decommission_node g from ;;
  Some (to, g).

(** The [while] loop of [oc_graph_resolve], built with [STEPPING] set: a
    discarded node continues the loop (its cell goes to [free_block]), a
    solved node leaves it.  Each round shifts one cell off the pending
    queue and a discarding round pushes none, so
    [S (length (pending g))] rounds of fuel are never used up. *)
Fixpoint resolve_loop (fuel : nat) (g : oc_graph) (solved_list : list Z)
  : option (oc_graph * list Z) :=
  match pending g with
  | [] => Some (g, solved_list)
  | _ :: _ =>
    match fuel with
    | O => None
    | S fuel' =>
      '(from, g) <- oc_shift_pending g ;;
      c_assert (from >=? mblocks g) ;;;
      count_unsolved <- zget (edge_count g) (from - mblocks g) ;;
      if count_unsolved >? 1 then resolve_loop fuel' g solved_list
      else if count_unsolved =? 0 then
        spent <- (if from >=? coblocks g then Some true
                  else zget (solved g) from) ;;
        if spent then
          g <- oc_decommission_node g from ;;
          resolve_loop fuel' g solved_list
        else
          g <- oc_aux_rule g from ;;
          let solved_list := oc_push_solved from solved_list in
          g <- oc_cascade g from ;;
          Some (g, solved_list)
      else if count_unsolved =? 1 then
        skip <- (if from <? coblocks g then
                   s <- zget (solved g) from ;; Some (negb s)
                 else Some false) ;;
        if skip then resolve_loop fuel' g solved_list
        else
          '(to, g) <- propagation_rule g from ;;
          let solved_list := oc_push_solved to solved_list in
          if to <? mblocks g then
            let g := set_unsolved_count g (unsolved_count g - 1) in
            if unsolved_count g =? 0 then
              Some (oc_flush_pending (set_done g true), solved_list)
            else
              g <- oc_cascade g to ;;
              Some (g, solved_list)
          else
            let g := oc_push_pending g to in
            g <- oc_cascade g to ;;
            Some (g, solved_list)
      else Some (g, solved_list)
    end
  end.

(** [oc_graph_resolve] returns [graph->done], the solved list and the
    graph.  At [finish:] a graph that is done counts [ouser] down and
    releases the block pool at zero; this acts on the statics of the pool
    alone. *)
Definition oc_graph_resolve (g : oc_graph) : option (bool * list Z * oc_graph) :=
  match pending g with
  | [] => Some (done g, [], g)
  | _ :: _ =>
      if unsolved_count g =? 0 then
        let g := set_done g true in Some (done g, [], g)
      else
        '(g, solved_list) <- resolve_loop (S (length (pending g))) g [] ;;
        Some (done g, solved_list, g)
  end.

(** ** The codec and the floating-point sizing of the check range *)

Module Codec.
Record oc_codec := mk_codec {
  mblocks : Z;
  ablocks : Z;
  coblocks : Z;
  e : spec_float;                 (* double *)
  q : Z;
  auxiliary : option (list Z)     (* int *, mblocks * q cells *)
}.
End Codec.

(** IEEE 754 arithmetic of the C types [double] (binary64) and [float]
    (binary32), every operation rounding to nearest even in the format of
    its C type. *)
Module Fp.

Definition dmul := SFmul 53 1024.
Definition dadd := SFadd 53 1024.
Definition fmul := SFmul 24 128.

(** Conversion of a finite number to another format. *)
Definition convert (prec emax : Z) (x : spec_float) : spec_float :=
  match x with
  | S754_finite s m ex => binary_round prec emax s m ex
  | _ => x
  end.
Definition float_of_double := convert 24 128.
Definition double_of_float := convert 53 1024.
Definition double_of_int (n : Z) : spec_float := binary_normalize 53 1024 n 0 false.

(** Conversion of a [float] to [int]: the fractional part is discarded;
    the result is undefined for a NaN, an infinity or a value outside the
    range of a 32-bit [int]. *)
Definition int_of_float (x : spec_float) : option Z :=
  match x with
  | S754_zero _ => Some 0
  | S754_finite s m ex =>
      let a := if 0 <=? ex then Z.pos m * 2 ^ ex else Z.pos m / 2 ^ (- ex) in
      let z := cond_Zopp s a in
      if (- 2 ^ 31 <=? z) && (z <=? 2 ^ 31 - 1) then Some z else None
  | _ => None
  end.

End Fp.

(** [expected = (1 + q * e) * mblocks; check_space = fudge * expected;]
    with [e] a [double], [expected] and [fudge] a [float]. *)
Definition expected_blocks (codec : Codec.oc_codec) : spec_float :=
  Fp.float_of_double
    (Fp.dmul (Fp.dadd (Fp.double_of_int 1)
                      (Fp.dmul (Fp.double_of_int (Codec.q codec)) (Codec.e codec)))
             (Fp.double_of_int (Codec.mblocks codec))).

Definition check_space_of (codec : Codec.oc_codec) (fudge : spec_float) : option Z :=
  Fp.int_of_float (Fp.fmul fudge (expected_blocks codec)).

(** ** Initialisation *)

(** The two nested loops over the auxiliary map, [mp] walking the flat
    array: [body g aux_temp msg] is run on every cell. *)
Fixpoint map_row (body : oc_graph -> Z -> Z -> option oc_graph) (n : nat)
  (g : oc_graph) (amap : list Z) (mp msg : Z) : option (oc_graph * Z) :=
  match n with
  | O => Some (g, mp)
  | S n' =>
      aux_temp <- zget amap mp ;;
      g' <- body g aux_temp msg ;;
      map_row body n' g' amap (mp + 1) msg
  end.

Fixpoint map_rows (body : oc_graph -> Z -> Z -> option oc_graph) (n : nat)
  (g : oc_graph) (amap : list Z) (mp msg q : Z) : option oc_graph :=
  match n with
  | O => Some g
  | S n' =>
      '(g', mp') <- map_row body (Z.to_nat q) g amap mp msg ;;
      map_rows body n' g' amap mp' (msg + 1) q
  end.

(** 1st stage: the up-edge of the message, and the [+2] on the counter. *)
Definition init_stage1 (g : oc_graph) (aux_temp msg : Z) : option oc_graph :=
  g <- oc_create_n_edge g aux_temp msg ;;
  let aux_temp := aux_temp - mblocks g in
  c_assert (aux_temp >=? 0) ;;;
  c_assert (aux_temp <? ablocks g) ;;;
  c <- zget (edge_count g) aux_temp ;;
  c <- int_add c 2 ;;
  ec <- zset (edge_count g) aux_temp c ;;
  Some (set_edge_count g ec).

(** 2nd stage: the down-edge arrays of the auxiliary nodes. *)
Fixpoint init_stage2 (n : nat) (g : oc_graph) (aux : Z) : option oc_graph :=
  match n with
  | O => Some g
  | S n' =>
      c <- zget (edge_count g) aux ;;
      let aux_temp := Z.shiftr c 1 in
      p <- calloc 0 (1 + aux_temp) ;;
      p <- zset p 0 aux_temp ;;
      ve <- zset (v_edges g) aux (Some p) ;;
      init_stage2 n' (set_v_edges g ve) (aux + 1)
  end.

(** 3rd stage: the down-edges, stored from the end of each array. *)
Definition init_stage3 (g : oc_graph) (aux_temp msg : Z) : option oc_graph :=
  let aux_temp := aux_temp - mblocks g in
  slot <- zget (v_edges g) aux_temp ;;
  p <- slot ;;
  temp <- zget (edge_count g) aux_temp ;;
  ec <- zset (edge_count g) aux_temp (temp - 1) ;;
  let g := set_edge_count g ec in
  p0 <- zget p 0 ;;
  p' <- zset p (temp - p0) msg ;;
  ve <- zset (v_edges g) aux_temp (Some p') ;;
  Some (set_v_edges g ve).

Inductive init_result :=
| InitFailed                    (* a non-zero return *)
| InitOk (g : oc_graph).        (* return 0 *)

(** The macro [OC_ALLOC]: a [NULL] from [calloc] makes [oc_graph_init]
    return a non-zero value. *)
Definition OC_ALLOC {A} (zero : A) (space : Z)
  (rest : list A -> option init_result) : option init_result :=
  match calloc zero space with
  | None => Some InitFailed
  | Some member => rest member
  end.

(** [oc_graph_init].  Between the allocations and the first pass the
    source takes hold of the block pool if no graph has done so and
    counts the graph among its users ([ouser]); this acts on the statics
    of the pool alone. *)
Definition oc_graph_init (codec : Codec.oc_codec) (fudge : spec_float)
  : option init_result :=
  let mblocks := Codec.mblocks codec in
  let ablocks := Codec.ablocks codec in
  let coblocks := Codec.coblocks codec in
  let q := Codec.q codec in
  if mblocks <? 1 then Some InitFailed
  else if ablocks <? 1 then Some InitFailed
  else match Codec.auxiliary codec with
  | None => Some InitFailed
  | Some aux_map =>
    if SFleb (Fp.double_of_float fudge) (Fp.double_of_int 1) then Some InitFailed
    else
      check_space <- check_space_of codec fudge ;;
      node_space <- int_add coblocks check_space ;;
      (* [ablocks + check_space], the size of [v_edges] and [edge_count] *)
      upper_space <- int_add ablocks check_space ;;
      OC_ALLOC None upper_space (fun ve =>
      OC_ALLOC [] coblocks (fun ne =>
      OC_ALLOC 0 upper_space (fun ec =>
      OC_ALLOC false coblocks (fun sv =>
      OC_ALLOC None node_space (fun xl =>
      let g := mk_graph mblocks ablocks coblocks coblocks
                 node_space mblocks false ve ne ec sv xl [] in
      g <- map_rows init_stage1 (Z.to_nat mblocks) g aux_map 0 0 q ;;
      g <- init_stage2 (Z.to_nat ablocks) g 0 ;;
      g <- map_rows init_stage3 (Z.to_nat mblocks) g aux_map 0 0 q ;;
      Some (InitOk g))))))
  end.

(** ** Concrete runs *)

Module Scenario.

Definition half : spec_float := S754_finite false 4503599627370496 (-53).
Definition fudge15 : spec_float := S754_finite false 12582912 (-23).

(** One message under one auxiliary node. *)
Definition codec2 : Codec.oc_codec := Codec.mk_codec 1 1 2 half 1 (Some [1]).

(** Scenario 3 of the specification: two messages under one auxiliary
    node. *)
Definition codec3 : Codec.oc_codec := Codec.mk_codec 2 1 3 half 1 (Some [2; 2]).

(** Three messages, the first two under auxiliary node 3, the third under
    auxiliary node 4. *)
Definition codec5 : Codec.oc_codec := Codec.mk_codec 3 2 5 half 1 (Some [3; 3; 4]).

(** Scenario 1 of the specification: four messages with two auxiliary
    nodes each, the rows [4 5], [4 4], [5 4] and [5 5]; messages 1 and 3
    name one auxiliary node twice. *)
Definition codec1 : Codec.oc_codec :=
  Codec.mk_codec 4 2 6 half 2 (Some [4; 5; 4; 4; 5; 4; 5; 5]).

Definition run_init (c : Codec.oc_codec) (f : spec_float) : option oc_graph :=
  r <- oc_graph_init c f ;;
  match r with InitOk g => Some g | InitFailed => None end.

Definition ingest (v : list Z) (g : oc_graph) : option oc_graph :=
  '(_, g') <- oc_graph_check_block g v ;; Some g'.

Definition resolve (g : oc_graph) : option oc_graph :=
  '(_, g') <- oc_graph_resolve g ;; Some g'.

Definition blank : oc_graph := mk_graph 0 0 0 0 0 0 false [] [] [] [] [] [].

Definition the (o : option oc_graph) : oc_graph :=
  match o with Some g => g | None => blank end.

(** [codec2]: one check block on the message, then the resolver. *)
Definition s2_init : oc_graph := Eval vm_compute in the (run_init codec2 fudge15).
Definition s2_one : oc_graph := Eval vm_compute in the (ingest [1; 0] s2_init).
Definition s2_done : oc_graph := Eval vm_compute in the (resolve s2_one).
(** [codec2]: the check range (two nodes) filled. *)
Definition s2_full : oc_graph := Eval vm_compute in the (ingest [1; 0] s2_one).

(** [codec3]: one check block on message 0. *)
Definition s3_init : oc_graph := Eval vm_compute in the (run_init codec3 fudge15).
Definition s3_one : oc_graph := Eval vm_compute in the (ingest [1; 0] s3_init).

(** [codec5]: check blocks on messages 0 and 1, and two resolver calls:
    auxiliary node 3 is at the head of the queue with no unsolved edge. *)
Definition s5_init : oc_graph := Eval vm_compute in the (run_init codec5 fudge15).
Definition s5_a : oc_graph := Eval vm_compute in the (ingest [1; 0] s5_init).
Definition s5_b : oc_graph := Eval vm_compute in the (ingest [1; 1] s5_a).
Definition s5_c : oc_graph := Eval vm_compute in the (resolve s5_b).
Definition s5_d : oc_graph := Eval vm_compute in the (resolve s5_c).

(** [codec1]: a check block on message 1, and the state in which the
    resolver, having solved message 1 from it, starts the cascade. *)
Definition s1_init : oc_graph := Eval vm_compute in the (run_init codec1 fudge15).
Definition s1_one : oc_graph := Eval vm_compute in the (ingest [1; 1] s1_init).
Definition s1_solved : oc_graph :=
  Eval vm_compute in
    the ('(from, g) <- oc_shift_pending s1_one ;;
         '(_, g) <- propagation_rule g from ;;
         Some (set_unsolved_count g (unsolved_count g - 1))).

End Scenario.

(** ** Views of the graph *)

(** The live cells [d1 .. dk] of a length-prefixed array. *)
Definition entries (arr : list Z) : list Z :=
  firstn (Z.to_nat (hd 0 arr)) (tl arr).

(** The count in cell 0 fits the allocation. *)
Definition wf_arr (arr : list Z) : Prop :=
  0 <= hd 0 arr < Z.of_nat (length arr).

(** The v-edge array of upper node [u], if the slot holds one. *)
Definition v_slot (g : oc_graph) (u : Z) : option (list Z) :=
  match zget (v_edges g) (u - mblocks g) with
  | Some slot => slot
  | None => None
  end.

Definition xor_slot (g : oc_graph) (n : Z) : option (list Z) :=
  match zget (xor_list g) n with
  | Some slot => slot
  | None => None
  end.

(** The cells of the n-edge list of lower node [l]. *)
Definition n_cells (g : oc_graph) (l : Z) : list Z :=
  match zget (n_edges g) l with
  | Some cells => cells
  | None => []
  end.

(** [u] has a down-edge to [l]. *)
Definition vedge (g : oc_graph) (u l : Z) : Prop :=
  exists arr, v_slot g u = Some arr /\ In l (entries arr).

Definition is_solved (sv : list bool) (d : Z) : bool :=
  match zget sv d with
  | Some b => b
  | None => false
  end.

Definition unsolved_in (sv : list bool) (ds : list Z) : list Z :=
  filter (fun d => negb (is_solved sv d)) ds.

Definition solved_in (sv : list bool) (ds : list Z) : list Z :=
  filter (fun d => is_solved sv d) ds.

(** The number of entries [d] of [ds] with [solved[d] == false]. *)
Definition count_unsolved (sv : list bool) (ds : list Z) : Z :=
  Z.of_nat (length (unsolved_in sv ds)).

(** The edge count of upper node [u]. *)
Definition edge_count_of (g : oc_graph) (u : Z) : option Z :=
  zget (edge_count g) (u - mblocks g).

(** Cell [i] of the entries takes the value of the last cell and the
    list loses its last cell. *)
Definition swap_shrink (E : list Z) (i : nat) : list Z :=
  firstn (length E - 1) (upd E i (last E 0)).

(** The up-edges of [node] to the lower nodes [ls], deleted in order. *)
Fixpoint delete_list (g : oc_graph) (node : Z) (ls : list Z) : option oc_graph :=
  match ls with
  | [] => Some g
  | l :: rest =>
      g' <- oc_delete_n_edge g node l false ;;
      delete_list g' node rest
  end.

(** The effect of a cascade over [cells] on the counter in slot [i]. *)
Definition dec_if (cells : list Z) (m : Z) (i : Z) (c : Z) : Z :=
  if in_dec Z.eq_dec (i + m) cells then c - 1 else c.

(** The graph after a cascade from [node] that left the edge counts [ec]. *)
Definition cascaded (g : oc_graph) (node : Z) (ec : list Z) : oc_graph :=
  set_pending (set_edge_count g ec)
    (pending g ++
     filter (fun u => match zget (edge_count g) (u - mblocks g) with
                      | Some c => c - 1 <? 2
                      | None => false
                      end) (n_cells g node)).

(** The upper nodes that a cascade over [cells] pushes, from the edge
    counts [count] before it: the cell at position [i] pushes its node
    when the count of the node, less the number of cells up to and
    including [i] that hold the node, is below 2. *)
Definition cascade_pushes (count : Z -> option Z) (cells : list Z) : list Z :=
  map fst
    (filter (fun ui =>
               match count (fst ui) with
               | Some c =>
                   c - Z.of_nat (count_occ Z.eq_dec (firstn (S (snd ui)) cells) (fst ui))
                     <? 2
               | None => false
               end)
       (combine cells (seq 0 (length cells)))).

(** The graph after a successful ingest, from the arrays it installs. *)
Definition ingested (g : oc_graph) ne xl ve ec : oc_graph :=
  oc_push_pending
    (set_edge_count
       (set_v_edges
          (set_xor_list (set_n_edges (set_nodes g (nodes g + 1)) ne) xl) ve) ec)
    (nodes g).

(** [g] with its six arrays replaced. *)
Definition with_arrays (g : oc_graph) ve ne ec sv xl : oc_graph :=
  mk_graph (mblocks g) (ablocks g) (coblocks g) (nodes g) (node_space g)
    (unsolved_count g) (done g) ve ne ec sv xl (pending g).

(** ** Invariants *)

(** Invariant 2 of the specification: v-edges and n-edges are
    reciprocal, one cell per edge. *)
Definition reciprocal (g : oc_graph) : Prop :=
  (forall u arr l, v_slot g u = Some arr -> In l (entries arr) ->
     count_occ Z.eq_dec (n_cells g l) u = 1%nat) /\
  (forall l u, In u (n_cells g l) -> vedge g u l).

(** Invariant 1 of the specification, counting against the solved flags
    [sv]. *)
Definition counts_ok (sv : list bool) (g : oc_graph) : Prop :=
  forall u arr, v_slot g u = Some arr ->
    edge_count_of g u = Some (count_unsolved sv (entries arr)).

(** The shape of a recipe held by node [n]. *)
Definition recipe_ok (g : oc_graph) (n : Z) (r : list Z) : Prop :=
  wf_arr r /\ n < nodes g /\
  Forall (fun e => coblocks g <= e \/ is_solved (solved g) e = true) (entries r) /\
  (n < coblocks g -> ~ In n (entries r)) /\
  (coblocks g <= n -> hd_error (entries r) = Some n).

Record graph_str (g : oc_graph) : Prop := {
  str_mblocks : 1 <= mblocks g;
  str_ablocks : 1 <= ablocks g;
  str_coblocks : coblocks g = mblocks g + ablocks g;
  str_nodes : coblocks g <= nodes g;
  str_space : coblocks g <= node_space g;
  str_len_v : Z.of_nat (length (v_edges g)) = node_space g - mblocks g;
  str_len_n : Z.of_nat (length (n_edges g)) = coblocks g;
  str_len_ec : Z.of_nat (length (edge_count g)) = node_space g - mblocks g;
  str_len_solved : Z.of_nat (length (solved g)) = coblocks g;
  str_len_xor : Z.of_nat (length (xor_list g)) = node_space g;
  str_varr : forall u arr, v_slot g u = Some arr ->
      wf_arr arr /\ u < nodes g /\ NoDup (entries arr) /\
      Forall (fun d => 0 <= d < coblocks g /\ d < u) (entries arr);
  str_vnull : forall i, zget (v_edges g) i = Some None ->
      zget (edge_count g) i = Some 0;
  str_nodup : forall l, NoDup (n_cells g l);
  str_recip : forall u l, In u (n_cells g l) <-> vedge g u l;
  str_aux_live : forall a, mblocks g <= a < coblocks g ->
      is_solved (solved g) a = false -> v_slot g a <> None;
  str_xor_solved : forall n, 0 <= n < coblocks g ->
      (is_solved (solved g) n = true <-> xor_slot g n <> None);
  str_xor_check : forall c, coblocks g <= c < nodes g -> c < node_space g ->
      xor_slot g c <> None;
  str_xor_ok : forall n r, xor_slot g n = Some r -> recipe_ok g n r;
  str_pending : Forall (fun u => mblocks g <= u < nodes g /\ u < node_space g)
                  (pending g);
  str_done : done g = true -> unsolved_count g = 0
}.

(** The invariant at the boundary of the public calls; the edge counts
    are exact as long as the graph is not done. *)
Definition graph_inv (g : oc_graph) : Prop :=
  graph_str g /\ (done g = false -> counts_ok (solved g) g).

(** Every recipe of [g] is still the recipe of its node in [g']. *)
Definition recipes_kept (g g' : oc_graph) : Prop :=
  forall n r, xor_slot g n = Some r -> xor_slot g' n = Some r.

(** ** The sizing formula of the specification *)

(** The rational value of a finite floating-point number. *)
Definition sf_value (x : spec_float) : QArith_base.Q :=
  match x with
  | S754_finite s m ex =>
      QArith_base.Qmult (QArith_base.inject_Z (cond_Zopp s (Z.pos m)))
        (QArith_base.Qpower (QArith_base.inject_Z 2) ex)
  | _ => QArith_base.inject_Z 0
  end.

(** [ceiling (fudge * (1 + q * e) * mblocks)] in exact arithmetic. *)
Definition ceiling_check_space (codec : Codec.oc_codec) (fudge : spec_float) : Z :=
  Qround.Qceiling
    (QArith_base.Qmult
       (QArith_base.Qmult (sf_value fudge)
          (QArith_base.Qplus (QArith_base.inject_Z 1)
             (QArith_base.Qmult (QArith_base.inject_Z (Codec.q codec))
                (sf_value (Codec.e codec)))))
       (QArith_base.inject_Z (Codec.mblocks codec))).

(** ** Inputs and reachable states *)

Fixpoint nodupb (l : list Z) : bool :=
  match l with
  | [] => true
  | x :: t => negb (existsb (Z.eqb x) t) && nodupb t
  end.

(** Row [msg] of the auxiliary map: the [q] auxiliary nodes of a message. *)
Definition aux_row (amap : list Z) (q : Z) (msg : nat) : list Z :=
  firstn (Z.to_nat q) (skipn (msg * Z.to_nat q) amap).

(** The cells of the auxiliary map in the order of the two loops, each
    with its message: [(aux, msg)]. *)
Definition row_pairs (amap : list Z) (q : Z) (m : nat) : list (Z * Z) :=
  map (fun a => (a, Z.of_nat m)) (aux_row amap q m).

Definition map_pairs (amap : list Z) (q : Z) (start n : nat) : list (Z * Z) :=
  flat_map (row_pairs amap q) (seq start n).

(** A loop body run over the pairs in order. *)
Fixpoint fold_pairs (body : oc_graph -> Z -> Z -> option oc_graph)
  (g : oc_graph) (ps : list (Z * Z)) : option oc_graph :=
  match ps with
  | [] => Some g
  | (a, m) :: rest => g' <- body g a m ;; fold_pairs body g' rest
  end.

(** The auxiliary nodes that the pairs give message [l], and the messages
    that they give auxiliary slot [a], both in map order. *)
Definition uppers_of (l : Z) (ps : list (Z * Z)) : list Z :=
  map fst (filter (fun p => snd p =? l) ps).

Definition members (mb a : Z) (ps : list (Z * Z)) : list Z :=
  map snd (filter (fun p => fst p =? mb + a) ps).

(** The down-edge array of an auxiliary node after the 2nd stage, from
    its doubled counter [c]. *)
Definition blank_array (c : Z) : list Z :=
  Z.shiftr c 1 :: repeat 0 (Z.to_nat (Z.shiftr c 1)).

(** The down-edge array of an auxiliary node with [n] messages in the
    3rd stage, the messages [stored] written so far. *)
Definition partial_array (n : nat) (stored : list Z) : list Z :=
  Z.of_nat n :: repeat 0 (n - length stored) ++ rev stored.

(** The auxiliary slots while the 3rd stage has handled the pairs [pre]
    of [all]. *)
Definition stage3_state (mb ab : Z) (all pre : list (Z * Z)) (g : oc_graph) : Prop :=
  forall i, 0 <= i < ab ->
    zget (v_edges g) i =
      Some (Some (partial_array (length (members mb i all)) (members mb i pre))) /\
    zget (edge_count g) i =
      Some (2 * Z.of_nat (length (members mb i all)) - Z.of_nat (length (members mb i pre))).

(** A codec as the specification describes it: [coblocks] is the sum of
    the two block counts and a message names each auxiliary node at most
    once. *)
Definition codec_ok (c : Codec.oc_codec) : bool :=
  (Codec.coblocks c =? Codec.mblocks c + Codec.ablocks c) &&
  match Codec.auxiliary c with
  | Some amap =>
      forallb (fun m => nodupb (aux_row amap (Codec.q c) m))
        (seq 0 (Z.to_nat (Codec.mblocks c)))
  | None => true
  end.

(** A check block as the specification describes it: [[k, d1 .. dk]], a
    set of lower-node indices. *)
Definition check_block_ok (g : oc_graph) (v : list Z) : bool :=
  (0 <=? hd 0 v) && (hd 0 v <? Z.of_nat (length v)) &&
  forallb (fun d => (0 <=? d) && (d <? coblocks g)) (entries v) &&
  nodupb (entries v).

Inductive reachable : oc_graph -> Prop :=
| reach_init codec fudge g :
    codec_ok codec = true ->
    oc_graph_init codec fudge = Some (InitOk g) ->
    reachable g
| reach_check g v r g' :
    reachable g ->
    check_block_ok g v = true ->
    oc_graph_check_block g v = Some (r, g') ->
    reachable g'
| reach_resolve g r sl g' :
    reachable g ->
    oc_graph_resolve g = Some (r, sl, g') ->
    reachable g'.

(** ** Message nodes and block values *)

(** The message nodes [0 .. mblocks - 1]. *)
Definition messages (g : oc_graph) : list Z :=
  map Z.of_nat (seq 0 (Z.to_nat (mblocks g))).

(** [unsolved_count] counts the message nodes whose solved flag is clear,
    and [done] is set with the last of them. *)
Definition count_inv (g : oc_graph) : Prop :=
  unsolved_count g = count_unsolved (solved g) (messages g) /\
  (unsolved_count g = 0 -> done g = true).

(** ** The outcome of a resolver call *)

(** A queued upper node that the resolver drops without firing a rule:
    more than one unsolved edge; no unsolved edge on a check node or a
    solved auxiliary node; or one unsolved edge on an unsolved auxiliary
    node. *)
Definition discardable (g : oc_graph) (u : Z) : Prop :=
  exists c, edge_count_of g u = Some c /\
    (1 < c \/
     (c = 0 /\ (coblocks g <= u \/ is_solved (solved g) u = true)) \/
     (c = 1 /\ u < coblocks g /\ is_solved (solved g) u = false)).

(** The parts of the graph that a resolver call keeps or only shrinks. *)
Record kept_frame (g g' : oc_graph) : Prop := {
  kf_mblocks : mblocks g' = mblocks g;
  kf_ablocks : ablocks g' = ablocks g;
  kf_coblocks : coblocks g' = coblocks g;
  kf_nodes : nodes g' = nodes g;
  kf_space : node_space g' = node_space g;
  kf_vslot : forall u arr, v_slot g' u = Some arr -> v_slot g u = Some arr
}.

(** The entries of the recipe that the propagation rule builds from the
    recipe [xarr] of the upper node and its v-edge array [arr], whose
    entry [i] is the node being solved. *)
Definition propagated (xarr arr : list Z) (i : nat) : list Z :=
  entries xarr ++ swap_shrink (entries arr) i.

(** What the loop of [oc_graph_resolve] does from a graph [g] that is not
    done: it drops queued nodes until one fires the auxiliary rule or the
    propagation rule, or the queue runs empty; the list is the solved
    list of the call. *)
Inductive resolve_outcome (g g' : oc_graph) : list Z -> Prop :=
| out_none :
    Forall (discardable g) (pending g) ->
    solved g' = solved g -> xor_list g' = xor_list g ->
    unsolved_count g' = unsolved_count g -> done g' = done g ->
    pending g' = [] ->
    resolve_outcome g g' []
| out_aux skipped from rest arr :
    pending g = skipped ++ from :: rest ->
    Forall (discardable g) skipped ->
    edge_count_of g from = Some 0 ->
    mblocks g <= from < coblocks g ->
    is_solved (solved g) from = false ->
    v_slot g from = Some arr ->
    zset (solved g) from true = Some (solved g') ->
    zset (xor_list g) from (Some arr) = Some (xor_list g') ->
    unsolved_count g' = unsolved_count g -> done g' = done g ->
    resolve_outcome g g' [from]
| out_prop skipped from rest arr E1 t E2 xarr :
    pending g = skipped ++ from :: rest ->
    Forall (discardable g) skipped ->
    edge_count_of g from = Some 1 ->
    (coblocks g <= from \/ is_solved (solved g) from = true) ->
    v_slot g from = Some arr ->
    entries arr = E1 ++ t :: E2 ->
    Forall (fun d => is_solved (solved g) d = true) (E1 ++ E2) ->
    is_solved (solved g) t = false ->
    0 <= t < coblocks g ->
    xor_slot g from = Some xarr ->
    zset (solved g) t true = Some (solved g') ->
    zset (xor_list g) t
      (Some (Z.of_nat (length (propagated xarr arr (length E1)))
             :: propagated xarr arr (length E1)))
      = Some (xor_list g') ->
    unsolved_count g' =
      (if t <? mblocks g then unsolved_count g - 1 else unsolved_count g) ->
    done g' = (t <? mblocks g) && (unsolved_count g - 1 =? 0) ->
    resolve_outcome g g' [t].

(** ** Codecs that the initialisation accepts *)

(** The block counts are positive, the lower nodes include the messages,
    twice the number of map cells is an [int], and the auxiliary map
    holds [mblocks * q] cells that name auxiliary nodes. *)
Definition codec_fits (c : Codec.oc_codec) : bool :=
  (1 <=? Codec.mblocks c) && (1 <=? Codec.ablocks c) &&
  (Codec.mblocks c <=? Codec.coblocks c) &&
  (2 * Z.of_nat (Z.to_nat (Codec.mblocks c) * Z.to_nat (Codec.q c)) <=? 2 ^ 31 - 1) &&
  match Codec.auxiliary c with
  | Some amap =>
      let cells := (Z.to_nat (Codec.mblocks c) * Z.to_nat (Codec.q c))%nat in
      (Z.of_nat cells <=? Z.of_nat (length amap)) &&
      forallb (fun a => (Codec.mblocks c <=? a) &&
                        (a <? Codec.mblocks c + Codec.ablocks c))
        (firstn cells amap)
  | None => false
  end.

(** ** Block values *)

(** A block is the integer of its bits, so that the XOR of two blocks is
    [Z.lxor]; [val n] is the content of node [n], and [xor_vals val l] the
    XOR of the contents of the nodes [l]. *)
Definition xor_vals (val : Z -> Z) (l : list Z) : Z :=
  fold_right (fun n acc => Z.lxor (val n) acc) 0 l.

(** The messages that the auxiliary map of the codec gives auxiliary
    slot [a], in map order. *)
Definition aux_members (c : Codec.oc_codec) (amap : list Z) (a : Z) : list Z :=
  members (Codec.mblocks c) a
    (map_pairs amap (Codec.q c) 0 (Z.to_nat (Codec.mblocks c))).

(** A decoding run over blocks with the contents [val]: every auxiliary
    block is the XOR of the messages mapped to it, and every check block
    handed to [oc_graph_check_block] is the XOR of the blocks it lists. *)
Inductive decodes (val : Z -> Z) : oc_graph -> Prop :=
| decodes_init codec fudge amap g :
    codec_ok codec = true ->
    Codec.auxiliary codec = Some amap ->
    (forall a, 0 <= a < Codec.ablocks codec ->
       val (Codec.mblocks codec + a) = xor_vals val (aux_members codec amap a)) ->
    oc_graph_init codec fudge = Some (InitOk g) ->
    decodes val g
| decodes_check g v r g' :
    decodes val g ->
    check_block_ok g v = true ->
    val (nodes g) = xor_vals val (entries v) ->
    oc_graph_check_block g v = Some (r, g') ->
    decodes val g'
| decodes_resolve g r sl g' :
    decodes val g ->
    oc_graph_resolve g = Some (r, sl, g') ->
    decodes val g'.

(** The recipes and the v-edge arrays agree with the block contents. *)
Definition sound (val : Z -> Z) (g : oc_graph) : Prop :=
  (forall n r, 0 <= n < coblocks g -> xor_slot g n = Some r ->
     val n = xor_vals val (entries r)) /\
  (forall a arr, mblocks g <= a < coblocks g -> v_slot g a = Some arr ->
     val a = xor_vals val (entries arr)) /\
  (forall c arr r, coblocks g <= c -> v_slot g c = Some arr ->
     xor_slot g c = Some r ->
     xor_vals val (entries r) = xor_vals val (entries arr)).

(** ** The pool of [oc_uni_block] cells *)

(** The functions [hold_blocks], [alloc_block], [free_block] and
    [release_blocks] keep freed cells in a circular list.  The cells live
    in a heap: the address of a cell is its index, the cell is [Some b]
    while it is allocated and [None] once it is given back to [free], and
    a pointer is an [option Z] with [None] for [NULL].  [malloc] returns
    a new address; the content of the new cell is not defined by C and is
    the parameter [junk] of the functions that allocate. *)

Module Pool.

(** An [oc_uni_block]: the union [a] read as [next], the union [b] read
    as [value]. *)
Record oc_uni_block := mk_block {
  a_next : option Z;
  b_value : Z
}.

Record pool := mk_pool {
  heap : list (option oc_uni_block);
  free_head : option Z;
  free_tail : option Z;
  null_ring : option Z
}.

Definition set_heap p x := mk_pool x (free_head p) (free_tail p) (null_ring p).
Definition set_free_head p x := mk_pool (heap p) x (free_tail p) (null_ring p).
Definition set_free_tail p x := mk_pool (heap p) (free_head p) x (null_ring p).
Definition set_null_ring p x := mk_pool (heap p) (free_head p) (free_tail p) x.

(** The state before the first [hold_blocks]: the three statics are
    [NULL]. *)
Definition empty_pool : pool := mk_pool [] None None None.

Definition ptr_eqb (x y : option Z) : bool :=
  match x, y with
  | None, None => true
  | Some a, Some b => a =? b
  | _, _ => false
  end.

(** [*ptr]: [None] for [NULL] and for a cell that is not allocated. *)
Definition load (p : pool) (ptr : option Z) : option oc_uni_block :=
  a <- ptr ;; c <- zget (heap p) a ;; c.

Definition store (p : pool) (ptr : option Z) (b : oc_uni_block) : option pool :=
  a <- ptr ;;
  load p ptr ;;;
  h <- zset (heap p) a (Some b) ;;
  Some (set_heap p h).

(** [ptr->a.next = nx]. *)
Definition set_next (p : pool) (ptr nx : option Z) : option pool :=
  b <- load p ptr ;; store p ptr (mk_block nx (b_value b)).

Definition malloc (junk : oc_uni_block) (p : pool) : Z * pool :=
  (Z.of_nat (length (heap p)), set_heap p (heap p ++ [Some junk])).

(** [free(ptr)]: nothing for [NULL]; a cell is freed once. *)
Definition free (p : pool) (ptr : option Z) : option pool :=
  match ptr with
  | None => Some p
  | Some a =>
      load p ptr ;;;
      h <- zset (heap p) a None ;;
      Some (set_heap p h)
  end.

Definition hold_blocks (junk : oc_uni_block) (p : pool) : option (option Z * pool) :=
  let '(a, p) := malloc junk p in
  let p := set_free_tail p (Some a) in
  p <- set_next p (free_tail p) (free_tail p) ;;
  let p := set_null_ring p (free_tail p) in
  let p := set_free_head p (null_ring p) in
  Some (free_head p, p).

Definition alloc_block (junk : oc_uni_block) (p : pool) : option (option Z * pool) :=
  if ptr_eqb (free_head p) (free_tail p) then
    let '(a, p) := malloc junk p in Some (Some a, p)
  else
    let ptr := free_head p in
    b <- load p (free_head p) ;;
    let p := set_free_head p (a_next b) in
    p <- set_next p (free_tail p) (free_head p) ;;
    Some (ptr, p).

Definition free_block (p : pool) (ptr : option Z) : option pool :=
  p <- set_next p ptr (free_head p) ;;
  p <- set_next p (free_tail p) ptr ;;
  Some (set_free_tail p ptr).

(** The [do .. while (free_head != NULL)] loop of [release_blocks]; every
    round frees one allocated cell, so [length (heap p)] rounds of fuel
    are never used up. *)
Fixpoint release_loop (fuel : nat) (p : pool) : option pool :=
  match fuel with
  | O => None
  | S fuel' =>
      let ptr := free_head p in
      b <- load p ptr ;;
      let p := set_free_head p (a_next b) in
      p <- free p ptr ;;
      match free_head p with
      | None => Some p
      | Some _ => release_loop fuel' p
      end
  end.

Definition release_blocks (p : pool) : option pool :=
  p <- set_next p (free_tail p) None ;;
  p <- release_loop (length (heap p)) p ;;
  let p := set_null_ring p (free_head p) in
  Some (set_free_tail p (null_ring p)).

(** The cells [cells] are allocated and linked in this order, the last
    one to [stop]. *)
Fixpoint chain (h : list (option oc_uni_block)) (cells : list Z) (stop : option Z)
  : Prop :=
  match cells with
  | [] => True
  | a :: rest =>
      (exists b, zget h a = Some (Some b) /\
                 a_next b = match rest with [] => stop | a' :: _ => Some a' end) /\
      chain h rest stop
  end.

(** The free ring holds the cells [cells], [free_head] first and
    [free_tail] last, the last linked back to the first. *)
Definition ring (p : pool) (cells : list Z) : Prop :=
  match cells with
  | [] => False
  | a :: _ =>
      NoDup cells /\ free_head p = Some a /\ free_tail p = Some (last cells a) /\
      null_ring p <> None /\ chain (heap p) cells (Some a)
  end.

End Pool.

(** ** The linked lists, cell by cell *)

(** The graph functions that link and unlink [oc_uni_block] cells, read
    at the level of the cells: the pending queue with its [phead] and
    [ptail], the solved list of a resolver call, and the n-edge lists
    whose heads are the pointers [n_edges[lower]].  The lists of the
    graph model above are the value lists that these cells carry. *)

Module Linked.
Import Pool.

(** [ptr->b.value = v]. *)
Definition set_value (p : pool) (ptr : option Z) (v : Z) : option pool :=
  b <- load p ptr ;; store p ptr (mk_block (a_next b) v).

(** A head and a tail pointer: [phead] and [ptail] of the graph, or
    [solved_head] and [solved_tail] of [oc_graph_resolve]. *)
Record queue := mk_queue {
  phead : option Z;
  ptail : option Z
}.

Definition oc_push_pending (junk : oc_uni_block) (p : pool) (q : queue) (value : Z)
  : option (option Z * pool * queue) :=
  '(ptr, p) <- alloc_block junk p ;;
  p <- set_next p ptr None ;;
  p <- set_value p ptr value ;;
  match ptail q with
  | Some _ =>
      p <- set_next p (ptail q) ptr ;;
      Some (ptr, p, mk_queue (phead q) ptr)
  | None => Some (ptr, p, mk_queue ptr ptr)
  end.

Definition oc_shift_pending (p : pool) (q : queue) : option (option Z * queue) :=
  let node := phead q in
  c_assert (negb (ptr_eqb node None)) ;;;
  b <- load p node ;;
  match a_next b with
  | None => Some (node, mk_queue None None)
  | Some _ => Some (node, mk_queue (a_next b) (ptail q))
  end.

(** The loop of [oc_flush_pending]; every round frees one allocated
    cell, so [length (heap p)] rounds of fuel are never used up. *)
Fixpoint flush_loop (fuel : nat) (p : pool) (head : option Z) : option pool :=
  match head with
  | None => Some p
  | Some _ =>
      match fuel with
      | O => None
      | S fuel' =>
          b <- load p head ;;
          p <- free p head ;;
          flush_loop fuel' p (a_next b)
      end
  end.

Definition oc_flush_pending (p : pool) (q : queue) : option (pool * queue) :=
  p <- flush_loop (length (heap p)) p (phead q) ;;
  Some (p, mk_queue None None).

Definition oc_push_solved (p : pool) (pnode : option Z) (q : queue)
  : option (pool * queue) :=
  p <- set_next p pnode None ;;
  match ptail q with
  | Some _ =>
      p <- set_next p (ptail q) pnode ;;
      Some (p, mk_queue (phead q) pnode)
  | None => Some (p, mk_queue pnode pnode)
  end.

Definition oc_create_n_edge (junk : oc_uni_block) (p : pool)
  (n_edges : list (option Z)) (upper lower : Z)
  : option (option Z * pool * list (option Z)) :=
  c_assert (upper >? lower) ;;;
  '(ptr, p) <- alloc_block junk p ;;
  head <- zget n_edges lower ;;
  p <- set_next p ptr head ;;
  p <- set_value p ptr upper ;;
  ne <- zset n_edges lower ptr ;;
  Some (ptr, p, ne).

(** The pointer [pp] of [oc_delete_n_edge]: the address of
    [n_edges[lower]] or of the [next] field of a cell. *)
Inductive place :=
| Slot (lower : Z)
| Next (cell : Z).

Definition read_place (p : pool) (n_edges : list (option Z)) (pp : place)
  : option (option Z) :=
  match pp with
  | Slot l => zget n_edges l
  | Next a => b <- load p (Some a) ;; Some (a_next b)
  end.

Definition write_place (p : pool) (n_edges : list (option Z)) (pp : place)
  (x : option Z) : option (pool * list (option Z)) :=
  match pp with
  | Slot l => ne <- zset n_edges l x ;; Some (p, ne)
  | Next a => p <- set_next p (Some a) x ;; Some (p, n_edges)
  end.

(** The walk of [oc_delete_n_edge]; it visits one allocated cell per
    round.  Reaching the end of the list is the failed [assert]. *)
Fixpoint delete_walk (fuel : nat) (p : pool) (n_edges : list (option Z))
  (pp : place) (upper : Z) : option (pool * list (option Z)) :=
  match fuel with
  | O => None
  | S fuel' =>
      cur <- read_place p n_edges pp ;;
      match cur with
      | None => None
      | Some a =>
          b <- load p cur ;;
          if b_value b =? upper then
            '(p, ne) <- write_place p n_edges pp (a_next b) ;;
            p <- free_block p cur ;;
            Some (p, ne)
          else delete_walk fuel' p n_edges (Next a) upper
      end
  end.

Definition oc_delete_n_edge (p : pool) (n_edges : list (option Z))
  (edge_count : list Z) (mblocks upper lower : Z) (decrement : bool)
  : option (pool * list (option Z) * list Z) :=
  c_assert (upper >? lower) ;;;
  c_assert (upper >=? mblocks) ;;;
  ec <- (if decrement then
           c <- zget edge_count (upper - mblocks) ;;
           c_assert (negb (c =? 0)) ;;;
           zset edge_count (upper - mblocks) (c - 1)
         else Some edge_count) ;;
  '(p, ne) <- delete_walk (S (length (heap p))) p n_edges (Slot lower) upper ;;
  Some (p, ne, ec).

(** The cells [cells], linked from [start] to [NULL] in this order,
    carry the values [vals]. *)
Fixpoint list_rep (h : list (option oc_uni_block)) (start : option Z)
  (cells vals : list Z) : Prop :=
  match cells, vals with
  | [], [] => start = None
  | a :: cs, v :: vs =>
      start = Some a /\
      exists nx, zget h a = Some (Some (mk_block nx v)) /\ list_rep h nx cs vs
  | _, _ => False
  end.

(** The same up to the pointer [stop] that leaves the last cell. *)
Fixpoint seg_rep (h : list (option oc_uni_block)) (start : option Z)
  (cells vals : list Z) (stop : option Z) : Prop :=
  match cells, vals with
  | [], [] => start = stop
  | a :: cs, v :: vs =>
      start = Some a /\
      exists nx, zget h a = Some (Some (mk_block nx v)) /\ seg_rep h nx cs vs stop
  | _, _ => False
  end.

(** The place that [pp] holds after the walk has passed the cells
    [pre] of the list of [lower]. *)
Definition place_after (lower : Z) (pre : list Z) : place :=
  match pre with
  | [] => Slot lower
  | _ :: _ => Next (last pre 0)
  end.

(** The queue [q] holds the values [vals] in the distinct cells [cells]:
    [phead] leads to them and [ptail] is the last, or both are [NULL]. *)
Definition queue_rep (p : pool) (q : queue) (cells vals : list Z) : Prop :=
  NoDup cells /\ list_rep (heap p) (phead q) cells vals /\
  ptail q = match cells with [] => None | a :: _ => Some (last cells a) end.

(** No cell of [l1] is a cell of [l2]. *)
Definition apart (l1 l2 : list Z) : Prop := forall x, In x l1 -> ~ In x l2.

End Linked.

(** ** More concrete runs *)

Module Runs.

(** [codec3] after the check block on message 0 and one resolver call:
    message 0 is solved and auxiliary node 2 is queued with one unsolved
    edge left. *)
Definition s3_two : oc_graph :=
  Eval vm_compute in Scenario.the (Scenario.resolve Scenario.s3_one).

(** The same after a second resolver call, which drops auxiliary node 2
    from the queue. *)
Definition s3_drained : oc_graph :=
  Eval vm_compute in Scenario.the (Scenario.resolve s3_two).

(** Contents for the blocks of [codec3]: messages 3 and 5, their
    auxiliary block 6, and check blocks that carry message 0. *)
Definition val3 (n : Z) : Z :=
  if n =? 0 then 3 else if n =? 1 then 5 else if n =? 2 then 6 else 3.

(** Pools: after [hold_blocks]; after one [alloc_block], which has to
    call [malloc]; after the block is given back with [free_block]. *)
Definition junk0 : Pool.oc_uni_block := Pool.mk_block None 0.

Definition the_pool (o : option Pool.pool) : Pool.pool :=
  match o with Some p => p | None => Pool.empty_pool end.

Definition pool_held : Pool.pool :=
  Eval vm_compute in the_pool (option_map snd (Pool.hold_blocks junk0 Pool.empty_pool)).
Definition pool_one_out : Pool.pool :=
  Eval vm_compute in the_pool (option_map snd (Pool.alloc_block junk0 pool_held)).
Definition pool_two : Pool.pool :=
  Eval vm_compute in the_pool (Pool.free_block pool_one_out (Some 1)).

(** A queue: empty, and after the value 7 is pushed on it from
    [pool_held]. *)
Definition queue_empty : Linked.queue := Linked.mk_queue None None.

Definition pool_q1 : Pool.pool :=
  Eval vm_compute in
    match Linked.oc_push_pending junk0 pool_held queue_empty 7 with
    | Some (_, p, _) => p
    | None => Pool.empty_pool
    end.
Definition queue_q1 : Linked.queue :=
  Eval vm_compute in
    match Linked.oc_push_pending junk0 pool_held queue_empty 7 with
    | Some (_, _, q) => q
    | None => queue_empty
    end.

(** Two lower nodes without up-edges, and the up-edge from node 5 to
    node 0 created from [pool_held]. *)
Definition ne_empty : list (option Z) := [None; None].

Definition pool_e1 : Pool.pool :=
  Eval vm_compute in
    match Linked.oc_create_n_edge junk0 pool_held ne_empty 5 0 with
    | Some (_, p, _) => p
    | None => Pool.empty_pool
    end.
Definition ne_e1 : list (option Z) :=
  Eval vm_compute in
    match Linked.oc_create_n_edge junk0 pool_held ne_empty 5 0 with
    | Some (_, _, ne) => ne
    | None => ne_empty
    end.

End Runs.

(** * Proofs *)

(** * Arrays *)

Section ArrayFacts.
Context {A : Type}.
Implicit Types (l : list A) (i j : Z) (x : A).

Lemma zget_Some_range l i x : zget l i = Some x -> 0 <= i < Z.of_nat (length l).
Proof.
  unfold zget. destruct (i <? 0) eqn:E; [discriminate|]. intros H.
  apply Z.ltb_ge in E. assert (Hn : (Z.to_nat i < length l)%nat).
  { apply nth_error_Some. congruence. }
  lia.
Qed.

Lemma zget_in_range l i : 0 <= i < Z.of_nat (length l) -> exists x, zget l i = Some x.
Proof.
  intros H. unfold zget. destruct (i <? 0) eqn:E; [apply Z.ltb_lt in E; lia|].
  destruct (nth_error l (Z.to_nat i)) eqn:Hn; [eauto|].
  apply nth_error_None in Hn. lia.
Qed.

Lemma zget_None l i : ~ (0 <= i < Z.of_nat (length l)) -> zget l i = None.
Proof.
  intros H. destruct (zget l i) eqn:E; [|reflexivity].
  apply zget_Some_range in E. contradiction.
Qed.

Lemma upd_length l n x : length (upd l n x) = length l.
Proof. revert n; induction l; destruct n; simpl; auto. Qed.

Lemma nth_error_upd l n m x :
  nth_error (upd l n x) m =
  if Nat.eqb m n then (if Nat.ltb n (length l) then Some x else None)
  else nth_error l m.
Proof.
  revert n m; induction l as [|h t IH]; intros n m; simpl.
  - destruct m, (Nat.eqb _ n); reflexivity.
  - destruct n, m; simpl; try reflexivity. rewrite IH.
    destruct (Nat.eqb m n); [|reflexivity].
    change (S n <? S (length t))%nat with (n <? length t)%nat. reflexivity.
Qed.

Lemma zset_Some l i x : 0 <= i < Z.of_nat (length l) -> exists l', zset l i x = Some l'.
Proof.
  intros H. unfold zset.
  replace (0 <=? i) with true by (symmetry; apply Z.leb_le; lia).
  replace (i <? Z.of_nat (length l)) with true by (symmetry; apply Z.ltb_lt; lia).
  simpl. eauto.
Qed.

Lemma zset_inv l i x l' :
  zset l i x = Some l' -> 0 <= i < Z.of_nat (length l) /\ l' = upd l (Z.to_nat i) x.
Proof.
  unfold zset. destruct (0 <=? i) eqn:E1; simpl; [|discriminate].
  destruct (i <? Z.of_nat (length l)) eqn:E2; [|discriminate].
  apply Z.leb_le in E1. apply Z.ltb_lt in E2. intros [= <-]. auto.
Qed.

Lemma zset_length l i x l' : zset l i x = Some l' -> length l' = length l.
Proof. intros H. apply zset_inv in H as [_ ->]. apply upd_length. Qed.

Lemma zget_zset l i x l' j :
  zset l i x = Some l' -> zget l' j = if j =? i then Some x else zget l j.
Proof.
  intros H. apply zset_inv in H as [Hr ->]. unfold zget.
  destruct (j =? i) eqn:E.
  - apply Z.eqb_eq in E. subst j.
    replace (i <? 0) with false by (symmetry; apply Z.ltb_ge; lia).
    rewrite nth_error_upd, Nat.eqb_refl.
    replace (Z.to_nat i <? length l)%nat with true; [reflexivity|].
    symmetry. apply Nat.ltb_lt. lia.
  - apply Z.eqb_neq in E. destruct (j <? 0) eqn:Ej; [reflexivity|].
    apply Z.ltb_ge in Ej. rewrite nth_error_upd.
    replace (Z.to_nat j =? Z.to_nat i)%nat with false; [reflexivity|].
    symmetry. apply Nat.eqb_neq. lia.
Qed.

Lemma zget_zset_same l i x l' : zset l i x = Some l' -> zget l' i = Some x.
Proof. intros H. rewrite (zget_zset _ _ _ _ i H), Z.eqb_refl. reflexivity. Qed.

Lemma zget_zset_other l i x l' j :
  zset l i x = Some l' -> j <> i -> zget l' j = zget l j.
Proof.
  intros H Hne. rewrite (zget_zset _ _ _ _ j H).
  destruct (j =? i) eqn:E; [apply Z.eqb_eq in E; contradiction|reflexivity].
Qed.

Lemma zget_app_l l1 l2 i :
  i < Z.of_nat (length l1) -> zget (l1 ++ l2) i = zget l1 i.
Proof.
  intros H. unfold zget. destruct (i <? 0) eqn:E; [reflexivity|].
  apply Z.ltb_ge in E. apply nth_error_app1. lia.
Qed.

Lemma zget_app_r l1 l2 i :
  Z.of_nat (length l1) <= i -> zget (l1 ++ l2) i = zget l2 (i - Z.of_nat (length l1)).
Proof.
  intros H. unfold zget.
  replace (i <? 0) with false by (symmetry; apply Z.ltb_ge; lia).
  replace (i - Z.of_nat (length l1) <? 0) with false by (symmetry; apply Z.ltb_ge; lia).
  rewrite nth_error_app2 by lia. f_equal. lia.
Qed.

Lemma zget_mid l1 x l2 : zget (l1 ++ x :: l2) (Z.of_nat (length l1)) = Some x.
Proof.
  rewrite zget_app_r by lia. rewrite Z.sub_diag. reflexivity.
Qed.

Lemma upd_app_mid l1 x l2 y : upd (l1 ++ x :: l2) (length l1) y = l1 ++ y :: l2.
Proof. induction l1; simpl; congruence. Qed.

Lemma zset_mid l1 x l2 y :
  zset (l1 ++ x :: l2) (Z.of_nat (length l1)) y = Some (l1 ++ y :: l2).
Proof.
  unfold zset. rewrite length_app. simpl.
  replace (0 <=? Z.of_nat (length l1)) with true by (symmetry; apply Z.leb_le; lia).
  replace (Z.of_nat (length l1) <? Z.of_nat (length l1 + S (length l2))) with true
    by (symmetry; apply Z.ltb_lt; lia).
  simpl. rewrite Nat2Z.id, upd_app_mid. reflexivity.
Qed.

Lemma zget_cons_succ x l i : 0 <= i -> zget (x :: l) (1 + i) = zget l i.
Proof.
  intros H. unfold zget.
  replace (1 + i <? 0) with false by (symmetry; apply Z.ltb_ge; lia).
  replace (i <? 0) with false by (symmetry; apply Z.ltb_ge; lia).
  replace (Z.to_nat (1 + i)) with (S (Z.to_nat i)) by lia. reflexivity.
Qed.

Lemma zget_repeat x n i : 0 <= i < Z.of_nat n -> zget (repeat x n) i = Some x.
Proof.
  intros H. unfold zget.
  replace (i <? 0) with false by (symmetry; apply Z.ltb_ge; lia).
  apply nth_error_repeat. lia.
Qed.

Lemma zget_ext l1 l2 :
  length l1 = length l2 -> (forall i, zget l1 i = zget l2 i) -> l1 = l2.
Proof.
  intros Hl H. apply nth_error_ext. intros n.
  specialize (H (Z.of_nat n)). unfold zget in H.
  replace (Z.of_nat n <? 0) with false in H by (symmetry; apply Z.ltb_ge; lia).
  rewrite Nat2Z.id in H. exact H.
Qed.

End ArrayFacts.

Lemma calloc_Some {A} (z : A) n : 0 <= n -> calloc z n = Some (repeat z (Z.to_nat n)).
Proof.
  intros H. unfold calloc.
  replace (n <? 0) with false by (symmetry; apply Z.ltb_ge; lia). reflexivity.
Qed.

Lemma calloc_inv {A} (z : A) n l : calloc z n = Some l -> 0 <= n /\ l = repeat z (Z.to_nat n).
Proof.
  unfold calloc. destruct (n <? 0) eqn:E; [discriminate|].
  apply Z.ltb_ge in E. intros [= <-]. auto.
Qed.

Lemma while_count_Some n : 0 <= n -> while_count n = Some (Z.to_nat n).
Proof.
  intros H. unfold while_count.
  replace (n <? 0) with false by (symmetry; apply Z.ltb_ge; lia). reflexivity.
Qed.

Lemma c_assert_true b : b = true -> c_assert b = Some tt.
Proof. intros ->. reflexivity. Qed.

Lemma c_assert_inv b u : c_assert b = Some u -> b = true.
Proof. destruct b; [reflexivity|discriminate]. Qed.

(** Boolean comparisons decided by linear arithmetic. *)
Ltac zcmp :=
  first [ apply Z.ltb_lt | apply Z.ltb_ge | apply Z.leb_le | apply Z.leb_gt
        | apply Z.eqb_eq | apply Z.eqb_neq
        | rewrite Z.geb_leb; first [apply Z.leb_le | apply Z.leb_gt]
        | rewrite Z.gtb_ltb; first [apply Z.ltb_lt | apply Z.ltb_ge] ];
  lia.

Ltac zbool b v := replace b with v by (symmetry; zcmp).

(** * Length-prefixed arrays *)

Lemma entries_packed (E stale : list Z) :
  entries (Z.of_nat (length E) :: E ++ stale) = E.
Proof.
  unfold entries. simpl. rewrite Nat2Z.id.
  rewrite firstn_app, Nat.sub_diag, firstn_all. simpl. apply app_nil_r.
Qed.

Lemma wf_arr_packed (E stale : list Z) :
  wf_arr (Z.of_nat (length E) :: E ++ stale).
Proof. unfold wf_arr. simpl. rewrite length_app. lia. Qed.

Lemma wf_arr_split arr :
  wf_arr arr ->
  exists stale, arr = Z.of_nat (length (entries arr)) :: entries arr ++ stale.
Proof.
  unfold wf_arr, entries. destruct arr as [|k rest]; simpl; [lia|].
  intros H. exists (skipn (Z.to_nat k) rest).
  rewrite firstn_skipn, length_firstn. f_equal. lia.
Qed.

Lemma entries_length arr : wf_arr arr -> Z.of_nat (length (entries arr)) = hd 0 arr.
Proof.
  intros H. destruct (wf_arr_split arr H) as [stale E].
  rewrite E at 2. reflexivity.
Qed.

Lemma zget_count arr : wf_arr arr -> zget arr 0 = Some (hd 0 arr).
Proof.
  unfold wf_arr. destruct arr; simpl; [lia|]. reflexivity.
Qed.

Lemma zget_entry (E stale : list Z) i :
  0 <= i < Z.of_nat (length E) ->
  zget (Z.of_nat (length E) :: E ++ stale) (1 + i) = nth_error E (Z.to_nat i).
Proof.
  intros H. rewrite zget_cons_succ by lia. rewrite zget_app_l by lia.
  unfold zget. replace (i <? 0) with false by (symmetry; apply Z.ltb_ge; lia).
  reflexivity.
Qed.

(** * Unlinking a cell *)

Lemma unlink_In u cells : In u cells -> exists c', unlink u cells = Some c'.
Proof.
  induction cells as [|v rest IH]; simpl; [tauto|].
  intros H. destruct (v =? u) eqn:E; [eauto|].
  apply Z.eqb_neq in E. destruct H as [H|H]; [contradiction|].
  destruct (IH H) as [c' ->]. eauto.
Qed.

Lemma unlink_perm u cells c' : unlink u cells = Some c' -> Permutation cells (u :: c').
Proof.
  revert c'; induction cells as [|v rest IH]; simpl; intros c'; [discriminate|].
  destruct (v =? u) eqn:E.
  - apply Z.eqb_eq in E. subst v. intros [= <-]. reflexivity.
  - destruct (unlink u rest) as [r'|]; [|discriminate]. intros [= <-].
    rewrite (IH r' eq_refl). apply perm_swap.
Qed.

Lemma unlink_spec u cells c' :
  NoDup cells -> unlink u cells = Some c' ->
  NoDup c' /\ forall x, In x c' <-> In x cells /\ x <> u.
Proof.
  intros Hnd H. apply unlink_perm in H.
  assert (Hnd' : NoDup (u :: c')) by (eapply Permutation_NoDup; eauto).
  inversion Hnd' as [|? ? Hnu Hc]; subst. split; [assumption|].
  intros x. split.
  - intros Hx. split.
    + eapply Permutation_in; [symmetry; exact H|right; exact Hx].
    + intros ->. contradiction.
  - intros [Hx Hne]. eapply Permutation_in in Hx; [|exact H].
    destruct Hx as [Hx|Hx]; [congruence|assumption].
Qed.

(** * Counting unsolved entries *)

Lemma nodupb_NoDup l : nodupb l = true -> NoDup l.
Proof.
  induction l as [|x t IH]; simpl; [constructor|].
  intros H. apply andb_prop in H as [H1 H2]. constructor; [|auto].
  intros Hin. apply negb_true_iff in H1.
  assert (existsb (Z.eqb x) t = true); [|congruence].
  apply existsb_exists. exists x. split; [assumption|apply Z.eqb_refl].
Qed.

Lemma filter_perm {A} (f : A -> bool) (l l' : list A) :
  Permutation l l' -> Permutation (filter f l) (filter f l').
Proof.
  induction 1 as [|x l l' H IH|x y l|l l' l'' H1 IH1 H2 IH2]; simpl.
  - constructor.
  - destruct (f x); auto.
  - destruct (f x), (f y); auto using perm_swap.
  - etransitivity; eauto.
Qed.

Lemma count_unsolved_perm sv E E' :
  Permutation E E' -> count_unsolved sv E = count_unsolved sv E'.
Proof.
  intros H. unfold count_unsolved, unsolved_in. f_equal.
  apply Permutation_length. apply filter_perm. exact H.
Qed.

Lemma count_unsolved_cons sv d E :
  count_unsolved sv (d :: E) =
  (if is_solved sv d then 0 else 1) + count_unsolved sv E.
Proof.
  unfold count_unsolved, unsolved_in. cbn [filter].
  destruct (is_solved sv d); cbn [negb length]; lia.
Qed.

Lemma count_unsolved_nonneg sv E : 0 <= count_unsolved sv E.
Proof. unfold count_unsolved. lia. Qed.

Lemma count_unsolved_In sv E d :
  In d E -> is_solved sv d = false -> 1 <= count_unsolved sv E.
Proof.
  intros Hin Hs. unfold count_unsolved.
  assert (In d (unsolved_in sv E)).
  { apply filter_In. split; [assumption|]. rewrite Hs. reflexivity. }
  destruct (unsolved_in sv E); [contradiction|]. simpl. lia.
Qed.

Lemma count_unsolved_zero sv E :
  count_unsolved sv E = 0 -> Forall (fun d => is_solved sv d = true) E.
Proof.
  intros H. apply Forall_forall. intros d Hd.
  destruct (is_solved sv d) eqn:Hs; [reflexivity|].
  pose proof (count_unsolved_In sv E d Hd Hs). lia.
Qed.

Lemma is_solved_mark sv t sv' d :
  zset sv t true = Some sv' ->
  is_solved sv' d = if d =? t then true else is_solved sv d.
Proof.
  intros H. unfold is_solved. rewrite (zget_zset _ _ _ _ d H).
  destruct (d =? t); reflexivity.
Qed.

Lemma count_unsolved_mark_notin sv t sv' E :
  zset sv t true = Some sv' -> ~ In t E ->
  count_unsolved sv' E = count_unsolved sv E.
Proof.
  intros H. induction E as [|d E IH]; intros Hn; [reflexivity|].
  rewrite !count_unsolved_cons, IH by (intros ?; apply Hn; right; assumption).
  rewrite (is_solved_mark _ _ _ d H).
  destruct (d =? t) eqn:Ed; [|reflexivity].
  apply Z.eqb_eq in Ed. subst d. exfalso. apply Hn. left. reflexivity.
Qed.

Lemma count_unsolved_mark_in sv t sv' E :
  zset sv t true = Some sv' -> is_solved sv t = false ->
  NoDup E -> In t E ->
  count_unsolved sv' E = count_unsolved sv E - 1.
Proof.
  intros H Hs Hnd Hin.
  apply in_split in Hin as (E1 & E2 & ->).
  assert (Hp : Permutation (E1 ++ t :: E2) (t :: E1 ++ E2))
    by (symmetry; apply Permutation_middle).
  rewrite !(count_unsolved_perm _ _ _ Hp), !count_unsolved_cons.
  rewrite (is_solved_mark _ _ _ t H), Z.eqb_refl, Hs.
  rewrite (count_unsolved_mark_notin sv t sv' (E1 ++ E2) H); [lia|].
  apply NoDup_remove_2 in Hnd. exact Hnd.
Qed.

(** With one unsolved entry left, every other entry is solved. *)
Lemma count_unsolved_one sv E t E' :
  Permutation (t :: E') E -> is_solved sv t = false ->
  count_unsolved sv E = 1 -> Forall (fun d => is_solved sv d = true) E'.
Proof.
  intros Hp Hs Hc. rewrite <- (count_unsolved_perm _ _ _ Hp) in Hc.
  rewrite count_unsolved_cons, Hs in Hc. apply count_unsolved_zero. lia.
Qed.

Lemma count_unsolved_all_solved sv E :
  Forall (fun d => is_solved sv d = true) E -> count_unsolved sv E = 0.
Proof.
  induction 1 as [|d E Hd _ IH]; [reflexivity|].
  rewrite count_unsolved_cons, Hd, IH. reflexivity.
Qed.

(** * Up-edges *)

Lemma n_cells_set g ne l0 c l :
  zset (n_edges g) l0 c = Some ne ->
  n_cells (set_n_edges g ne) l = if l =? l0 then c else n_cells g l.
Proof.
  intros H. unfold n_cells. simpl. rewrite (zget_zset _ _ _ _ l H).
  destruct (l =? l0); reflexivity.
Qed.

Lemma n_cells_In_range g l x : In x (n_cells g l) -> 0 <= l < Z.of_nat (length (n_edges g)).
Proof.
  unfold n_cells. destruct (zget (n_edges g) l) eqn:E; [|contradiction].
  intros _. eapply zget_Some_range; eauto.
Qed.

Lemma n_cells_get g l :
  0 <= l < Z.of_nat (length (n_edges g)) -> zget (n_edges g) l = Some (n_cells g l).
Proof.
  intros H. unfold n_cells. destruct (zget_in_range _ _ H) as [c ->]. reflexivity.
Qed.

Lemma create_n_edge_ok g upper lower :
  upper > lower -> 0 <= lower < Z.of_nat (length (n_edges g)) ->
  exists ne, oc_create_n_edge g upper lower = Some (set_n_edges g ne) /\
    zset (n_edges g) lower (upper :: n_cells g lower) = Some ne.
Proof.
  intros Hu Hl. unfold oc_create_n_edge.
  rewrite c_assert_true by (apply Z.gtb_lt; lia).
  rewrite (n_cells_get g lower Hl).
  destruct (zset_Some (n_edges g) lower (upper :: n_cells g lower) Hl) as [ne Hne].
  rewrite Hne. eauto.
Qed.

Lemma delete_n_edge_ok g upper lower :
  upper > lower -> upper >= mblocks g -> In upper (n_cells g lower) ->
  exists ne c', oc_delete_n_edge g upper lower false = Some (set_n_edges g ne) /\
    unlink upper (n_cells g lower) = Some c' /\
    zset (n_edges g) lower c' = Some ne.
Proof.
  intros Hu Hm Hin. unfold oc_delete_n_edge.
  rewrite c_assert_true by (apply Z.gtb_lt; lia).
  rewrite c_assert_true by (apply Z.geb_le; lia).
  pose proof (n_cells_In_range _ _ _ Hin) as Hr.
  rewrite (n_cells_get g lower Hr).
  destruct (unlink_In _ _ Hin) as [c' Hc]. rewrite Hc.
  destruct (zset_Some (n_edges g) lower c' Hr) as [ne Hne].
  rewrite Hne. eauto.
Qed.

Lemma delete_list_ok ls : forall g node,
  NoDup ls -> node >= mblocks g ->
  (forall l, In l ls -> node > l /\ In node (n_cells g l)) ->
  (forall l, NoDup (n_cells g l)) ->
  exists ne, delete_list g node ls = Some (set_n_edges g ne) /\
    length ne = length (n_edges g) /\
    (forall l, NoDup (n_cells (set_n_edges g ne) l)) /\
    (forall l x, In x (n_cells (set_n_edges g ne) l) <->
                 In x (n_cells g l) /\ ~ (In l ls /\ x = node)).
Proof.
  induction ls as [|l0 rest IH]; intros g node Hnd Hm Hpre Hcells.
  - exists (n_edges g). simpl. destruct g; simpl. repeat split; auto; tauto.
  - inversion Hnd as [|? ? Hnotin Hnd']; subst.
    destruct (Hpre l0 (or_introl eq_refl)) as [Hgt Hin].
    destruct (delete_n_edge_ok g node l0 Hgt Hm Hin) as (ne1 & c' & Hdel & Hun & Hset).
    pose proof (unlink_spec _ _ _ (Hcells l0) Hun) as [Hc'nd Hc'in].
    set (g1 := set_n_edges g ne1).
    assert (Hcells1 : forall l, n_cells g1 l = if l =? l0 then c' else n_cells g l)
      by (intros l; apply n_cells_set; assumption).
    destruct (IH g1 node Hnd' Hm) as (ne & Hdl & Hlen & Hnd2 & Hin2).
    + intros l Hl. destruct (Hpre l (or_intror Hl)) as [? ?]. split; [assumption|].
      rewrite Hcells1. destruct (l =? l0) eqn:E; [|assumption].
      apply Z.eqb_eq in E. subst l. contradiction.
    + intros l. rewrite Hcells1. destruct (l =? l0); auto.
    + exists ne. simpl. rewrite Hdel. fold g1. rewrite Hdl.
      split; [reflexivity|]. split.
      { rewrite Hlen. simpl. eapply zset_length; eauto. }
      split; [exact Hnd2|].
      intros l x. change (set_n_edges g ne) with (set_n_edges g1 ne).
      rewrite Hin2, Hcells1. destruct (l =? l0) eqn:E.
      * apply Z.eqb_eq in E. subst l. rewrite Hc'in. simpl. intuition.
      * apply Z.eqb_neq in E. simpl. intuition.
Qed.

(** The two deletion loops walk the live cells of the array. *)
Lemma aux_rule_loop_list (E stale : list Z) k0 : forall (pre : list Z) g node,
  aux_rule_loop (length E) g node (k0 :: pre ++ E ++ stale) (1 + Z.of_nat (length pre))
  = delete_list g node E.
Proof.
  induction E as [|l rest IH]; intros pre g node; [reflexivity|].
  simpl length. cbn [aux_rule_loop delete_list app].
  rewrite zget_cons_succ by lia. rewrite zget_mid.
  destruct (oc_delete_n_edge g node l false) as [g'|]; [|reflexivity].
  specialize (IH (pre ++ [l]) g' node).
  rewrite <- app_assoc in IH. simpl in IH. rewrite length_app in IH. simpl in IH.
  replace (1 + Z.of_nat (length pre) + 1) with (1 + Z.of_nat (length pre + 1)) by lia.
  exact IH.
Qed.

Lemma decommission_loop_list (E : list Z) : forall (stale : list Z) k0 g node,
  decommission_loop (length E) g node (k0 :: E ++ stale) = delete_list g node (rev E).
Proof.
  induction E as [|l rest IH] using rev_ind; intros stale k0 g node; [reflexivity|].
  rewrite rev_app_distr. simpl rev. rewrite length_app. simpl length.
  rewrite Nat.add_1_r. cbn [decommission_loop app delete_list].
  replace (Z.of_nat (S (length rest))) with (1 + Z.of_nat (length rest)) by lia.
  rewrite zget_cons_succ by lia. rewrite <- app_assoc. cbn [app].
  rewrite zget_mid.
  destruct (oc_delete_n_edge g node l false) as [g'|]; [|reflexivity].
  apply IH.
Qed.

(** * Cascade *)

Lemma cascade_loop_ok cells : forall g node,
  NoDup cells ->
  (forall u, In u cells -> u <> node /\
     exists c, zget (edge_count g) (u - mblocks g) = Some c /\ c <> 0) ->
  exists ec,
    cascade_loop cells g node =
      Some (set_pending (set_edge_count g ec)
              (pending g ++
               filter (fun u => match zget (edge_count g) (u - mblocks g) with
                                | Some c => c - 1 <? 2
                                | None => false
                                end) cells)) /\
    length ec = length (edge_count g) /\
    (forall i, zget ec i =
       option_map (dec_if cells (mblocks g) i) (zget (edge_count g) i)).
Proof.
  induction cells as [|u rest IH]; intros g node Hnd Hpre.
  - exists (edge_count g). simpl. rewrite app_nil_r. split; [|split].
    + destruct g; reflexivity.
    + reflexivity.
    + intros i. unfold dec_if. simpl. destruct (zget (edge_count g) i); reflexivity.
  - inversion Hnd as [|? ? Hnotin Hnd']; subst.
    destruct (Hpre u (or_introl eq_refl)) as [Hne (c & Hc & Hc0)].
    cbn [cascade_loop].
    rewrite c_assert_true by (apply negb_true_iff; apply Z.eqb_neq; assumption).
    rewrite Hc.
    rewrite c_assert_true by (apply negb_true_iff; apply Z.eqb_neq; assumption).
    destruct (zset_Some (edge_count g) (u - mblocks g) (c - 1)
                (zget_Some_range _ _ _ Hc)) as [ec1 Hec1].
    rewrite Hec1.
    set (g1 := set_edge_count g ec1).
    set (g2 := if c - 1 <? 2 then oc_push_pending g1 u else g1).
    assert (Hg2ec : edge_count g2 = ec1) by (unfold g2; destruct (c - 1 <? 2); reflexivity).
    assert (Hg2m : mblocks g2 = mblocks g) by (unfold g2; destruct (c - 1 <? 2); reflexivity).
    destruct (IH g2 node Hnd') as (ec & Hrun & Hlen & Hget).
    { intros u' Hu'. destruct (Hpre u' (or_intror Hu')) as [? (c' & Hc' & ?)].
      split; [assumption|]. exists c'. split; [|assumption].
      rewrite Hg2ec, Hg2m. rewrite (zget_zset_other _ _ _ _ _ Hec1); [assumption|].
      intros Heq. assert (u' = u) by lia. subst u'. contradiction. }
    exists ec. split; [|split].
    + rewrite Hrun. f_equal.
      assert (Hfilter :
        filter (fun u0 => match zget (edge_count g2) (u0 - mblocks g2) with
                          | Some c0 => c0 - 1 <? 2 | None => false end) rest =
        filter (fun u0 => match zget (edge_count g) (u0 - mblocks g) with
                          | Some c0 => c0 - 1 <? 2 | None => false end) rest).
      { apply filter_ext_in. intros u' Hu'. rewrite Hg2ec, Hg2m.
        rewrite (zget_zset_other _ _ _ _ _ Hec1); [reflexivity|].
        intros Heq. assert (u' = u) by lia. subst u'. contradiction. }
      rewrite Hfilter. cbn [filter]. rewrite Hc.
      unfold g2, g1. destruct (c - 1 <? 2); destruct g; simpl;
        rewrite <- ?app_assoc; reflexivity.
    + rewrite Hlen, Hg2ec. eapply zset_length; eauto.
    + intros i. rewrite Hget, Hg2ec, Hg2m. rewrite (zget_zset _ _ _ _ i Hec1).
      unfold dec_if. destruct (i =? u - mblocks g) eqn:E.
      * apply Z.eqb_eq in E. subst i. rewrite Hc. cbn [option_map].
        replace (u - mblocks g + mblocks g) with u by lia.
        destruct (in_dec Z.eq_dec u rest); [contradiction|].
        destruct (in_dec Z.eq_dec u (u :: rest)) as [_|Hn]; [reflexivity|].
        exfalso. apply Hn. left. reflexivity.
      * apply Z.eqb_neq in E. destruct (zget (edge_count g) i); [|reflexivity].
        cbn [option_map]. f_equal.
        destruct (in_dec Z.eq_dec (i + mblocks g) rest) as [H1|H1];
          destruct (in_dec Z.eq_dec (i + mblocks g) (u :: rest)) as [H2|H2];
          try reflexivity.
        -- exfalso. apply H2. right. assumption.
        -- exfalso. destruct H2 as [H2|H2]; [lia|contradiction].
Qed.

(** * Copying cells and merging recipes *)

Lemma copy_cells_ok (mid : list Z) : forall (s1 s2 d1 old d2 : list Z),
  length old = length mid ->
  copy_cells (length mid) (s1 ++ mid ++ s2) (Z.of_nat (length s1))
    (d1 ++ old ++ d2) (Z.of_nat (length d1)) = Some (d1 ++ mid ++ d2).
Proof.
  induction mid as [|m mid IH]; intros s1 s2 d1 old d2 Hlen.
  - destruct old; [reflexivity|discriminate].
  - destruct old as [|o old]; [discriminate|]. injection Hlen as Hlen.
    cbn [length copy_cells app]. rewrite zget_mid, zset_mid.
    specialize (IH (s1 ++ [m]) s2 (d1 ++ [m]) old d2 Hlen).
    rewrite <- !app_assoc in IH. cbn [app] in IH.
    rewrite !length_app in IH. cbn [length] in IH.
    replace (Z.of_nat (length s1) + 1) with (Z.of_nat (length s1 + 1)) by lia.
    replace (Z.of_nat (length d1) + 1) with (Z.of_nat (length d1 + 1)) by lia.
    exact IH.
Qed.

Lemma propagate_xor_ok (X sx E se : list Z) :
  oc_propagate_xor (Z.of_nat (length X) :: X ++ sx) (Z.of_nat (length E) :: E ++ se)
  = Some (Z.of_nat (length (X ++ E)) :: (X ++ E)).
Proof.
  unfold oc_propagate_xor. cbn [zget Z.ltb Z.compare Z.to_nat nth_error].
  change (0 <? 0) with false. cbn [nth_error].
  rewrite calloc_Some by lia.
  replace (Z.to_nat (Z.of_nat (length X) + Z.of_nat (length E) + 1))
    with (S (length X + length E)) by lia.
  cbn [repeat]. unfold zset at 1. cbn [length].
  replace (0 <=? 0) with true by reflexivity.
  replace (0 <? Z.of_nat (S (length (repeat 0 (length X + length E))))) with true
    by (symmetry; apply Z.ltb_lt; lia).
  cbn [andb Z.to_nat upd].
  rewrite while_count_Some by lia. rewrite Nat2Z.id.
  rewrite repeat_app.
  pose proof (copy_cells_ok X [Z.of_nat (length X)] sx
                [Z.of_nat (length X) + Z.of_nat (length E)]
                (repeat 0 (length X)) (repeat 0 (length E))
                (repeat_length _ _)) as H1.
  cbn [app length] in H1. change (Z.of_nat 1) with 1 in H1. rewrite H1.
  rewrite while_count_Some by lia. rewrite Nat2Z.id.
  pose proof (copy_cells_ok E [Z.of_nat (length E)] se
                ((Z.of_nat (length X) + Z.of_nat (length E)) :: X)
                (repeat 0 (length E)) [] (repeat_length _ _)) as H2.
  cbn [app length] in H2. rewrite app_nil_r in H2.
  change (Z.of_nat 1) with 1 in H2.
  replace (Z.of_nat (S (length X))) with (1 + Z.of_nat (length X)) in H2 by lia.
  rewrite app_nil_r in H2. rewrite H2. rewrite length_app. do 2 f_equal. lia.
Qed.

(** * The search for the unsolved entry *)

Lemma scan_unsolved_found (E1 : list Z) : forall (pre : list Z) g k0 t rest n,
  Forall (fun d => zget (solved g) d = Some true) E1 ->
  zget (solved g) t = Some false ->
  scan_unsolved (length E1 + S n) g
    (k0 :: pre ++ E1 ++ t :: rest) (Z.of_nat (length pre))
  = Some (t, Z.of_nat (length pre) + Z.of_nat (length E1)).
Proof.
  induction E1 as [|d E1 IH]; intros pre g k0 t rest n Hs Ht.
  - cbn [app length Nat.add scan_unsolved]. rewrite zget_cons_succ by lia.
    rewrite zget_mid, Ht. do 2 f_equal. simpl. lia.
  - cbn [app length Nat.add scan_unsolved]. rewrite zget_cons_succ by lia.
    rewrite zget_mid. inversion Hs as [|? ? Hd Hs']; subst. rewrite Hd.
    specialize (IH (pre ++ [d]) g k0 t rest n Hs' Ht).
    rewrite <- app_assoc in IH. cbn [app] in IH.
    rewrite length_app in IH. cbn [length] in IH.
    replace (Z.of_nat (length pre) + 1) with (Z.of_nat (length pre + 1)) by lia.
    rewrite IH. do 2 f_equal. lia.
Qed.

(** * Swap with last and shrink *)

Lemma last_app_cons {A} (l1 : list A) x l2 d :
  last (l1 ++ x :: l2) d = last (x :: l2) d.
Proof.
  induction l1 as [|a l1 IH]; [reflexivity|].
  cbn [app]. rewrite <- IH. destruct (l1 ++ x :: l2) eqn:E; [|reflexivity].
  destruct l1; discriminate.
Qed.

Lemma swap_last (pre : list Z) t (mid post : list Z) :
  exists U' z,
    zget (pre ++ (t :: mid) ++ post) (Z.of_nat (length pre) + Z.of_nat (length mid)) = Some z /\
    zset (pre ++ (t :: mid) ++ post) (Z.of_nat (length pre)) z = Some (pre ++ U' ++ z :: post) /\
    Permutation U' mid /\ length U' = length mid /\
    z = last (t :: mid) 0 /\ U' = firstn (length mid) (z :: mid).
Proof.
  destruct mid as [|m mid'] using rev_ind.
  - exists [], t. cbn [app length]. rewrite Z.add_0_r, zget_mid, zset_mid.
    repeat split; auto.
  - clear IHmid'. exists (m :: mid'), m. split; [|split; [|split; [|split; [|split]]]].
    + rewrite zget_app_r by lia. cbn [app].
      replace (Z.of_nat (length pre) + Z.of_nat (length (mid' ++ [m])) - Z.of_nat (length pre))
        with (1 + Z.of_nat (length mid')) by (rewrite length_app; cbn [length]; lia).
      rewrite zget_cons_succ by lia. rewrite <- app_assoc. cbn [app]. apply zget_mid.
    + cbn [app]. rewrite zset_mid. rewrite <- !app_assoc. reflexivity.
    + apply Permutation_cons_append.
    + rewrite length_app. cbn [length]. lia.
    + change (t :: mid' ++ [m]) with ((t :: mid') ++ [m]). rewrite last_last. reflexivity.
    + rewrite length_app. cbn [length]. rewrite Nat.add_1_r. cbn [firstn].
      rewrite firstn_app, Nat.sub_diag, firstn_all. cbn [firstn]. rewrite app_nil_r.
      reflexivity.
Qed.

Lemma swap_remove (E1 : list Z) t (E2 stale : list Z) :
  let E := E1 ++ t :: E2 in
  let arr := Z.of_nat (length E) :: E ++ stale in
  exists z arr1 E' stale',
    zget arr (Z.of_nat (length E)) = Some z /\
    zset arr (1 + Z.of_nat (length E1)) z = Some arr1 /\
    zset arr1 0 (Z.of_nat (length E) - 1) = Some (Z.of_nat (length E') :: E' ++ stale') /\
    Permutation (t :: E') E /\
    E' = swap_shrink E (length E1).
Proof.
  intros E arr. subst E arr.
  destruct (swap_last (Z.of_nat (length (E1 ++ t :: E2)) :: E1) t E2 stale)
    as (U' & z & Hget & Hset & Hperm & Hlen & Hz & HU).
  exists z, ((Z.of_nat (length (E1 ++ t :: E2)) :: E1) ++ U' ++ z :: stale),
    (E1 ++ U'), (z :: stale).
  cbn [app length] in Hget, Hset. rewrite <- app_assoc. cbn [app].
  split; [|split; [|split; [|split]]].
  - rewrite <- Hget. f_equal. rewrite length_app. cbn [length]. lia.
  - rewrite <- Hset. f_equal. lia.
  - unfold zset. cbn [length app].
    replace (0 <=? 0) with true by reflexivity.
    match goal with |- context [0 <? ?n] =>
      replace (0 <? n) with true by (symmetry; apply Z.ltb_lt; lia) end.
    cbn [andb Z.to_nat upd]. rewrite <- app_assoc. do 2 f_equal.
    rewrite !length_app. cbn [length]. lia.
  - rewrite Permutation_middle. apply Permutation_app_head.
    constructor. exact Hperm.
  - unfold swap_shrink. rewrite upd_app_mid.
    rewrite last_app_cons. rewrite <- Hz.
    rewrite length_app. cbn [length].
    replace (length E1 + S (length E2) - 1)%nat with (length E1 + length E2)%nat by lia.
    rewrite firstn_app_2. rewrite <- HU. reflexivity.
Qed.

(** * The two passes of the check-block ingest *)

Lemma is_solved_get sv d b : zget sv d = Some b -> is_solved sv d = b.
Proof. unfold is_solved. intros ->. reflexivity. Qed.

Lemma solved_get g d :
  0 <= d < Z.of_nat (length (solved g)) ->
  zget (solved g) d = Some (is_solved (solved g) d).
Proof.
  intros H. destruct (zget_in_range _ _ H) as [b Hb].
  rewrite (is_solved_get _ _ _ Hb). exact Hb.
Qed.

Lemma count_solved_loop_ok (U : list Z) : forall g (pre post : list Z) acc,
  Forall (fun d => 0 <= d < coblocks g /\ d < Z.of_nat (length (solved g))) U ->
  count_solved_loop (length U) g (pre ++ U ++ post) (Z.of_nat (length pre)) acc
  = Some (acc + Z.of_nat (length (solved_in (solved g) U))).
Proof.
  induction U as [|d U IH]; intros g pre post acc HU.
  - simpl. f_equal. lia.
  - inversion HU as [|? ? [Hd1 Hd2] HU']; subst.
    cbn [length count_solved_loop app]. rewrite zget_mid.
    rewrite c_assert_true by (apply Z.ltb_lt; lia).
    rewrite solved_get by lia.
    specialize (IH g (pre ++ [d]) post
                  (if is_solved (solved g) d then acc + 1 else acc) HU').
    rewrite <- app_assoc in IH. cbn [app] in IH.
    rewrite length_app in IH. cbn [length] in IH.
    replace (Z.of_nat (length pre) + 1) with (Z.of_nat (length pre + 1)) by lia.
    rewrite IH. f_equal. unfold solved_in. cbn [filter].
    destruct (is_solved (solved g) d); cbn [length]; lia.
Qed.

Lemma repeat_snoc {A} (x : A) n : repeat x n ++ [x] = x :: repeat x n.
Proof. induction n; simpl; congruence. Qed.

Lemma prune_loop_ok (n : nat) : forall (U : list Z) g node (pre post xpre xfree : list Z),
  length U = n ->
  Forall (fun d => 0 <= d < Z.of_nat (length (n_edges g)) /\
                   d < Z.of_nat (length (solved g)) /\ node > d) U ->
  (length (solved_in (solved g) U) <= length xfree)%nat ->
  exists ne kept post' xs,
    prune_loop n g node (pre ++ U ++ post) (Z.of_nat (length pre))
      (Z.of_nat (length pre) + Z.of_nat n - 1)
      (xpre ++ xfree) (Z.of_nat (length xpre))
    = Some (set_n_edges g ne, pre ++ kept ++ post',
            xpre ++ xs ++ skipn (length xs) xfree) /\
    Permutation kept (unsolved_in (solved g) U) /\
    Permutation xs (solved_in (solved g) U) /\
    length (kept ++ post') = length (U ++ post) /\
    length ne = length (n_edges g) /\
    (forall l, n_cells (set_n_edges g ne) l =
       repeat node (count_occ Z.eq_dec (unsolved_in (solved g) U) l) ++ n_cells g l).
Proof.
  induction n as [|n IH]; intros U g node pre post xpre xfree Hlen HU Hx.
  - destruct U; [|discriminate]. exists (n_edges g), [], post, [].
    cbn [prune_loop app length skipn]. split.
    { destruct g; reflexivity. }
    repeat split; try constructor.
  - destruct U as [|t mid]; [discriminate|]. injection Hlen as Hlen.
    inversion HU as [|? ? (Ht1 & Ht2 & Ht3) HU']; subst.
    cbn [prune_loop]. rewrite zget_app_r by lia. rewrite Z.sub_diag.
    cbn [app zget Z.ltb Z.compare Z.to_nat nth_error].
    change (0 <? 0) with false. cbn [nth_error].
    rewrite solved_get by lia.
    destruct (is_solved (solved g) t) eqn:Hs.
    + (* solved: moved to the xor list *)
      unfold solved_in in Hx. cbn [filter] in Hx. rewrite Hs in Hx.
      destruct xfree as [|f xfree]; [simpl in Hx; lia|].
      rewrite zset_mid.
      destruct (swap_last pre t mid post) as (U' & z & Hget & Hset & Hperm & HlenU & _ & _).
      cbn [app] in Hget, Hset.
      replace (Z.of_nat (length pre) + Z.of_nat (S (length mid)) - 1)
        with (Z.of_nat (length pre) + Z.of_nat (length mid)) by lia.
      rewrite Hget, Hset.
      assert (HU'' : Forall (fun d => 0 <= d < Z.of_nat (length (n_edges g)) /\
                        d < Z.of_nat (length (solved g)) /\ node > d) U').
      { eapply Permutation_Forall; [symmetry; exact Hperm|exact HU']. }
      assert (Hsu : Permutation (solved_in (solved g) U') (solved_in (solved g) mid))
        by (apply filter_perm; assumption).
      assert (Huu : Permutation (unsolved_in (solved g) U') (unsolved_in (solved g) mid))
        by (apply filter_perm; assumption).
      destruct (IH U' g node pre (z :: post) (xpre ++ [t]) xfree HlenU HU'')
        as (ne & kept & post' & xs & Hrun & Hk & Hxs & Hl & Hne & Hcells).
      { rewrite (Permutation_length Hsu). cbn [length] in Hx. fold (solved_in (solved g) mid) in Hx. lia. }
      exists ne, kept, post', (t :: xs).
      rewrite <- !app_assoc in Hrun. cbn [app] in Hrun.
      rewrite length_app in Hrun. cbn [length] in Hrun.
      replace (Z.of_nat (length xpre) + 1) with (Z.of_nat (length xpre + 1)) by lia.
      split; [rewrite Hrun; reflexivity|].
      unfold solved_in, unsolved_in. cbn [filter]. rewrite Hs. cbn [negb].
      split; [rewrite Hk; exact Huu|].
      split; [constructor; rewrite Hxs; exact Hsu|].
      split.
      { rewrite Hl. rewrite !length_app. cbn [length]. rewrite ?length_app. lia. }
      split; [exact Hne|].
      intros l. rewrite Hcells. f_equal. f_equal.
      apply Permutation_count_occ. exact Huu.
    + (* unsolved: an up-edge is created *)
      destruct (create_n_edge_ok g node t) as (ne1 & Hcr & Hset1); [lia|lia|].
      rewrite Hcr. set (g1 := set_n_edges g ne1).
      assert (Hlen1 : length ne1 = length (n_edges g)) by (eapply zset_length; eauto).
      destruct (IH mid g1 node (pre ++ [t]) post xpre xfree eq_refl)
        as (ne & kept & post' & xs & Hrun & Hk & Hxs & Hl & Hne & Hcells).
      { simpl. rewrite Hlen1. exact HU'. }
      { simpl. unfold solved_in in Hx. cbn [filter] in Hx. rewrite Hs in Hx. exact Hx. }
      exists ne, (t :: kept), post', xs.
      rewrite <- !app_assoc in Hrun. cbn [app] in Hrun.
      rewrite length_app in Hrun. cbn [length] in Hrun.
      replace (Z.of_nat (length pre) + 1) with (Z.of_nat (length pre + 1)) by lia.
      replace (Z.of_nat (length pre) + Z.of_nat (S (length mid)) - 1)
        with (Z.of_nat (length pre + 1) + Z.of_nat (length mid) - 1) by lia.
      split; [rewrite Hrun; reflexivity|].
      unfold solved_in, unsolved_in. cbn [filter]. rewrite Hs. cbn [negb].
      split; [constructor; exact Hk|].
      split; [exact Hxs|].
      split; [cbn [app length]; rewrite Hl; rewrite !length_app; reflexivity|].
      split; [rewrite Hne; exact Hlen1|].
      intros l. change (set_n_edges g ne) with (set_n_edges g1 ne).
      rewrite Hcells. change (solved g1) with (solved g).
      unfold g1. rewrite (n_cells_set _ _ _ _ l Hset1).
      cbn [count_occ]. fold (unsolved_in (solved g) mid).
      destruct (Z.eq_dec t l) as [->|Hne'].
      * rewrite Z.eqb_refl. cbn [repeat].
        change (node :: n_cells g l) with ([node] ++ n_cells g l).
        rewrite app_assoc, repeat_snoc. reflexivity.
      * destruct (l =? t) eqn:E; [apply Z.eqb_eq in E; congruence|reflexivity].
Qed.

(** * The check-block ingest as a whole *)

Lemma split_solved_length sv (E : list Z) :
  (length (solved_in sv E) + length (unsolved_in sv E) = length E)%nat.
Proof. apply filter_length. Qed.

Lemma check_block_spec g (E stale : list Z) :
  let k := Z.of_nat (length E) in
  let node := nodes g in
  let sv := solved g in
  Z.of_nat (length (solved g)) = coblocks g ->
  Z.of_nat (length (n_edges g)) = coblocks g ->
  Z.of_nat (length (v_edges g)) = node_space g - mblocks g ->
  Z.of_nat (length (edge_count g)) = node_space g - mblocks g ->
  Z.of_nat (length (xor_list g)) = node_space g ->
  0 <= mblocks g <= coblocks g -> coblocks g <= node < node_space g ->
  Forall (fun d => 0 <= d < coblocks g) E ->
  exists ne xl ve ec kept xs stale',
    oc_graph_check_block g (k :: E ++ stale) = Some (node, ingested g ne xl ve ec) /\
    Permutation kept (unsolved_in sv E) /\
    Permutation xs (solved_in sv E) /\
    zset (xor_list g) node (Some (Z.of_nat (length (node :: xs)) :: node :: xs)) = Some xl /\
    zset (v_edges g) (node - mblocks g)
      (Some (Z.of_nat (length kept) :: kept ++ stale')) = Some ve /\
    zset (edge_count g) (node - mblocks g) (Z.of_nat (length kept)) = Some ec /\
    length ne = length (n_edges g) /\
    length (kept ++ stale') = length (E ++ stale) /\
    (forall l, n_cells (set_n_edges g ne) l =
       repeat node (count_occ Z.eq_dec (unsolved_in sv E) l) ++ n_cells g l).
Proof.
  intros k node sv Hls Hln Hlv Hle Hlx Hm Hnode HE.
  set (s := length (solved_in sv E)).
  pose proof (split_solved_length sv E) as Hsplit. fold s in Hsplit.
  unfold oc_graph_check_block. fold node.
  change (node_space (set_nodes g (node + 1))) with (node_space g).
  zbool (node >=? node_space g) false.
  cbn [zget Z.ltb Z.compare Z.to_nat nth_error].
  change (0 <? 0) with false. cbn [nth_error].
  rewrite while_count_Some by (unfold k; lia).
  replace (Z.to_nat k) with (length E) by (unfold k; lia).
  pose proof (count_solved_loop_ok E (set_nodes g (node + 1)) [k] stale 0) as H1.
  cbn [app length] in H1. change (Z.of_nat 1) with 1 in H1.
  rewrite H1; clear H1.
  2:{ eapply Forall_impl; [|exact HE]. simpl. intros d Hd. lia. }
  change (solved (set_nodes g (node + 1))) with sv. fold s.
  rewrite calloc_Some by lia.
  replace (Z.to_nat (0 + Z.of_nat s + 2)) with (S (S s)) by lia. cbn [repeat].
  change (xor_list (set_nodes g (node + 1))) with (xor_list g).
  destruct (zset_Some (xor_list g) node (Some (0 :: 0 :: repeat 0 s))) as [xl0 Hxl0]; [lia|].
  rewrite Hxl0.
  unfold zset at 1. cbn [length].
  replace (0 <=? 0) with true by reflexivity.
  match goal with |- context [0 <? ?n] =>
    replace (0 <? n) with true by (symmetry; apply Z.ltb_lt; lia) end.
  cbn [andb Z.to_nat upd].
  unfold zset at 1. cbn [length].
  replace (0 <=? 1) with true by reflexivity.
  match goal with |- context [1 <? ?n] =>
    replace (1 <? n) with true by (symmetry; apply Z.ltb_lt; lia) end.
  cbn [andb]. change (Z.to_nat 1) with 1%nat. cbn [upd].
  unfold zset at 1. cbn [length].
  replace (0 <=? 0) with true by reflexivity.
  match goal with |- context [0 <? ?n] =>
    replace (0 <? n) with true by (symmetry; apply Z.ltb_lt; lia) end.
  cbn [andb Z.to_nat upd].
  pose proof (prune_loop_ok (length E) E (set_nodes g (node + 1)) node
                [k - (0 + Z.of_nat s)] stale [0 + Z.of_nat s + 1; node]
                (repeat 0 s) eq_refl) as H2.
  destruct H2 as (ne & kept & post' & xs & Hrun & Hk & Hxs & Hl & Hne & Hcells).
  { eapply Forall_impl; [|exact HE]. simpl. intros d Hd. unfold node. lia. }
  { simpl. rewrite repeat_length. fold sv. fold s. lia. }
  cbn [app length] in Hrun. change (Z.of_nat 1) with 1 in Hrun.
  change (Z.of_nat 2) with 2 in Hrun.
  replace (1 + k - 1) with k by lia. fold k in Hrun.
  replace (1 + k - 1) with k in Hrun by lia.
  rewrite Hrun; clear Hrun.
  change (solved (set_nodes g (node + 1))) with sv in *.
  assert (Hlxs : length xs = s) by (rewrite (Permutation_length Hxs); reflexivity).
  assert (Hlk : (length kept + s = length E)%nat).
  { rewrite (Permutation_length Hk). lia. }
  rewrite Hlxs. rewrite skipn_all2 by (rewrite repeat_length; lia).
  rewrite app_nil_r.
  cbn [v_edges mblocks edge_count xor_list set_xor_list set_n_edges set_nodes set_v_edges].
  destruct (zset_Some (xor_list g) node (Some (0 + Z.of_nat s + 1 :: node :: xs)))
    as [xl Hxl]; [lia|].
  rewrite Hxl.
  cbn [v_edges mblocks edge_count xor_list set_xor_list set_n_edges set_nodes set_v_edges].
  destruct (zset_Some (v_edges g) (node - mblocks g)
              (Some (k - (0 + Z.of_nat s) :: kept ++ post'))) as [ve Hve]; [lia|].
  rewrite Hve.
  cbn [zget Z.ltb Z.compare Z.to_nat nth_error].
  change (0 <? 0) with false. cbn [nth_error].
  cbn [v_edges mblocks edge_count xor_list set_xor_list set_n_edges set_nodes set_v_edges].
  destruct (zset_Some (edge_count g) (node - mblocks g) (k - (0 + Z.of_nat s)))
    as [ec Hec]; [lia|].
  rewrite Hec.
  assert (Hks : k - (0 + Z.of_nat s) = Z.of_nat (length kept)) by (unfold k; lia).
  rewrite Hks in Hve, Hec.
  exists ne, xl, ve, ec, kept, xs, post'.
  split; [reflexivity|].
  split; [exact Hk|]. split; [exact Hxs|].
  split.
  { rewrite <- Hxl. do 3 f_equal. cbn [length]. lia. }
  split; [exact Hve|]. split; [exact Hec|].
  split; [exact Hne|]. split; [exact Hl|].
  intros l. specialize (Hcells l).
  unfold n_cells in *. exact Hcells.
Qed.

(** * Facts read off the structure invariant *)

Lemma v_slot_get g u arr :
  v_slot g u = Some arr -> zget (v_edges g) (u - mblocks g) = Some (Some arr).
Proof.
  unfold v_slot. destruct (zget (v_edges g) (u - mblocks g)) as [s|]; [|discriminate].
  intros ->. reflexivity.
Qed.

Lemma v_slot_range g u arr :
  graph_str g -> v_slot g u = Some arr ->
  mblocks g <= u < node_space g /\ u < nodes g.
Proof.
  intros Hs Hv. pose proof (str_varr g Hs u arr Hv) as (_ & Hn & _).
  apply v_slot_get in Hv. apply zget_Some_range in Hv.
  pose proof (str_len_v g Hs). lia.
Qed.

Lemma vedge_unique g u l arr :
  v_slot g u = Some arr -> (vedge g u l <-> In l (entries arr)).
Proof.
  intros Hv. unfold vedge. split.
  - intros (arr' & Hv' & Hin). congruence.
  - intros Hin. eauto.
Qed.

Lemma edge_count_get g u :
  graph_str g -> mblocks g <= u < node_space g ->
  exists c, zget (edge_count g) (u - mblocks g) = Some c.
Proof.
  intros Hs Hu. apply zget_in_range. pose proof (str_len_ec g Hs). lia.
Qed.

(** * Cascade restores the edge counts *)

Lemma cascade_inv g sv node :
  graph_str g -> counts_ok sv g ->
  is_solved sv node = false -> zset sv node true = Some (solved g) ->
  0 <= node < coblocks g ->
  exists ec, oc_cascade g node = Some (cascaded g node ec) /\
    length ec = length (edge_count g) /\
    (forall i, zget ec i =
       option_map (dec_if (n_cells g node) (mblocks g) i) (zget (edge_count g) i)) /\
    graph_str (cascaded g node ec) /\
    counts_ok (solved g) (cascaded g node ec).
Proof.
  intros Hs Hc Hsv Hmark Hnode.
  assert (Hcells : forall u, In u (n_cells g node) ->
            exists arr, v_slot g u = Some arr /\ In node (entries arr)).
  { intros u Hu. apply (str_recip g Hs) in Hu. exact Hu. }
  destruct (cascade_loop_ok (n_cells g node) g node (str_nodup g Hs node))
    as (ec & Hrun & Hlen & Hget).
  { intros u Hu. destruct (Hcells u Hu) as (arr & Hv & Hin).
    pose proof (str_varr g Hs u arr Hv) as (_ & _ & _ & Hall).
    rewrite Forall_forall in Hall. destruct (Hall node Hin) as [_ Hlt].
    split; [lia|]. exists (count_unsolved sv (entries arr)).
    split; [apply (Hc u arr Hv)|].
    pose proof (count_unsolved_In sv _ _ Hin Hsv). lia. }
  exists ec. split.
  { unfold oc_cascade. rewrite c_assert_true by zcmp.
    rewrite n_cells_get by (rewrite (str_len_n g Hs); lia). exact Hrun. }
  split; [exact Hlen|]. split; [exact Hget|].
  assert (Hvs : forall u, v_slot (cascaded g node ec) u = v_slot g u) by reflexivity.
  assert (Hnc : forall l, n_cells (cascaded g node ec) l = n_cells g l) by reflexivity.
  split.
  - constructor; try exact (proj1 (conj I I)); try solve [apply Hs].
    + simpl. rewrite Hlen. apply Hs.
    + intros i Hi. simpl in *. rewrite Hget.
      rewrite (str_vnull g Hs i Hi). unfold dec_if. cbn [option_map].
      destruct (in_dec Z.eq_dec (i + mblocks g) (n_cells g node)) as [Hin|]; [|reflexivity].
      destruct (Hcells _ Hin) as (arr & Hv & _). apply v_slot_get in Hv.
      replace (i + mblocks g - mblocks g) with i in Hv by lia. congruence.
    + simpl. apply Forall_app. split; [apply Hs|].
      apply Forall_forall. intros u Hu. apply filter_In in Hu as [Hu _].
      destruct (Hcells u Hu) as (arr & Hv & _).
      pose proof (v_slot_range g u arr Hs Hv). lia.
  - intros u arr Hv. rewrite Hvs in Hv. unfold edge_count_of. simpl.
    rewrite Hget. pose proof (Hc u arr Hv) as Hcu. unfold edge_count_of in Hcu.
    rewrite Hcu. cbn [option_map]. f_equal. unfold dec_if.
    replace (u - mblocks g + mblocks g) with u by lia.
    pose proof (str_varr g Hs u arr Hv) as (_ & _ & Hnd & _).
    destruct (in_dec Z.eq_dec u (n_cells g node)) as [Hin|Hnin].
    + apply (str_recip g Hs) in Hin. apply (vedge_unique g u node arr Hv) in Hin.
      symmetry. apply (count_unsolved_mark_in sv node); assumption.
    + symmetry. apply (count_unsolved_mark_notin sv node); [assumption|].
      intros Hin. apply Hnin. apply (str_recip g Hs).
      apply (vedge_unique g u node arr Hv). exact Hin.
Qed.

(** * Views after a store *)

Lemma v_slot_set g g' i s u :
  zset (v_edges g) i s = Some (v_edges g') -> mblocks g' = mblocks g ->
  v_slot g' u = if u - mblocks g =? i then s else v_slot g u.
Proof.
  intros H Hm. unfold v_slot. rewrite Hm, (zget_zset _ _ _ _ _ H).
  destruct (u - mblocks g =? i); reflexivity.
Qed.

Lemma xor_slot_set g g' i s n :
  zset (xor_list g) i s = Some (xor_list g') ->
  xor_slot g' n = if n =? i then s else xor_slot g n.
Proof.
  intros H. unfold xor_slot. rewrite (zget_zset _ _ _ _ _ H).
  destruct (n =? i); reflexivity.
Qed.

Lemma xor_slot_get g n r :
  xor_slot g n = Some r -> zget (xor_list g) n = Some (Some r).
Proof.
  unfold xor_slot. destruct (zget (xor_list g) n) as [s|]; [|discriminate].
  intros ->. reflexivity.
Qed.

Lemma xor_slot_none g n :
  0 <= n < Z.of_nat (length (xor_list g)) -> xor_slot g n = None ->
  zget (xor_list g) n = Some None.
Proof.
  intros Hr. unfold xor_slot. destruct (zget_in_range _ _ Hr) as [s ->].
  intros ->. reflexivity.
Qed.

Lemma recipe_ok_mono g g' n r :
  recipe_ok g n r -> nodes g <= nodes g' -> coblocks g' = coblocks g ->
  (forall e, is_solved (solved g) e = true -> is_solved (solved g') e = true) ->
  recipe_ok g' n r.
Proof.
  intros (Hw & Hn & Hall & Hself & Hhd) Hnodes Hco Hsv.
  unfold recipe_ok. rewrite Hco.
  refine (conj Hw (conj _ (conj _ (conj Hself Hhd)))); [lia|].
  eapply Forall_impl; [|exact Hall]. simpl. intros e [He|He]; auto.
Qed.

(** * Marking a node solved and installing its recipe *)

Lemma mark_inv g t r sv' xl :
  graph_str g -> 0 <= t < coblocks g ->
  is_solved (solved g) t = false ->
  zset (solved g) t true = Some sv' ->
  zset (xor_list g) t (Some r) = Some xl ->
  wf_arr r ->
  Forall (fun e => coblocks g <= e \/ is_solved (solved g) e = true) (entries r) ->
  ~ In t (entries r) ->
  graph_str (set_xor_list (set_solved g sv') xl).
Proof.
  intros Hs Ht Hun Hsv Hxl Hw Hall Hnin.
  set (g' := set_xor_list (set_solved g sv') xl).
  assert (Hmono : forall e, is_solved (solved g) e = true -> is_solved (solved g') e = true).
  { intros e He. simpl. rewrite (is_solved_mark _ _ _ e Hsv).
    destruct (e =? t); [reflexivity|assumption]. }
  assert (Hxs : forall n, xor_slot g' n = if n =? t then Some r else xor_slot g n).
  { intros n. apply (xor_slot_set g g'). exact Hxl. }
  constructor; try solve [apply Hs].
  - simpl. rewrite (zset_length _ _ _ _ Hsv). apply Hs.
  - simpl. rewrite (zset_length _ _ _ _ Hxl). apply Hs.
  - intros a Ha Hsa. change (v_slot g' a) with (v_slot g a).
    apply (str_aux_live g Hs a Ha). simpl in Hsa.
    rewrite (is_solved_mark _ _ _ a Hsv) in Hsa.
    destruct (a =? t); [discriminate|assumption].
  - intros n Hn. rewrite Hxs. simpl. rewrite (is_solved_mark _ _ _ n Hsv).
    destruct (n =? t); [|apply (str_xor_solved g Hs n Hn)].
    split; [discriminate|reflexivity].
  - intros c Hc Hc'. rewrite Hxs.
    destruct (c =? t); [discriminate|]. apply (str_xor_check g Hs c Hc Hc').
  - intros n r' Hr'. rewrite Hxs in Hr'. destruct (n =? t) eqn:E.
    + apply Z.eqb_eq in E. subst n. injection Hr' as <-.
      pose proof (str_nodes g Hs).
      unfold recipe_ok. simpl.
      refine (conj Hw (conj _ (conj _ (conj _ _)))); try lia.
      * eapply Forall_impl; [|exact Hall]. simpl. intros e [He|He]; auto.
      * intros _. exact Hnin.
    + eapply recipe_ok_mono; [apply (str_xor_ok g Hs n r' Hr')| | |exact Hmono];
        simpl; lia.
Qed.

(** * Retiring an upper node *)

Lemma retire_inv g node arr ve ls :
  graph_str g -> v_slot g node = Some arr ->
  Permutation ls (entries arr) ->
  zget (edge_count g) (node - mblocks g) = Some 0 ->
  (coblocks g <= node \/ is_solved (solved g) node = true) ->
  zset (v_edges g) (node - mblocks g) None = Some ve ->
  exists ne,
    delete_list (set_v_edges g ve) node ls = Some (set_n_edges (set_v_edges g ve) ne) /\
    graph_str (set_n_edges (set_v_edges g ve) ne) /\
    (forall sv, counts_ok sv g -> counts_ok sv (set_n_edges (set_v_edges g ve) ne)) /\
    (forall l x, In x (n_cells (set_n_edges (set_v_edges g ve) ne) l) <->
                 In x (n_cells g l) /\ ~ (In l (entries arr) /\ x = node)).
Proof.
  intros Hs Hv Hperm Hec Hspent Hve.
  pose proof (v_slot_range g node arr Hs Hv) as Hrange.
  pose proof (str_varr g Hs node arr Hv) as (Hw & _ & Hnd & Hall).
  rewrite Forall_forall in Hall.
  set (g1 := set_v_edges g ve).
  destruct (delete_list_ok ls g1 node) as (ne & Hrun & Hlen & Hnd2 & Hin2).
  { eapply Permutation_NoDup; [symmetry; exact Hperm|exact Hnd]. }
  { simpl. lia. }
  { intros l Hl. apply (Permutation_in _ Hperm) in Hl.
    destruct (Hall l Hl) as [_ Hlt]. split; [lia|].
    change (n_cells g1 l) with (n_cells g l).
    apply (str_recip g Hs). exists arr. auto. }
  { intros l. apply (str_nodup g Hs). }
  exists ne. split; [exact Hrun|].
  set (g2 := set_n_edges g1 ne) in *.
  assert (Hvs : forall u, v_slot g2 u = if u =? node then None else v_slot g u).
  { intros u. rewrite (v_slot_set g g2 _ _ u Hve eq_refl).
    destruct (u - mblocks g =? node - mblocks g) eqn:E1; destruct (u =? node) eqn:E2;
      try reflexivity.
    - apply Z.eqb_eq in E1. apply Z.eqb_neq in E2. lia.
    - apply Z.eqb_neq in E1. apply Z.eqb_eq in E2. lia. }
  assert (Hnc : forall l x, In x (n_cells g2 l) <->
                 In x (n_cells g l) /\ ~ (In l (entries arr) /\ x = node)).
  { intros l x. rewrite Hin2. change (n_cells g1 l) with (n_cells g l).
    split; intros [H1 H2]; split; try assumption; intros [H3 H4]; apply H2; split;
      try assumption.
    - eapply Permutation_in; [symmetry; exact Hperm|exact H3].
    - eapply Permutation_in; [exact Hperm|exact H3]. }
  split; [|split; [|exact Hnc]].
  - constructor; try solve [apply Hs].
    + simpl. rewrite (zset_length _ _ _ _ Hve). apply Hs.
    + simpl. rewrite Hlen. simpl. apply Hs.
    + intros u arr' Hu. rewrite Hvs in Hu. destruct (u =? node); [discriminate|].
      apply (str_varr g Hs u arr' Hu).
    + intros i Hi. simpl in Hi. rewrite (zget_zset _ _ _ _ i Hve) in Hi. simpl.
      destruct (i =? node - mblocks g) eqn:E.
      * apply Z.eqb_eq in E. subst i. exact Hec.
      * apply (str_vnull g Hs i Hi).
    + exact Hnd2.
    + intros u l. rewrite Hnc. unfold vedge. rewrite Hvs.
      destruct (u =? node) eqn:E.
      * apply Z.eqb_eq in E. subst u. split.
        -- intros [Hin Hn]. exfalso. apply Hn. split; [|reflexivity].
           apply (str_recip g Hs) in Hin. apply (vedge_unique g node l arr Hv). exact Hin.
        -- intros (? & ? & _). discriminate.
      * apply Z.eqb_neq in E. rewrite (str_recip g Hs u l). unfold vedge.
        split; [tauto|]. intros H. split; [exact H|]. intros [_ ?]. contradiction.
    + intros a Ha Hsa. rewrite Hvs. destruct (a =? node) eqn:E.
      * apply Z.eqb_eq in E. subst a. simpl in Hsa, Ha. destruct Hspent; [lia|congruence].
      * apply (str_aux_live g Hs a Ha Hsa).
  - intros sv Hc u arr' Hu. rewrite Hvs in Hu. destruct (u =? node); [discriminate|].
    apply (Hc u arr' Hu).
Qed.

(** * Deleting one edge with its v-edge entry *)

Lemma delete_n_edge_dec_ok g upper lower c :
  upper > lower -> upper >= mblocks g ->
  zget (edge_count g) (upper - mblocks g) = Some c -> c <> 0 ->
  In upper (n_cells g lower) ->
  exists ec ne c',
    oc_delete_n_edge g upper lower true = Some (set_n_edges (set_edge_count g ec) ne) /\
    zset (edge_count g) (upper - mblocks g) (c - 1) = Some ec /\
    unlink upper (n_cells g lower) = Some c' /\
    zset (n_edges g) lower c' = Some ne.
Proof.
  intros Hu Hm Hc Hc0 Hin. unfold oc_delete_n_edge.
  rewrite c_assert_true by zcmp. rewrite c_assert_true by zcmp.
  rewrite Hc. rewrite c_assert_true by (apply negb_true_iff; zcmp).
  destruct (zset_Some (edge_count g) (upper - mblocks g) (c - 1)
              (zget_Some_range _ _ _ Hc)) as [ec Hec].
  rewrite Hec. cbn [n_edges set_edge_count].
  pose proof (n_cells_In_range _ _ _ Hin) as Hr.
  rewrite (n_cells_get g lower Hr).
  destruct (unlink_In _ _ Hin) as [c' Hc']. rewrite Hc'.
  destruct (zset_Some (n_edges g) lower c' Hr) as [ne Hne].
  rewrite Hne. exists ec, ne, c'. auto.
Qed.

Lemma perm_cons_In (t : Z) E' E l :
  Permutation (t :: E') E -> NoDup E -> (In l E' <-> In l E /\ l <> t).
Proof.
  intros Hp Hnd.
  assert (Hnd' : NoDup (t :: E')) by (eapply Permutation_NoDup; [symmetry|]; eauto).
  inversion Hnd' as [|? ? Hnt _]; subst. split.
  - intros Hl. split.
    + eapply Permutation_in; [exact Hp|right; exact Hl].
    + intros ->. contradiction.
  - intros [Hl Hne]. eapply Permutation_in in Hl; [|symmetry; exact Hp].
    destruct Hl; [congruence|assumption].
Qed.

Lemma pair_delete_inv g sv from arr t E' stale' ve :
  graph_str g -> counts_ok sv g ->
  v_slot g from = Some arr -> Permutation (t :: E') (entries arr) ->
  is_solved sv t = false ->
  zset (v_edges g) (from - mblocks g) (Some (Z.of_nat (length E') :: E' ++ stale')) = Some ve ->
  exists ec ne,
    let g' := set_n_edges (set_edge_count (set_v_edges g ve) ec) ne in
    oc_delete_n_edge (set_v_edges g ve) from t true = Some g' /\
    graph_str g' /\ counts_ok sv g' /\
    (forall l x, In x (n_cells g' l) <-> In x (n_cells g l) /\ ~ (l = t /\ x = from)) /\
    zset (edge_count g) (from - mblocks g) (count_unsolved sv (entries arr) - 1) = Some ec.
Proof.
  intros Hs Hc Hv Hperm Ht Hve.
  pose proof (v_slot_range g from arr Hs Hv) as Hrange.
  pose proof (str_varr g Hs from arr Hv) as (Hw & Hn & Hnd & Hall).
  rewrite Forall_forall in Hall.
  assert (HtE : In t (entries arr)).
  { eapply Permutation_in; [exact Hperm|left; reflexivity]. }
  destruct (Hall t HtE) as [Htr Htlt].
  assert (Hcnt : count_unsolved sv (entries arr) = 1 + count_unsolved sv E').
  { rewrite <- (count_unsolved_perm _ _ _ Hperm), count_unsolved_cons, Ht. reflexivity. }
  pose proof (count_unsolved_nonneg sv E') as Hnn.
  set (g1 := set_v_edges g ve).
  destruct (delete_n_edge_dec_ok g1 from t (count_unsolved sv (entries arr)))
    as (ec & ne & c' & Hrun & Hec & Hun & Hne); try (simpl; lia).
  { apply (Hc from arr Hv). }
  { change (n_cells g1 t) with (n_cells g t). apply (str_recip g Hs).
    exists arr. auto. }
  change (n_cells g1 t) with (n_cells g t) in Hun.
  pose proof (unlink_spec _ _ _ (str_nodup g Hs t) Hun) as [Hc'nd Hc'in].
  exists ec, ne. intros g'. split; [exact Hrun|].
  assert (Hvs : forall u, v_slot g' u =
            if u =? from then Some (Z.of_nat (length E') :: E' ++ stale') else v_slot g u).
  { intros u. rewrite (v_slot_set g g' _ _ u Hve eq_refl).
    destruct (u - mblocks g =? from - mblocks g) eqn:E1; destruct (u =? from) eqn:E2;
      try reflexivity.
    - apply Z.eqb_eq in E1. apply Z.eqb_neq in E2. lia.
    - apply Z.eqb_neq in E1. apply Z.eqb_eq in E2. lia. }
  assert (Hncs : forall l, n_cells g' l = if l =? t then c' else n_cells g l).
  { intros l. apply (n_cells_set (set_edge_count g1 ec)). exact Hne. }
  assert (Hnc : forall l x, In x (n_cells g' l) <->
                            In x (n_cells g l) /\ ~ (l = t /\ x = from)).
  { intros l x. rewrite Hncs. destruct (l =? t) eqn:E.
    - apply Z.eqb_eq in E. subst l. rewrite Hc'in. intuition.
    - apply Z.eqb_neq in E. intuition. }
  assert (HndE' : NoDup E').
  { assert (Hx : NoDup (t :: E')) by (eapply Permutation_NoDup; [symmetry|]; eauto).
    inversion Hx; assumption. }
  split; [|split; [|split; [exact Hnc|exact Hec]]].
  - constructor; try solve [apply Hs].
    + simpl. rewrite (zset_length _ _ _ _ Hve). apply Hs.
    + simpl. rewrite (zset_length _ _ _ _ Hne). simpl. apply Hs.
    + simpl. rewrite (zset_length _ _ _ _ Hec). simpl. apply Hs.
    + intros u arr' Hu. rewrite Hvs in Hu. destruct (u =? from) eqn:E.
      * apply Z.eqb_eq in E. subst u. injection Hu as <-.
        rewrite entries_packed.
        refine (conj (wf_arr_packed _ _) (conj Hn (conj HndE' _))).
        apply Forall_forall. intros d Hd. apply Hall.
        apply (perm_cons_In t E' _ d Hperm Hnd). exact Hd.
      * apply (str_varr g Hs u arr' Hu).
    + intros i Hi. simpl in Hi. rewrite (zget_zset _ _ _ _ i Hve) in Hi. simpl.
      destruct (i =? from - mblocks g) eqn:E; [discriminate|].
      simpl in Hec. rewrite (zget_zset _ _ _ _ i Hec), E.
      apply (str_vnull g Hs i Hi).
    + intros l. rewrite Hncs. destruct (l =? t); [assumption|apply Hs].
    + intros u l. rewrite Hnc. unfold vedge. rewrite Hvs.
      rewrite (str_recip g Hs u l). destruct (u =? from) eqn:E.
      * apply Z.eqb_eq in E. subst u.
        rewrite (vedge_unique g from l arr Hv). split.
        -- intros [Hin Hn']. exists (Z.of_nat (length E') :: E' ++ stale').
           split; [reflexivity|]. rewrite entries_packed.
           apply (perm_cons_In t E' _ l Hperm Hnd). split; [assumption|].
           intros ->. apply Hn'. auto.
        -- intros (a & [= <-] & Hin). rewrite entries_packed in Hin.
           apply (perm_cons_In t E' _ l Hperm Hnd) in Hin as [Hin Hne'].
           split; [assumption|]. intros [? _]. contradiction.
      * apply Z.eqb_neq in E. unfold vedge. split; [tauto|].
        intros H. split; [exact H|]. intros [_ ?]. contradiction.
    + intros a Ha Hsa. rewrite Hvs. destruct (a =? from); [discriminate|].
      apply (str_aux_live g Hs a Ha Hsa).
  - intros u arr' Hu. rewrite Hvs in Hu. unfold edge_count_of. simpl.
    simpl in Hec. rewrite (zget_zset _ _ _ _ _ Hec).
    destruct (u =? from) eqn:E.
    + apply Z.eqb_eq in E. subst u. injection Hu as <-.
      rewrite Z.eqb_refl, entries_packed. f_equal. lia.
    + apply Z.eqb_neq in E.
      destruct (u - mblocks g =? from - mblocks g) eqn:E1;
        [apply Z.eqb_eq in E1; lia|].
      apply (Hc u arr' Hu).
Qed.

Lemma first_unsolved sv (E : list Z) :
  1 <= count_unsolved sv E ->
  exists E1 t E2, E = E1 ++ t :: E2 /\
    Forall (fun d => is_solved sv d = true) E1 /\ is_solved sv t = false.
Proof.
  induction E as [|d E IH]; intros H.
  - unfold count_unsolved in H. simpl in H. lia.
  - destruct (is_solved sv d) eqn:Hd.
    + rewrite count_unsolved_cons, Hd in H.
      destruct IH as (E1 & t & E2 & -> & H1 & H2); [lia|].
      exists (d :: E1), t, E2. repeat split; auto.
    + exists [], d, E. repeat split; auto.
Qed.

Lemma set_n_edges_id g : set_n_edges g (n_edges g) = g.
Proof. destruct g; reflexivity. Qed.

Lemma zset_same_id {A} (l : list A) i x l' :
  zget l i = Some x -> zset l i x = Some l' -> l' = l.
Proof.
  intros Hg Hs. apply zget_ext; [eapply zset_length; eauto|].
  intros j. rewrite (zget_zset _ _ _ _ j Hs).
  destruct (j =? i) eqn:E; [|reflexivity].
  apply Z.eqb_eq in E. subst j. auto.
Qed.

Lemma v_slot_cases g u :
  graph_str g -> mblocks g <= u < node_space g ->
  (exists arr, v_slot g u = Some arr) \/
  (zget (v_edges g) (u - mblocks g) = Some None /\ zget (edge_count g) (u - mblocks g) = Some 0).
Proof.
  intros Hs Hu. unfold v_slot.
  destruct (zget_in_range (v_edges g) (u - mblocks g)) as [[arr|] H].
  - rewrite (str_len_v g Hs). lia.
  - left. rewrite H. eauto.
  - right. split; [exact H|]. apply (str_vnull g Hs _ H).
Qed.

(** * Decommissioning *)

Lemma decommission_inv g node :
  graph_str g -> mblocks g <= node < node_space g ->
  edge_count_of g node = Some 0 ->
  (coblocks g <= node \/ is_solved (solved g) node = true) ->
  exists ve ne,
    let g' := set_n_edges (set_v_edges g ve) ne in
    oc_decommission_node g node = Some g' /\
    graph_str g' /\ (forall sv, counts_ok sv g -> counts_ok sv g') /\
    v_slot g' node = None /\
    zset (v_edges g) (node - mblocks g) None = Some ve.
Proof.
  intros Hs Hnode Hec Hspent. unfold oc_decommission_node.
  rewrite c_assert_true by zcmp.
  destruct (zset_Some (v_edges g) (node - mblocks g) None) as [ve Hve].
  { rewrite (str_len_v g Hs). lia. }
  destruct (v_slot_cases g node Hs Hnode) as [[arr Hv]|[Hv _]].
  - rewrite (v_slot_get g node arr Hv), Hve.
    pose proof (str_varr g Hs node arr Hv) as (Hw & _).
    destruct (wf_arr_split arr Hw) as [stale Harr].
    destruct (retire_inv g node arr ve (rev (entries arr)) Hs Hv
                (Permutation_sym (Permutation_rev _)) Hec Hspent Hve)
      as (ne & Hrun & Hstr & Hcnt & _).
    exists ve, ne. cbv zeta. set (g' := set_n_edges (set_v_edges g ve) ne).
    split; [|split; [exact Hstr|split; [exact Hcnt|split; [|reflexivity]]]].
    + rewrite (zget_count arr Hw), <- (entries_length arr Hw), Nat2Z.id.
      rewrite Harr at 2. rewrite decommission_loop_list. exact Hrun.
    + rewrite (v_slot_set g g' _ _ node Hve eq_refl), Z.eqb_refl. reflexivity.
  - rewrite Hv, Hve. pose proof (zset_same_id _ _ _ _ Hv Hve). subst ve.
    exists (v_edges g), (n_edges g). cbv zeta.
    set (g' := set_n_edges (set_v_edges g (v_edges g)) (n_edges g)).
    assert (Hg' : g' = g) by (unfold g'; destruct g; reflexivity).
    rewrite Hg'. split; [destruct g; reflexivity|]. split; [exact Hs|].
    split; [auto|]. split; [|reflexivity]. unfold v_slot. rewrite Hv. reflexivity.
Qed.

(** * The auxiliary rule *)

Lemma aux_rule_inv g from :
  graph_str g -> counts_ok (solved g) g ->
  mblocks g <= from < coblocks g ->
  is_solved (solved g) from = false -> edge_count_of g from = Some 0 ->
  exists arr sv' xl ve ne,
    let g' := set_n_edges (set_v_edges (set_xor_list (set_solved g sv') xl) ve) ne in
    v_slot g from = Some arr /\
    zset (solved g) from true = Some sv' /\
    zset (xor_list g) from (Some arr) = Some xl /\
    zset (v_edges g) (from - mblocks g) None = Some ve /\
    oc_aux_rule g from = Some g' /\
    graph_str g' /\ counts_ok (solved g) g' /\
    (forall l x, In x (n_cells g' l) <->
                 In x (n_cells g l) /\ ~ (In l (entries arr) /\ x = from)).
Proof.
  intros Hs Hc Hfrom Hun Hec.
  pose proof (str_mblocks g Hs) as Hm. pose proof (str_space g Hs) as Hsp.
  destruct (v_slot g from) as [arr|] eqn:Hv;
    [|exfalso; exact (str_aux_live g Hs from Hfrom Hun Hv)].
  pose proof (str_varr g Hs from arr Hv) as (Hw & _ & Hnd & Hall).
  destruct (zset_Some (solved g) from true) as [sv' Hsv].
  { rewrite (str_len_solved g Hs). lia. }
  destruct (zset_Some (xor_list g) from (Some arr)) as [xl Hxl].
  { rewrite (str_len_xor g Hs). lia. }
  destruct (zset_Some (v_edges g) (from - mblocks g) None) as [ve Hve].
  { rewrite (str_len_v g Hs). lia. }
  assert (Hsolved : Forall (fun d => is_solved (solved g) d = true) (entries arr)).
  { apply count_unsolved_zero. pose proof (Hc from arr Hv) as H.
    unfold edge_count_of in *. congruence. }
  set (g1 := set_xor_list (set_solved g sv') xl).
  assert (Hs1 : graph_str g1).
  { apply (mark_inv g from arr sv' xl Hs); try assumption; try lia.
    - eapply Forall_impl; [|exact Hsolved]. simpl. auto.
    - intros Hin. rewrite Forall_forall in Hall. destruct (Hall from Hin). lia. }
  destruct (retire_inv g1 from arr ve (entries arr) Hs1 Hv (Permutation_refl _))
    as (ne & Hrun & Hstr & Hcnt & Hnc); try assumption.
  { right. simpl. rewrite (is_solved_mark _ _ _ from Hsv), Z.eqb_refl. reflexivity. }
  exists arr, sv', xl, ve, ne. intros g'.
  split; [reflexivity|]. split; [exact Hsv|]. split; [exact Hxl|]. split; [exact Hve|].
  split; [|split; [exact Hstr|split; [apply Hcnt; exact Hc|exact Hnc]]].
  unfold oc_aux_rule.
  rewrite c_assert_true by zcmp. rewrite c_assert_true by zcmp.
  rewrite Hsv. cbn [v_edges mblocks xor_list set_solved set_xor_list].
  rewrite (v_slot_get g from arr Hv), Hxl, Hve.
  rewrite (zget_count arr Hw), <- (entries_length arr Hw).
  rewrite while_count_Some by lia. rewrite Nat2Z.id.
  destruct (wf_arr_split arr Hw) as [stale Harr].
  rewrite Harr at 2.
  pose proof (aux_rule_loop_list (entries arr) stale
                (Z.of_nat (length (entries arr))) []
                (set_v_edges g1 ve) from) as Hloop.
  cbn [app length] in Hloop. change (1 + Z.of_nat 0) with 1 in Hloop.
  unfold g1 in Hloop. rewrite Hloop. exact Hrun.
Qed.

Lemma upd_upd {A} (l : list A) n x y : upd (upd l n x) n y = upd l n y.
Proof. revert n; induction l; destruct n; simpl; congruence. Qed.

Lemma zset_zset {A} (l : list A) i x y l1 l2 :
  zset l i x = Some l1 -> zset l1 i y = Some l2 -> zset l i y = Some l2.
Proof.
  intros H1 H2. apply zset_inv in H1 as [Hr ->]. apply zset_inv in H2 as [_ ->].
  rewrite upd_upd. unfold zset.
  zbool (0 <=? i) true. zbool (i <? Z.of_nat (length l)) true. reflexivity.
Qed.

Lemma is_solved_true_get sv d : is_solved sv d = true -> zget sv d = Some true.
Proof. unfold is_solved. destruct (zget sv d) as [[|]|]; congruence. Qed.

(** * The propagation rule *)

Lemma propagation_inv g from :
  graph_str g -> counts_ok (solved g) g ->
  mblocks g <= from < node_space g ->
  edge_count_of g from = Some 1 ->
  (coblocks g <= from \/ is_solved (solved g) from = true) ->
  exists arr E1 t E2 xarr ve ne ec sv' xl,
    let g' := with_arrays g ve ne ec sv' xl in
    let r := entries xarr ++ swap_shrink (entries arr) (length E1) in
    v_slot g from = Some arr /\
    entries arr = E1 ++ t :: E2 /\
    Forall (fun d => is_solved (solved g) d = true) (E1 ++ E2) /\
    is_solved (solved g) t = false /\
    0 <= t < coblocks g /\ t < from /\
    xor_slot g from = Some xarr /\
    propagation_rule g from = Some (t, g') /\
    graph_str g' /\ counts_ok (solved g) g' /\
    zset (solved g) t true = Some sv' /\
    zset (xor_list g) t (Some (Z.of_nat (length r) :: r)) = Some xl /\
    zset (edge_count g) (from - mblocks g) 0 = Some ec /\
    zset (v_edges g) (from - mblocks g) None = Some ve.
Proof.
  intros Hs Hc Hfrom Hec Hspent.
  pose proof (str_mblocks g Hs) as Hm. pose proof (str_space g Hs) as Hsp.
  pose proof (str_nodes g Hs) as Hnodes.
  (* the v-edge array and its single unsolved entry *)
  destruct (v_slot_cases g from Hs Hfrom) as [[arr Hv]|[_ H0]];
    [|unfold edge_count_of in Hec; congruence].
  pose proof (str_varr g Hs from arr Hv) as (Hw & Hfn & Hnd & Hall).
  pose proof (Hc from arr Hv) as Hcnt. rewrite Hec in Hcnt. injection Hcnt as Hcnt.
  destruct (first_unsolved (solved g) (entries arr)) as (E1 & t & E2 & HE & HE1 & Ht);
    [lia|].
  assert (Hperm0 : Permutation (t :: E1 ++ E2) (entries arr)).
  { rewrite HE. apply Permutation_middle. }
  assert (Hrest : Forall (fun d => is_solved (solved g) d = true) (E1 ++ E2)).
  { eapply count_unsolved_one; eauto. }
  assert (HtE : In t (entries arr)) by (rewrite HE; apply in_elt).
  rewrite Forall_forall in Hall. destruct (Hall t HtE) as [Htr Htlt].
  destruct (wf_arr_split arr Hw) as [stale Harr].
  set (k := Z.of_nat (length (entries arr))) in *.
  (* the array operations *)
  destruct (swap_remove E1 t E2 stale) as (z & arr1 & E' & stale' & Hz & Ha1 & Ha2 & Hperm & HE').
  rewrite <- HE in Hz, Ha1, Ha2, Hperm, HE'. fold k in Hz, Ha1, Ha2. rewrite <- Harr in Hz, Ha1.
  set (arr' := Z.of_nat (length E') :: E' ++ stale') in *.
  destruct (zset_Some (v_edges g) (from - mblocks g) (Some arr')) as [ve1 Hve1].
  { rewrite (str_len_v g Hs). lia. }
  destruct (pair_delete_inv g (solved g) from arr t E' stale' ve1 Hs Hc Hv Hperm Ht Hve1)
    as (ec & ne1 & Hdel & Hs2 & Hc2 & _ & Hec2).
  rewrite <- Hcnt in Hec2. replace (1 - 1) with 0 in Hec2 by lia.
  set (g2 := set_n_edges (set_edge_count (set_v_edges g ve1) ec) ne1) in *.
  assert (Hv2 : v_slot g2 from = Some arr').
  { rewrite (v_slot_set g g2 _ _ from Hve1 eq_refl), Z.eqb_refl. reflexivity. }
  assert (HE'solved : Forall (fun d => is_solved (solved g) d = true) E').
  { eapply count_unsolved_one; eauto. }
  (* the recipe of [from] *)
  assert (Hxf : exists xarr, xor_slot g from = Some xarr).
  { destruct (xor_slot g from) eqn:Hx; [eauto|]. exfalso.
    destruct (Z_lt_le_dec from (coblocks g)) as [Hlt|Hge].
    - destruct Hspent as [|Hsol]; [lia|].
      apply (str_xor_solved g Hs from) in Hsol; [contradiction|lia].
    - apply (str_xor_check g Hs from); auto; lia. }
  destruct Hxf as [xarr Hxf].
  pose proof (str_xor_ok g Hs from xarr Hxf) as (Hxw & _ & Hxall & _).
  destruct (wf_arr_split xarr Hxw) as [sx Hxarr].
  set (r := entries xarr ++ E').
  assert (Hprop : oc_propagate_xor xarr arr' = Some (Z.of_nat (length r) :: r)).
  { rewrite Hxarr. apply propagate_xor_ok. }
  assert (Hxt : zget (xor_list g) t = Some None).
  { apply xor_slot_none; [rewrite (str_len_xor g Hs); lia|].
    destruct (xor_slot g t) eqn:Hx; [|reflexivity].
    assert (is_solved (solved g) t = true); [|congruence].
    apply (str_xor_solved g Hs t Htr). congruence. }
  destruct (zset_Some (solved g) t true) as [sv' Hsv].
  { rewrite (str_len_solved g Hs). lia. }
  destruct (zset_Some (xor_list g) t (Some (Z.of_nat (length r) :: r))) as [xl Hxl].
  { rewrite (str_len_xor g Hs). lia. }
  set (g3 := set_xor_list (set_solved g2 sv') xl).
  assert (Hs3 : graph_str g3).
  { apply (mark_inv g2 t (Z.of_nat (length r) :: r) sv' xl Hs2); try assumption.
    - pose proof (wf_arr_packed r []) as Hwp. rewrite app_nil_r in Hwp. exact Hwp.
    - pose proof (entries_packed r []) as Hep. rewrite app_nil_r in Hep. rewrite Hep.
      apply Forall_app. split; [exact Hxall|].
      eapply Forall_impl; [|exact HE'solved]. simpl. auto.
    - pose proof (entries_packed r []) as Hep. rewrite app_nil_r in Hep. rewrite Hep.
      intros Hin. apply in_app_or in Hin as [Hin|Hin].
      + rewrite Forall_forall in Hxall. destruct (Hxall t Hin); [lia|congruence].
      + rewrite Forall_forall in HE'solved. specialize (HE'solved t Hin). congruence. }
  assert (Hc3 : counts_ok (solved g) g3) by exact Hc2.
  (* decommissioning [from] *)
  destruct (decommission_inv g3 from Hs3) as (ve & ne & Hdec & Hs4 & Hc4 & Hv4 & Hve4).
  { simpl. lia. }
  { rewrite (Hc3 from arr' Hv2). unfold arr'. rewrite entries_packed.
    f_equal. apply count_unsolved_all_solved. exact HE'solved. }
  { destruct Hspent as [|Hsol]; [left; exact H|]. right. simpl.
    rewrite (is_solved_mark _ _ _ from Hsv). destruct (from =? t); auto. }
  cbv zeta in Hdec, Hs4, Hc4, Hv4. simpl in Hve4.
  exists arr, E1, t, E2, xarr, ve, ne, ec, sv', xl. cbv zeta.
  rewrite <- HE'. fold r.
  split; [exact Hv|]. split; [exact HE|]. split; [exact Hrest|].
  split; [exact Ht|]. split; [exact Htr|]. split; [exact Htlt|].
  split; [exact Hxf|].
  split; [|split; [exact Hs4|split; [apply Hc4; exact Hc3|
           split; [exact Hsv|split; [exact Hxl|split; [exact Hec2|]]]]]].
  2:  { eapply zset_zset; [exact Hve1|exact Hve4]. }
  (* the run of [propagation_rule] *)
  unfold propagation_rule.
  rewrite (v_slot_get g from arr Hv). rewrite (zget_count arr Hw).
  rewrite <- (entries_length arr Hw). fold k.
  assert (Hscan : scan_unsolved (Z.to_nat k) g arr 0 = Some (t, Z.of_nat (length E1))).
  { replace (Z.to_nat k) with (length E1 + S (length E2))%nat
      by (unfold k; rewrite HE, length_app; cbn [length]; lia).
    rewrite Harr, HE. rewrite <- app_assoc. cbn [app].
    apply (scan_unsolved_found E1 [] g _ t (E2 ++ stale) (length E2)).
    - eapply Forall_impl; [|exact HE1]. simpl. apply is_solved_true_get.
    - rewrite solved_get by (rewrite (str_len_solved g Hs); lia). congruence. }
  rewrite Hscan.
  rewrite c_assert_true by (apply negb_true_iff; zcmp).
  assert (Hi : Z.of_nat (length E1) < k).
  { unfold k. rewrite HE, length_app. cbn [length]. lia. }
  rewrite c_assert_true by zcmp.
  rewrite Hz, Ha1, Ha2. fold arr'. rewrite Hve1, Hdel. fold g2.
  change (mblocks g2) with (mblocks g). change (xor_list g2) with (xor_list g).
  change (solved g2) with (solved g).
  assert (Hcheck : (if t <? mblocks g
                    then xt <- zget (xor_list g) t ;;
                         c_assert match xt with None => true | Some _ => false end
                    else Some tt) = Some tt).
  { destruct (t <? mblocks g); [rewrite Hxt|]; reflexivity. }
  rewrite Hcheck. rewrite (xor_slot_get g from xarr Hxf).
  pose proof (v_slot_get g2 from arr' Hv2) as Hvg2.
  change (mblocks g2) with (mblocks g) in Hvg2. rewrite Hvg2, Hprop.
  rewrite solved_get by (rewrite (str_len_solved g Hs); lia). rewrite Ht.
  cbn [negb c_assert]. rewrite Hsv.
  change (xor_list (set_solved g2 sv')) with (xor_list g). rewrite Hxt.
  cbn [c_assert]. rewrite Hxl. fold g3. rewrite Hdec. reflexivity.
Qed.

(** * The resolver keeps the invariant *)

Lemma graph_str_frame g uc d p :
  graph_str g ->
  Forall (fun u => mblocks g <= u < nodes g /\ u < node_space g) p ->
  (d = true -> uc = 0) ->
  graph_str (mk_graph (mblocks g) (ablocks g) (coblocks g) (nodes g) (node_space g)
               uc d (v_edges g) (n_edges g) (edge_count g) (solved g) (xor_list g) p).
Proof.
  intros Hs Hp Hd. constructor; try solve [apply Hs]; assumption.
Qed.

Lemma recipes_kept_set g g' t r :
  zset (xor_list g) t (Some r) = Some (xor_list g') -> xor_slot g t = None ->
  recipes_kept g g'.
Proof.
  intros Hz Hn n r' Hr. rewrite (xor_slot_set g g' _ _ n Hz).
  destruct (n =? t) eqn:E; [|exact Hr]. apply Z.eqb_eq in E. subst n. congruence.
Qed.

Lemma unsolved_no_recipe g t :
  graph_str g -> 0 <= t < coblocks g -> is_solved (solved g) t = false ->
  xor_slot g t = None.
Proof.
  intros Hs Ht Hun. destruct (xor_slot g t) eqn:E; [|reflexivity].
  assert (is_solved (solved g) t = true); [|congruence].
  apply (str_xor_solved g Hs t Ht). congruence.
Qed.

Lemma resolve_loop_ok (fuel : nat) : forall g sl,
  graph_str g -> counts_ok (solved g) g -> done g = false ->
  (length (pending g) < fuel)%nat ->
  exists g' sl', resolve_loop fuel g sl = Some (g', sl') /\ graph_inv g' /\
    recipes_kept g g'.
Proof.
  induction fuel as [|fuel IH]; intros g sl Hs Hc Hd Hfuel; [lia|].
  cbn [resolve_loop]. destruct (pending g) as [|from rest] eqn:Hp.
  { exists g, sl. split; [reflexivity|]. split; [|intros n r H; exact H].
    split; [exact Hs|]. intros _. exact Hc. }
  unfold oc_shift_pending. rewrite Hp.
  pose proof (str_pending g Hs) as Hpend. rewrite Hp in Hpend.
  inversion Hpend as [|? ? Hfrom Hrest]; subst.
  set (g1 := set_pending g rest).
  assert (Hs1 : graph_str g1).
  { apply (graph_str_frame g (unsolved_count g) (done g) rest Hs Hrest).
    apply (str_done g Hs). }
  assert (Hc1 : counts_ok (solved g1) g1) by exact Hc.
  change (mblocks g1) with (mblocks g). change (coblocks g1) with (coblocks g).
  rewrite c_assert_true by zcmp.
  destruct (edge_count_get g from Hs) as [cu Hcu]; [lia|].
  change (edge_count g1) with (edge_count g). rewrite Hcu.
  simpl in Hfuel.
  assert (Hdiscard : exists g' sl', resolve_loop fuel g1 sl = Some (g', sl') /\ graph_inv g'
                       /\ recipes_kept g g').
  { destruct (IH g1 sl Hs1 Hc1 Hd) as (g' & sl' & Hr1 & Hr2 & Hr3); [simpl; lia|].
    exists g', sl'. split; [exact Hr1|]. split; [exact Hr2|exact Hr3]. }
  destruct (cu >? 1) eqn:Hgt; [exact Hdiscard|].
  destruct (cu =? 0) eqn:H0.
  - (* no unsolved edge *)
    apply Z.eqb_eq in H0. subst cu.
    assert (Hsp : (if from >=? coblocks g then Some true else zget (solved g1) from)
                  = Some (if from >=? coblocks g then true else is_solved (solved g) from)).
    { destruct (from >=? coblocks g) eqn:E; [reflexivity|].
      change (solved g1) with (solved g). apply solved_get. rewrite (str_len_solved g Hs).
      rewrite Z.geb_leb in E. apply Z.leb_gt in E. pose proof (str_mblocks g Hs). lia. }
    rewrite Hsp.
    destruct (if from >=? coblocks g then true else is_solved (solved g) from) eqn:Hspent.
    + destruct (decommission_inv g1 from Hs1) as (ve & ne & Hdec & Hs2 & Hc2 & _).
      { simpl. lia. } { exact Hcu. }
      { destruct (from >=? coblocks g) eqn:E; [left|right; exact Hspent].
        rewrite Z.geb_leb in E. apply Z.leb_le in E. exact E. }
      cbv zeta in Hdec, Hs2, Hc2. rewrite Hdec.
      destruct (IH (set_n_edges (set_v_edges g1 ve) ne) sl Hs2 (Hc2 _ Hc1) Hd)
        as (g' & sl' & Hr1 & Hr2 & Hr3); [simpl; lia|].
      exists g', sl'. split; [exact Hr1|]. split; [exact Hr2|exact Hr3].
    + destruct (from >=? coblocks g) eqn:E; [discriminate|].
      rewrite Z.geb_leb in E. apply Z.leb_gt in E.
      destruct (aux_rule_inv g1 from Hs1 Hc1) as (arr & sv' & xl & ve & ne & Haux);
        [simpl; lia|exact Hspent|exact Hcu|].
      cbv zeta in Haux.
      destruct Haux as (Hv & Hsv & Hxl & Hve & Hrun & Hs2 & Hc2 & _).
      rewrite Hrun.
      set (g2 := set_n_edges (set_v_edges (set_xor_list (set_solved g1 sv') xl) ve) ne) in *.
      destruct (cascade_inv g2 (solved g) from Hs2 Hc2 Hspent Hsv)
        as (ec & Hcas & _ & _ & Hs3 & Hc3); [simpl; pose proof (str_mblocks g Hs); lia|].
      rewrite Hcas. eexists _, _. split; [reflexivity|]. split.
      * split; [exact Hs3|]. intros _. exact Hc3.
      * apply (recipes_kept_set g _ from arr); [exact Hxl|].
        apply unsolved_no_recipe; [exact Hs| |exact Hspent].
        pose proof (str_mblocks g Hs). lia.
  - destruct (cu =? 1) eqn:H1.
    + (* one unsolved edge *)
      apply Z.eqb_eq in H1. subst cu.
      assert (Hsk : (if from <? coblocks g
                     then s <- zget (solved g1) from ;; Some (negb s)
                     else Some false)
                    = Some (if from <? coblocks g
                            then negb (is_solved (solved g) from) else false)).
      { destruct (from <? coblocks g) eqn:E; [|reflexivity].
        apply Z.ltb_lt in E. change (solved g1) with (solved g).
        rewrite solved_get; [reflexivity|].
        rewrite (str_len_solved g Hs). pose proof (str_mblocks g Hs). lia. }
      rewrite Hsk.
      destruct (if from <? coblocks g then negb (is_solved (solved g) from) else false)
        eqn:Hskip; [exact Hdiscard|].
      destruct (propagation_inv g1 from Hs1 Hc1)
        as (arr & E1 & t & E2 & xarr & ve & ne & ec & sv' & xl & Hprop);
        [simpl; lia|exact Hcu| |].
      { destruct (from <? coblocks g) eqn:E.
        - right. apply negb_false_iff in Hskip. exact Hskip.
        - left. apply Z.ltb_ge in E. exact E. }
      cbv zeta in Hprop.
      destruct Hprop as (Hv & HE & HrestE & Ht & Htr & Htlt & Hxf & Hrun & Hs2 & Hc2
                         & Hsv & Hxl & Hec & Hve).
      rewrite Hrun.
      set (g2 := with_arrays g1 ve ne ec sv' xl) in *.
      assert (Hkept : forall gx, xor_list gx = xl -> recipes_kept g gx).
      { intros gx Hgx. eapply (recipes_kept_set g gx t); [rewrite Hgx; exact Hxl|].
        apply unsolved_no_recipe; assumption. }
      change (mblocks g2) with (mblocks g).
      destruct (t <? mblocks g) eqn:Hmsg.
      * cbn [unsolved_count set_unsolved_count].
        change (unsolved_count g2) with (unsolved_count g).
        destruct (unsolved_count g - 1 =? 0) eqn:Hlast.
        -- apply Z.eqb_eq in Hlast. eexists _, _. split; [reflexivity|].
           split; [|apply Hkept; reflexivity].
           split; [|simpl; discriminate].
           apply (graph_str_frame g2 (unsolved_count g - 1) true [] Hs2);
             [constructor|auto].
        -- set (g3 := set_unsolved_count g2 (unsolved_count g - 1)).
           assert (Hs3 : graph_str g3).
           { apply (graph_str_frame g2 (unsolved_count g - 1) (done g2) (pending g2) Hs2).
             - apply Hs2.
             - simpl. congruence. }
           destruct (cascade_inv g3 (solved g) t Hs3 Hc2 Ht Hsv Htr)
             as (ec3 & Hcas & _ & _ & Hs4 & Hc4).
           rewrite Hcas. eexists _, _. split; [reflexivity|].
           split; [|apply Hkept; reflexivity].
           split; [exact Hs4|]. intros _. exact Hc4.
      * apply Z.ltb_ge in Hmsg.
        set (g3 := oc_push_pending g2 t).
        assert (Hs3 : graph_str g3).
        { apply (graph_str_frame g2 (unsolved_count g2) (done g2) (pending g2 ++ [t]) Hs2).
          - apply Forall_app. split; [apply Hs2|]. constructor; [|constructor].
            simpl. pose proof (str_nodes g Hs). pose proof (str_space g Hs). lia.
          - apply Hs2. }
        destruct (cascade_inv g3 (solved g) t Hs3 Hc2 Ht Hsv Htr)
          as (ec3 & Hcas & _ & _ & Hs4 & Hc4).
        rewrite Hcas. eexists _, _. split; [reflexivity|].
        split; [|apply Hkept; reflexivity].
        split; [exact Hs4|]. intros _. exact Hc4.
    + eexists _, _. split; [reflexivity|]. split; [|intros n r H; exact H].
      split; [exact Hs1|]. intros _. exact Hc1.
Qed.

Lemma resolve_ok g :
  graph_inv g ->
  exists d sl g', oc_graph_resolve g = Some (d, sl, g') /\ graph_inv g' /\
    recipes_kept g g'.
Proof.
  intros [Hs Hc]. unfold oc_graph_resolve.
  destruct (pending g) as [|from rest] eqn:Hp.
  { eexists _, _, _. split; [reflexivity|]. split; [|intros n r H; exact H].
    split; assumption. }
  destruct (unsolved_count g =? 0) eqn:H0.
  - apply Z.eqb_eq in H0. eexists _, _, _. split; [reflexivity|].
    split; [|intros n r H; exact H].
    split; [|simpl; discriminate].
    apply (graph_str_frame g (unsolved_count g) true (pending g) Hs); [apply Hs|auto].
  - apply Z.eqb_neq in H0.
    assert (Hd : done g = false).
    { destruct (done g) eqn:E; [|reflexivity]. pose proof (str_done g Hs E). lia. }
    destruct (resolve_loop_ok (S (length (pending g))) g [] Hs (Hc Hd) Hd)
      as (g' & sl' & Hrun & Hinv & Hk); [lia|].
    rewrite Hp in Hrun. rewrite Hrun. eexists _, _, _. split; [reflexivity|].
    split; [exact Hinv|exact Hk].
Qed.

(** * The ingest keeps the invariant *)

Lemma check_block_ok_spec g v :
  check_block_ok g v = true ->
  wf_arr v /\ Forall (fun d => 0 <= d < coblocks g) (entries v) /\ NoDup (entries v).
Proof.
  unfold check_block_ok. intros H.
  apply andb_prop in H as [H H4]. apply andb_prop in H as [H H3].
  apply andb_prop in H as [H1 H2].
  apply Z.leb_le in H1. apply Z.ltb_lt in H2.
  split; [unfold wf_arr; lia|]. split; [|apply nodupb_NoDup; exact H4].
  apply Forall_forall. intros d Hd. rewrite forallb_forall in H3.
  specialize (H3 d Hd). apply andb_prop in H3 as [Ha Hb].
  apply Z.leb_le in Ha. apply Z.ltb_lt in Hb. lia.
Qed.

Lemma In_repeat {A} (x y : A) n : In y (repeat x n) <-> y = x /\ (0 < n)%nat.
Proof.
  induction n as [|n IH]; simpl; [intuition lia|].
  rewrite IH. intuition (auto; lia).
Qed.

Lemma filter_filter {A} (f : A -> bool) l : filter f (filter f l) = filter f l.
Proof.
  induction l as [|x l IH]; [reflexivity|]. simpl.
  destruct (f x) eqn:E; simpl; rewrite ?E, IH; reflexivity.
Qed.

Lemma count_unsolved_kept sv (E kept : list Z) :
  Permutation kept (unsolved_in sv E) ->
  count_unsolved sv kept = Z.of_nat (length kept).
Proof.
  intros Hp. rewrite (count_unsolved_perm _ _ _ Hp).
  unfold count_unsolved, unsolved_in. rewrite filter_filter.
  rewrite (Permutation_length Hp). reflexivity.
Qed.

Lemma graph_str_full g : graph_str g -> node_space g <= nodes g ->
  graph_str (set_nodes g (nodes g + 1)).
Proof.
  intros Hs Hfull. constructor; try solve [apply Hs].
  - simpl. pose proof (str_nodes g Hs). lia.
  - intros u arr Hu. destruct (str_varr g Hs u arr Hu) as (Ha & Hb & Hc & Hd).
    simpl. refine (conj Ha (conj _ (conj Hc Hd))). lia.
  - intros c Hc Hc'. simpl in *. apply (str_xor_check g Hs c); lia.
  - intros n r Hr. eapply recipe_ok_mono; [apply (str_xor_ok g Hs n r Hr)| | |];
      simpl; auto; lia.
  - simpl. eapply Forall_impl; [|apply (str_pending g Hs)]. simpl. intros; lia.
Qed.

Lemma ingest_inv g (E stale : list Z) ne xl ve ec kept xs stale' :
  let node := nodes g in
  let sv := solved g in
  graph_inv g -> coblocks g <= node < node_space g ->
  Forall (fun d => 0 <= d < coblocks g) E -> NoDup E ->
  Permutation kept (unsolved_in sv E) ->
  Permutation xs (solved_in sv E) ->
  zset (xor_list g) node (Some (Z.of_nat (length (node :: xs)) :: node :: xs)) = Some xl ->
  zset (v_edges g) (node - mblocks g)
    (Some (Z.of_nat (length kept) :: kept ++ stale')) = Some ve ->
  zset (edge_count g) (node - mblocks g) (Z.of_nat (length kept)) = Some ec ->
  length ne = length (n_edges g) ->
  (forall l, n_cells (set_n_edges g ne) l =
     repeat node (count_occ Z.eq_dec (unsolved_in sv E) l) ++ n_cells g l) ->
  graph_inv (ingested g ne xl ve ec).
Proof.
  intros node sv [Hs Hc] Hnode HE HndE Hk Hxs Hxl Hve Hec Hlne Hcells.
  set (g' := ingested g ne xl ve ec).
  pose proof (str_mblocks g Hs) as Hm. pose proof (str_coblocks g Hs) as Hco.
  pose proof (str_ablocks g Hs) as Hab.
  assert (Hndk : NoDup kept).
  { eapply Permutation_NoDup; [symmetry; exact Hk|]. apply NoDup_filter. exact HndE. }
  assert (HkE : forall l, In l kept <-> In l E /\ is_solved sv l = false).
  { intros l. split.
    - intros Hl. apply (Permutation_in _ Hk) in Hl. apply filter_In in Hl as [H1 H2].
      split; [assumption|]. apply negb_true_iff in H2. exact H2.
    - intros [H1 H2]. apply (Permutation_in _ (Permutation_sym Hk)).
      apply filter_In. split; [assumption|]. rewrite H2. reflexivity. }
  assert (Hfresh : v_slot g node = None).
  { destruct (v_slot g node) eqn:Hv; [|reflexivity].
    pose proof (v_slot_range g node _ Hs Hv). lia. }
  assert (Hfresh_n : forall l, ~ In node (n_cells g l)).
  { intros l Hin. apply (str_recip g Hs) in Hin. destruct Hin as (a & Hv & _). congruence. }
  assert (Hvs : forall u, v_slot g' u =
            if u =? node then Some (Z.of_nat (length kept) :: kept ++ stale') else v_slot g u).
  { intros u. rewrite (v_slot_set g g' _ _ u Hve eq_refl).
    destruct (u - mblocks g =? node - mblocks g) eqn:E1; destruct (u =? node) eqn:E2;
      try reflexivity.
    - apply Z.eqb_eq in E1. apply Z.eqb_neq in E2. lia.
    - apply Z.eqb_neq in E1. apply Z.eqb_eq in E2. lia. }
  assert (Hxsl : forall n, xor_slot g' n =
            if n =? node then Some (Z.of_nat (length (node :: xs)) :: node :: xs)
            else xor_slot g n).
  { intros n. apply (xor_slot_set g g'). exact Hxl. }
  assert (Hncs : forall l, n_cells g' l =
            repeat node (count_occ Z.eq_dec (unsolved_in sv E) l) ++ n_cells g l)
    by exact Hcells.
  assert (Hocc : forall l, (count_occ Z.eq_dec (unsolved_in sv E) l <= 1)%nat).
  { apply NoDup_count_occ. apply NoDup_filter. exact HndE. }
  assert (Hnc : forall l u, In u (n_cells g' l) <->
            (u = node /\ In l kept) \/ In u (n_cells g l)).
  { intros l u. rewrite Hncs, in_app_iff, In_repeat.
    assert (Hpos : (0 < count_occ Z.eq_dec (unsolved_in sv E) l)%nat <->
                   In l (unsolved_in sv E))
      by (symmetry; apply count_occ_In).
    rewrite Hpos.
    split; (intros [[-> H]|H]; [left; split; [reflexivity|]|right; exact H]).
    - eapply Permutation_in; [symmetry; exact Hk|exact H].
    - eapply Permutation_in; [exact Hk|exact H]. }
  split.
  - constructor; try solve [apply Hs].
    + simpl. pose proof (str_nodes g Hs). lia.
    + simpl. rewrite (zset_length _ _ _ _ Hve). apply Hs.
    + simpl. rewrite Hlne. apply Hs.
    + simpl. rewrite (zset_length _ _ _ _ Hec). apply Hs.
    + simpl. rewrite (zset_length _ _ _ _ Hxl). apply Hs.
    + intros u arr Hu. rewrite Hvs in Hu. destruct (u =? node) eqn:Eu.
      * apply Z.eqb_eq in Eu. subst u. injection Hu as <-. rewrite entries_packed.
        refine (conj (wf_arr_packed _ _) (conj _ (conj Hndk _))); [simpl; lia|].
        apply Forall_forall. intros d Hd. apply HkE in Hd as [Hd _].
        rewrite Forall_forall in HE. specialize (HE d Hd). simpl. unfold node in *. lia.
      * destruct (str_varr g Hs u arr Hu) as (Ha & Hb & Hc' & Hd).
        simpl. refine (conj Ha (conj _ (conj Hc' Hd))). lia.
    + intros i Hi. simpl in Hi. rewrite (zget_zset _ _ _ _ i Hve) in Hi. simpl.
      rewrite (zget_zset _ _ _ _ i Hec).
      destruct (i =? node - mblocks g); [discriminate|]. apply (str_vnull g Hs i Hi).
    + intros l. rewrite Hncs. specialize (Hocc l).
      destruct (count_occ Z.eq_dec (unsolved_in sv E) l) as [|[|c]]; simpl.
      * apply Hs.
      * constructor; [apply Hfresh_n|apply Hs].
      * lia.
    + intros u l. rewrite Hnc. unfold vedge. rewrite Hvs.
      destruct (u =? node) eqn:Eu.
      * apply Z.eqb_eq in Eu. subst u. split.
        -- intros [[_ Hl]|Hin]; [|exfalso; exact (Hfresh_n l Hin)].
           eexists. split; [reflexivity|]. rewrite entries_packed. exact Hl.
        -- intros (a & [= <-] & Hl). rewrite entries_packed in Hl. left. auto.
      * apply Z.eqb_neq in Eu. rewrite (str_recip g Hs u l). unfold vedge.
        split; [intros [[? _]|H]; [contradiction|exact H]|auto].
    + intros a Ha Hsa. rewrite Hvs. simpl in Ha.
      destruct (a =? node) eqn:Ea; [discriminate|]. apply (str_aux_live g Hs a Ha Hsa).
    + intros n Hn. rewrite Hxsl. simpl in Hn.
      destruct (n =? node) eqn:En; [apply Z.eqb_eq in En; unfold node in *; lia|].
      apply (str_xor_solved g Hs n Hn).
    + intros c Hc1 Hc2. rewrite Hxsl. destruct (c =? node) eqn:Ec; [discriminate|].
      apply Z.eqb_neq in Ec. simpl in Hc1, Hc2. apply (str_xor_check g Hs c); unfold node in *; lia.
    + intros n r Hr. rewrite Hxsl in Hr. destruct (n =? node) eqn:En.
      * apply Z.eqb_eq in En. subst n.
        assert (Hreq : r = Z.of_nat (length (node :: xs)) :: node :: xs) by congruence.
        subst r.
        pose proof (wf_arr_packed (node :: xs) []) as Hw.
        pose proof (entries_packed (node :: xs) []) as He.
        rewrite app_nil_r in Hw, He. unfold recipe_ok. rewrite He.
        refine (conj Hw (conj _ (conj _ (conj _ _)))); simpl; try lia.
        -- constructor; [left; unfold node in *; lia|].
           apply Forall_forall. intros e He'. right.
           apply (Permutation_in _ Hxs) in He'. apply filter_In in He' as [_ H]. exact H.
        -- intros _. reflexivity.
      * eapply recipe_ok_mono; [apply (str_xor_ok g Hs n r Hr)| | |];
          simpl; auto; lia.
    + simpl. apply Forall_app. split.
      * eapply Forall_impl; [|apply (str_pending g Hs)]. simpl. intros; lia.
      * constructor; [|constructor]. unfold node in *. lia.
  - intros Hd. specialize (Hc Hd). intros u arr Hu. rewrite Hvs in Hu.
    unfold edge_count_of. simpl. rewrite (zget_zset _ _ _ _ _ Hec).
    destruct (u =? node) eqn:Eu.
    + apply Z.eqb_eq in Eu. subst u. injection Hu as <-. rewrite Z.eqb_refl.
      rewrite entries_packed. f_equal. symmetry. eapply count_unsolved_kept; eauto.
    + apply Z.eqb_neq in Eu.
      destruct (u - mblocks g =? node - mblocks g) eqn:E1; [apply Z.eqb_eq in E1; lia|].
      apply (Hc u arr Hu).
Qed.

Lemma check_block_ok_inv g v :
  graph_inv g -> check_block_ok g v = true ->
  exists r g', oc_graph_check_block g v = Some (r, g') /\ graph_inv g' /\
    recipes_kept g g'.
Proof.
  intros Hinv Hv. pose proof Hinv as [Hs Hc].
  destruct (check_block_ok_spec g v Hv) as (Hw & HE & Hnd).
  destruct (Z_lt_le_dec (nodes g) (node_space g)) as [Hlt|Hge].
  - destruct (wf_arr_split v Hw) as [stale Hvs].
    pose proof (str_mblocks g Hs). pose proof (str_ablocks g Hs).
    pose proof (str_coblocks g Hs). pose proof (str_nodes g Hs).
    destruct (check_block_spec g (entries v) stale)
      as (ne & xl & ve & ec & kept & xs & stale' & Hrun & Hk & Hxs & Hxl & Hve & Hec
          & Hlne & _ & Hcells); try apply Hs; try lia; try assumption.
    rewrite <- Hvs in Hrun. eexists _, _. split; [exact Hrun|]. split.
    + eapply ingest_inv; eauto; lia.
    + apply (recipes_kept_set g (ingested g ne xl ve ec) (nodes g) _ Hxl).
      destruct (xor_slot g (nodes g)) eqn:Hx; [|reflexivity].
      destruct (str_xor_ok g Hs _ _ Hx) as (_ & Hlt' & _). lia.
  - exists (-1), (set_nodes g (nodes g + 1)). split.
    + unfold oc_graph_check_block. simpl.
      zbool (nodes g >=? node_space g) true. reflexivity.
    + split; [|intros n r H; exact H].
      split; [apply graph_str_full; assumption|]. intros Hd. exact (Hc Hd).
Qed.

(** * The loops over the auxiliary map *)

Lemma skipn_nth {A} (l : list A) n x :
  nth_error l n = Some x -> skipn n l = x :: skipn (S n) l.
Proof.
  revert n; induction l as [|h t IH]; intros [|n] H; simpl in *; try discriminate.
  - congruence.
  - apply IH. exact H.
Qed.

Lemma fold_pairs_app body ps1 : forall g ps2,
  fold_pairs body g (ps1 ++ ps2) =
  (g1 <- fold_pairs body g ps1 ;; fold_pairs body g1 ps2).
Proof.
  induction ps1 as [|[a m] ps1 IH]; intros g ps2; simpl; [reflexivity|].
  destruct (body g a m); [apply IH|reflexivity].
Qed.

Lemma map_row_fold body (n : nat) : forall g amap mp msg g' mp',
  0 <= mp ->
  map_row body n g amap mp msg = Some (g', mp') ->
  length (firstn n (skipn (Z.to_nat mp) amap)) = n /\
  mp' = mp + Z.of_nat n /\
  fold_pairs body g
    (map (fun a => (a, msg)) (firstn n (skipn (Z.to_nat mp) amap))) = Some g'.
Proof.
  induction n as [|n IH]; intros g amap mp msg g' mp' Hmp H.
  - simpl in H. injection H as <- <-. simpl. repeat split. lia.
  - cbn [map_row] in H. destruct (zget amap mp) as [a|] eqn:Ha; [|discriminate].
    destruct (body g a msg) as [g1|] eqn:Hb; [|discriminate].
    destruct (IH g1 amap (mp + 1) msg g' mp' ltac:(lia) H) as (Hl & Hmp' & Hf).
    unfold zget in Ha.
    replace (mp <? 0) with false in Ha by (symmetry; zcmp).
    rewrite (skipn_nth _ _ _ Ha). cbn [firstn length map fold_pairs].
    replace (Z.to_nat (mp + 1)) with (S (Z.to_nat mp)) in Hl, Hf by lia.
    rewrite Hb. repeat split; [lia|lia|exact Hf].
Qed.

Lemma map_rows_fold body (n : nat) : forall g amap q (start : nat) g',
  map_rows body n g amap (Z.of_nat (start * Z.to_nat q)) (Z.of_nat start) q = Some g' ->
  fold_pairs body g (map_pairs amap q start n) = Some g' /\
  Forall (fun m => length (aux_row amap q m) = Z.to_nat q) (seq start n).
Proof.
  induction n as [|n IH]; intros g amap q start g' H.
  - simpl in H. injection H as <-. split; [reflexivity|constructor].
  - cbn [map_rows] in H.
    destruct (map_row body (Z.to_nat q) g amap (Z.of_nat (start * Z.to_nat q))
                (Z.of_nat start)) as [[g1 mp1]|] eqn:Hrow; [|discriminate].
    apply map_row_fold in Hrow as (Hl & Hmp & Hf); [|lia].
    rewrite Nat2Z.id in Hl, Hf. subst mp1.
    replace (Z.of_nat (start * Z.to_nat q) + Z.of_nat (Z.to_nat q))
      with (Z.of_nat (S start * Z.to_nat q)) in H by lia.
    replace (Z.of_nat start + 1) with (Z.of_nat (S start)) in H by lia.
    destruct (IH g1 amap q (S start) g' H) as [Hf' Hall].
    split.
    + unfold map_pairs. cbn [seq flat_map]. rewrite fold_pairs_app.
      unfold row_pairs at 1. unfold aux_row. rewrite Hf. exact Hf'.
    + constructor; [exact Hl|exact Hall].
Qed.

(** * The first two stages of the initialisation *)

Lemma int_add_inv a b s :
  int_add a b = Some s -> s = a + b /\ - 2 ^ 31 <= s <= 2 ^ 31 - 1.
Proof.
  unfold int_add. cbv zeta.
  destruct ((- 2 ^ 31 <=? a + b) && (a + b <=? 2 ^ 31 - 1)) eqn:E; [|discriminate].
  intros [= <-]. apply andb_prop in E as [E1 E2].
  apply Z.leb_le in E1, E2. lia.
Qed.

Lemma int_add_Some a b :
  - 2 ^ 31 <= a + b <= 2 ^ 31 - 1 -> int_add a b = Some (a + b).
Proof.
  intros H. unfold int_add. cbv zeta.
  replace ((- 2 ^ 31 <=? a + b) && (a + b <=? 2 ^ 31 - 1)) with true; [reflexivity|].
  symmetry. apply andb_true_intro. split; apply Z.leb_le; lia.
Qed.

Lemma init_stage1_inv g a m g' :
  init_stage1 g a m = Some g' ->
  a > m /\ 0 <= a - mblocks g < ablocks g /\
  0 <= m < Z.of_nat (length (n_edges g)) /\
  exists ne ec c,
    g' = set_edge_count (set_n_edges g ne) ec /\
    zset (n_edges g) m (a :: n_cells g m) = Some ne /\
    zget (edge_count g) (a - mblocks g) = Some c /\
    zset (edge_count g) (a - mblocks g) (c + 2) = Some ec.
Proof.
  unfold init_stage1, oc_create_n_edge. intros H.
  destruct (c_assert (a >? m)) eqn:H1; [|discriminate].
  apply c_assert_inv in H1. apply Z.gtb_lt in H1.
  destruct (zget (n_edges g) m) as [cells|] eqn:Hcells; [|discriminate].
  destruct (zset (n_edges g) m (a :: cells)) as [ne|] eqn:Hne; [|discriminate].
  cbn [mblocks ablocks edge_count set_n_edges] in H.
  destruct (c_assert (a - mblocks g >=? 0)) eqn:H2; [|discriminate].
  apply c_assert_inv in H2. rewrite Z.geb_leb in H2. apply Z.leb_le in H2.
  destruct (c_assert (a - mblocks g <? ablocks g)) eqn:H3; [|discriminate].
  apply c_assert_inv in H3. apply Z.ltb_lt in H3.
  destruct (zget (edge_count g) (a - mblocks g)) as [c|] eqn:Hc; [|discriminate].
  destruct (int_add c 2) as [c2|] eqn:Hc2; [|discriminate].
  apply int_add_inv in Hc2 as [-> _].
  destruct (zset (edge_count g) (a - mblocks g) (c + 2)) as [ec|] eqn:Hec; [|discriminate].
  injection H as <-.
  split; [lia|]. split; [lia|]. split; [eapply zget_Some_range; eauto|].
  exists ne, ec, c. unfold n_cells. rewrite Hcells. auto.
Qed.

Lemma stage1_fold (ps : list (Z * Z)) : forall g g',
  fold_pairs init_stage1 g ps = Some g' ->
  Forall (fun p => fst p > snd p /\ 0 <= fst p - mblocks g < ablocks g /\
                   0 <= snd p < Z.of_nat (length (n_edges g))) ps /\
  g' = set_edge_count (set_n_edges g (n_edges g')) (edge_count g') /\
  length (n_edges g') = length (n_edges g) /\
  length (edge_count g') = length (edge_count g) /\
  (forall l, n_cells g' l = rev (uppers_of l ps) ++ n_cells g l) /\
  (forall i, zget (edge_count g') i =
     option_map (fun c => c + 2 * Z.of_nat (length (members (mblocks g) i ps)))
       (zget (edge_count g) i)).
Proof.
  induction ps as [|[a m] ps IH]; intros g g' H.
  - simpl in H. injection H as <-. split; [constructor|].
    split; [destruct g; reflexivity|]. repeat split.
    intros i. unfold members. simpl. destruct (zget (edge_count g) i); simpl; f_equal. lia.
  - cbn [fold_pairs] in H. destruct (init_stage1 g a m) as [g1|] eqn:H1; [|discriminate].
    apply init_stage1_inv in H1 as (Ham & Ha & Hm & ne & ec & c & -> & Hne & Hc & Hec).
    destruct (IH _ _ H) as (Hall & Hg' & Hln & Hle & Hcells & Hcnt). clear IH.
    cbn [mblocks ablocks n_edges edge_count set_edge_count set_n_edges]
      in Hall, Hg', Hln, Hle, Hcnt.
    split; [|split; [|split; [|split; [|split]]]].
    + constructor; [simpl; lia|].
      rewrite (zset_length _ _ _ _ Hne) in Hall. exact Hall.
    + exact Hg'.
    + rewrite Hln. eapply zset_length; eauto.
    + rewrite Hle. eapply zset_length; eauto.
    + intros l. rewrite Hcells.
      change (n_cells (set_edge_count (set_n_edges g ne) ec) l)
        with (n_cells (set_n_edges g ne) l).
      rewrite (n_cells_set g ne m (a :: n_cells g m) l Hne).
      unfold uppers_of. cbn [filter snd]. rewrite (Z.eqb_sym m l).
      destruct (l =? m) eqn:E.
      * apply Z.eqb_eq in E. subst l. cbn [map fst rev].
        rewrite <- app_assoc. reflexivity.
      * reflexivity.
    + intros i. rewrite Hcnt. rewrite (zget_zset _ _ _ _ i Hec).
      unfold members. cbn [filter fst].
      destruct (i =? a - mblocks g) eqn:E.
      * apply Z.eqb_eq in E. subst i. rewrite Hc.
        zbool (a =? mblocks g + (a - mblocks g)) true.
        cbn [option_map map length]. f_equal. lia.
      * apply Z.eqb_neq in E. zbool (a =? mblocks g + i) false. reflexivity.
Qed.

Lemma init_stage2_range (n : nat) : forall g aux g',
  init_stage2 n g aux = Some g' -> 0 <= aux -> (0 < n)%nat ->
  aux + Z.of_nat n <= Z.of_nat (length (v_edges g)).
Proof.
  induction n as [|n IH]; intros g aux g' H Haux Hn; [lia|].
  cbn [init_stage2] in H.
  destruct (zget (edge_count g) aux) as [c|]; [|discriminate].
  destruct (calloc 0 (1 + Z.shiftr c 1)) as [p|]; [|discriminate].
  destruct (zset p 0 (Z.shiftr c 1)) as [p'|]; [|discriminate].
  destruct (zset (v_edges g) aux (Some p')) as [ve|] eqn:Hve; [|discriminate].
  pose proof (zset_inv _ _ _ _ Hve) as [Hr _].
  destruct n as [|n]; [lia|].
  specialize (IH _ _ _ H ltac:(lia) ltac:(lia)). simpl in IH.
  rewrite (zset_length _ _ _ _ Hve) in IH. lia.
Qed.

Lemma init_stage2_ok (n : nat) : forall g aux,
  0 <= aux -> aux + Z.of_nat n <= Z.of_nat (length (v_edges g)) ->
  (forall i, aux <= i < aux + Z.of_nat n ->
     exists c, zget (edge_count g) i = Some c /\ 0 <= c) ->
  exists ve, init_stage2 n g aux = Some (set_v_edges g ve) /\
    length ve = length (v_edges g) /\
    (forall i, zget ve i =
       if (aux <=? i) && (i <? aux + Z.of_nat n)
       then option_map (fun c => Some (blank_array c)) (zget (edge_count g) i)
       else zget (v_edges g) i).
Proof.
  induction n as [|n IH]; intros g aux Haux Hlen Hec.
  - exists (v_edges g). split; [destruct g; reflexivity|]. split; [reflexivity|].
    intros i. destruct (aux <=? i) eqn:E; [|reflexivity]. apply Z.leb_le in E.
    zbool (i <? aux + Z.of_nat 0) false. reflexivity.
  - cbn [init_stage2]. destruct (Hec aux ltac:(lia)) as (c & Hc & Hc0).
    rewrite Hc. assert (Hsh : 0 <= Z.shiftr c 1) by (apply Z.shiftr_nonneg; exact Hc0).
    rewrite calloc_Some by lia.
    replace (Z.to_nat (1 + Z.shiftr c 1)) with (S (Z.to_nat (Z.shiftr c 1))) by lia.
    cbn [repeat]. unfold zset at 1. cbn [length].
    replace (0 <=? 0) with true by reflexivity.
    match goal with |- context [0 <? ?k] => zbool (0 <? k) true end.
    cbn [andb Z.to_nat upd]. fold (blank_array c).
    destruct (zset_Some (v_edges g) aux (Some (blank_array c))) as [ve1 Hve1]; [lia|].
    rewrite Hve1.
    destruct (IH (set_v_edges g ve1) (aux + 1)) as (ve & Hrun & Hl & Hget).
    + lia.
    + simpl. rewrite (zset_length _ _ _ _ Hve1). lia.
    + intros i Hi. simpl. apply Hec. lia.
    + exists ve. split; [exact Hrun|]. split.
      * rewrite Hl. simpl. eapply zset_length; eauto.
      * intros i. rewrite Hget. cbn [edge_count v_edges set_v_edges].
        rewrite (zget_zset _ _ _ _ i Hve1).
        destruct (i =? aux) eqn:E.
        -- apply Z.eqb_eq in E. subst i. zbool (aux + 1 <=? aux) false.
           zbool (aux <=? aux) true. zbool (aux <? aux + Z.of_nat (S n)) true.
           rewrite Hc. reflexivity.
        -- apply Z.eqb_neq in E.
           destruct (Z_le_gt_dec (aux + 1) i) as [H1|H1].
           ++ zbool (aux + 1 <=? i) true. zbool (aux <=? i) true.
              replace (aux + 1 + Z.of_nat n) with (aux + Z.of_nat (S n)) by lia.
              reflexivity.
           ++ zbool (aux + 1 <=? i) false. zbool (aux <=? i) false. reflexivity.
Qed.

(** * The third stage of the initialisation *)

Lemma members_app mb i ps1 ps2 :
  members mb i (ps1 ++ ps2) = members mb i ps1 ++ members mb i ps2.
Proof. unfold members. rewrite filter_app, map_app. reflexivity. Qed.

Lemma members_one mb i a m :
  members mb i [(a, m)] = if a =? mb + i then [m] else [].
Proof. unfold members. simpl. destruct (a =? mb + i); reflexivity. Qed.

Lemma partial_array_store (n : nat) (stored : list Z) m :
  (length stored < n)%nat ->
  zset (partial_array n stored) (Z.of_nat n - Z.of_nat (length stored)) m
  = Some (partial_array n (stored ++ [m])).
Proof.
  intros H. unfold partial_array.
  replace (n - length stored)%nat with (S (n - length (stored ++ [m])))
    by (rewrite length_app; simpl; lia).
  cbn [repeat]. rewrite <- repeat_snoc, <- app_assoc. cbn [app].
  rewrite rev_app_distr. cbn [rev app].
  pose proof (zset_mid (Z.of_nat n :: repeat 0 (n - length (stored ++ [m])))
                0 (rev stored) m) as Hz.
  cbn [app length] in Hz. rewrite repeat_length in Hz.
  replace (Z.of_nat (S (n - length (stored ++ [m]))))
    with (Z.of_nat n - Z.of_nat (length stored)) in Hz
    by (rewrite length_app; cbn [length]; lia).
  exact Hz.
Qed.

Lemma stage3_fold ab (rest : list (Z * Z)) : forall pre g,
  Forall (fun p => 0 <= fst p - mblocks g < ab) rest ->
  stage3_state (mblocks g) ab (pre ++ rest) pre g ->
  exists ve ec,
    let g' := set_v_edges (set_edge_count g ec) ve in
    fold_pairs init_stage3 g rest = Some g' /\
    length ve = length (v_edges g) /\ length ec = length (edge_count g) /\
    stage3_state (mblocks g) ab (pre ++ rest) (pre ++ rest) g' /\
    (forall i, ~ (0 <= i < ab) ->
       zget ve i = zget (v_edges g) i /\ zget ec i = zget (edge_count g) i).
Proof.
  induction rest as [|[a m] rest IH]; intros pre g Hr Hst.
  - exists (v_edges g), (edge_count g). cbv zeta. rewrite app_nil_r in *.
    replace (set_v_edges (set_edge_count g (edge_count g)) (v_edges g)) with g
      by (destruct g; reflexivity).
    split; [reflexivity|]. split; [reflexivity|]. split; [reflexivity|].
    split; [exact Hst|]. intros i _. split; reflexivity.
  - inversion Hr as [|? ? Ha Hr']; subst. cbn [fst] in Ha.
    set (mb := mblocks g) in *. set (i0 := a - mb).
    destruct (Hst i0 Ha) as [Hv Hc].
    set (all := pre ++ (a, m) :: rest) in *.
    assert (Hall : members mb i0 all =
                   members mb i0 pre ++ m :: members mb i0 rest).
    { unfold all. rewrite members_app.
      change ((a, m) :: rest) with ([(a, m)] ++ rest).
      rewrite members_app, members_one. unfold i0.
      zbool (a =? mb + (a - mb)) true. reflexivity. }
    set (N := length (members mb i0 all)) in *.
    set (stored := members mb i0 pre) in *.
    assert (HN : (length stored < N)%nat).
    { unfold N. rewrite Hall, length_app. cbn [length]. lia. }
    cbn [fold_pairs]. unfold init_stage3. fold mb. fold i0.
    rewrite Hv, Hc.
    destruct (zset_Some (edge_count g) i0
                (2 * Z.of_nat N - Z.of_nat (length stored) - 1)) as [ec1 Hec1].
    { eapply zget_Some_range; eauto. }
    rewrite Hec1. cbn [v_edges set_edge_count].
    unfold partial_array at 1. cbn [zget Z.ltb Z.compare Z.to_nat nth_error].
    change (0 <? 0) with false. cbn [nth_error].
    replace (2 * Z.of_nat N - Z.of_nat (length stored) - Z.of_nat N)
      with (Z.of_nat N - Z.of_nat (length stored)) by lia.
    rewrite (partial_array_store N stored m HN).
    destruct (zset_Some (v_edges g) i0 (Some (partial_array N (stored ++ [m]))))
      as [ve1 Hve1].
    { eapply zget_Some_range; eauto. }
    rewrite Hve1.
    set (g1 := set_v_edges (set_edge_count g ec1) ve1).
    destruct (IH (pre ++ [(a, m)]) g1) as (ve & ec & Hrun).
    + exact Hr'.
    + rewrite <- app_assoc. cbn [app]. fold all. change (mblocks g1) with mb.
      intros i Hi. unfold g1. cbn [v_edges edge_count set_v_edges set_edge_count].
      rewrite (zget_zset _ _ _ _ i Hve1), (zget_zset _ _ _ _ i Hec1).
      rewrite members_app, members_one.
      destruct (i =? i0) eqn:E.
      * apply Z.eqb_eq in E. subst i.
        assert (Ha0 : (a =? mb + i0) = true) by (unfold i0; zcmp).
        rewrite Ha0. fold N. fold stored. split; [reflexivity|].
        rewrite length_app. cbn [length]. f_equal. lia.
      * apply Z.eqb_neq in E.
        assert (Ha0 : (a =? mb + i) = false) by (unfold i0 in E; zcmp).
        rewrite Ha0, app_nil_r. apply (Hst i Hi).
    + cbv zeta in Hrun. destruct Hrun as (Hrun & Hlv & Hle & Hst' & Hout).
      rewrite <- app_assoc in Hst'. cbn [app] in Hst'.
      exists ve, ec. cbv zeta. split; [exact Hrun|].
      split; [rewrite Hlv; simpl; eapply zset_length; eauto|].
      split; [rewrite Hle; simpl; eapply zset_length; eauto|].
      split; [exact Hst'|].
      intros i Hi. destruct (Hout i Hi) as [H1 H2]. simpl in H1, H2.
      rewrite H1, H2, (zget_zset _ _ _ _ i Hve1), (zget_zset _ _ _ _ i Hec1).
      destruct (i =? i0) eqn:E; [apply Z.eqb_eq in E; unfold i0 in *; lia|]. auto.
Qed.

(** * The graph built by the initialisation *)

Lemma shiftr_double n : 0 <= n -> Z.shiftr (0 + 2 * n) 1 = n.
Proof.
  intros H. rewrite Z.shiftr_div_pow2 by lia. change (2 ^ 1) with 2.
  rewrite Z.add_0_l, Z.mul_comm. apply Z.div_mul. lia.
Qed.

Lemma init_spec codec fudge g :
  oc_graph_init codec fudge = Some (InitOk g) ->
  exists amap cs,
    let mb := Codec.mblocks codec in
    let ab := Codec.ablocks codec in
    let co := Codec.coblocks codec in
    let q := Codec.q codec in
    let ps := map_pairs amap q 0 (Z.to_nat mb) in
    Codec.auxiliary codec = Some amap /\
    check_space_of codec fudge = Some cs /\
    1 <= mb /\ 1 <= ab /\ 0 <= co /\ 0 <= cs /\
    g = mk_graph mb ab co co (co + cs) mb false (v_edges g) (n_edges g)
          (edge_count g) (repeat false (Z.to_nat co))
          (repeat None (Z.to_nat (co + cs))) [] /\
    length (n_edges g) = Z.to_nat co /\
    length (v_edges g) = Z.to_nat (ab + cs) /\
    length (edge_count g) = Z.to_nat (ab + cs) /\
    Forall (fun p => fst p > snd p /\ 0 <= fst p - mb < ab /\ 0 <= snd p < co) ps /\
    Forall (fun m => length (aux_row amap q m) = Z.to_nat q) (seq 0 (Z.to_nat mb)) /\
    (forall l, n_cells g l = rev (uppers_of l ps)) /\
    (forall i, 0 <= i < ab ->
       zget (v_edges g) i =
         Some (Some (Z.of_nat (length (members mb i ps)) :: rev (members mb i ps))) /\
       zget (edge_count g) i = Some (Z.of_nat (length (members mb i ps)))) /\
    (forall i, ab <= i < ab + cs ->
       zget (v_edges g) i = Some None /\ zget (edge_count g) i = Some 0).
Proof.
  unfold oc_graph_init. intros H.
  destruct (Codec.mblocks codec <? 1) eqn:Hmb; [discriminate|]. apply Z.ltb_ge in Hmb.
  destruct (Codec.ablocks codec <? 1) eqn:Hab; [discriminate|]. apply Z.ltb_ge in Hab.
  destruct (Codec.auxiliary codec) as [amap|] eqn:Hamap; [|discriminate].
  destruct (SFleb _ _); [discriminate|].
  destruct (check_space_of codec fudge) as [cs|] eqn:Hcs; [|discriminate].
  set (mb := Codec.mblocks codec) in *. set (ab := Codec.ablocks codec) in *.
  set (co := Codec.coblocks codec) in *. set (q := Codec.q codec) in *.
  destruct (int_add co cs) as [ns|] eqn:Hns; [|discriminate].
  apply int_add_inv in Hns as [-> _].
  destruct (int_add ab cs) as [us|] eqn:Hus; [|discriminate].
  apply int_add_inv in Hus as [-> _].
  unfold OC_ALLOC in H.
  destruct (calloc None (ab + cs)) as [ve0|] eqn:Hve0; [|discriminate].
  apply calloc_inv in Hve0 as [Hvr ->].
  destruct (calloc [] co) as [ne0|] eqn:Hne0; [|discriminate].
  apply calloc_inv in Hne0 as [Hco ->].
  destruct (calloc 0 (ab + cs)) as [ec0|] eqn:Hec0; [|discriminate].
  apply calloc_inv in Hec0 as [_ ->].
  destruct (calloc false co) as [sv0|] eqn:Hsv0; [|discriminate].
  apply calloc_inv in Hsv0 as [_ ->].
  destruct (calloc None (co + cs)) as [xl0|] eqn:Hxl0; [|discriminate].
  apply calloc_inv in Hxl0 as [Hxr ->].
  set (g0 := mk_graph mb ab co co (co + cs) mb false
               (repeat None (Z.to_nat (ab + cs))) (repeat [] (Z.to_nat co))
               (repeat 0 (Z.to_nat (ab + cs))) (repeat false (Z.to_nat co))
               (repeat None (Z.to_nat (co + cs))) []) in *.
  set (ps := map_pairs amap q 0 (Z.to_nat mb)).
  (* 1st stage *)
  destruct (map_rows init_stage1 (Z.to_nat mb) g0 amap 0 0 q) as [g1|] eqn:H1;
    [|discriminate].
  apply (map_rows_fold init_stage1 (Z.to_nat mb) g0 amap q 0%nat) in H1 as [H1 Hrows].
  fold ps in H1.
  apply stage1_fold in H1 as (Hrange & Hg1 & Hln1 & Hle1 & Hcells1 & Hcnt1).
  cbn [mblocks ablocks n_edges edge_count g0] in Hrange, Hln1, Hle1, Hcnt1.
  rewrite repeat_length in Hln1, Hle1.
  assert (Hcells0 : forall l, n_cells g0 l = []).
  { intros l. unfold n_cells, g0. cbn [n_edges].
    destruct (zget (repeat [] (Z.to_nat co)) l) as [c|] eqn:E; [|reflexivity].
    pose proof (zget_Some_range _ _ _ E) as Hr. rewrite repeat_length in Hr.
    rewrite zget_repeat in E by lia. congruence. }
  (* 2nd stage *)
  destruct (init_stage2 (Z.to_nat ab) g1 0) as [g2|] eqn:H2; [|discriminate].
  pose proof (init_stage2_range _ _ _ _ H2 ltac:(lia) ltac:(lia)) as Hspace.
  rewrite Hg1 in Hspace. cbn [v_edges set_edge_count set_n_edges g0] in Hspace.
  rewrite repeat_length in Hspace.
  assert (Hcs0 : 0 <= cs) by lia.
  assert (Hec1 : forall i, 0 <= i < ab + cs ->
            zget (edge_count g1) i = Some (0 + 2 * Z.of_nat (length (members mb i ps)))).
  { intros i Hi. rewrite Hcnt1, zget_repeat by lia. reflexivity. }
  destruct (init_stage2_ok (Z.to_nat ab) g1 0) as (ve2 & H2' & Hlv2 & Hget2).
  { lia. }
  { rewrite Hg1. cbn [v_edges set_edge_count set_n_edges g0]. rewrite repeat_length. lia. }
  { intros i Hi. rewrite Hec1 by lia. eexists. split; [reflexivity|]. lia. }
  rewrite H2' in H2. injection H2 as <-.
  assert (Hv1 : v_edges g1 = repeat None (Z.to_nat (ab + cs))) by (rewrite Hg1; reflexivity).
  assert (Hm1 : mblocks g1 = mb) by (rewrite Hg1; reflexivity).
  rewrite Hv1 in Hlv2, Hget2. rewrite repeat_length in Hlv2.
  (* 3rd stage *)
  destruct (map_rows init_stage3 (Z.to_nat mb) (set_v_edges g1 ve2) amap 0 0 q)
    as [g3|] eqn:H3; [|discriminate].
  injection H as ->.
  apply (map_rows_fold init_stage3 (Z.to_nat mb) _ amap q 0%nat) in H3 as [H3 _].
  fold ps in H3.
  destruct (stage3_fold ab ps [] (set_v_edges g1 ve2)) as (ve & ec & Hrun).
  { cbn [mblocks set_v_edges]. rewrite Hm1.
    eapply Forall_impl; [|exact Hrange]. simpl. tauto. }
  { cbn [mblocks set_v_edges app]. rewrite Hm1. intros i Hi.
    cbn [v_edges edge_count set_v_edges]. rewrite Hget2, Hec1 by lia.
    zbool (0 <=? i) true. zbool (i <? 0 + Z.of_nat (Z.to_nat ab)) true.
    cbn [andb option_map]. unfold blank_array, partial_array.
    change (members mb i []) with (@nil Z).
    rewrite shiftr_double by lia. rewrite Nat2Z.id. cbn [length rev].
    rewrite Nat.sub_0_r, app_nil_r. split; [reflexivity|]. f_equal. lia. }
  cbv zeta in Hrun. cbn [app mblocks set_v_edges] in Hrun. rewrite Hm1 in Hrun.
  destruct Hrun as (Hrun & Hlv & Hle & Hst & Hout).
  rewrite H3 in Hrun. injection Hrun as ->.
  cbn [v_edges edge_count set_v_edges set_edge_count] in Hlv, Hle, Hout.
  exists amap, cs. cbv zeta. fold mb ab co q ps.
  split; [reflexivity|]. split; [reflexivity|].
  split; [lia|]. split; [lia|]. split; [lia|]. split; [lia|].
  split; [rewrite Hg1; reflexivity|].
  split; [cbn [n_edges set_v_edges set_edge_count]; exact Hln1|].
  split; [cbn [v_edges set_v_edges]; lia|].
  split; [cbn [edge_count set_v_edges set_edge_count]; rewrite Hle; exact Hle1|].
  split.
  { eapply Forall_impl; [|exact Hrange]. cbv beta. intros p Hp.
    rewrite repeat_length in Hp. lia. }
  split; [exact Hrows|].
  split.
  { intros l. change (n_cells (set_v_edges (set_edge_count (set_v_edges g1 ve2) ec) ve) l)
      with (n_cells g1 l). rewrite Hcells1, Hcells0. apply app_nil_r. }
  split.
  - intros i Hi. destruct (Hst i Hi) as [Hv He].
    cbn [v_edges edge_count set_v_edges set_edge_count] in Hv, He |- *.
    rewrite Hv, He. unfold partial_array. rewrite Nat.sub_diag. cbn [repeat app].
    split; [reflexivity|]. f_equal. lia.
  - intros i Hi. cbn [v_edges edge_count set_v_edges set_edge_count].
    destruct (Hout i ltac:(lia)) as [Hv He]. rewrite Hv, He, Hget2.
    zbool (i <? 0 + Z.of_nat (Z.to_nat ab)) false. rewrite andb_false_r.
    rewrite zget_repeat by lia. rewrite Hec1 by lia.
    unfold members. split; [reflexivity|].
    assert (Hnone : filter (fun p => fst p =? mb + i) ps = []).
    { destruct (filter (fun p => fst p =? mb + i) ps) as [|p l] eqn:E; [reflexivity|].
      assert (Hin : In p (filter (fun p => fst p =? mb + i) ps)) by (rewrite E; left; reflexivity).
      apply filter_In in Hin as [Hin Heq]. apply Z.eqb_eq in Heq.
      rewrite Forall_forall in Hrange. specialize (Hrange p Hin). lia. }
    rewrite Hnone. reflexivity.
Qed.

(** * The pairs of the auxiliary map *)

Lemma uppers_of_In l ps u : In u (uppers_of l ps) <-> In (u, l) ps.
Proof.
  unfold uppers_of. rewrite in_map_iff. split.
  - intros ([a m] & <- & Hin). apply filter_In in Hin as [Hin Heq].
    simpl in *. apply Z.eqb_eq in Heq. subst m. exact Hin.
  - intros Hin. exists (u, l). split; [reflexivity|].
    apply filter_In. split; [exact Hin|]. simpl. apply Z.eqb_refl.
Qed.

Lemma members_In mb i ps l : In l (members mb i ps) <-> In (mb + i, l) ps.
Proof.
  unfold members. rewrite in_map_iff. split.
  - intros ([a m] & <- & Hin). apply filter_In in Hin as [Hin Heq].
    simpl in *. apply Z.eqb_eq in Heq. subst a. exact Hin.
  - intros Hin. exists (mb + i, l). split; [reflexivity|].
    apply filter_In. split; [exact Hin|]. simpl. apply Z.eqb_refl.
Qed.

Lemma map_pairs_In amap q s n a l :
  In (a, l) (map_pairs amap q s n) <->
  exists m, (s <= m < s + n)%nat /\ l = Z.of_nat m /\ In a (aux_row amap q m).
Proof.
  unfold map_pairs. rewrite in_flat_map. split.
  - intros (m & Hm & Hin). apply in_seq in Hm. unfold row_pairs in Hin.
    apply in_map_iff in Hin as (a' & [= <- <-] & Ha). eauto.
  - intros (m & Hm & -> & Ha). exists m. split; [apply in_seq; exact Hm|].
    unfold row_pairs. apply in_map_iff. eauto.
Qed.

Lemma uppers_of_app l ps1 ps2 :
  uppers_of l (ps1 ++ ps2) = uppers_of l ps1 ++ uppers_of l ps2.
Proof. unfold uppers_of. rewrite filter_app, map_app. reflexivity. Qed.

Lemma uppers_of_row amap q m l :
  uppers_of l (row_pairs amap q m) = if Z.of_nat m =? l then aux_row amap q m else [].
Proof.
  unfold uppers_of, row_pairs. destruct (Z.of_nat m =? l) eqn:E;
    induction (aux_row amap q m) as [|a row IH]; cbn [map filter snd fst];
    rewrite ?E; cbn [map fst]; congruence.
Qed.

Lemma uppers_of_pairs amap q (n : nat) : forall (s : nat) l,
  uppers_of l (map_pairs amap q s n) = [] \/
  exists m, (s <= m < s + n)%nat /\ uppers_of l (map_pairs amap q s n) = aux_row amap q m.
Proof.
  induction n as [|n IH]; intros s l; [left; reflexivity|].
  unfold map_pairs. cbn [seq flat_map]. fold (map_pairs amap q (S s) n).
  rewrite uppers_of_app, uppers_of_row.
  destruct (Z.of_nat s =? l) eqn:E.
  - apply Z.eqb_eq in E. right. exists s. split; [lia|].
    assert (Hnil : uppers_of l (map_pairs amap q (S s) n) = []).
    { destruct (uppers_of l (map_pairs amap q (S s) n)) as [|u t] eqn:Hu; [reflexivity|].
      assert (Hin : In u (uppers_of l (map_pairs amap q (S s) n))) by (rewrite Hu; left; reflexivity).
      apply uppers_of_In, map_pairs_In in Hin as (m & Hm & Hl & _). lia. }
    rewrite Hnil. apply app_nil_r.
  - cbn [app]. destruct (IH (S s) l) as [H|(m & Hm & H)]; [left; exact H|].
    right. exists m. split; [lia|exact H].
Qed.

Lemma members_row_nodup mb i (M : Z) (row : list Z) :
  NoDup row ->
  members mb i (map (fun a => (a, M)) row) = [] \/
  members mb i (map (fun a => (a, M)) row) = [M].
Proof.
  induction 1 as [|a row Hnin Hnd IH]; [left; reflexivity|].
  unfold members in *. cbn [map filter fst].
  destruct (a =? mb + i) eqn:E; [|exact IH].
  apply Z.eqb_eq in E. right. cbn [map snd]. f_equal.
  destruct (filter _ _) as [|p t] eqn:Hf; [reflexivity|].
  assert (Hin : In p (p :: t)) by (left; reflexivity). rewrite <- Hf in Hin.
  apply filter_In in Hin as [Hin Heq]. apply in_map_iff in Hin as (a' & <- & Ha').
  simpl in Heq. apply Z.eqb_eq in Heq. subst. contradiction.
Qed.

Lemma members_nodup amap q mb i (n : nat) : forall s : nat,
  (forall m, (s <= m < s + n)%nat -> NoDup (aux_row amap q m)) ->
  NoDup (members mb i (map_pairs amap q s n)).
Proof.
  induction n as [|n IH]; intros s Hrows; [constructor|].
  unfold map_pairs. cbn [seq flat_map]. fold (map_pairs amap q (S s) n).
  rewrite members_app. apply NoDup_app.
  - unfold row_pairs.
    destruct (members_row_nodup mb i (Z.of_nat s) (aux_row amap q s)) as [-> | ->].
    + apply Hrows. lia.
    + constructor.
    + constructor; [simpl; tauto|constructor].
  - apply IH. intros m Hm. apply Hrows. lia.
  - intros x Hx Hx'. apply members_In, map_pairs_In in Hx' as (m & Hm & -> & _).
    apply members_In in Hx. unfold row_pairs in Hx.
    apply in_map_iff in Hx as (a' & [= _ Heq] & _). lia.
Qed.

Lemma codec_ok_spec c amap :
  codec_ok c = true -> Codec.auxiliary c = Some amap ->
  Codec.coblocks c = Codec.mblocks c + Codec.ablocks c /\
  forall m, (m < Z.to_nat (Codec.mblocks c))%nat -> NoDup (aux_row amap (Codec.q c) m).
Proof.
  unfold codec_ok. intros H Ha. rewrite Ha in H. apply andb_prop in H as [H1 H2].
  apply Z.eqb_eq in H1. split; [exact H1|]. intros m Hm.
  rewrite forallb_forall in H2. apply nodupb_NoDup. apply H2. apply in_seq. lia.
Qed.

(** * The initialisation establishes the invariant *)

Lemma is_solved_repeat n d : is_solved (repeat false n) d = false.
Proof.
  unfold is_solved. destruct (zget (repeat false n) d) as [b|] eqn:E; [|reflexivity].
  pose proof (zget_Some_range _ _ _ E) as Hr. rewrite repeat_length in Hr.
  rewrite zget_repeat in E by lia. congruence.
Qed.

Lemma count_unsolved_repeat n E : count_unsolved (repeat false n) E = Z.of_nat (length E).
Proof.
  induction E as [|d E IH]; [reflexivity|].
  rewrite count_unsolved_cons, is_solved_repeat, IH. cbn [length]. lia.
Qed.

Lemma init_inv codec fudge g :
  codec_ok codec = true -> oc_graph_init codec fudge = Some (InitOk g) ->
  graph_inv g.
Proof.
  intros Hok Hinit.
  destruct (init_spec codec fudge g Hinit) as (amap & cs & Hspec). cbv zeta in Hspec.
  destruct Hspec as (Hamap & Hcs & Hmb & Hab & Hco0 & Hcs0 & Hg & Hln & Hlv & Hle
                     & Hrange & Hrows & Hcells & Haux & Hchk).
  destruct (codec_ok_spec codec amap Hok Hamap) as [Hco Hnd].
  set (mb := Codec.mblocks codec) in *. set (ab := Codec.ablocks codec) in *.
  set (co := Codec.coblocks codec) in *. set (q := Codec.q codec) in *.
  set (ps := map_pairs amap q 0 (Z.to_nat mb)) in *.
  assert (Hm : mblocks g = mb) by (rewrite Hg; reflexivity).
  assert (Hc : coblocks g = co) by (rewrite Hg; reflexivity).
  assert (Hag : ablocks g = ab) by (rewrite Hg; reflexivity).
  assert (Hn : nodes g = co) by (rewrite Hg; reflexivity).
  assert (Hns : node_space g = co + cs) by (rewrite Hg; reflexivity).
  assert (Hsv : solved g = repeat false (Z.to_nat co)) by (rewrite Hg; reflexivity).
  assert (Hxl : xor_list g = repeat None (Z.to_nat (co + cs))) by (rewrite Hg; reflexivity).
  assert (Hxs : forall n, xor_slot g n = None).
  { intros n. unfold xor_slot. rewrite Hxl.
    destruct (zget (repeat None (Z.to_nat (co + cs))) n) as [s|] eqn:E; [|reflexivity].
    pose proof (zget_Some_range _ _ _ E) as Hr. rewrite repeat_length in Hr.
    rewrite zget_repeat in E by lia. congruence. }
  assert (Hvs : forall u arr, v_slot g u = Some arr ->
            0 <= u - mb < ab /\
            arr = Z.of_nat (length (members mb (u - mb) ps)) :: rev (members mb (u - mb) ps)).
  { intros u arr Hu. apply v_slot_get in Hu. rewrite Hm in Hu.
    pose proof (zget_Some_range _ _ _ Hu) as Hr. rewrite Hlv in Hr.
    destruct (Z_lt_le_dec (u - mb) ab) as [Hlt|Hge].
    - split; [lia|]. destruct (Haux (u - mb) ltac:(lia)) as [Hv _]. congruence.
    - destruct (Hchk (u - mb) ltac:(lia)) as [Hv _]. congruence. }
  assert (Hentries : forall (l : list Z), entries (Z.of_nat (length (rev l)) :: rev l) = rev l).
  { intros l. pose proof (entries_packed (rev l) []) as H. rewrite app_nil_r in H. exact H. }
  assert (Hvs' : forall u arr, v_slot g u = Some arr ->
            0 <= u - mb < ab /\ wf_arr arr /\ entries arr = rev (members mb (u - mb) ps)).
  { intros u arr Hu. destruct (Hvs u arr Hu) as [Hr ->]. split; [exact Hr|].
    rewrite <- length_rev. split; [|apply Hentries].
    pose proof (wf_arr_packed (rev (members mb (u - mb) ps)) []) as H.
    rewrite app_nil_r in H. exact H. }
  assert (Hps : forall a l, In (a, l) ps -> a > l /\ 0 <= a - mb < ab /\ 0 <= l < mb).
  { intros a l Hin. rewrite Forall_forall in Hrange. pose proof (Hrange _ Hin) as Hr.
    cbn [fst snd] in Hr. apply map_pairs_In in Hin as (m & Hmm & -> & _). lia. }
  split.
  - constructor; rewrite ?Hm, ?Hc, ?Hn, ?Hns, ?Hag.
    + exact Hmb.
    + exact Hab.
    + exact Hco.
    + lia.
    + lia.
    + rewrite Hlv. lia.
    + rewrite Hln. lia.
    + rewrite Hle. lia.
    + rewrite Hsv, repeat_length. lia.
    + rewrite Hxl, repeat_length. lia.
    + intros u arr Hu. destruct (Hvs' u arr Hu) as (Hr & Hw & He). rewrite He.
      refine (conj Hw (conj _ (conj _ _))); [lia| |].
      * apply NoDup_rev. apply members_nodup. intros m Hmm. apply Hnd. lia.
      * apply Forall_forall. intros d Hd. apply in_rev, members_In in Hd.
        apply Hps in Hd. lia.
    + intros i Hi. pose proof (zget_Some_range _ _ _ Hi) as Hr. rewrite Hlv in Hr.
      destruct (Z_lt_le_dec i ab) as [Hlt|Hge].
      * destruct (Haux i ltac:(lia)) as [Hv _]. congruence.
      * destruct (Hchk i ltac:(lia)) as [_ He]. exact He.
    + intros l. rewrite Hcells. apply NoDup_rev.
      destruct (uppers_of_pairs amap q (Z.to_nat mb) 0%nat l) as [H|(m & Hmm & H)];
        fold ps in H; rewrite H; [constructor|apply Hnd; lia].
    + intros u l. rewrite Hcells, <- in_rev, uppers_of_In. unfold vedge. split.
      * intros Hin. pose proof (Hps _ _ Hin) as Hr.
        destruct (Haux (u - mb) ltac:(lia)) as [Hv _].
        eexists. split; [unfold v_slot; rewrite Hm, Hv; reflexivity|].
        rewrite <- length_rev, Hentries. apply in_rev. rewrite rev_involutive.
        apply members_In. replace (mb + (u - mb)) with u by lia. exact Hin.
      * intros (arr & Hu & Hin). destruct (Hvs' u arr Hu) as (Hr & _ & He).
        rewrite He in Hin. apply in_rev, members_In in Hin.
        replace (mb + (u - mb)) with u in Hin by lia. exact Hin.
    + intros a Ha _. destruct (Haux (a - mb) ltac:(lia)) as [Hv _].
      unfold v_slot. rewrite Hm, Hv. discriminate.
    + intros n Hn'. rewrite Hsv, is_solved_repeat, Hxs. split; [discriminate|congruence].
    + intros c Hc1 Hc2. lia.
    + intros n r Hr. rewrite Hxs in Hr. discriminate.
    + rewrite Hg. constructor.
    + rewrite Hg. discriminate.
  - intros _ u arr Hu. destruct (Hvs' u arr Hu) as (Hr & _ & He).
    unfold edge_count_of. rewrite Hm, He, Hsv, count_unsolved_repeat, length_rev.
    apply (Haux (u - mb) Hr).
Qed.

(** * Every reachable state satisfies the invariant *)

Lemma reachable_inv g : reachable g -> graph_inv g.
Proof.
  induction 1 as [codec fudge g Hok Hinit|g v r g' _ IH Hv Hrun|g r sl g' _ IH Hrun].
  - eapply init_inv; eauto.
  - destruct (check_block_ok_inv g v IH Hv) as (r0 & g0 & Hrun0 & Hinv & _).
    congruence.
  - destruct (resolve_ok g IH) as (d0 & sl0 & g0 & Hrun0 & Hinv & _). congruence.
Qed.

Lemma graph_str_reciprocal g : graph_str g -> reciprocal g.
Proof.
  intros Hs. split.
  - intros u arr l Hv Hin. apply NoDup_count_occ'; [apply Hs|].
    apply (str_recip g Hs). exists arr. auto.
  - intros l u Hin. apply (str_recip g Hs). exact Hin.
Qed.

(** * One edge created or deleted with its v-edge entry *)

Lemma create_n_edge_inv g u l g1 :
  oc_create_n_edge g u l = Some g1 ->
  exists ne, g1 = set_n_edges g ne /\ zset (n_edges g) l (u :: n_cells g l) = Some ne.
Proof.
  unfold oc_create_n_edge. intros H.
  destruct (c_assert (u >? l)); [|discriminate].
  destruct (zget (n_edges g) l) as [cells|] eqn:Hc; [|discriminate].
  destruct (zset (n_edges g) l (u :: cells)) as [ne|] eqn:Hne; [|discriminate].
  injection H as <-. exists ne. unfold n_cells. rewrite Hc. auto.
Qed.

Lemma delete_n_edge_inv g u l dec g' :
  oc_delete_n_edge g u l dec = Some g' ->
  exists ne c', n_edges g' = ne /\ v_edges g' = v_edges g /\ mblocks g' = mblocks g /\
    unlink u (n_cells g l) = Some c' /\ zset (n_edges g) l c' = Some ne.
Proof.
  unfold oc_delete_n_edge. intros H.
  destruct (c_assert (u >? l)); [|discriminate].
  destruct (c_assert (u >=? mblocks g)); [|discriminate].
  destruct dec.
  - destruct (zget (edge_count g) (u - mblocks g)) as [c|]; [|discriminate].
    destruct (c_assert (negb (c =? 0))); [|discriminate].
    destruct (zset (edge_count g) (u - mblocks g) (c - 1)) as [ec|]; [|discriminate].
    cbn [n_edges set_edge_count] in H.
    destruct (zget (n_edges g) l) as [cells|] eqn:Hc; [|discriminate].
    destruct (unlink u cells) as [c'|] eqn:Hu; [|discriminate].
    destruct (zset (n_edges g) l c') as [ne|] eqn:Hne; [|discriminate].
    injection H as <-. exists ne, c'. unfold n_cells. rewrite Hc. auto.
  - destruct (zget (n_edges g) l) as [cells|] eqn:Hc; [|discriminate].
    destruct (unlink u cells) as [c'|] eqn:Hu; [|discriminate].
    destruct (zset (n_edges g) l c') as [ne|] eqn:Hne; [|discriminate].
    injection H as <-. exists ne, c'. unfold n_cells. rewrite Hc. auto.
Qed.

Lemma v_slot_store g g' u s x :
  zset (v_edges g) (u - mblocks g) s = Some (v_edges g') -> mblocks g' = mblocks g ->
  v_slot g' x = if x =? u then s else v_slot g x.
Proof.
  intros H Hm. rewrite (v_slot_set g g' _ _ x H Hm).
  destruct (x - mblocks g =? u - mblocks g) eqn:E1; destruct (x =? u) eqn:E2;
    try reflexivity.
  - apply Z.eqb_eq in E1. apply Z.eqb_neq in E2. lia.
  - apply Z.eqb_neq in E1. apply Z.eqb_eq in E2. lia.
Qed.

Lemma paired_creation g u l g1 arr' ve :
  reciprocal g -> ~ vedge g u l ->
  oc_create_n_edge g u l = Some g1 ->
  zset (v_edges g1) (u - mblocks g1) (Some arr') = Some ve ->
  (forall y, In y (entries arr') <-> y = l \/ vedge g u y) ->
  reciprocal (set_v_edges g1 ve).
Proof.
  intros [Hr1 Hr2] Hnew Hcr Hve Harr'.
  apply create_n_edge_inv in Hcr as (ne & -> & Hne).
  set (g2 := set_v_edges (set_n_edges g ne) ve).
  assert (Hvs : forall x, v_slot g2 x = if x =? u then Some arr' else v_slot g x).
  { intros x. apply (v_slot_store g g2); [exact Hve|reflexivity]. }
  assert (Hnc : forall y, n_cells g2 y = if y =? l then u :: n_cells g l else n_cells g y).
  { intros y. apply (n_cells_set g ne l _ y Hne). }
  assert (Hfresh : ~ In u (n_cells g l)) by (intros Hin; apply Hnew, Hr2; exact Hin).
  split.
  - intros x arr y Hx Hy. rewrite Hvs in Hx. rewrite Hnc.
    destruct (x =? u) eqn:Ex.
    + apply Z.eqb_eq in Ex. subst x. injection Hx as <-.
      destruct (y =? l) eqn:Ey.
      * cbn [count_occ]. destruct (Z.eq_dec u u) as [_|Hne']; [|congruence].
        f_equal. apply count_occ_not_In. exact Hfresh.
      * apply Z.eqb_neq in Ey. apply Harr' in Hy as [Hy|(arr0 & Hv0 & Hin0)]; [congruence|].
        eapply Hr1; eauto.
    + apply Z.eqb_neq in Ex. destruct (y =? l) eqn:Ey.
      * apply Z.eqb_eq in Ey. subst y. cbn [count_occ].
        destruct (Z.eq_dec u x) as [Heq|_]; [congruence|]. eapply Hr1; eauto.
      * eapply Hr1; eauto.
  - intros y x Hin. rewrite Hnc in Hin. unfold vedge. rewrite Hvs.
    assert (Hold : In x (n_cells g y) ->
              exists arr, (if x =? u then Some arr' else v_slot g x) = Some arr /\
                          In y (entries arr)).
    { intros Hin'. pose proof (Hr2 y x Hin') as Hxy. destruct (x =? u) eqn:Ex.
      - apply Z.eqb_eq in Ex. subst x. exists arr'. split; [reflexivity|].
        apply Harr'. right. exact Hxy.
      - exact Hxy. }
    destruct (y =? l) eqn:Ey; [|auto].
    apply Z.eqb_eq in Ey. subst y. destruct Hin as [<-|Hin]; [|auto].
    rewrite Z.eqb_refl. exists arr'. split; [reflexivity|]. apply Harr'. left. reflexivity.
Qed.

Lemma paired_deletion g u l arr arr' ve dec g' :
  reciprocal g -> v_slot g u = Some arr -> In l (entries arr) ->
  zset (v_edges g) (u - mblocks g) (Some arr') = Some ve ->
  (forall y, In y (entries arr') <-> In y (entries arr) /\ y <> l) ->
  oc_delete_n_edge (set_v_edges g ve) u l dec = Some g' ->
  reciprocal g'.
Proof.
  intros [Hr1 Hr2] Hv Hl Hve Harr' Hdel.
  apply delete_n_edge_inv in Hdel as (ne & c' & Hne' & Hve' & Hm' & Hun & Hne).
  cbn [v_edges mblocks n_edges set_v_edges] in Hve', Hm', Hne.
  change (n_cells (set_v_edges g ve) l) with (n_cells g l) in Hun.
  assert (Hvs : forall x, v_slot g' x = if x =? u then Some arr' else v_slot g x).
  { intros x. apply (v_slot_store g g'); [rewrite Hve'; exact Hve|exact Hm']. }
  assert (Hnc : forall y, n_cells g' y = if y =? l then c' else n_cells g y).
  { intros y. unfold n_cells. rewrite Hne', (zget_zset _ _ _ _ y Hne).
    destruct (y =? l); reflexivity. }
  pose proof (unlink_perm _ _ _ Hun) as Hperm.
  assert (Hcount : forall x, count_occ Z.eq_dec (n_cells g l) x =
            count_occ Z.eq_dec (u :: c') x)
    by (apply Permutation_count_occ; exact Hperm).
  pose proof (Hr1 u arr l Hv Hl) as Hone.
  assert (Hgone : ~ In u c').
  { intros Hin. apply (count_occ_In Z.eq_dec) in Hin.
    specialize (Hcount u). cbn [count_occ] in Hcount.
    destruct (Z.eq_dec u u) as [_|Hn]; [lia|congruence]. }
  split.
  - intros x a y Hx Hy. rewrite Hvs in Hx. rewrite Hnc.
    destruct (x =? u) eqn:Ex.
    + apply Z.eqb_eq in Ex. subst x. injection Hx as <-.
      apply Harr' in Hy as [Hy Hyl]. destruct (y =? l) eqn:Ey;
        [apply Z.eqb_eq in Ey; congruence|]. eapply Hr1; eauto.
    + apply Z.eqb_neq in Ex. destruct (y =? l) eqn:Ey; [|eapply Hr1; eauto].
      apply Z.eqb_eq in Ey. subst y. pose proof (Hr1 x a l Hx Hy) as H1.
      rewrite Hcount in H1. cbn [count_occ] in H1.
      destruct (Z.eq_dec u x) as [Heq|_]; [congruence|exact H1].
  - intros y x Hin. rewrite Hnc in Hin. unfold vedge. rewrite Hvs.
    destruct (y =? l) eqn:Ey.
    + apply Z.eqb_eq in Ey. subst y.
      assert (Hxu : x <> u) by (intros ->; contradiction).
      zbool (x =? u) false. apply Hr2.
      eapply Permutation_in; [symmetry; exact Hperm|right; exact Hin].
    + apply Z.eqb_neq in Ey. pose proof (Hr2 y x Hin) as (a & Ha & Hy).
      destruct (x =? u) eqn:Ex; [|eauto].
      apply Z.eqb_eq in Ex. subst x. exists arr'. split; [reflexivity|].
      apply Harr'. split; [congruence|exact Ey].
Qed.

(** * The concrete runs are reachable *)

Module Reach.
Import Scenario.

Lemma s2_init_reachable : reachable s2_init.
Proof. apply (reach_init codec2 fudge15); vm_compute; reflexivity. Qed.

Lemma s2_one_reachable : reachable s2_one.
Proof.
  apply (reach_check s2_init [1; 0] 2); [apply s2_init_reachable| |];
    vm_compute; reflexivity.
Qed.

Lemma s2_done_reachable : reachable s2_done.
Proof.
  apply (reach_resolve s2_one true [0]); [apply s2_one_reachable|].
  vm_compute; reflexivity.
Qed.

Lemma s2_full_reachable : reachable s2_full.
Proof.
  apply (reach_check s2_one [1; 0] 3); [apply s2_one_reachable| |];
    vm_compute; reflexivity.
Qed.

Lemma s3_init_reachable : reachable s3_init.
Proof. apply (reach_init codec3 fudge15); vm_compute; reflexivity. Qed.

Lemma s3_one_reachable : reachable s3_one.
Proof.
  apply (reach_check s3_init [1; 0] 3); [apply s3_init_reachable| |];
    vm_compute; reflexivity.
Qed.

Lemma s5_init_reachable : reachable s5_init.
Proof. apply (reach_init codec5 fudge15); vm_compute; reflexivity. Qed.

Lemma s5_a_reachable : reachable s5_a.
Proof.
  apply (reach_check s5_init [1; 0] 5); [apply s5_init_reachable| |];
    vm_compute; reflexivity.
Qed.

Lemma s5_b_reachable : reachable s5_b.
Proof.
  apply (reach_check s5_a [1; 1] 6); [apply s5_a_reachable| |];
    vm_compute; reflexivity.
Qed.

Lemma s5_c_reachable : reachable s5_c.
Proof.
  apply (reach_resolve s5_b false [0]); [apply s5_b_reachable|].
  vm_compute; reflexivity.
Qed.

Lemma s5_d_reachable : reachable s5_d.
Proof.
  apply (reach_resolve s5_c false [1]); [apply s5_c_reachable|].
  vm_compute; reflexivity.
Qed.

End Reach.

(** * Invariants of the reachable states *)

(** C3, as the code has it: in every state reached from a codec whose
    messages name each auxiliary node at most once, by check blocks
    without a repeated entry, each entry [l] of a non-null v-edge array
    of [u] has exactly one cell of [n_edges[l]] holding [u], and each
    cell of an n-edge list has its v-edge entry.  From such a state,
    creating one up-edge together with its v-edge entry, and deleting
    one up-edge together with its v-edge entry, keep the property. *)
Theorem reciprocity_invariant g :
  reachable g ->
  reciprocal g /\
  (forall u l g1 arr' ve,
     ~ vedge g u l ->
     oc_create_n_edge g u l = Some g1 ->
     zset (v_edges g1) (u - mblocks g1) (Some arr') = Some ve ->
     (forall y, In y (entries arr') <-> y = l \/ vedge g u y) ->
     reciprocal (set_v_edges g1 ve)) /\
  (forall u l arr arr' ve dec g',
     v_slot g u = Some arr -> In l (entries arr) ->
     zset (v_edges g) (u - mblocks g) (Some arr') = Some ve ->
     (forall y, In y (entries arr') <-> In y (entries arr) /\ y <> l) ->
     oc_delete_n_edge (set_v_edges g ve) u l dec = Some g' ->
     reciprocal g').
Proof.
  intros Hr. pose proof (reachable_inv g Hr) as [Hs _].
  pose proof (graph_str_reciprocal g Hs) as Hrec.
  split; [exact Hrec|]. split.
  - intros u l g1 arr' ve. apply paired_creation. exact Hrec.
  - intros u l arr arr' ve dec g'. apply paired_deletion. exact Hrec.
Qed.

Lemma reciprocity_invariant_witness :
  reachable Scenario.s3_one /\ reciprocal Scenario.s3_one.
Proof.
  split; [apply Reach.s3_one_reachable|].
  apply (reciprocity_invariant Scenario.s3_one Reach.s3_one_reachable).
Defined.

(** C3 as stated fails when the map repeats an entry, which
    [oc_graph_init] accepts: the map of scenario 1 of the specification
    names auxiliary node 4 twice for message 1; the first pass creates
    one up-edge per map cell, and after the call two cells of
    [n_edges[1]] hold 4. *)
Lemma reciprocity_invariant_counterexample :
  oc_graph_init Scenario.codec1 Scenario.fudge15 = Some (InitOk Scenario.s1_init) /\
  v_slot Scenario.s1_init 4 = Some [4; 2; 1; 1; 0] /\
  n_cells Scenario.s1_init 1 = [4; 4] /\
  ~ reciprocal Scenario.s1_init.
Proof.
  split; [vm_compute; reflexivity|]. split; [reflexivity|]. split; [reflexivity|].
  intros [H _].
  specialize (H 4 [4; 2; 1; 1; 0] 1 eq_refl).
  assert (Hin : In 1 (entries [4; 2; 1; 1; 0])) by (vm_compute; tauto).
  specialize (H Hin). vm_compute in H. discriminate.
Qed.

(** C4, as the code has it: in every reachable state in which [done] is
    not set, every upper node with a non-null v-edge array has
    [edge_count[u - mblocks]] equal to the number of entries [d] of the
    array with [solved[d] == false]. *)
Theorem edge_count_invariant g :
  reachable g -> done g = false ->
  forall u arr, v_slot g u = Some arr ->
    edge_count_of g u = Some (count_unsolved (solved g) (entries arr)).
Proof.
  intros Hr Hd. pose proof (reachable_inv g Hr) as [_ Hc]. exact (Hc Hd).
Qed.

Lemma edge_count_invariant_witness :
  edge_count_of Scenario.s3_one 3
  = Some (count_unsolved (solved Scenario.s3_one) (entries [1; 0])).
Proof.
  apply (edge_count_invariant Scenario.s3_one Reach.s3_one_reachable);
    reflexivity.
Defined.

(** C4 as stated fails once [done] is set: the resolver returns without
    the cascade when it solves the last message, and auxiliary node 1 of
    [s2_done] keeps the count 1 over an array whose only entry is
    solved. *)
Lemma edge_count_invariant_counterexample :
  ~ (forall g, reachable g ->
       forall u arr, mblocks g <= u -> v_slot g u = Some arr -> entries arr <> [] ->
         edge_count_of g u = Some (count_unsolved (solved g) (entries arr))).
Proof.
  intros H.
  specialize (H Scenario.s2_done Reach.s2_done_reachable 1 [1; 0]).
  assert (Hc : edge_count_of Scenario.s2_done 1 = Some 0).
  { apply H; [vm_compute; discriminate|reflexivity|discriminate]. }
  vm_compute in Hc. discriminate.
Qed.

(** * Cascade *)

Lemma filter_combine_shift {A} (P : A -> nat -> bool) (l : list A) : forall s,
  map fst (filter (fun ui => P (fst ui) (snd ui)) (combine l (seq (S s) (length l)))) =
  map fst (filter (fun ui => P (fst ui) (S (snd ui))) (combine l (seq s (length l)))).
Proof.
  induction l as [|x l IH]; intros s; [reflexivity|].
  cbn [length seq combine filter fst snd].
  destruct (P x (S s)); cbn [map fst]; rewrite IH; reflexivity.
Qed.

Lemma cascade_pushes_ext (f h : Z -> option Z) cells :
  (forall x, f x = h x) -> cascade_pushes f cells = cascade_pushes h cells.
Proof.
  intros H. unfold cascade_pushes. f_equal. apply filter_ext.
  intros ui. rewrite H. reflexivity.
Qed.

Lemma cascade_pushes_cons count u rest :
  cascade_pushes count (u :: rest) =
  match count u with
  | Some c => if c - 1 <? 2 then [u] else []
  | None => []
  end ++
  cascade_pushes
    (fun x => option_map (fun c => if x =? u then c - 1 else c) (count x)) rest.
Proof.
  set (P := fun (x : Z) (i : nat) =>
              match count x with
              | Some c =>
                  c - Z.of_nat (count_occ Z.eq_dec (firstn (S i) (u :: rest)) x) <? 2
              | None => false
              end).
  assert (Htail :
    map fst (filter (fun ui => P (fst ui) (snd ui)) (combine rest (seq 1 (length rest)))) =
    cascade_pushes
      (fun x => option_map (fun c => if x =? u then c - 1 else c) (count x)) rest).
  { rewrite filter_combine_shift. unfold cascade_pushes. f_equal.
    apply filter_ext. intros [x i]. unfold P. cbn [fst snd].
    destruct (count x) as [c|]; [|reflexivity]. cbn [option_map].
    change (firstn (S (S i)) (u :: rest)) with (u :: firstn (S i) rest).
    cbn [count_occ]. destruct (Z.eq_dec u x) as [E|E].
    - subst x. rewrite Z.eqb_refl. f_equal. lia.
    - replace (x =? u) with false by (symmetry; apply Z.eqb_neq; congruence).
      reflexivity. }
  rewrite <- Htail.
  change (cascade_pushes count (u :: rest)) with
    (map fst (filter (fun ui => P (fst ui) (snd ui))
                ((u, 0%nat) :: combine rest (seq 1 (length rest))))).
  cbn [filter fst snd].
  assert (HP : P u 0%nat = match count u with Some c => c - 1 <? 2 | None => false end).
  { unfold P. destruct (count u) as [c|]; [|reflexivity].
    cbn [firstn count_occ]. destruct (Z.eq_dec u u) as [_|Hn]; [|contradiction].
    reflexivity. }
  rewrite HP. destruct (count u) as [c|]; [|reflexivity].
  destruct (c - 1 <? 2); reflexivity.
Qed.

Lemma cascade_pushes_nodup count cells :
  NoDup cells ->
  cascade_pushes count cells =
  filter (fun u => match count u with
                   | Some c => c - 1 <? 2
                   | None => false
                   end) cells.
Proof.
  revert count. induction cells as [|u rest IH]; intros count Hnd; [reflexivity|].
  inversion Hnd as [|? ? Hnotin Hnd']; subst.
  rewrite cascade_pushes_cons, (IH _ Hnd'). cbn [filter].
  assert (Hf :
    filter (fun x => match option_map (fun c => if x =? u then c - 1 else c) (count x) with
                     | Some c => c - 1 <? 2
                     | None => false
                     end) rest =
    filter (fun x => match count x with
                     | Some c => c - 1 <? 2
                     | None => false
                     end) rest).
  { apply filter_ext_in. intros x Hx.
    replace (x =? u) with false
      by (symmetry; apply Z.eqb_neq; intros ->; contradiction).
    destruct (count x); reflexivity. }
  rewrite Hf. destruct (count u) as [c|]; [|reflexivity].
  destruct (c - 1 <? 2); reflexivity.
Qed.

Lemma count_occ_cons_pos (u : Z) rest :
  (1 <= count_occ Z.eq_dec (u :: rest) u)%nat.
Proof. cbn [count_occ]. destruct (Z.eq_dec u u); [lia|contradiction]. Qed.

(** The walk of [oc_cascade] over any list of cells: the counter of an
    upper node drops by the number of cells that hold it. *)
Lemma cascade_loop_cells cells : forall g node,
  (forall u, In u cells -> u <> node /\
     exists c, zget (edge_count g) (u - mblocks g) = Some c /\
       ~ 0 <= c < Z.of_nat (count_occ Z.eq_dec cells u)) ->
  exists ec,
    cascade_loop cells g node =
      Some (set_pending (set_edge_count g ec)
              (pending g ++
               cascade_pushes (fun u => zget (edge_count g) (u - mblocks g)) cells)) /\
    length ec = length (edge_count g) /\
    (forall i, zget ec i =
       option_map (fun c => c - Z.of_nat (count_occ Z.eq_dec cells (i + mblocks g)))
         (zget (edge_count g) i)).
Proof.
  induction cells as [|u rest IH]; intros g node Hpre.
  - exists (edge_count g). cbn [cascade_loop]. unfold cascade_pushes.
    cbn [length seq combine filter map]. rewrite app_nil_r. split; [|split].
    + destruct g; reflexivity.
    + reflexivity.
    + intros i. cbn [count_occ]. destruct (zget (edge_count g) i) as [c|]; [|reflexivity].
      cbn [option_map]. f_equal. lia.
  - destruct (Hpre u (or_introl eq_refl)) as [Hne (c & Hc & Hc0)].
    pose proof (count_occ_cons_pos u rest) as Hpos.
    assert (Hnz : c <> 0) by lia.
    cbn [cascade_loop].
    rewrite c_assert_true by (apply negb_true_iff; apply Z.eqb_neq; assumption).
    rewrite Hc.
    rewrite c_assert_true by (apply negb_true_iff; apply Z.eqb_neq; assumption).
    destruct (zset_Some (edge_count g) (u - mblocks g) (c - 1)
                (zget_Some_range _ _ _ Hc)) as [ec1 Hec1].
    rewrite Hec1.
    set (g1 := set_edge_count g ec1).
    set (g2 := if c - 1 <? 2 then oc_push_pending g1 u else g1).
    assert (Hg2ec : edge_count g2 = ec1) by (unfold g2; destruct (c - 1 <? 2); reflexivity).
    assert (Hg2m : mblocks g2 = mblocks g) by (unfold g2; destruct (c - 1 <? 2); reflexivity).
    assert (Hcount : forall x, zget ec1 (x - mblocks g) =
              option_map (fun c0 => if x =? u then c0 - 1 else c0)
                (zget (edge_count g) (x - mblocks g))).
    { intros x. rewrite (zget_zset _ _ _ _ _ Hec1).
      destruct (x =? u) eqn:E.
      - apply Z.eqb_eq in E. subst x. rewrite Z.eqb_refl, Hc. reflexivity.
      - apply Z.eqb_neq in E.
        replace (x - mblocks g =? u - mblocks g) with false
          by (symmetry; apply Z.eqb_neq; lia).
        destruct (zget (edge_count g) (x - mblocks g)); reflexivity. }
    destruct (IH g2 node) as (ec & Hrun & Hlen & Hget).
    { intros u' Hu'. destruct (Hpre u' (or_intror Hu')) as [Hn' (c' & Hc' & Hr')].
      split; [assumption|]. rewrite Hg2ec, Hg2m, Hcount, Hc'. cbn [option_map].
      eexists. split; [reflexivity|]. cbn [count_occ] in Hr'.
      destruct (u' =? u) eqn:E.
      - apply Z.eqb_eq in E. subst u'.
        destruct (Z.eq_dec u u) as [_|Hn]; [|contradiction]. lia.
      - apply Z.eqb_neq in E.
        destruct (Z.eq_dec u u') as [Heq|_]; [congruence|]. exact Hr'. }
    exists ec. split; [|split].
    + rewrite Hrun. f_equal. rewrite cascade_pushes_cons, Hc.
      rewrite (cascade_pushes_ext
                 (fun u0 => zget (edge_count g2) (u0 - mblocks g2))
                 (fun x => option_map (fun c0 => if x =? u then c0 - 1 else c0)
                             (zget (edge_count g) (x - mblocks g)))).
      2:{ intros x. rewrite Hg2ec, Hg2m. apply Hcount. }
      unfold g2, g1. destruct (c - 1 <? 2); destruct g; simpl;
        rewrite <- ?app_assoc; reflexivity.
    + rewrite Hlen, Hg2ec. eapply zset_length; eauto.
    + intros i. rewrite Hget, Hg2ec, Hg2m. rewrite (zget_zset _ _ _ _ i Hec1).
      cbn [count_occ]. destruct (i =? u - mblocks g) eqn:E.
      * apply Z.eqb_eq in E. subst i. rewrite Hc. cbn [option_map].
        replace (u - mblocks g + mblocks g) with u by lia.
        destruct (Z.eq_dec u u) as [_|Hn]; [|contradiction]. f_equal. lia.
      * apply Z.eqb_neq in E. destruct (zget (edge_count g) i); [|reflexivity].
        cbn [option_map]. f_equal.
        destruct (Z.eq_dec u (i + mblocks g)) as [Heq|_]; [lia|reflexivity].
Qed.

(** C7, as the code has it: a cascade from [node] walks the cells of
    [n_edges[node]] and decrements the edge count of an upper node once
    for every cell that holds it, so by the number of such cells; after
    each decrement it pushes the node on the pending queue exactly when
    the decremented value is below 2; every other edge count stays as it
    was.  When no two cells hold the same node, every upper node of the
    list is decremented exactly once. *)
Theorem cascade_decrements g node :
  0 <= node < coblocks g -> node < Z.of_nat (length (n_edges g)) ->
  (forall u, In u (n_cells g node) ->
     u <> node /\
     exists c, edge_count_of g u = Some c /\
       ~ 0 <= c < Z.of_nat (count_occ Z.eq_dec (n_cells g node) u)) ->
  exists g', oc_cascade g node = Some g' /\
    (forall u, edge_count_of g' u =
       option_map (fun c => c - Z.of_nat (count_occ Z.eq_dec (n_cells g node) u))
         (edge_count_of g u)) /\
    (forall u, ~ In u (n_cells g node) -> edge_count_of g' u = edge_count_of g u) /\
    pending g' = pending g ++ cascade_pushes (edge_count_of g) (n_cells g node) /\
    (NoDup (n_cells g node) ->
       (forall u, In u (n_cells g node) ->
          edge_count_of g' u = option_map (fun c => c - 1) (edge_count_of g u)) /\
       pending g' =
         pending g ++
         filter (fun u => match edge_count_of g u with
                          | Some c => c - 1 <? 2
                          | None => false
                          end) (n_cells g node)) /\
    n_edges g' = n_edges g /\ v_edges g' = v_edges g /\
    solved g' = solved g /\ xor_list g' = xor_list g.
Proof.
  intros Hnode Hlen Hpre.
  destruct (cascade_loop_cells (n_cells g node) g node Hpre) as (ec & Hrun & _ & Hget).
  eexists. split.
  { unfold oc_cascade. rewrite c_assert_true by zcmp.
    rewrite n_cells_get by lia. exact Hrun. }
  cbn [pending n_edges v_edges solved xor_list set_pending set_edge_count].
  assert (Hcnt : forall u,
    zget ec (u - mblocks g) =
    option_map (fun c => c - Z.of_nat (count_occ Z.eq_dec (n_cells g node) u))
      (edge_count_of g u)).
  { intros u. rewrite Hget. replace (u - mblocks g + mblocks g) with u by lia.
    reflexivity. }
  split; [|split; [|split; [|split; [|repeat split]]]].
  - intros u. unfold edge_count_of at 1.
    cbn [edge_count mblocks set_pending set_edge_count]. apply Hcnt.
  - intros u Hu. unfold edge_count_of at 1.
    cbn [edge_count mblocks set_pending set_edge_count]. rewrite Hcnt.
    rewrite (proj1 (count_occ_not_In Z.eq_dec _ _) Hu).
    destruct (edge_count_of g u) as [c|]; [|reflexivity].
    cbn [option_map]. f_equal. lia.
  - reflexivity.
  - intros Hnd. split.
    + intros u Hu. unfold edge_count_of at 1.
      cbn [edge_count mblocks set_pending set_edge_count]. rewrite Hcnt.
      rewrite (proj1 (NoDup_count_occ' Z.eq_dec _) Hnd u Hu). reflexivity.
    + f_equal. apply cascade_pushes_nodup. exact Hnd.
Qed.

Lemma cascade_decrements_witness :
  exists g', oc_cascade Scenario.s1_solved 1 = Some g' /\
    edge_count_of g' 4 = Some 2 /\ pending g' = [].
Proof.
  destruct (cascade_decrements Scenario.s1_solved 1) as (g' & Hrun & Hcnt & _ & Hp & _).
  - unfold Scenario.s1_solved. simpl. lia.
  - unfold Scenario.s1_solved. simpl. lia.
  - vm_compute. intros u [<-|[<-|[]]]; (split; [discriminate|]);
      exists 4; (split; [reflexivity|]); intros [_ H]; discriminate.
  - exists g'. split; [exact Hrun|]. split.
    + rewrite Hcnt. reflexivity.
    + rewrite Hp. reflexivity.
Defined.

(** C7 as stated fails when a list names an upper node in two cells.
    With the map of scenario 1 of the specification, message 1 names
    auxiliary node 4 twice; the resolver solves message 1 from a check
    block on it and cascades from the state [s1_solved], where
    [n_edges[1]] holds 4 in two cells: the one cascade takes the edge
    count of node 4 from 4 to 2. *)
Lemma cascade_decrements_counterexample :
  oc_graph_resolve Scenario.s1_one =
    (g' <- oc_cascade Scenario.s1_solved 1 ;; Some (done g', [1], g')) /\
  n_cells Scenario.s1_solved 1 = [4; 4] /\
  edge_count_of Scenario.s1_solved 4 = Some 4 /\
  (exists g', oc_cascade Scenario.s1_solved 1 = Some g' /\
     edge_count_of g' 4 = Some 2) /\
  ~ (forall g node g', oc_cascade g node = Some g' ->
       forall u, In u (n_cells g node) ->
         edge_count_of g' u = option_map (fun c => c - 1) (edge_count_of g u)).
Proof.
  assert (Hrun : exists g', oc_cascade Scenario.s1_solved 1 = Some g' /\
                   edge_count_of g' 4 = Some 2).
  { eexists. split; vm_compute; reflexivity. }
  split; [vm_compute; reflexivity|]. split; [reflexivity|]. split; [reflexivity|].
  split; [exact Hrun|].
  intros H. destruct Hrun as (g' & Hc & Hec).
  specialize (H Scenario.s1_solved 1 g' Hc 4).
  rewrite Hec in H. assert (Hin : In 4 (n_cells Scenario.s1_solved 1)) by (simpl; tauto).
  specialize (H Hin). vm_compute in H. discriminate.
Qed.

(** * Capacity *)

(** C9: when the claimed node index is not below [node_space],
    [oc_graph_check_block] returns [-1] and changes nothing but the
    [nodes] counter. *)
Theorem check_block_capacity g v :
  node_space g <= nodes g ->
  exists g', oc_graph_check_block g v = Some (-1, g') /\
    nodes g' = nodes g + 1 /\
    xor_list g' = xor_list g /\ n_edges g' = n_edges g /\
    v_edges g' = v_edges g /\ edge_count g' = edge_count g /\
    pending g' = pending g /\ solved g' = solved g /\
    unsolved_count g' = unsolved_count g /\ done g' = done g /\
    mblocks g' = mblocks g /\ ablocks g' = ablocks g /\
    coblocks g' = coblocks g /\ node_space g' = node_space g.
Proof.
  intros H. exists (set_nodes g (nodes g + 1)). split.
  - unfold oc_graph_check_block. cbn [node_space set_nodes].
    zbool (nodes g >=? node_space g) true. reflexivity.
  - repeat split.
Qed.

Lemma check_block_capacity_witness :
  exists g', oc_graph_check_block Scenario.s2_full [1; 0] = Some (-1, g') /\
    v_edges g' = v_edges Scenario.s2_full /\ pending g' = pending Scenario.s2_full.
Proof.
  destruct (check_block_capacity Scenario.s2_full [1; 0]) as (g' & Hrun & H).
  - vm_compute. discriminate.
  - exists g'. split; [exact Hrun|]. split; apply H.
Defined.

(** * Recipes *)

(** C10, as the code has it: in every reachable state a message or
    auxiliary node is solved exactly when it holds a recipe, and that
    recipe does not name the node itself; every ingested check node holds
    a recipe, whose first entry is the check node itself; and a call of
    [oc_graph_check_block] or [oc_graph_resolve] keeps every recipe it
    finds, so a recipe is installed once. *)
Theorem recipe_invariant g :
  reachable g ->
  (forall n, 0 <= n < coblocks g ->
     (is_solved (solved g) n = true <-> exists r, xor_slot g n = Some r)) /\
  (forall n r, n < coblocks g -> xor_slot g n = Some r -> ~ In n (entries r)) /\
  (forall c, coblocks g <= c < nodes g -> c < node_space g ->
     exists r, xor_slot g c = Some r) /\
  (forall c r, coblocks g <= c -> xor_slot g c = Some r ->
     hd_error (entries r) = Some c) /\
  (forall v res g', check_block_ok g v = true ->
     oc_graph_check_block g v = Some (res, g') -> recipes_kept g g') /\
  (forall res sl g', oc_graph_resolve g = Some (res, sl, g') -> recipes_kept g g').
Proof.
  intros Hr. pose proof (reachable_inv g Hr) as Hinv. pose proof Hinv as [Hs _].
  split; [|split; [|split; [|split; [|split]]]].
  - intros n Hn. rewrite (str_xor_solved g Hs n Hn).
    destruct (xor_slot g n) as [r|].
    + split; [eauto|discriminate].
    + split; [congruence|intros [r H]; discriminate].
  - intros n r Hn Hx. destruct (str_xor_ok g Hs n r Hx) as (_ & _ & _ & H & _). auto.
  - intros c Hc1 Hc2. pose proof (str_xor_check g Hs c Hc1 Hc2).
    destruct (xor_slot g c); [eauto|congruence].
  - intros c r Hc Hx. destruct (str_xor_ok g Hs c r Hx) as (_ & _ & _ & _ & H). auto.
  - intros v res g' Hv Hrun.
    destruct (check_block_ok_inv g v Hinv Hv) as (r0 & g0 & Hrun0 & _ & Hk).
    rewrite Hrun in Hrun0. injection Hrun0 as _ <-. exact Hk.
  - intros res sl g' Hrun.
    destruct (resolve_ok g Hinv) as (d0 & sl0 & g0 & Hrun0 & _ & Hk).
    rewrite Hrun in Hrun0. injection Hrun0 as _ _ <-. exact Hk.
Qed.

Lemma recipe_invariant_witness :
  xor_slot Scenario.s2_done 0 = Some [1; 2] /\ ~ In 0 (entries [1; 2]).
Proof.
  split; [reflexivity|].
  apply (proj1 (proj2 (recipe_invariant Scenario.s2_done Reach.s2_done_reachable)) 0);
    [vm_compute|]; reflexivity.
Defined.

(** C10 as stated fails for check nodes: the recipe that the ingest
    gives check node 2 of [s2_one] is [[1, 2]], which names node 2. *)
Lemma recipe_invariant_counterexample :
  ~ (forall g, reachable g ->
       forall n r, xor_slot g n = Some r -> ~ In n (entries r)).
Proof.
  intros H. apply (H Scenario.s2_one Reach.s2_one_reachable 2 [1; 2]).
  - reflexivity.
  - vm_compute. left. reflexivity.
Qed.

(** * Check-block ingest *)

(** C5: a successful [oc_graph_check_block] on [[k, d1 .. dk]] with [s]
    solved entries returns the new node index; [xor_list[node]] is
    [[s + 1, node]] followed by the solved entries; the stored v-edge
    array has count [k - s] and the unsolved entries as its live cells;
    each unsolved entry gets the up-edge to [node]; the edge count is
    [k - s]; [node] joins the end of the pending queue. *)
Theorem check_block_ingest g v :
  reachable g -> check_block_ok g v = true -> nodes g < node_space g ->
  let node := nodes g in
  let k := hd 0 v in
  let s := Z.of_nat (length (solved_in (solved g) (entries v))) in
  exists g' xs kept stale,
    oc_graph_check_block g v = Some (node, g') /\
    Permutation xs (solved_in (solved g) (entries v)) /\
    xor_slot g' node = Some (s + 1 :: node :: xs) /\
    Permutation kept (unsolved_in (solved g) (entries v)) /\
    v_slot g' node = Some (k - s :: kept ++ stale) /\
    Z.of_nat (length kept) = k - s /\
    length (k - s :: kept ++ stale) = length v /\
    edge_count_of g' node = Some (k - s) /\
    (forall l, n_cells g' l =
       if in_dec Z.eq_dec l kept then node :: n_cells g l else n_cells g l) /\
    pending g' = pending g ++ [node] /\ nodes g' = node + 1.
Proof.
  intros Hr Hv Hlt node k s.
  pose proof (reachable_inv g Hr) as [Hs _].
  destruct (check_block_ok_spec g v Hv) as (Hw & HE & Hnd).
  destruct (wf_arr_split v Hw) as [stale0 Hvs].
  pose proof (str_mblocks g Hs). pose proof (str_ablocks g Hs).
  pose proof (str_coblocks g Hs). pose proof (str_nodes g Hs).
  destruct (check_block_spec g (entries v) stale0)
    as (ne & xl & ve & ec & kept & xs & stale & Hrun & Hk & Hxs & Hxl & Hve & Hec
        & Hlne & Hlen & Hcells); try apply Hs; try lia; try assumption.
  rewrite <- Hvs in Hrun. fold node in Hrun, Hxl, Hve, Hec, Hcells.
  set (g' := ingested g ne xl ve ec) in *.
  pose proof (split_solved_length (solved g) (entries v)) as Hsplit.
  pose proof (entries_length v Hw) as Hkk. fold k in Hkk.
  assert (Hlk : Z.of_nat (length kept) = k - s).
  { rewrite (Permutation_length Hk). unfold s. lia. }
  assert (Hlx : Z.of_nat (length (node :: xs)) = s + 1).
  { cbn [length]. rewrite (Permutation_length Hxs). unfold s. lia. }
  rewrite Hlx in Hxl. rewrite Hlk in Hve, Hec.
  exists g', xs, kept, stale.
  split; [exact Hrun|]. split; [exact Hxs|].
  split.
  { rewrite (xor_slot_set g g' _ _ node Hxl), Z.eqb_refl. reflexivity. }
  split; [exact Hk|].
  split.
  { rewrite (v_slot_set g g' _ _ node Hve eq_refl), Z.eqb_refl. reflexivity. }
  split; [exact Hlk|].
  split.
  { transitivity (length (Z.of_nat (length (entries v)) :: entries v ++ stale0));
      [cbn [length]; rewrite Hlen; reflexivity|rewrite <- Hvs; reflexivity]. }
  split.
  { unfold edge_count_of. change (edge_count g') with ec. change (mblocks g') with (mblocks g).
    apply (zget_zset_same _ _ _ _ Hec). }
  split; [|split; reflexivity].
  intros l. change (n_cells g' l) with (n_cells (set_n_edges g ne) l). rewrite Hcells.
  assert (Hndu : NoDup (unsolved_in (solved g) (entries v))) by (apply NoDup_filter; exact Hnd).
  destruct (in_dec Z.eq_dec l kept) as [Hin|Hnin].
  - apply (Permutation_in _ Hk) in Hin.
    rewrite (proj1 (NoDup_count_occ' Z.eq_dec _) Hndu l Hin). reflexivity.
  - assert (Hnin' : ~ In l (unsolved_in (solved g) (entries v))).
    { intros Hin. apply Hnin. eapply Permutation_in; [symmetry; exact Hk|exact Hin]. }
    apply (count_occ_not_In Z.eq_dec) in Hnin'. rewrite Hnin'. reflexivity.
Qed.

Lemma check_block_ingest_witness :
  exists g' xs kept stale,
    oc_graph_check_block Scenario.s5_c [2; 0; 2] = Some (7, g') /\
    Permutation xs [0] /\ xor_slot g' 7 = Some (1 + 1 :: 7 :: xs) /\
    Permutation kept [2] /\ v_slot g' 7 = Some (2 - 1 :: kept ++ stale).
Proof.
  destruct (check_block_ingest Scenario.s5_c [2; 0; 2] Reach.s5_c_reachable)
    as (g' & xs & kept & stale & H1 & H2 & H3 & H4 & H5 & _).
  - reflexivity.
  - reflexivity.
  - exists g', xs, kept, stale. repeat split; assumption.
Defined.

(** * Initialisation *)

Lemma uppers_of_exact amap q (n : nat) : forall (s m : nat),
  (s <= m < s + n)%nat ->
  uppers_of (Z.of_nat m) (map_pairs amap q s n) = aux_row amap q m.
Proof.
  induction n as [|n IH]; intros s m Hm; [lia|].
  unfold map_pairs. cbn [seq flat_map]. fold (map_pairs amap q (S s) n).
  rewrite uppers_of_app, uppers_of_row.
  destruct (Z.of_nat s =? Z.of_nat m) eqn:E.
  - apply Z.eqb_eq in E. assert (s = m) by lia. subst s.
    destruct (uppers_of (Z.of_nat m) (map_pairs amap q (S m) n)) as [|u t] eqn:Hu;
      [apply app_nil_r|].
    assert (Hin : In u (uppers_of (Z.of_nat m) (map_pairs amap q (S m) n)))
      by (rewrite Hu; left; reflexivity).
    apply uppers_of_In, map_pairs_In in Hin as (m' & Hm' & Hl & _). lia.
  - apply Z.eqb_neq in E. cbn [app]. apply IH. lia.
Qed.

(** C6: after a successful [oc_graph_init], every auxiliary slot [a] has
    [edge_count[a]] equal to the number [n] of map cells that name node
    [mblocks + a], and a v-edge array with count [n] whose entries are
    the messages of those cells; [n_edges[msg]] holds one cell for each
    cell of the row of [msg]; [unsolved_count] is [mblocks] and [nodes]
    is [coblocks]. *)
Theorem init_edges codec fudge g amap :
  oc_graph_init codec fudge = Some (InitOk g) ->
  Codec.auxiliary codec = Some amap ->
  let mb := Codec.mblocks codec in
  let q := Codec.q codec in
  let ps := map_pairs amap q 0 (Z.to_nat mb) in
  (forall a, 0 <= a < Codec.ablocks codec ->
     let n := Z.of_nat (length (members mb a ps)) in
     zget (edge_count g) a = Some n /\
     exists arr, zget (v_edges g) a = Some (Some arr) /\
       zget arr 0 = Some n /\ entries arr = rev (members mb a ps)) /\
  (forall msg, (msg < Z.to_nat mb)%nat ->
     n_cells g (Z.of_nat msg) = rev (aux_row amap q msg)) /\
  unsolved_count g = mb /\ nodes g = Codec.coblocks codec.
Proof.
  intros Hinit Hamap mb q ps.
  destruct (init_spec codec fudge g Hinit) as (amap' & cs & Hspec). cbv zeta in Hspec.
  destruct Hspec as (Hamap' & _ & _ & _ & _ & _ & Hg & _ & _ & _ & _ & _ & Hcells & Haux & _).
  assert (amap' = amap) by congruence. subst amap'. fold mb q ps in Hg, Hcells, Haux.
  split; [|split; [|split; rewrite Hg; reflexivity]].
  - intros a Ha n. destruct (Haux a Ha) as [Hv He]. split; [exact He|].
    eexists. split; [exact Hv|]. split; [reflexivity|].
    pose proof (entries_packed (rev (members mb a ps)) []) as H.
    rewrite app_nil_r, length_rev in H. exact H.
  - intros msg Hmsg. rewrite Hcells. f_equal. apply uppers_of_exact. lia.
Qed.

Lemma init_edges_witness :
  zget (edge_count Scenario.s3_init) 0 = Some 2 /\
  n_cells Scenario.s3_init 1 = [2].
Proof.
  pose proof (init_edges Scenario.codec3 Scenario.fudge15 Scenario.s3_init [2; 2]
                eq_refl eq_refl) as (Haux & Hmsg & _).
  split.
  - apply (Haux 0). vm_compute. split; [discriminate|reflexivity].
  - apply (Hmsg 1%nat). vm_compute. lia.
Defined.

(** * The two rules of the resolver *)

Lemma shift_inv g from rest :
  graph_inv g -> done g = false -> pending g = from :: rest ->
  let g1 := set_pending g rest in
  graph_str g1 /\ counts_ok (solved g) g1 /\
  mblocks g <= from < nodes g /\ from < node_space g.
Proof.
  intros [Hs Hc] Hd Hp g1. pose proof (str_pending g Hs) as Hpend. rewrite Hp in Hpend.
  inversion Hpend as [|? ? Hfrom Hrest]; subst.
  split; [|split; [exact (Hc Hd)|exact Hfrom]].
  apply (graph_str_frame g (unsolved_count g) (done g) rest Hs Hrest).
  apply (str_done g Hs).
Qed.

Lemma n_cells_after_retire g g1 from :
  graph_str g -> graph_str g1 -> v_slot g1 from = None ->
  (forall u, u <> from -> v_slot g1 u = v_slot g u) ->
  (forall l, ~ In from (n_cells g1 l)) /\
  (forall l x, x <> from -> (In x (n_cells g1 l) <-> In x (n_cells g l))).
Proof.
  intros Hs Hs1 Hnone Hsame. split.
  - intros l Hin. apply (str_recip g1 Hs1) in Hin as (a & Ha & _). congruence.
  - intros l x Hx. rewrite (str_recip g1 Hs1), (str_recip g Hs). unfold vedge.
    rewrite (Hsame x Hx). reflexivity.
Qed.

(** C1: when the resolver pops [from] with edge count 1, [from] a check
    node or a solved auxiliary node, the propagation rule fires: the
    v-edge array of [from] has exactly one unsolved entry [to]; [to]
    leaves the array by the swap with the last entry; the up-edge
    [to -> from] is deleted and the edge count of [from] drops to 0;
    [to] becomes solved with the recipe of [from] followed by the reduced
    v-edge entries; [to] is put on the solved list; [from] is
    decommissioned. *)
Theorem propagation_rule_fires g from rest fuel sl :
  graph_inv g -> done g = false -> pending g = from :: rest ->
  edge_count_of g from = Some 1 ->
  (coblocks g <= from \/ is_solved (solved g) from = true) ->
  exists arr E1 to E2 xarr g1 g',
    let reduced := swap_shrink (entries arr) (length E1) in
    let recipe := entries xarr ++ reduced in
    v_slot g from = Some arr /\ entries arr = E1 ++ to :: E2 /\
    Forall (fun d => is_solved (solved g) d = true) (E1 ++ E2) /\
    is_solved (solved g) to = false /\
    xor_slot g from = Some xarr /\
    propagation_rule (set_pending g rest) from = Some (to, g1) /\
    resolve_loop (S fuel) g sl = Some (g', sl ++ [to]) /\
    is_solved (solved g1) to = true /\
    xor_slot g1 to = Some (Z.of_nat (length recipe) :: recipe) /\
    v_slot g1 from = None /\
    edge_count_of g1 from = Some 0 /\
    (forall l, ~ In from (n_cells g1 l)) /\
    (forall l x, x <> from -> (In x (n_cells g1 l) <-> In x (n_cells g l))) /\
    solved g' = solved g1 /\ xor_list g' = xor_list g1 /\
    v_edges g' = v_edges g1 /\ n_edges g' = n_edges g1 /\
    edge_count_of g' from = Some 0.
Proof.
  intros Hinv Hd Hp Hcu Hspent.
  destruct (shift_inv g from rest Hinv Hd Hp) as (Hs1 & Hc1 & Hfrom & Hfrom').
  pose proof Hinv as [Hs _].
  set (g0 := set_pending g rest) in *.
  destruct (propagation_inv g0 from Hs1 Hc1)
    as (arr & E1 & t & E2 & xarr & ve & ne & ec & sv' & xl & Hprop);
    [simpl; lia|exact Hcu|exact Hspent|].
  cbv zeta in Hprop.
  destruct Hprop as (Hv & HE & HrestE & Ht & Htr & Htlt & Hxf & Hrun & Hs2 & Hc2
                     & Hsv & Hxl & Hec & Hve).
  set (g1 := with_arrays g0 ve ne ec sv' xl) in *.
  assert (Hv1 : forall u, v_slot g1 u = if u =? from then None else v_slot g u).
  { intros u. apply (v_slot_store g g1); [exact Hve|reflexivity]. }
  assert (Hnone : v_slot g1 from = None) by (rewrite Hv1, Z.eqb_refl; reflexivity).
  assert (Hsame : forall u, u <> from -> v_slot g1 u = v_slot g u).
  { intros u Hu. rewrite Hv1. zbool (u =? from) false. reflexivity. }
  destruct (n_cells_after_retire g g1 from Hs Hs2 Hnone Hsame) as [Hgone Hkeep].
  assert (Hec1 : edge_count_of g1 from = Some 0).
  { unfold edge_count_of. apply (zget_zset_same _ _ _ _ Hec). }
  (* the rest of the iteration *)
  assert (Hloop : exists g',
            resolve_loop (S fuel) g sl = Some (g', sl ++ [t]) /\
            solved g' = solved g1 /\ xor_list g' = xor_list g1 /\
            v_edges g' = v_edges g1 /\ n_edges g' = n_edges g1 /\
            edge_count_of g' from = Some 0).
  { cbn [resolve_loop]. rewrite Hp. unfold oc_shift_pending. rewrite Hp. fold g0.
    change (mblocks g0) with (mblocks g). change (coblocks g0) with (coblocks g).
    rewrite c_assert_true by zcmp.
    unfold edge_count_of in Hcu. change (edge_count g0) with (edge_count g). rewrite Hcu.
    change (1 >? 1) with false. change (1 =? 0) with false. change (1 =? 1) with true.
    cbv iota.
    assert (Hsk : (if from <? coblocks g
                   then s <- zget (solved g0) from ;; Some (negb s)
                   else Some false) = Some false).
    { destruct (from <? coblocks g) eqn:E; [|reflexivity].
      apply Z.ltb_lt in E. destruct Hspent as [|Hsol]; [lia|].
      change (solved g0) with (solved g).
      rewrite (is_solved_true_get _ _ Hsol). reflexivity. }
    rewrite Hsk, Hrun. unfold oc_push_solved.
    change (mblocks g1) with (mblocks g).
    assert (Hcas : forall gx, graph_str gx ->
              solved gx = solved g1 -> xor_list gx = xor_list g1 ->
              v_edges gx = v_edges g1 -> n_edges gx = n_edges g1 ->
              edge_count gx = edge_count g1 -> mblocks gx = mblocks g ->
              coblocks gx = coblocks g ->
              exists g', oc_cascade gx t = Some g' /\
                solved g' = solved g1 /\ xor_list g' = xor_list g1 /\
                v_edges g' = v_edges g1 /\ n_edges g' = n_edges g1 /\
                edge_count_of g' from = Some 0).
    { intros gx Hsx Hx1 Hx2 Hx3 Hx4 Hx5 Hx6 Hx7.
      assert (Hcx : counts_ok (solved g) gx).
      { intros u a Hu. unfold v_slot, edge_count_of in *. rewrite Hx3, Hx5, Hx6 in *.
        apply (Hc2 u a). exact Hu. }
      destruct (cascade_inv gx (solved g) t Hsx Hcx Ht) as (ecx & Hcasx & _ & Hget & _).
      { rewrite Hx1. exact Hsv. }
      { rewrite Hx7. exact Htr. }
      eexists. split; [exact Hcasx|].
      cbn [solved xor_list v_edges n_edges cascaded set_pending set_edge_count].
      repeat (split; [assumption|]).
      unfold edge_count_of. cbn [edge_count mblocks cascaded set_pending set_edge_count].
      assert (Hec1' : zget (edge_count g1) (from - mblocks g) = Some 0) by exact Hec1.
      rewrite Hget, Hx5, Hx6, Hec1'. cbn [option_map].
      unfold dec_if. replace (from - mblocks g + mblocks g) with from by lia.
      destruct (in_dec Z.eq_dec from (n_cells gx t)) as [Hin|]; [|reflexivity].
      exfalso. apply (Hgone t). unfold n_cells in *. rewrite Hx4 in Hin. exact Hin. }
    destruct (t <? mblocks g) eqn:Hmsg.
    - cbn [unsolved_count set_unsolved_count].
      destruct (unsolved_count g1 - 1 =? 0).
      + eexists. split; [reflexivity|]. repeat split. exact Hec1.
      + destruct (Hcas (set_unsolved_count g1 (unsolved_count g1 - 1)))
          as (g' & Hc' & Hrest'); try reflexivity.
        { apply (graph_str_frame g1 (unsolved_count g1 - 1) (done g1) (pending g1) Hs2).
          - apply Hs2.
          - simpl. congruence. }
        rewrite Hc'. eexists. split; [reflexivity|exact Hrest'].
    - apply Z.ltb_ge in Hmsg.
      destruct (Hcas (oc_push_pending g1 t)) as (g' & Hc' & Hrest'); try reflexivity.
      { apply (graph_str_frame g1 (unsolved_count g1) (done g1) (pending g1 ++ [t]) Hs2).
        - apply Forall_app. split; [apply Hs2|]. constructor; [|constructor].
          simpl. pose proof (str_nodes g Hs). pose proof (str_space g Hs). lia.
        - apply Hs2. }
      rewrite Hc'. eexists. split; [reflexivity|exact Hrest']. }
  destruct Hloop as (g' & Hloop & Hg'1 & Hg'2 & Hg'3 & Hg'4 & Hg'5).
  exists arr, E1, t, E2, xarr, g1, g'. cbv zeta.
  split; [exact Hv|]. split; [exact HE|]. split; [exact HrestE|]. split; [exact Ht|].
  split; [exact Hxf|]. split; [exact Hrun|]. split; [exact Hloop|].
  split.
  { change (solved g1) with sv'. rewrite (is_solved_mark _ _ _ t Hsv), Z.eqb_refl. reflexivity. }
  split.
  { rewrite (xor_slot_set g g1 _ _ t Hxl), Z.eqb_refl. reflexivity. }
  split; [exact Hnone|]. split; [exact Hec1|]. split; [exact Hgone|].
  split; [exact Hkeep|].
  repeat (split; [assumption|]). exact Hg'5.
Qed.

Lemma propagation_rule_fires_witness :
  exists g', resolve_loop 1 Scenario.s3_one [] = Some (g', [0]) /\
    xor_slot g' 0 = Some [1; 3].
Proof.
  destruct (propagation_rule_fires Scenario.s3_one 3 [] 0 [])
    as (arr & E1 & t & E2 & xarr & g1 & g' & H).
  - apply reachable_inv. apply Reach.s3_one_reachable.
  - reflexivity.
  - reflexivity.
  - reflexivity.
  - left. vm_compute. discriminate.
  - cbv zeta in H. destruct H as (_ & _ & _ & _ & _ & _ & Hrun & _).
    vm_compute in Hrun. injection Hrun as Hg Ht. subst g' t.
    eexists. split; [vm_compute; reflexivity|reflexivity].
Defined.

(** C2: when the resolver pops an unsolved auxiliary node [from] with
    edge count 0, the auxiliary rule fires: [from] becomes solved; its
    v-edge array becomes its recipe and the v-edge slot is nulled; the
    up-edge [l -> from] of every entry [l] is deleted and no edge count
    changes; [from] is put on the solved list; a cascade from [from]
    follows. *)
Theorem auxiliary_rule_fires g from rest fuel sl :
  graph_inv g -> done g = false -> pending g = from :: rest ->
  mblocks g <= from < coblocks g -> is_solved (solved g) from = false ->
  edge_count_of g from = Some 0 ->
  exists arr g1 g',
    v_slot g from = Some arr /\
    oc_aux_rule (set_pending g rest) from = Some g1 /\
    oc_cascade g1 from = Some g' /\
    resolve_loop (S fuel) g sl = Some (g', sl ++ [from]) /\
    is_solved (solved g1) from = true /\
    xor_slot g1 from = Some arr /\
    zget (v_edges g1) (from - mblocks g) = Some None /\
    edge_count g1 = edge_count g /\
    (forall l, In l (entries arr) -> ~ In from (n_cells g1 l)) /\
    (forall l x, In x (n_cells g1 l) <->
                 In x (n_cells g l) /\ ~ (In l (entries arr) /\ x = from)).
Proof.
  intros Hinv Hd Hp Hfrom Hun Hcu.
  destruct (shift_inv g from rest Hinv Hd Hp) as (Hs1 & Hc1 & Hfr & Hfr').
  pose proof Hinv as [Hs _]. pose proof (str_mblocks g Hs) as Hm.
  set (g0 := set_pending g rest) in *.
  destruct (aux_rule_inv g0 from Hs1 Hc1 Hfrom Hun Hcu)
    as (arr & sv' & xl & ve & ne & Haux).
  cbv zeta in Haux. destruct Haux as (Hv & Hsv & Hxl & Hve & Hrun & Hs2 & Hc2 & Hnc).
  set (g1 := set_n_edges (set_v_edges (set_xor_list (set_solved g0 sv') xl) ve) ne) in *.
  destruct (cascade_inv g1 (solved g) from Hs2 Hc2 Hun Hsv)
    as (ec & Hcas & _); [simpl; lia|].
  exists arr, g1, (cascaded g1 from ec).
  split; [exact Hv|]. split; [exact Hrun|]. split; [exact Hcas|].
  split.
  { cbn [resolve_loop]. rewrite Hp. unfold oc_shift_pending. rewrite Hp. fold g0.
    change (mblocks g0) with (mblocks g). change (coblocks g0) with (coblocks g).
    rewrite c_assert_true by zcmp.
    unfold edge_count_of in Hcu. change (edge_count g0) with (edge_count g). rewrite Hcu.
    change (0 >? 1) with false. change (0 =? 0) with true. cbv iota.
    zbool (from >=? coblocks g) false. change (solved g0) with (solved g).
    rewrite solved_get by (rewrite (str_len_solved g Hs); lia). rewrite Hun.
    rewrite Hrun, Hcas. reflexivity. }
  split.
  { change (solved g1) with sv'. rewrite (is_solved_mark _ _ _ from Hsv), Z.eqb_refl.
    reflexivity. }
  split.
  { rewrite (xor_slot_set g g1 _ _ from Hxl), Z.eqb_refl. reflexivity. }
  split; [apply (zget_zset_same _ _ _ _ Hve)|]. split; [reflexivity|].
  split; [|exact Hnc].
  intros l Hl Hin. apply Hnc in Hin as [_ Hn]. apply Hn. auto.
Qed.

Lemma auxiliary_rule_fires_witness :
  exists g', resolve_loop 1 Scenario.s5_d [] = Some (g', [3]) /\
    xor_slot g' 3 = Some [2; 1; 0].
Proof.
  destruct (auxiliary_rule_fires Scenario.s5_d 3 [3] 0 [])
    as (arr & g1 & g' & H).
  - apply reachable_inv. apply Reach.s5_d_reachable.
  - reflexivity.
  - reflexivity.
  - vm_compute. split; [discriminate|reflexivity].
  - reflexivity.
  - reflexivity.
  - destruct H as (_ & _ & _ & Hrun & _).
    vm_compute in Hrun. injection Hrun as Hg. subst g'.
    eexists. split; [vm_compute; reflexivity|reflexivity].
Defined.

(** * The size of the check range *)

(** C8, as the code has it: [check_space] is the [float] product
    [fudge * expected] converted to [int], that is cut off towards zero
    (the floor of a positive product, not its ceiling), and [node_space]
    is [coblocks + check_space]. *)
Theorem check_space_truncates codec fudge g :
  oc_graph_init codec fudge = Some (InitOk g) ->
  exists cs,
    check_space_of codec fudge = Some cs /\
    node_space g = coblocks g + cs /\
    match Fp.fmul fudge (expected_blocks codec) with
    | S754_zero _ => cs = 0
    | S754_finite s m ex =>
        cs = cond_Zopp s (Z.abs cs) /\
        if 0 <=? ex then Z.abs cs = Z.pos m * 2 ^ ex
        else Z.abs cs * 2 ^ (- ex) <= Z.pos m < (Z.abs cs + 1) * 2 ^ (- ex)
    | _ => False
    end.
Proof.
  intros Hinit.
  destruct (init_spec codec fudge g Hinit) as (amap & cs & Hspec). cbv zeta in Hspec.
  destruct Hspec as (_ & Hcs & _ & _ & _ & _ & Hg & _).
  exists cs. split; [exact Hcs|]. split; [rewrite Hg; reflexivity|].
  unfold check_space_of, Fp.int_of_float in Hcs.
  destruct (Fp.fmul fudge (expected_blocks codec)) as [s|s| |s m ex]; try discriminate.
  - congruence.
  - set (a := if 0 <=? ex then Z.pos m * 2 ^ ex else Z.pos m / 2 ^ (- ex)) in *.
    destruct ((- 2 ^ 31 <=? cond_Zopp s a) && (cond_Zopp s a <=? 2 ^ 31 - 1));
      [|discriminate].
    injection Hcs as <-.
    assert (Ha : 0 <= a).
    { unfold a. destruct (0 <=? ex) eqn:E.
      - apply Z.leb_le in E. pose proof (Z.pow_nonneg 2 ex). lia.
      - apply Z.div_pos; [lia|]. apply Z.pow_pos_nonneg; [lia|].
        apply Z.leb_gt in E. lia. }
    assert (Habs : Z.abs (cond_Zopp s a) = a) by (destruct s; simpl; lia).
    rewrite Habs. split; [reflexivity|].
    unfold a. destruct (0 <=? ex) eqn:E; [reflexivity|].
    apply Z.leb_gt in E.
    assert (Hd : 0 < 2 ^ (- ex)) by (apply Z.pow_pos_nonneg; lia).
    split.
    + rewrite Z.mul_comm. apply Z.mul_div_le. exact Hd.
    + rewrite Z.mul_comm. rewrite Z.add_1_r. apply Z.mul_succ_div_gt. exact Hd.
Qed.

Lemma check_space_truncates_witness :
  exists cs, check_space_of Scenario.codec2 Scenario.fudge15 = Some cs /\
    node_space Scenario.s2_init = coblocks Scenario.s2_init + cs.
Proof.
  destruct (check_space_truncates Scenario.codec2 Scenario.fudge15 Scenario.s2_init)
    as (cs & H1 & H2 & _).
  - vm_compute. reflexivity.
  - exists cs. split; assumption.
Defined.

(** C8 as stated fails: for [fudge = 1.5], [q = 1], [e = 0.5] and
    [mblocks = 1] the product is [2.25]; the code sizes the check range
    at 2 nodes, the ceiling is 3. *)
Lemma check_space_counterexample :
  oc_graph_init Scenario.codec2 Scenario.fudge15 = Some (InitOk Scenario.s2_init) /\
  ceiling_check_space Scenario.codec2 Scenario.fudge15 = 3 /\
  node_space Scenario.s2_init
    <> coblocks Scenario.s2_init + ceiling_check_space Scenario.codec2 Scenario.fudge15.
Proof.
  split; [vm_compute; reflexivity|]. split; [vm_compute; reflexivity|].
  vm_compute. discriminate.
Qed.

(** * Single edges *)

Lemma unlink_first u cells c' :
  unlink u cells = Some c' ->
  exists c1 c2, cells = c1 ++ u :: c2 /\ ~ In u c1 /\ c' = c1 ++ c2.
Proof.
  revert c'. induction cells as [|v rest IH]; simpl; intros c'; [discriminate|].
  destruct (v =? u) eqn:E.
  - apply Z.eqb_eq in E. subst v. intros [= <-]. exists [], rest. simpl. tauto.
  - apply Z.eqb_neq in E. destruct (unlink u rest) as [r'|]; [|discriminate].
    intros [= <-]. destruct (IH r' eq_refl) as (c1 & c2 & -> & Hn & ->).
    exists (v :: c1), c2. simpl. intuition congruence.
Qed.

Lemma n_cells_Some g l cells : zget (n_edges g) l = Some cells -> n_cells g l = cells.
Proof. unfold n_cells. intros ->. reflexivity. Qed.

(** X2: a successful [oc_delete_n_edge] unlinks the first cell of
    [n_edges[lower]] that holds [upper] and keeps the other cells in
    their order; every other n-edge list, the v-edges, the solved flags,
    the recipes and the queue stay as they were, and the edge counts
    change only when [decrement] is set. *)
Theorem delete_n_edge_first_cell g upper lower decrement g' :
  oc_delete_n_edge g upper lower decrement = Some g' ->
  (exists c1 c2, n_cells g lower = c1 ++ upper :: c2 /\ ~ In upper c1 /\
                 n_cells g' lower = c1 ++ c2) /\
  (forall l, l <> lower -> n_cells g' l = n_cells g l) /\
  v_edges g' = v_edges g /\ solved g' = solved g /\ xor_list g' = xor_list g /\
  pending g' = pending g /\
  (decrement = false -> edge_count g' = edge_count g) /\
  (decrement = true ->
   edge_count_of g' upper = option_map (fun c => c - 1) (edge_count_of g upper) /\
   forall u, u <> upper -> edge_count_of g' u = edge_count_of g u).
Proof.
  unfold oc_delete_n_edge. intros H.
  destruct (c_assert (upper >? lower)); [|discriminate].
  destruct (c_assert (upper >=? mblocks g)); [|discriminate].
  assert (Hmain : forall g1,
    n_edges g1 = n_edges g -> v_edges g1 = v_edges g -> solved g1 = solved g ->
    xor_list g1 = xor_list g -> pending g1 = pending g ->
    (cells <- zget (n_edges g1) lower ;;
     cells' <- unlink upper cells ;;
     ne <- zset (n_edges g1) lower cells' ;; Some (set_n_edges g1 ne)) = Some g' ->
    (exists c1 c2, n_cells g lower = c1 ++ upper :: c2 /\ ~ In upper c1 /\
                   n_cells g' lower = c1 ++ c2) /\
    (forall l, l <> lower -> n_cells g' l = n_cells g l) /\
    v_edges g' = v_edges g /\ solved g' = solved g /\ xor_list g' = xor_list g /\
    pending g' = pending g /\ edge_count g' = edge_count g1 /\ mblocks g' = mblocks g1).
  { intros g1 Hn Hv Hsv Hx Hp Hrun. rewrite Hn in Hrun.
    destruct (zget (n_edges g) lower) as [cells|] eqn:Hc; [|discriminate].
    destruct (unlink upper cells) as [c'|] eqn:Hu; [|discriminate].
    destruct (zset (n_edges g) lower c') as [ne|] eqn:Hz; [|discriminate].
    injection Hrun as <-.
    destruct (unlink_first _ _ _ Hu) as (c1 & c2 & -> & Hnin & ->).
    assert (Hcells : forall l, n_cells (set_n_edges g1 ne) l
                               = if l =? lower then c1 ++ c2 else n_cells g l).
    { intros l. unfold n_cells. cbn [n_edges set_n_edges].
      rewrite (zget_zset _ _ _ _ l Hz). destruct (l =? lower); reflexivity. }
    split; [|split].
    - exists c1, c2. rewrite (n_cells_Some _ _ _ Hc), Hcells, Z.eqb_refl. auto.
    - intros l Hl. rewrite Hcells. apply Z.eqb_neq in Hl. rewrite Hl. reflexivity.
    - cbn [v_edges solved xor_list pending edge_count mblocks set_n_edges].
      repeat split; assumption || reflexivity. }
  destruct decrement.
  - destruct (zget (edge_count g) (upper - mblocks g)) as [c|] eqn:Hc; [|discriminate].
    destruct (c_assert (negb (c =? 0))); [|discriminate].
    destruct (zset (edge_count g) (upper - mblocks g) (c - 1)) as [ec|] eqn:Hec; [|discriminate].
    destruct (Hmain (set_edge_count g ec)) as (A & B & C & D & E & F & G & M);
      try reflexivity; [exact H|].
    refine (conj A (conj B (conj C (conj D (conj E (conj F (conj _ _))))))); [discriminate|].
    intros _. unfold edge_count_of. rewrite G, M. cbn [edge_count mblocks set_edge_count].
    split.
    + rewrite (zget_zset_same _ _ _ _ Hec), Hc. reflexivity.
    + intros x Hx. apply (zget_zset_other _ _ _ _ _ Hec). lia.
  - destruct (Hmain g) as (A & B & C & D & E & F & G & M); try reflexivity; [exact H|].
    refine (conj A (conj B (conj C (conj D (conj E (conj F (conj _ _))))))); [auto|discriminate].
Qed.

Lemma delete_n_edge_first_cell_witness :
  exists g', oc_delete_n_edge Scenario.s3_init 2 1 false = Some g' /\
    n_cells g' 0 = n_cells Scenario.s3_init 0.
Proof.
  eexists. split; [reflexivity|].
  apply (delete_n_edge_first_cell Scenario.s3_init 2 1 false); [reflexivity|lia].
Defined.

(** X3: creating an up-edge and deleting it again, without decrement, gives
    the graph back. *)
Theorem create_delete_round_trip g upper lower g1 :
  mblocks g <= upper ->
  oc_create_n_edge g upper lower = Some g1 ->
  oc_delete_n_edge g1 upper lower false = Some g.
Proof.
  unfold oc_create_n_edge, oc_delete_n_edge. intros Hm H.
  destruct (c_assert (upper >? lower)) eqn:A1; [|discriminate].
  destruct (zget (n_edges g) lower) as [cells|] eqn:Hc; [|discriminate].
  destruct (zset (n_edges g) lower (upper :: cells)) as [ne|] eqn:Hz; [|discriminate].
  injection H as <-. cbn [mblocks n_edges set_n_edges].
  rewrite c_assert_true by zcmp.
  rewrite (zget_zset_same _ _ _ _ Hz). cbn [unlink]. rewrite Z.eqb_refl.
  destruct (zset_Some ne lower cells) as [ne' Hz'].
  { rewrite (zset_length _ _ _ _ Hz). eapply zget_Some_range. exact Hc. }
  rewrite Hz'. pose proof (zset_zset _ _ _ _ _ _ Hz Hz') as Hzz.
  rewrite (zset_same_id _ _ _ _ Hc Hzz). destruct g. reflexivity.
Qed.

Lemma create_delete_round_trip_witness :
  exists g1, oc_create_n_edge Scenario.s3_init 3 0 = Some g1 /\
    oc_delete_n_edge g1 3 0 false = Some Scenario.s3_init.
Proof.
  eexists. split; [reflexivity|].
  apply (create_delete_round_trip Scenario.s3_init 3 0); [vm_compute; discriminate|reflexivity].
Defined.

(** * Decommissioning twice *)

Lemma delete_n_edge_frame g u l g' :
  oc_delete_n_edge g u l false = Some g' ->
  v_edges g' = v_edges g /\ mblocks g' = mblocks g.
Proof.
  unfold oc_delete_n_edge. intros H.
  destruct (c_assert (u >? l)); [|discriminate].
  destruct (c_assert (u >=? mblocks g)); [|discriminate].
  destruct (zget (n_edges g) l) as [cells|]; [|discriminate].
  destruct (unlink u cells) as [c'|]; [|discriminate].
  destruct (zset (n_edges g) l c') as [ne|]; [|discriminate].
  injection H as <-. split; reflexivity.
Qed.

Lemma decommission_loop_frame i : forall g node down g',
  decommission_loop i g node down = Some g' ->
  v_edges g' = v_edges g /\ mblocks g' = mblocks g.
Proof.
  induction i as [|i IH]; intros g node down g' H.
  - injection H as <-. auto.
  - cbn [decommission_loop] in H.
    destruct (zget down (Z.of_nat (S i))) as [lower|]; [|discriminate].
    destruct (oc_delete_n_edge g node lower false) as [g1|] eqn:Hd; [|discriminate].
    destruct (delete_n_edge_frame _ _ _ _ Hd) as [Hv Hm].
    destruct (IH _ _ _ _ H) as [Hv' Hm']. split; congruence.
Qed.

(** X4: "Nodes may be decommissioned twice": a second
    [oc_decommission_node] of the same node finds the [NULL] slot and
    changes nothing. *)
Theorem decommission_twice g node g1 :
  oc_decommission_node g node = Some g1 ->
  oc_decommission_node g1 node = Some g1.
Proof.
  unfold oc_decommission_node. intros H.
  destruct (c_assert (node >=? mblocks g)) eqn:A1; [|discriminate].
  destruct (zget (v_edges g) (node - mblocks g)) as [down|] eqn:Hd; [|discriminate].
  destruct (zset (v_edges g) (node - mblocks g) None) as [ve|] eqn:Hz; [|discriminate].
  assert (Hv : v_edges g1 = ve /\ mblocks g1 = mblocks g).
  { destruct down as [arr|].
    - destruct (zget arr 0) as [k|]; [|discriminate].
      apply decommission_loop_frame in H. exact H.
    - injection H as <-. split; reflexivity. }
  destruct Hv as [Hv Hm]. rewrite Hm, A1, Hv.
  rewrite (zget_zset_same _ _ _ _ Hz).
  destruct (zset_Some ve (node - mblocks g) (@None (list Z))) as [ve' Hz'].
  { rewrite (zset_length _ _ _ _ Hz). eapply zget_Some_range. exact Hd. }
  rewrite Hz'. rewrite (zset_same_id _ _ _ _ (zget_zset_same _ _ _ _ Hz) Hz').
  rewrite <- Hv. destruct g1. reflexivity.
Qed.

Lemma decommission_twice_witness :
  exists g1, oc_decommission_node Scenario.s3_one 3 = Some g1 /\
    oc_decommission_node g1 3 = Some g1.
Proof.
  eexists. split; [reflexivity|].
  apply (decommission_twice Scenario.s3_one 3). reflexivity.
Defined.

(** * The outcome of the resolver loop *)

Lemma kept_frame_refl g : kept_frame g g.
Proof. constructor; auto. Qed.

Lemma kept_frame_trans g g1 g2 : kept_frame g g1 -> kept_frame g1 g2 -> kept_frame g g2.
Proof.
  intros [A1 A2 A3 A4 A5 A6] [B1 B2 B3 B4 B5 B6].
  constructor; try congruence. auto.
Qed.

Lemma discardable_frame g g1 u :
  mblocks g1 = mblocks g -> coblocks g1 = coblocks g ->
  solved g1 = solved g -> edge_count g1 = edge_count g ->
  discardable g1 u -> discardable g u.
Proof.
  intros Hm Hco Hsv Hec (c & Hc & H). exists c.
  unfold edge_count_of in *. rewrite Hm, Hco, Hsv, Hec in *. auto.
Qed.

Lemma outcome_lift g g1 g' out from :
  pending g = from :: pending g1 -> discardable g from ->
  mblocks g1 = mblocks g -> coblocks g1 = coblocks g ->
  solved g1 = solved g -> xor_list g1 = xor_list g ->
  edge_count g1 = edge_count g ->
  unsolved_count g1 = unsolved_count g -> done g1 = done g ->
  (forall u arr, v_slot g1 u = Some arr -> v_slot g u = Some arr) ->
  resolve_outcome g1 g' out -> resolve_outcome g g' out.
Proof.
  intros Hp Hdis Hm Hco Hsv Hxl Hec Huc Hd Hv Hout.
  assert (Hdf : forall l, Forall (discardable g1) l -> Forall (discardable g) l).
  { intros l. apply Forall_impl. intros u.
    apply discardable_frame; assumption. }
  assert (Hecf : forall u, edge_count_of g1 u = edge_count_of g u).
  { intros u. unfold edge_count_of. rewrite Hm, Hec. reflexivity. }
  assert (Hxf : forall u, xor_slot g1 u = xor_slot g u).
  { intros u. unfold xor_slot. rewrite Hxl. reflexivity. }
  destruct Hout.
  - apply out_none; try congruence. rewrite Hp. constructor; auto.
  - eapply (out_aux g g' (from :: skipped)); try rewrite <- Hecf; try rewrite <- Hsv;
      try rewrite <- Hxl; try rewrite <- Hm; try rewrite <- Hco; eauto; try congruence.
    rewrite Hp, H. reflexivity.
  - eapply (out_prop g g' (from :: skipped)); try rewrite <- Hecf; try rewrite <- Hsv;
      try rewrite <- Hxl; try rewrite <- Hm; try rewrite <- Hco; try rewrite <- Huc;
      try rewrite <- Hxf; eauto; try congruence.
    rewrite Hp, H. reflexivity.
Qed.

Lemma resolve_loop_spec (fuel : nat) : forall g sl,
  graph_str g -> counts_ok (solved g) g -> done g = false ->
  (length (pending g) < fuel)%nat ->
  exists g' out, resolve_loop fuel g sl = Some (g', sl ++ out) /\ graph_inv g' /\
    kept_frame g g' /\ resolve_outcome g g' out.
Proof.
  induction fuel as [|fuel IH]; intros g sl Hs Hc Hd Hfuel; [lia|].
  cbn [resolve_loop]. destruct (pending g) as [|from rest] eqn:Hp.
  { exists g, []. rewrite app_nil_r. split; [reflexivity|].
    split; [split; [exact Hs|intros _; exact Hc]|].
    split; [apply kept_frame_refl|].
    apply out_none; auto. rewrite Hp. constructor. }
  unfold oc_shift_pending. rewrite Hp.
  pose proof (str_pending g Hs) as Hpend. rewrite Hp in Hpend.
  inversion Hpend as [|? ? Hfrom Hrest]; subst.
  set (g1 := set_pending g rest).
  assert (Hs1 : graph_str g1).
  { apply (graph_str_frame g (unsolved_count g) (done g) rest Hs Hrest).
    apply (str_done g Hs). }
  assert (Hc1 : counts_ok (solved g1) g1) by exact Hc.
  change (mblocks g1) with (mblocks g). change (coblocks g1) with (coblocks g).
  rewrite c_assert_true by zcmp.
  destruct (edge_count_get g from Hs) as [cu Hcu]; [lia|].
  change (edge_count g1) with (edge_count g). rewrite Hcu.
  simpl in Hfuel.
  assert (Hdiscard : discardable g from ->
            exists g' out, resolve_loop fuel g1 sl = Some (g', sl ++ out) /\ graph_inv g'
              /\ kept_frame g g' /\ resolve_outcome g g' out).
  { intros Hdis.
    destruct (IH g1 sl Hs1 Hc1 Hd) as (g' & out & Hr1 & Hr2 & Hr3 & Hr4); [simpl; lia|].
    exists g', out. split; [exact Hr1|]. split; [exact Hr2|].
    split; [apply (kept_frame_trans g g1 g'); [constructor; auto|exact Hr3]|].
    apply (outcome_lift g g1 g' out from); auto; rewrite Hp; reflexivity. }
  destruct (cu >? 1) eqn:Hgt.
  { apply Hdiscard. exists cu. split; [exact Hcu|]. left.
    rewrite Z.gtb_ltb in Hgt. apply Z.ltb_lt in Hgt. exact Hgt. }
  destruct (cu =? 0) eqn:H0.
  - (* no unsolved edge *)
    apply Z.eqb_eq in H0. subst cu.
    assert (Hsp : (if from >=? coblocks g then Some true else zget (solved g1) from)
                  = Some (if from >=? coblocks g then true else is_solved (solved g) from)).
    { destruct (from >=? coblocks g) eqn:E; [reflexivity|].
      change (solved g1) with (solved g). apply solved_get. rewrite (str_len_solved g Hs).
      rewrite Z.geb_leb in E. apply Z.leb_gt in E. pose proof (str_mblocks g Hs). lia. }
    rewrite Hsp.
    destruct (if from >=? coblocks g then true else is_solved (solved g) from) eqn:Hspent.
    + assert (Hspent' : coblocks g <= from \/ is_solved (solved g) from = true).
      { destruct (from >=? coblocks g) eqn:E; [left|right; exact Hspent].
        rewrite Z.geb_leb in E. apply Z.leb_le in E. exact E. }
      destruct (decommission_inv g1 from Hs1) as (ve & ne & Hdec & Hs2 & Hc2 & _ & Hve).
      { simpl. lia. } { exact Hcu. } { exact Hspent'. }
      cbv zeta in Hdec, Hs2, Hc2. rewrite Hdec.
      set (g2 := set_n_edges (set_v_edges g1 ve) ne) in *.
      destruct (IH g2 sl Hs2 (Hc2 _ Hc1) Hd)
        as (g' & out & Hr1 & Hr2 & Hr3 & Hr4); [simpl; lia|].
      assert (Hv2 : forall u arr, v_slot g2 u = Some arr -> v_slot g u = Some arr).
      { intros u arr. rewrite (v_slot_store g g2 from None u Hve eq_refl).
        destruct (u =? from); [discriminate|auto]. }
      exists g', out. split; [exact Hr1|]. split; [exact Hr2|]. split.
      * apply (kept_frame_trans g g2 g'); [|exact Hr3]. constructor; auto.
      * apply (outcome_lift g g2 g' out from); auto; try (rewrite Hp; reflexivity).
        exists 0. split; [exact Hcu|]. right. left. auto.
    + destruct (from >=? coblocks g) eqn:E; [discriminate|].
      rewrite Z.geb_leb in E. apply Z.leb_gt in E.
      destruct (aux_rule_inv g1 from Hs1 Hc1) as (arr & sv' & xl & ve & ne & Haux);
        [simpl; lia|exact Hspent|exact Hcu|].
      cbv zeta in Haux.
      destruct Haux as (Hv & Hsv & Hxl & Hve & Hrun & Hs2 & Hc2 & _).
      rewrite Hrun.
      set (g2 := set_n_edges (set_v_edges (set_xor_list (set_solved g1 sv') xl) ve) ne) in *.
      destruct (cascade_inv g2 (solved g) from Hs2 Hc2 Hspent Hsv)
        as (ec & Hcas & _ & _ & Hs3 & Hc3); [simpl; pose proof (str_mblocks g Hs); lia|].
      rewrite Hcas. exists (cascaded g2 from ec), [from].
      split; [reflexivity|]. split; [split; [exact Hs3|intros _; exact Hc3]|].
      split.
      * constructor; try reflexivity.
        intros u a. change (v_slot (cascaded g2 from ec) u) with (v_slot g2 u).
        rewrite (v_slot_store g g2 from None u Hve eq_refl).
        destruct (u =? from); [discriminate|auto].
      * apply (out_aux g _ [] from rest arr); auto; try reflexivity.
        pose proof (str_mblocks g Hs). lia.
  - destruct (cu =? 1) eqn:H1.
    + (* one unsolved edge *)
      apply Z.eqb_eq in H1. subst cu.
      assert (Hsk : (if from <? coblocks g
                     then s <- zget (solved g1) from ;; Some (negb s)
                     else Some false)
                    = Some (if from <? coblocks g
                            then negb (is_solved (solved g) from) else false)).
      { destruct (from <? coblocks g) eqn:E; [|reflexivity].
        apply Z.ltb_lt in E. change (solved g1) with (solved g).
        rewrite solved_get; [reflexivity|].
        rewrite (str_len_solved g Hs). pose proof (str_mblocks g Hs). lia. }
      rewrite Hsk.
      destruct (if from <? coblocks g then negb (is_solved (solved g) from) else false)
        eqn:Hskip.
      { apply Hdiscard. exists 1. split; [exact Hcu|]. right. right.
        destruct (from <? coblocks g) eqn:E; [|discriminate].
        apply Z.ltb_lt in E. apply negb_true_iff in Hskip. auto. }
      assert (Hspent : coblocks g <= from \/ is_solved (solved g) from = true).
      { destruct (from <? coblocks g) eqn:E.
        - right. apply negb_false_iff in Hskip. exact Hskip.
        - left. apply Z.ltb_ge in E. exact E. }
      destruct (propagation_inv g1 from Hs1 Hc1)
        as (arr & E1 & t & E2 & xarr & ve & ne & ec & sv' & xl & Hprop);
        [simpl; lia|exact Hcu|exact Hspent|].
      cbv zeta in Hprop.
      destruct Hprop as (Hv & HE & HrestE & Ht & Htr & Htlt & Hxf & Hrun & Hs2 & Hc2
                         & Hsv & Hxl & Hec & Hve).
      rewrite Hrun.
      set (g2 := with_arrays g1 ve ne ec sv' xl) in *.
      assert (Hv2 : forall u a, v_slot g2 u = Some a -> v_slot g u = Some a).
      { intros u a. rewrite (v_slot_store g g2 from None u Hve eq_refl).
        destruct (u =? from); [discriminate|auto]. }
      assert (Hout : forall gx,
                solved gx = sv' -> xor_list gx = xl ->
                unsolved_count gx =
                  (if t <? mblocks g then unsolved_count g - 1 else unsolved_count g) ->
                done gx = (t <? mblocks g) && (unsolved_count g - 1 =? 0) ->
                resolve_outcome g gx [t]).
      { intros gx Hx1 Hx2 Hx3 Hx4.
        apply (out_prop g gx [] from rest arr E1 t E2 xarr); auto;
          try rewrite Hx1; try rewrite Hx2; auto. }
      assert (Hkf : forall gx,
                mblocks gx = mblocks g -> ablocks gx = ablocks g ->
                coblocks gx = coblocks g -> nodes gx = nodes g ->
                node_space gx = node_space g -> v_edges gx = ve ->
                kept_frame g gx).
      { intros gx K1 K2 K3 K4 K5 K6. constructor; auto.
        intros u a Hu. apply Hv2. unfold v_slot in *. rewrite K1, K6 in Hu. exact Hu. }
      change (mblocks g2) with (mblocks g).
      unfold oc_push_solved.
      destruct (t <? mblocks g) eqn:Hmsg.
      * cbn [unsolved_count set_unsolved_count].
        change (unsolved_count g2) with (unsolved_count g).
        destruct (unsolved_count g - 1 =? 0) eqn:Hlast.
        -- apply Z.eqb_eq in Hlast. eexists _, [t]. split; [reflexivity|].
           split; [|split; [apply Hkf; reflexivity|]].
           ++ split; [|simpl; discriminate].
              apply (graph_str_frame g2 (unsolved_count g - 1) true [] Hs2);
                [constructor|auto].
           ++ apply Hout; reflexivity.
        -- set (g3 := set_unsolved_count g2 (unsolved_count g - 1)).
           assert (Hs3 : graph_str g3).
           { apply (graph_str_frame g2 (unsolved_count g - 1) (done g2) (pending g2) Hs2).
             - apply Hs2.
             - simpl. congruence. }
           destruct (cascade_inv g3 (solved g) t Hs3 Hc2 Ht Hsv Htr)
             as (ec3 & Hcas & _ & _ & Hs4 & Hc4).
           rewrite Hcas. eexists _, [t]. split; [reflexivity|].
           split; [split; [exact Hs4|intros _; exact Hc4]|].
           split; [apply Hkf; reflexivity|].
           apply Hout; try reflexivity. simpl. exact Hd.
      * pose proof Hmsg as Hmsg'. apply Z.ltb_ge in Hmsg.
        set (g3 := oc_push_pending g2 t).
        assert (Hs3 : graph_str g3).
        { apply (graph_str_frame g2 (unsolved_count g2) (done g2) (pending g2 ++ [t]) Hs2).
          - apply Forall_app. split; [apply Hs2|]. constructor; [|constructor].
            simpl. pose proof (str_nodes g Hs). pose proof (str_space g Hs). lia.
          - apply Hs2. }
        destruct (cascade_inv g3 (solved g) t Hs3 Hc2 Ht Hsv Htr)
          as (ec3 & Hcas & _ & _ & Hs4 & Hc4).
        rewrite Hcas. eexists _, [t]. split; [reflexivity|].
        split; [split; [exact Hs4|intros _; exact Hc4]|].
        split; [apply Hkf; reflexivity|].
        apply Hout; try reflexivity. simpl. exact Hd.
    + (* a negative count cannot occur *)
      exfalso. apply Z.eqb_neq in H0, H1.
      rewrite Z.gtb_ltb in Hgt. apply Z.ltb_ge in Hgt.
      destruct (v_slot_cases g from Hs) as [[arr Hv]|[_ Hz]]; [lia| |congruence].
      pose proof (Hc from arr Hv) as Hcnt. unfold edge_count_of in Hcnt.
      rewrite Hcu in Hcnt. injection Hcnt as Hcnt.
      pose proof (count_unsolved_nonneg (solved g) (entries arr)). lia.
Qed.

(** * What the ingest leaves alone *)

Lemma prune_loop_frame count : forall g node v ep endp xl xp g' v' xl',
  prune_loop count g node v ep endp xl xp = Some (g', v', xl') ->
  g' = set_n_edges g (n_edges g').
Proof.
  induction count as [|c IH]; intros g node v ep endp xl xp g' v' xl' H.
  - injection H as <- _ _. destruct g. reflexivity.
  - cbn [prune_loop] in H.
    destruct (zget v ep) as [tmp|]; [|discriminate].
    destruct (zget (solved g) tmp) as [[|]|]; [| |discriminate].
    + destruct (zset xl xp tmp) as [xl1|]; [|discriminate].
      destruct (zget v endp) as [last|]; [|discriminate].
      destruct (zset v ep last) as [v1|]; [|discriminate].
      apply IH in H. exact H.
    + unfold oc_create_n_edge in H.
      destruct (c_assert (node >? tmp)); [|discriminate].
      destruct (zget (n_edges g) tmp) as [cells|]; [|discriminate].
      destruct (zset (n_edges g) tmp (node :: cells)) as [ne|]; [|discriminate].
      apply IH in H. rewrite H. reflexivity.
Qed.

Lemma ingest_frame g v r g' :
  oc_graph_check_block g v = Some (r, g') ->
  nodes g' = nodes g + 1 /\
  ((r = -1 /\ node_space g <= nodes g) \/ (r = nodes g /\ nodes g < node_space g)) /\
  solved g' = solved g /\ unsolved_count g' = unsolved_count g /\ done g' = done g /\
  mblocks g' = mblocks g /\ ablocks g' = ablocks g /\ coblocks g' = coblocks g /\
  node_space g' = node_space g /\
  (forall n, n <> nodes g ->
     xor_slot g' n = xor_slot g n /\ v_slot g' n = v_slot g n /\
     edge_count_of g' n = edge_count_of g n).
Proof.
  unfold oc_graph_check_block. cbn [node_space set_nodes]. intros H.
  destruct (nodes g >=? node_space g) eqn:Hfull.
  { injection H as <- <-. rewrite Z.geb_leb in Hfull. apply Z.leb_le in Hfull.
    cbn. repeat split; auto. }
  rewrite Z.geb_leb in Hfull. apply Z.leb_gt in Hfull.
  destruct (zget v 0) as [k|]; [|discriminate].
  destruct (while_count k) as [count|]; [|discriminate].
  destruct (count_solved_loop _ _ _ _ _) as [sc|]; [|discriminate].
  destruct (calloc 0 (sc + 2)) as [xp0|]; [|discriminate].
  destruct (zset (xor_list (set_nodes g (nodes g + 1))) (nodes g) (Some xp0)); [|discriminate].
  destruct (zset xp0 0 (sc + 1)) as [xp1|]; [|discriminate].
  destruct (zset xp1 1 (nodes g)) as [xp2|]; [|discriminate].
  destruct (zset v 0 (k - sc)) as [v1|]; [|discriminate].
  destruct (prune_loop _ _ _ _ _ _ _ _) as [[[g1 v2] xp3]|] eqn:Hprune; [|discriminate].
  apply prune_loop_frame in Hprune.
  destruct (zset (xor_list g1) (nodes g) (Some xp3)) as [xl|] eqn:Hxl; [|discriminate].
  cbn [v_edges mblocks edge_count set_xor_list set_v_edges] in H.
  destruct (zset (v_edges g1) (nodes g - mblocks g1) (Some v2)) as [ve|] eqn:Hve;
    [|discriminate].
  destruct (zget v2 0) as [v0|]; [|discriminate].
  destruct (zset (edge_count g1) (nodes g - mblocks g1) v0) as [ec|] eqn:Hec; [|discriminate].
  injection H as <- <-. rewrite Hprune in Hxl, Hve, Hec |- *.
  cbn [xor_list v_edges edge_count mblocks set_n_edges set_nodes] in Hxl, Hve, Hec.
  cbn. repeat split; auto.
  - unfold xor_slot. cbn. rewrite (zget_zset_other _ _ _ _ _ Hxl) by assumption. reflexivity.
  - unfold v_slot. cbn. rewrite (zget_zset_other _ _ _ _ _ Hve) by lia. reflexivity.
  - unfold edge_count_of. cbn. apply (zget_zset_other _ _ _ _ _ Hec). lia.
Qed.

(** X5: [oc_graph_check_block] never solves a node: whatever it is given, a
    call that returns has advanced [nodes] by one (also when it rejects
    the block), returned [-1] or the old value of [nodes], and left the
    solved flags, [unsolved_count], [done] and the sizes as they were;
    the recipe, the v-edge array and the edge count of every node other
    than the new one are untouched. *)
Theorem check_block_frame g v r g' :
  oc_graph_check_block g v = Some (r, g') ->
  nodes g' = nodes g + 1 /\
  ((r = -1 /\ node_space g <= nodes g) \/ (r = nodes g /\ nodes g < node_space g)) /\
  solved g' = solved g /\ unsolved_count g' = unsolved_count g /\ done g' = done g /\
  mblocks g' = mblocks g /\ ablocks g' = ablocks g /\ coblocks g' = coblocks g /\
  node_space g' = node_space g /\
  (forall n, n <> nodes g ->
     xor_slot g' n = xor_slot g n /\ v_slot g' n = v_slot g n /\
     edge_count_of g' n = edge_count_of g n).
Proof.
  intros Hrun.
  destruct (ingest_frame g v r g' Hrun) as (Hn & Hr & Hsv & Hrest).
  split; [exact Hn|]. split; [exact Hr|]. split; [exact Hsv|exact Hrest].
Qed.

Lemma check_block_frame_witness :
  exists r g', oc_graph_check_block Scenario.s5_c [2; 0; 2] = Some (r, g') /\
    solved g' = solved Scenario.s5_c /\ nodes g' = nodes Scenario.s5_c + 1.
Proof.
  eexists _, _. split; [vm_compute; reflexivity|].
  split; eapply (check_block_frame Scenario.s5_c [2; 0; 2]); vm_compute; reflexivity.
Defined.

(** * One resolver call *)

Lemma set_done_id g : done g = true -> set_done g true = g.
Proof. destruct g. simpl. intros ->. reflexivity. Qed.

Lemma resolve_spec g :
  graph_inv g ->
  exists sl g', oc_graph_resolve g = Some (done g', sl, g') /\ graph_inv g' /\
    kept_frame g g' /\
    ((sl = [] /\ g' = g /\ (pending g = [] \/ done g = true)) \/
     (pending g <> [] /\ unsolved_count g = 0 /\ done g = false /\
      sl = [] /\ g' = set_done g true) \/
     (pending g <> [] /\ unsolved_count g <> 0 /\ done g = false /\
      resolve_outcome g g' sl)).
Proof.
  intros [Hs Hc]. unfold oc_graph_resolve.
  destruct (pending g) as [|from rest] eqn:Hp.
  { exists [], g. split; [reflexivity|]. split; [split; assumption|].
    split; [apply kept_frame_refl|]. left. auto. }
  destruct (unsolved_count g =? 0) eqn:H0.
  - apply Z.eqb_eq in H0. exists [], (set_done g true). split; [reflexivity|].
    split.
    { split; [|simpl; discriminate].
      apply (graph_str_frame g (unsolved_count g) true (pending g) Hs); [apply Hs|auto]. }
    split; [constructor; auto|].
    destruct (done g) eqn:Hd.
    + left. rewrite (set_done_id g Hd). auto.
    + right. left. repeat split; auto. discriminate.
  - apply Z.eqb_neq in H0.
    assert (Hd : done g = false).
    { destruct (done g) eqn:E; [|reflexivity]. pose proof (str_done g Hs E). lia. }
    destruct (resolve_loop_spec (S (length (pending g))) g [] Hs (Hc Hd) Hd)
      as (g' & out & Hrun & Hinv & Hk & Hout); [lia|].
    rewrite Hp in Hrun. rewrite Hrun. exists out, g'. split; [reflexivity|].
    split; [exact Hinv|]. split; [exact Hk|]. right. right.
    repeat split; auto. discriminate.
Qed.

(** * The count of unsolved messages *)

Lemma messages_In g m : In m (messages g) <-> 0 <= m < mblocks g.
Proof.
  unfold messages. rewrite in_map_iff. split.
  - intros (n & <- & Hn). apply in_seq in Hn. lia.
  - intros H. exists (Z.to_nat m). split; [lia|]. apply in_seq. lia.
Qed.

Lemma messages_NoDup g : NoDup (messages g).
Proof.
  unfold messages. apply Finite.Injective_map_NoDup; [|apply seq_NoDup].
  intros a b. lia.
Qed.

Lemma messages_length g : Z.of_nat (length (messages g)) = Z.max 0 (mblocks g).
Proof. unfold messages. rewrite length_map, length_seq. lia. Qed.

Lemma count_inv_frame g g' :
  mblocks g' = mblocks g -> solved g' = solved g ->
  unsolved_count g' = unsolved_count g -> done g' = done g ->
  count_inv g -> count_inv g'.
Proof.
  intros Hm Hsv Hu Hd [H1 H2]. unfold count_inv, messages in *.
  rewrite Hm, Hsv, Hu, Hd. auto.
Qed.

Lemma reachable_count g : reachable g -> count_inv g.
Proof.
  induction 1 as [codec fudge g Hok Hinit|g v r g' Hr IH Hv Hrun|g r sl g' Hr IH Hrun].
  - destruct (init_spec codec fudge g Hinit) as (amap & cs & Hspec). cbv zeta in Hspec.
    destruct Hspec as (_ & _ & Hmb & _ & _ & _ & Hg & _).
    rewrite Hg. unfold count_inv, messages. cbn [unsolved_count solved mblocks done].
    rewrite count_unsolved_repeat, length_map, length_seq. split; lia.
  - destruct (ingest_frame g v r g' Hrun) as (_ & _ & A & B & C & D & _).
    apply (count_inv_frame g g'); assumption.
  - pose proof (reachable_inv g Hr) as Hinv. pose proof Hinv as [Hs _].
    destruct (resolve_spec g Hinv) as (sl0 & g0 & Hrun0 & _ & Hk & Hcase).
    rewrite Hrun in Hrun0. injection Hrun0 as _ <- <-.
    destruct IH as [IH1 IH2].
    destruct Hcase as [(_ & -> & _)|[(_ & H0 & _ & _ & ->)|(_ & H0 & Hd & Hout)]].
    + split; assumption.
    + split; [exact IH1|reflexivity].
    + assert (Hmsg : messages g' = messages g).
      { unfold messages. rewrite (kf_mblocks g g' Hk). reflexivity. }
      unfold count_inv. rewrite Hmsg.
      destruct Hout as [Hq Hsv Hxl Huc Hdn Hpe
                       |skipped from rest arr Hq Hdis Hec Hfr Hun Hv Hsv Hxl Huc Hdn
                       |skipped from rest arr E1 t E2 xarr Hq Hdis Hec Hsp Hv HE Hall
                          Hun Htr Hxf Hsv Hxl Huc Hdn].
      * rewrite Hsv, Huc, Hdn. split; [exact IH1|exact IH2].
      * rewrite Huc, Hdn. split; [|exact IH2].
        rewrite (count_unsolved_mark_notin _ _ _ _ Hsv); [exact IH1|].
        rewrite messages_In. lia.
      * rewrite Huc, Hdn. destruct (t <? mblocks g) eqn:Ht.
        -- apply Z.ltb_lt in Ht. split.
           ++ rewrite (count_unsolved_mark_in _ _ _ _ Hsv Hun (messages_NoDup g)); [lia|].
              apply messages_In. lia.
           ++ intros E. simpl. apply Z.eqb_eq. exact E.
        -- apply Z.ltb_ge in Ht. split; [|intros; contradiction].
           rewrite (count_unsolved_mark_notin _ _ _ _ Hsv); [exact IH1|].
           rewrite messages_In. lia.
Qed.

(** * The public calls on reachable states *)

Module Reach2.

Lemma s3_two_reachable : reachable Runs.s3_two.
Proof.
  apply (reach_resolve Scenario.s3_one false [0]); [apply Reach.s3_one_reachable|].
  vm_compute; reflexivity.
Qed.

Lemma s3_drained_reachable : reachable Runs.s3_drained.
Proof.
  apply (reach_resolve Runs.s3_two false []); [apply s3_two_reachable|].
  vm_compute; reflexivity.
Qed.

End Reach2.

(** X6: in every reachable state [oc_graph_resolve] passes every
    [assert] of its own and of the functions it calls, reads no v-edge
    array or recipe through a [NULL] slot, stays inside the arrays of the
    graph, and its loop ends; the same holds for [oc_graph_check_block]
    on a check block [[k, d1 .. dk]] of distinct indices below
    [coblocks].  The statement is about the graph: the cells that these
    calls hand to the block pool, and the state of the pool's ring when
    they do, are outside it. *)
Theorem graph_accesses_safe g :
  reachable g ->
  (exists d sl g', oc_graph_resolve g = Some (d, sl, g')) /\
  (forall v, check_block_ok g v = true ->
     exists r g', oc_graph_check_block g v = Some (r, g')).
Proof.
  intros Hr. pose proof (reachable_inv g Hr) as Hinv. split.
  - destruct (resolve_ok g Hinv) as (d & sl & g' & H & _). eauto.
  - intros v Hv. destruct (check_block_ok_inv g v Hinv Hv) as (r & g' & H & _). eauto.
Qed.

Lemma graph_accesses_safe_witness :
  exists d sl g', oc_graph_resolve Scenario.s5_b = Some (d, sl, g').
Proof.
  apply (graph_accesses_safe Scenario.s5_b Reach.s5_b_reachable).
Defined.

Lemma all_solved_iff g :
  count_unsolved (solved g) (messages g) = 0 <->
  forall m, 0 <= m < mblocks g -> is_solved (solved g) m = true.
Proof.
  split.
  - intros H m Hm. apply count_unsolved_zero in H. rewrite Forall_forall in H.
    apply H. apply messages_In. exact Hm.
  - intros H. apply count_unsolved_all_solved. apply Forall_forall.
    intros m Hm. apply H. apply messages_In. exact Hm.
Qed.

(** X7: in every reachable state [unsolved_count] is the number of message
    nodes whose solved flag is clear, and [done] is set exactly when every
    message node is solved. *)
Theorem done_iff_all_solved g :
  reachable g ->
  unsolved_count g = count_unsolved (solved g) (messages g) /\
  (done g = true <->
   forall m, 0 <= m < mblocks g -> is_solved (solved g) m = true).
Proof.
  intros Hr. destruct (reachable_count g Hr) as [H1 H2].
  pose proof (reachable_inv g Hr) as [Hs _].
  split; [exact H1|]. rewrite <- all_solved_iff, <- H1. split.
  - apply (str_done g Hs).
  - exact H2.
Qed.

Lemma done_iff_all_solved_witness :
  done Scenario.s2_done = true <->
  forall m, 0 <= m < mblocks Scenario.s2_done ->
    is_solved (solved Scenario.s2_done) m = true.
Proof.
  apply (done_iff_all_solved Scenario.s2_done Reach.s2_done_reachable).
Defined.

(** X8: the value that [oc_graph_resolve] returns from a reachable state is 1
    exactly when, after the call, every message node is solved. *)
Theorem resolve_reports_done g d sl g' :
  reachable g -> oc_graph_resolve g = Some (d, sl, g') ->
  (d = true <->
   forall m, 0 <= m < mblocks g' -> is_solved (solved g') m = true).
Proof.
  intros Hr Hrun.
  assert (Hr' : reachable g') by (eapply reach_resolve; eauto).
  destruct (resolve_spec g (reachable_inv g Hr)) as (sl0 & g0 & Hrun0 & _).
  rewrite Hrun in Hrun0. injection Hrun0 as -> _ <-.
  destruct (reachable_count g' Hr') as [H1 H2].
  pose proof (reachable_inv g' Hr') as [Hs _].
  rewrite <- all_solved_iff, <- H1. split; [apply (str_done g' Hs)|exact H2].
Qed.

Lemma resolve_reports_done_witness :
  true = true <->
  forall m, 0 <= m < mblocks Scenario.s2_done ->
    is_solved (solved Scenario.s2_done) m = true.
Proof.
  apply (resolve_reports_done Scenario.s2_one true [0] Scenario.s2_done
           Reach.s2_one_reachable).
  vm_compute. reflexivity.
Defined.

(** X9: built with [STEPPING], a call of [oc_graph_resolve] from a reachable
    state solves at most one node: the solved list holds exactly the
    nodes whose solved flag the call has set, at most one, and no solved
    flag is ever cleared. *)
Theorem resolve_one_node g d sl g' :
  reachable g -> oc_graph_resolve g = Some (d, sl, g') ->
  (length sl <= 1)%nat /\
  (forall n, In n sl <->
     is_solved (solved g) n = false /\ is_solved (solved g') n = true) /\
  (forall n, is_solved (solved g) n = true -> is_solved (solved g') n = true).
Proof.
  intros Hr Hrun.
  destruct (resolve_spec g (reachable_inv g Hr)) as (sl0 & g0 & Hrun0 & _ & _ & Hcase).
  rewrite Hrun in Hrun0. injection Hrun0 as _ <- <-.
  assert (Hnone : solved g' = solved g -> sl = [] ->
            (length sl <= 1)%nat /\
            (forall n, In n sl <->
               is_solved (solved g) n = false /\ is_solved (solved g') n = true) /\
            (forall n, is_solved (solved g) n = true -> is_solved (solved g') n = true)).
  { intros -> ->. split; [simpl; lia|]. split; [|auto].
    intros n. simpl. split; [tauto|]. intros [H1 H2]. congruence. }
  assert (Hone : forall t, zset (solved g) t true = Some (solved g') ->
            is_solved (solved g) t = false -> sl = [t] ->
            (length sl <= 1)%nat /\
            (forall n, In n sl <->
               is_solved (solved g) n = false /\ is_solved (solved g') n = true) /\
            (forall n, is_solved (solved g) n = true -> is_solved (solved g') n = true)).
  { intros t Hsv Hun ->. split; [simpl; lia|]. split.
    - intros n. rewrite (is_solved_mark _ _ _ n Hsv). simpl. split.
      + intros [<-|[]]. rewrite Z.eqb_refl. auto.
      + intros [H1 H2]. destruct (n =? t) eqn:E; [|congruence].
        apply Z.eqb_eq in E. auto.
    - intros n Hn. rewrite (is_solved_mark _ _ _ n Hsv).
      destruct (n =? t); auto. }
  destruct Hcase as [(-> & -> & _)|[(_ & _ & _ & -> & ->)|(_ & _ & _ & Hout)]].
  - apply Hnone; reflexivity.
  - apply Hnone; reflexivity.
  - destruct Hout as [Hq Hsv Hxl Huc Hdn Hpe
                     |skipped from rest arr Hq Hdis Hec Hfr Hun Hv Hsv Hxl Huc Hdn
                     |skipped from rest arr E1 t E2 xarr Hq Hdis Hec Hsp Hv HE Hall
                        Hun Htr Hxf Hsv Hxl Huc Hdn].
    + apply Hnone; auto.
    + apply (Hone from); auto.
    + apply (Hone t); auto.
Qed.

Lemma resolve_one_node_witness :
  (length [0] <= 1)%nat /\ is_solved (solved Scenario.s5_c) 0 = true.
Proof.
  destruct (resolve_one_node Scenario.s5_b false [0] Scenario.s5_c Reach.s5_b_reachable)
    as (H1 & H2 & _).
  - vm_compute. reflexivity.
  - split; [exact H1|]. apply (H2 0). left. reflexivity.
Defined.

(** X10: once [done] is set, a call of [oc_graph_resolve] returns 1 with an
    empty solved list and leaves the graph as it is. *)
Theorem done_is_final g :
  reachable g -> done g = true -> oc_graph_resolve g = Some (true, [], g).
Proof.
  intros Hr Hd.
  destruct (resolve_spec g (reachable_inv g Hr)) as (sl & g' & Hrun & _ & _ & Hcase).
  destruct Hcase as [(-> & -> & _)|[(_ & _ & Hf & _)|(_ & _ & Hf & _)]];
    [|congruence|congruence].
  rewrite Hrun, Hd. reflexivity.
Qed.

Lemma done_is_final_witness :
  oc_graph_resolve Scenario.s2_done = Some (true, [], Scenario.s2_done).
Proof.
  apply (done_is_final Scenario.s2_done Reach.s2_done_reachable). reflexivity.
Defined.

(** X11: a call of [oc_graph_resolve] from a reachable state that returns 0
    and an empty solved list has emptied the pending queue: the caller
    has to add a check block before another call can solve a node. *)
Theorem resolve_drains_queue g g' :
  reachable g -> oc_graph_resolve g = Some (false, [], g') -> pending g' = [].
Proof.
  intros Hr Hrun.
  destruct (resolve_spec g (reachable_inv g Hr)) as (sl0 & g0 & Hrun0 & _ & _ & Hcase).
  rewrite Hrun in Hrun0. injection Hrun0 as Hd <- <-.
  destruct Hcase as [(_ & -> & [Hp|Hf])|[(_ & _ & _ & _ & ->)|(_ & _ & _ & Hout)]].
  - exact Hp.
  - congruence.
  - simpl in Hd. discriminate.
  - inversion Hout. assumption.
Qed.

Lemma resolve_drains_queue_witness :
  pending Runs.s3_two = [2] /\
  exists g', oc_graph_resolve Runs.s3_two = Some (false, [], g') /\ pending g' = [].
Proof.
  split; [reflexivity|].
  eexists. split; [vm_compute; reflexivity|].
  eapply (resolve_drains_queue Runs.s3_two _ Reach2.s3_two_reachable).
  vm_compute. reflexivity.
Defined.

(** * A check block and the next resolver call *)

Lemma check_block_full g v :
  node_space g <= nodes g ->
  oc_graph_check_block g v = Some (-1, set_nodes g (nodes g + 1)).
Proof.
  intros H. unfold oc_graph_check_block. cbn [node_space set_nodes].
  zbool (nodes g >=? node_space g) true. reflexivity.
Qed.

Lemma ingest_facts g v :
  graph_inv g -> check_block_ok g v = true -> nodes g < node_space g ->
  exists g1 kept xs stale',
    oc_graph_check_block g v = Some (nodes g, g1) /\ graph_inv g1 /\
    Permutation kept (unsolved_in (solved g) (entries v)) /\
    Permutation xs (solved_in (solved g) (entries v)) /\
    pending g1 = pending g ++ [nodes g] /\
    v_slot g1 (nodes g) = Some (Z.of_nat (length kept) :: kept ++ stale') /\
    edge_count_of g1 (nodes g) = Some (Z.of_nat (length kept)) /\
    xor_slot g1 (nodes g) = Some (Z.of_nat (length (nodes g :: xs)) :: nodes g :: xs).
Proof.
  intros Hinv Hv Hlt. pose proof Hinv as [Hs Hc].
  destruct (check_block_ok_spec g v Hv) as (Hw & HE & Hnd).
  destruct (wf_arr_split v Hw) as [stale Hvs].
  pose proof (str_mblocks g Hs). pose proof (str_ablocks g Hs).
  pose proof (str_coblocks g Hs). pose proof (str_nodes g Hs).
  destruct (check_block_spec g (entries v) stale)
    as (ne & xl & ve & ec & kept & xs & stale' & Hrun & Hk & Hxs & Hxl & Hve & Hec
        & Hlne & _ & Hcells); try apply Hs; try lia; try assumption.
  rewrite <- Hvs in Hrun.
  exists (ingested g ne xl ve ec), kept, xs, stale'.
  split; [exact Hrun|]. split; [eapply ingest_inv; eauto; lia|].
  split; [exact Hk|]. split; [exact Hxs|]. split; [reflexivity|].
  split; [|split].
  - change (v_slot (ingested g ne xl ve ec) (nodes g))
      with (match zget ve (nodes g - mblocks g) with Some s => s | None => None end).
    rewrite (zget_zset_same _ _ _ _ Hve). reflexivity.
  - change (edge_count_of (ingested g ne xl ve ec) (nodes g))
      with (zget ec (nodes g - mblocks g)).
    apply (zget_zset_same _ _ _ _ Hec).
  - change (xor_slot (ingested g ne xl ve ec) (nodes g))
      with (match zget xl (nodes g) with Some s => s | None => None end).
    rewrite (zget_zset_same _ _ _ _ Hxl). reflexivity.
Qed.

Lemma app_cons_single {A} (s : list A) x rest y :
  s ++ x :: rest = [y] -> s = [] /\ x = y /\ rest = [].
Proof.
  destruct s as [|a s]; simpl; intros H.
  - injection H as -> ->. auto.
  - injection H as _ H. destruct s; discriminate.
Qed.

Lemma perm_single {A} (l : list A) x : Permutation l [x] -> l = [x].
Proof. intros H. apply Permutation_sym, Permutation_length_1_inv in H. exact H. Qed.

(** X12: a check block with exactly one unsolved entry [d], added to a graph
    that is not done and has an empty queue, is resolved by the next
    call: [oc_graph_resolve] solves [d] and gives it the recipe of the
    new check node, the node itself followed by the solved entries of
    the block. *)
Theorem single_edge_block_solves g v d :
  reachable g -> done g = false -> pending g = [] ->
  check_block_ok g v = true -> nodes g < node_space g ->
  unsolved_in (solved g) (entries v) = [d] ->
  exists g1 r g2 xs,
    oc_graph_check_block g v = Some (nodes g, g1) /\
    oc_graph_resolve g1 = Some (r, [d], g2) /\
    is_solved (solved g2) d = true /\
    Permutation xs (solved_in (solved g) (entries v)) /\
    xor_slot g2 d = Some (Z.of_nat (length (nodes g :: xs)) :: nodes g :: xs).
Proof.
  intros Hr Hd Hp Hv Hlt Hun.
  pose proof (reachable_inv g Hr) as Hinv. pose proof Hinv as [Hs _].
  destruct (ingest_facts g v Hinv Hv Hlt)
    as (g1 & kept & xs & stale' & Hrun & Hinv1 & Hk & Hxs & Hp1 & Hv1 & Hec1 & Hx1).
  rewrite Hun in Hk. apply perm_single in Hk. subst kept.
  rewrite Hp in Hp1. cbn [app length] in Hp1, Hv1, Hec1.
  assert (Hr1 : reachable g1) by (eapply reach_check; eauto).
  destruct (ingest_frame g v _ g1 Hrun) as (_ & _ & Fsv & Fuc & Fd & Fm & _ & Fco & _).
  destruct (reachable_count g1 Hr1) as [_ Hcnt].
  destruct (resolve_spec g1 Hinv1) as (sl & g2 & Hres & _ & _ & Hcase).
  pose proof (str_nodes g Hs) as Hnodes.
  destruct Hcase as [(_ & _ & [Hq|Hq])|[(_ & H0 & _)|(_ & _ & _ & Hout)]].
  - rewrite Hp1 in Hq. discriminate.
  - congruence.
  - specialize (Hcnt H0). congruence.
  - destruct Hout as [Hq Hsv Hxl Huc Hdn Hpe
                     |skipped from rest arr Hq Hdis Hec Hfr Hun' Hva Hsv Hxl Huc Hdn
                     |skipped from rest arr E1 t E2 xarr Hq Hdis Hec Hsp Hva HE Hall
                        Hun' Htr Hxf Hsv Hxl Huc Hdn].
    + exfalso. rewrite Hp1 in Hq. inversion Hq as [|? ? (c & Hc & Hcase) _]; subst.
      rewrite Hec1 in Hc. injection Hc as <-. change (Z.of_nat 1) with 1 in Hcase. lia.
    + exfalso. rewrite Hp1 in Hq. symmetry in Hq.
      apply app_cons_single in Hq as (_ & -> & _). lia.
    + rewrite Hp1 in Hq. symmetry in Hq. apply app_cons_single in Hq as (-> & -> & ->).
      assert (Harr : arr = Z.of_nat 1 :: d :: stale') by congruence.
      assert (Hxarr : xarr = Z.of_nat (length (nodes g :: xs)) :: nodes g :: xs)
        by congruence.
      subst arr xarr.
      pose proof (entries_packed [d] stale') as Hent. cbn [length app] in Hent.
      rewrite Hent in HE.
      assert (HE' : E1 = [] /\ t = d /\ E2 = []).
      { symmetry in HE. apply app_cons_single in HE. exact HE. }
      destruct HE' as (-> & -> & ->).
      exists g1, (done g2), g2, xs. split; [exact Hrun|]. split; [exact Hres|].
      split; [|split; [exact Hxs|]].
      * rewrite (is_solved_mark _ _ _ d Hsv), Z.eqb_refl. reflexivity.
      * unfold xor_slot. rewrite (zget_zset_same _ _ _ _ Hxl).
        unfold propagated. rewrite Hent.
        pose proof (entries_packed (nodes g :: xs) []) as Hex. rewrite app_nil_r in Hex.
        rewrite Hex. cbn [length]. unfold swap_shrink. cbn [length Nat.sub firstn].
        rewrite app_nil_r. reflexivity.
Qed.

Lemma single_edge_block_solves_witness :
  exists g1 r g2 xs,
    oc_graph_check_block Scenario.s3_init [1; 0] = Some (nodes Scenario.s3_init, g1) /\
    oc_graph_resolve g1 = Some (r, [0], g2) /\
    is_solved (solved g2) 0 = true /\
    Permutation xs (solved_in (solved Scenario.s3_init) (entries [1; 0])) /\
    xor_slot g2 0 = Some (Z.of_nat (length (nodes Scenario.s3_init :: xs))
                          :: nodes Scenario.s3_init :: xs).
Proof.
  apply (single_edge_block_solves Scenario.s3_init [1; 0] 0 Reach.s3_init_reachable);
    vm_compute; reflexivity || (intros; discriminate) || auto.
Defined.

(** X13: a check block whose entries are all solved already adds nothing: on
    a graph that is not done and has an empty queue, the next call of
    [oc_graph_resolve] returns 0 with an empty solved list and an empty
    queue, and the solved flags and the recipes of the message and
    auxiliary nodes are those from before the block. *)
Theorem redundant_block_dropped g v :
  reachable g -> done g = false -> pending g = [] ->
  check_block_ok g v = true -> nodes g < node_space g ->
  unsolved_in (solved g) (entries v) = [] ->
  exists g1 g2,
    oc_graph_check_block g v = Some (nodes g, g1) /\
    oc_graph_resolve g1 = Some (false, [], g2) /\
    solved g2 = solved g /\ pending g2 = [] /\
    unsolved_count g2 = unsolved_count g /\
    (forall n, n < coblocks g -> xor_slot g2 n = xor_slot g n).
Proof.
  intros Hr Hd Hp Hv Hlt Hun.
  pose proof (reachable_inv g Hr) as Hinv. pose proof Hinv as [Hs _].
  destruct (ingest_facts g v Hinv Hv Hlt)
    as (g1 & kept & xs & stale' & Hrun & Hinv1 & Hk & Hxs & Hp1 & Hv1 & Hec1 & Hx1).
  rewrite Hun in Hk. apply Permutation_sym, Permutation_nil in Hk. subst kept.
  rewrite Hp in Hp1. cbn [app length] in Hp1, Hv1, Hec1.
  assert (Hr1 : reachable g1) by (eapply reach_check; eauto).
  destruct (ingest_frame g v _ g1 Hrun)
    as (_ & _ & Fsv & Fuc & Fd & Fm & _ & Fco & _ & Fslots).
  destruct (reachable_count g1 Hr1) as [_ Hcnt].
  destruct (resolve_spec g1 Hinv1) as (sl & g2 & Hres & _ & _ & Hcase).
  pose proof (str_nodes g Hs) as Hnodes.
  destruct Hcase as [(_ & _ & [Hq|Hq])|[(_ & H0 & _)|(_ & _ & _ & Hout)]].
  - rewrite Hp1 in Hq. discriminate.
  - congruence.
  - specialize (Hcnt H0). congruence.
  - destruct Hout as [Hq Hsv Hxl Huc Hdn Hpe
                     |skipped from rest arr Hq Hdis Hec Hfr Hun' Hva Hsv Hxl Huc Hdn
                     |skipped from rest arr E1 t E2 xarr Hq Hdis Hec Hsp Hva HE Hall
                        Hun' Htr Hxf Hsv Hxl Huc Hdn].
    + exists g1, g2. split; [exact Hrun|].
      assert (Hd2 : done g2 = false) by congruence.
      rewrite Hd2 in Hres. split; [exact Hres|].
      split; [congruence|]. split; [exact Hpe|]. split; [congruence|].
      intros n Hn. unfold xor_slot at 1. rewrite Hxl.
      apply (Fslots n). lia.
    + exfalso. rewrite Hp1 in Hq. symmetry in Hq.
      apply app_cons_single in Hq as (_ & -> & _). lia.
    + exfalso. rewrite Hp1 in Hq. symmetry in Hq.
      apply app_cons_single in Hq as (_ & -> & _).
      rewrite Hec1 in Hec. discriminate.
Qed.

Lemma redundant_block_dropped_witness :
  exists g1 g2,
    oc_graph_check_block Runs.s3_drained [1; 0] = Some (nodes Runs.s3_drained, g1) /\
    oc_graph_resolve g1 = Some (false, [], g2) /\
    solved g2 = solved Runs.s3_drained.
Proof.
  destruct (redundant_block_dropped Runs.s3_drained [1; 0] Reach2.s3_drained_reachable)
    as (g1 & g2 & H1 & H2 & H3 & _); try (vm_compute; reflexivity).
  exists g1, g2. auto.
Defined.

(** * The recipes decode the blocks *)

Section XorVals.
Variable val : Z -> Z.

Lemma xor_vals_app l1 l2 :
  xor_vals val (l1 ++ l2) = Z.lxor (xor_vals val l1) (xor_vals val l2).
Proof.
  induction l1 as [|x l1 IH]; simpl; [reflexivity|].
  rewrite IH, Z.lxor_assoc. reflexivity.
Qed.

Lemma xor_vals_perm l1 l2 : Permutation l1 l2 -> xor_vals val l1 = xor_vals val l2.
Proof.
  induction 1 as [|x l l' H IH|x y l|l l' l'' H1 IH1 H2 IH2]; simpl.
  - reflexivity.
  - rewrite IH. reflexivity.
  - rewrite <- !Z.lxor_assoc, (Z.lxor_comm (val y)). reflexivity.
  - congruence.
Qed.

Lemma xor_vals_cancel a b : Z.lxor (Z.lxor a b) b = a.
Proof. rewrite Z.lxor_assoc, Z.lxor_nilpotent, Z.lxor_0_r. reflexivity. Qed.

Lemma xor_vals_split (f : Z -> bool) l :
  xor_vals val l =
  Z.lxor (xor_vals val (filter f l)) (xor_vals val (filter (fun d => negb (f d)) l)).
Proof.
  induction l as [|x l IH]; simpl; [reflexivity|].
  rewrite IH. destruct (f x); simpl.
  - rewrite Z.lxor_assoc. reflexivity.
  - rewrite (Z.lxor_comm (xor_vals val (filter f l))), <- Z.lxor_assoc,
      (Z.lxor_comm (val x)), Z.lxor_assoc.
    rewrite (Z.lxor_comm (val x)), <- Z.lxor_assoc.
    rewrite (Z.lxor_comm (xor_vals val (filter _ l)) (xor_vals val (filter f l))).
    rewrite Z.lxor_assoc. reflexivity.
Qed.

End XorVals.

Lemma swap_shrink_perm E1 t E2 :
  Permutation (t :: swap_shrink (E1 ++ t :: E2) (length E1)) (E1 ++ t :: E2).
Proof.
  destruct (swap_remove E1 t E2 []) as (z & arr1 & E' & stale' & _ & _ & _ & Hp & ->).
  exact Hp.
Qed.

Lemma entries_recipe (r : list Z) : entries (Z.of_nat (length r) :: r) = r.
Proof. pose proof (entries_packed r []) as H. rewrite app_nil_r in H. exact H. Qed.

Lemma decodes_reachable val g : decodes val g -> reachable g.
Proof.
  induction 1.
  - eapply reach_init; eauto.
  - eapply reach_check; eauto.
  - eapply reach_resolve; eauto.
Qed.

Lemma sound_frame val g g' :
  mblocks g' = mblocks g -> coblocks g' = coblocks g ->
  (forall n r, xor_slot g' n = Some r -> xor_slot g n = Some r) ->
  (forall u arr, v_slot g' u = Some arr -> v_slot g u = Some arr) ->
  sound val g -> sound val g'.
Proof.
  intros Hm Hco Hx Hv (S1 & S2 & S3). unfold sound. rewrite Hm, Hco.
  split; [|split].
  - intros n r Hn Hr. apply S1; auto.
  - intros a arr Ha Harr. apply S2; auto.
  - intros c arr r Hc Harr Hr. apply (S3 c); auto.
Qed.

Lemma decodes_sound val g : decodes val g -> sound val g.
Proof.
  induction 1 as [codec fudge amap g Hok Hamap Haux Hinit
                 |g v r g' Hdec IH Hv Hval Hrun|g r sl g' Hdec IH Hrun].
  - (* initialisation *)
    destruct (init_spec codec fudge g Hinit) as (amap' & cs & Hspec). cbv zeta in Hspec.
    destruct Hspec as (Hamap' & _ & Hmb & Hab & _ & Hcs0 & Hg & _ & _ & _ & _ & _ & _
                       & Hslots & Hnull).
    assert (amap' = amap) by congruence. subst amap'.
    destruct (codec_ok_spec codec amap Hok Hamap) as [Hco _].
    assert (Hm : mblocks g = Codec.mblocks codec) by (rewrite Hg; reflexivity).
    assert (Hc : coblocks g = Codec.coblocks codec) by (rewrite Hg; reflexivity).
    assert (Hx : forall n, xor_slot g n = None).
    { intros n. unfold xor_slot. rewrite Hg. cbn [xor_list].
      destruct (zget _ n) as [s|] eqn:E; [|reflexivity].
      pose proof (zget_Some_range _ _ _ E) as Hr. rewrite repeat_length in Hr.
      rewrite zget_repeat in E by lia. congruence. }
    split; [|split].
    + intros n r _ Hr. rewrite Hx in Hr. discriminate.
    + intros a arr Ha Harr. unfold v_slot in Harr. rewrite Hm in Harr, Ha. rewrite Hc in Ha.
      destruct (Hslots (a - Codec.mblocks codec)) as [Hve _]; [lia|].
      rewrite Hve in Harr. injection Harr as <-.
      rewrite <- (length_rev (members _ _ _)), entries_recipe.
      rewrite (xor_vals_perm val _ _ (Permutation_sym (Permutation_rev _))).
      replace a with (Codec.mblocks codec + (a - Codec.mblocks codec)) at 1 by lia.
      apply Haux. lia.
    + intros c arr r _ _ Hr. rewrite Hx in Hr. discriminate.
  - (* a check block *)
    pose proof (decodes_reachable val g Hdec) as Hr.
    pose proof (reachable_inv g Hr) as Hinv. pose proof Hinv as [Hs _].
    destruct (Z_lt_le_dec (nodes g) (node_space g)) as [Hlt|Hge].
    + destruct (ingest_facts g v Hinv Hv Hlt)
        as (g1 & kept & xs & stale' & Hrun1 & _ & Hk & Hxs & _ & Hv1 & _ & Hx1).
      rewrite Hrun in Hrun1. injection Hrun1 as _ <-.
      destruct (ingest_frame g v r g' Hrun)
        as (_ & _ & _ & _ & _ & Fm & _ & Fco & _ & Fslots).
      pose proof (str_nodes g Hs) as Hnodes.
      destruct IH as (S1 & S2 & S3). unfold sound. rewrite Fm, Fco.
      split; [|split].
      * intros n rr Hn Hrr. destruct (Fslots n) as (Fx & _); [lia|].
        rewrite Fx in Hrr. apply S1; auto.
      * intros a arr Ha Harr. destruct (Fslots a) as (_ & Fv & _); [lia|].
        rewrite Fv in Harr. apply S2; auto.
      * intros c arr rr Hc Harr Hrr. destruct (Z.eq_dec c (nodes g)) as [->|Hne].
        -- rewrite Hv1 in Harr. rewrite Hx1 in Hrr.
           assert (Ha : arr = Z.of_nat (length kept) :: kept ++ stale') by congruence.
           assert (Hb : rr = Z.of_nat (length (nodes g :: xs)) :: nodes g :: xs)
             by congruence.
           subst arr rr. rewrite entries_packed, entries_recipe.
           cbn [xor_vals fold_right]. fold (xor_vals val xs).
           rewrite Hval, (xor_vals_perm val _ _ Hk), (xor_vals_perm val _ _ Hxs).
           rewrite (xor_vals_split val (fun d => is_solved (solved g) d) (entries v)).
           unfold solved_in, unsolved_in.
           rewrite (Z.lxor_comm (xor_vals val (filter _ (entries v)))).
           apply xor_vals_cancel.
        -- destruct (Fslots c Hne) as (Fx & Fv & _).
           rewrite Fv in Harr. rewrite Fx in Hrr. apply (S3 c); auto.
    + rewrite (check_block_full g v Hge) in Hrun. injection Hrun as _ <-.
      apply (sound_frame val g); auto.
  - (* a resolver call *)
    pose proof (decodes_reachable val g Hdec) as Hr.
    pose proof (reachable_inv g Hr) as Hinv. pose proof Hinv as [Hs _].
    destruct (resolve_spec g Hinv) as (sl0 & g0 & Hrun0 & _ & Hk & Hcase).
    rewrite Hrun in Hrun0. injection Hrun0 as _ <- <-.
    destruct Hk as [Km _ Kco _ _ Kv].
    destruct Hcase as [(_ & -> & _)|[(_ & _ & _ & _ & ->)|(_ & _ & _ & Hout)]].
    + exact IH.
    + apply (sound_frame val g); auto.
    + destruct Hout as [Hq Hsv Hxl Huc Hdn Hpe
                       |skipped from rest arr Hq Hdis Hec Hfr Hun Hva Hsv Hxl Huc Hdn
                       |skipped from rest arr E1 t E2 xarr Hq Hdis Hec Hsp Hva HE Hall
                          Hun Htr Hxf Hsv Hxl Huc Hdn].
      * apply (sound_frame val g); auto.
        intros n rr. unfold xor_slot. rewrite Hxl. auto.
      * assert (Hxs : forall n, xor_slot g' n = if n =? from then Some arr else xor_slot g n).
        { intros n. apply (xor_slot_set g g'). exact Hxl. }
        destruct IH as (S1 & S2 & S3). unfold sound. rewrite Km, Kco.
        split; [|split].
        -- intros n rr Hn Hrr. rewrite Hxs in Hrr. destruct (n =? from) eqn:E.
           ++ apply Z.eqb_eq in E. subst n. injection Hrr as <-. apply S2; auto.
           ++ apply S1; auto.
        -- intros a ar Ha Har. apply S2; auto.
        -- intros c ar rr Hc Har Hrr. rewrite Hxs in Hrr.
           destruct (c =? from) eqn:E; [apply Z.eqb_eq in E; lia|].
           apply (S3 c); auto.
      * set (rc := propagated xarr arr (length E1)) in *.
        assert (Hxs : forall n, xor_slot g' n =
                  if n =? t then Some (Z.of_nat (length rc) :: rc) else xor_slot g n).
        { intros n. apply (xor_slot_set g g'). exact Hxl. }
        assert (Hfrom : mblocks g <= from).
        { pose proof (str_pending g Hs) as Hpend. rewrite Hq in Hpend.
          apply Forall_app in Hpend as [_ Hpend].
          inversion Hpend as [|? ? Hf _]; subst. cbv beta in Hf. lia. }
        destruct IH as (S1 & S2 & S3).
        assert (Hrc : xor_vals val rc = val t).
        { unfold rc, propagated. rewrite xor_vals_app, HE.
          pose proof (xor_vals_perm val _ _ (swap_shrink_perm E1 t E2)) as Hp.
          cbn [xor_vals fold_right] in Hp.
          fold (xor_vals val (swap_shrink (E1 ++ t :: E2) (length E1))) in Hp.
          fold (xor_vals val (E1 ++ t :: E2)) in Hp.
          assert (Hxa : xor_vals val (entries xarr) = xor_vals val (E1 ++ t :: E2)).
          { rewrite <- HE. destruct (Z_lt_le_dec from (coblocks g)) as [Hlt|Hge].
            - pose proof (str_mblocks g Hs).
              rewrite <- (S1 from xarr), <- (S2 from arr); auto; lia.
            - apply (S3 from); auto. }
          rewrite Hxa, <- Hp. rewrite Z.lxor_comm, <- Z.lxor_assoc.
          rewrite (Z.lxor_comm _ (val t)). apply xor_vals_cancel. }
        unfold sound. rewrite Km, Kco. split; [|split].
        -- intros n rr Hn Hrr. rewrite Hxs in Hrr. destruct (n =? t) eqn:E.
           ++ apply Z.eqb_eq in E. subst n. injection Hrr as <-.
              rewrite entries_recipe. symmetry. exact Hrc.
           ++ apply S1; auto.
        -- intros a ar Ha Har. apply S2; auto.
        -- intros c ar rr Hc Har Hrr. rewrite Hxs in Hrr.
           destruct (c =? t) eqn:E; [apply Z.eqb_eq in E; lia|].
           apply (S3 c); auto.
Qed.

(** X14: in a decoding run, where every auxiliary block is the XOR of the
    messages mapped to it and every check block is the XOR of the blocks
    it lists, the recipe of a solved message or auxiliary node XORs to
    the content of the node; and once [done] is set every message node
    has such a recipe. *)
Theorem recipes_decode val g :
  decodes val g ->
  (forall n r, 0 <= n < coblocks g -> xor_slot g n = Some r ->
     val n = xor_vals val (entries r)) /\
  (done g = true -> forall m, 0 <= m < mblocks g ->
     exists r, xor_slot g m = Some r /\ val m = xor_vals val (entries r)).
Proof.
  intros Hdec. destruct (decodes_sound val g Hdec) as (S1 & _).
  split; [exact S1|]. intros Hd m Hm.
  pose proof (decodes_reachable val g Hdec) as Hr.
  pose proof (reachable_inv g Hr) as [Hs _].
  destruct (reachable_count g Hr) as [Hcnt _].
  pose proof (str_done g Hs Hd) as H0. rewrite Hcnt in H0.
  pose proof (proj1 (all_solved_iff g) H0 m Hm) as Hsol.
  pose proof (str_coblocks g Hs). pose proof (str_ablocks g Hs).
  assert (Hmc : 0 <= m < coblocks g) by lia.
  apply (str_xor_solved g Hs m Hmc) in Hsol.
  destruct (xor_slot g m) as [r|] eqn:Hx; [|congruence].
  exists r. split; [reflexivity|]. apply S1; auto.
Qed.

Module Decoding.

Lemma s3_init_decodes : decodes Runs.val3 Scenario.s3_init.
Proof.
  apply (decodes_init Runs.val3 Scenario.codec3 Scenario.fudge15 [2; 2]);
    try (vm_compute; reflexivity).
  intros a Ha. assert (a = 0) by (cbn in Ha; lia). subst a. vm_compute. reflexivity.
Qed.

Lemma s3_one_decodes : decodes Runs.val3 Scenario.s3_one.
Proof.
  apply (decodes_check Runs.val3 Scenario.s3_init [1; 0] 3); [apply s3_init_decodes| | |];
    vm_compute; reflexivity.
Qed.

Lemma s3_two_decodes : decodes Runs.val3 Runs.s3_two.
Proof.
  apply (decodes_resolve Runs.val3 Scenario.s3_one false [0]); [apply s3_one_decodes|].
  vm_compute; reflexivity.
Qed.

End Decoding.

Lemma recipes_decode_witness :
  xor_slot Runs.s3_two 0 = Some [1; 3] /\
  Runs.val3 0 = xor_vals Runs.val3 (entries [1; 3]).
Proof.
  split; [reflexivity|].
  apply (proj1 (recipes_decode Runs.val3 Runs.s3_two Decoding.s3_two_decodes) 0 [1; 3]).
  - vm_compute. split; [discriminate|reflexivity].
  - reflexivity.
Defined.

(** * The initialisation: success *)

(** ** The loops over the map, run forward *)

Lemma skipn_cons_nth {A} (l : list A) : forall n x r,
  skipn n l = x :: r -> nth_error l n = Some x /\ skipn (S n) l = r.
Proof.
  induction l as [|h t IH]; intros [|n] x r H; simpl in *; try discriminate.
  - injection H as -> ->. auto.
  - apply IH. exact H.
Qed.

Lemma map_row_run body (n : nat) : forall g amap mp msg g',
  0 <= mp ->
  length (firstn n (skipn (Z.to_nat mp) amap)) = n ->
  fold_pairs body g
    (map (fun a => (a, msg)) (firstn n (skipn (Z.to_nat mp) amap))) = Some g' ->
  map_row body n g amap mp msg = Some (g', mp + Z.of_nat n).
Proof.
  induction n as [|n IH]; intros g amap mp msg g' Hmp Hl Hf.
  - simpl in Hf. injection Hf as <-. simpl. rewrite Z.add_0_r. reflexivity.
  - destruct (skipn (Z.to_nat mp) amap) as [|a rest] eqn:Hsk; [simpl in Hl; lia|].
    apply skipn_cons_nth in Hsk as [Hnth Hrest].
    cbn [firstn length map fold_pairs] in Hl, Hf.
    destruct (body g a msg) as [g1|] eqn:Hb; [|discriminate].
    cbn [map_row]. unfold zget. zbool (mp <? 0) false. rewrite Hnth, Hb.
    replace (mp + Z.of_nat (S n)) with (mp + 1 + Z.of_nat n) by lia.
    apply IH; [lia| |];
      replace (Z.to_nat (mp + 1)) with (S (Z.to_nat mp)) by lia; rewrite Hrest.
    + lia.
    + exact Hf.
Qed.

Lemma map_rows_run body (n : nat) : forall g amap q (start : nat) g',
  Forall (fun m => length (aux_row amap q m) = Z.to_nat q) (seq start n) ->
  fold_pairs body g (map_pairs amap q start n) = Some g' ->
  map_rows body n g amap (Z.of_nat (start * Z.to_nat q)) (Z.of_nat start) q = Some g'.
Proof.
  induction n as [|n IH]; intros g amap q start g' Hrows Hf.
  - simpl in Hf. injection Hf as <-. reflexivity.
  - cbn [seq] in Hrows. inversion Hrows as [|? ? Hrow Hrows']; subst.
    unfold map_pairs in Hf. cbn [seq flat_map] in Hf. rewrite fold_pairs_app in Hf.
    destruct (fold_pairs body g (row_pairs amap q start)) as [g1|] eqn:H1; [|discriminate].
    fold (map_pairs amap q (S start) n) in Hf.
    cbn [map_rows]. unfold row_pairs, aux_row in H1, Hrow.
    rewrite (map_row_run body (Z.to_nat q) g amap _ _ g1); [|lia| |];
      rewrite ?Nat2Z.id; [|exact Hrow|exact H1].
    replace (Z.of_nat (start * Z.to_nat q) + Z.of_nat (Z.to_nat q))
      with (Z.of_nat (S start * Z.to_nat q)) by lia.
    replace (Z.of_nat start + 1) with (Z.of_nat (S start)) by lia.
    apply IH; assumption.
Qed.

Lemma stage1_run (ps : list (Z * Z)) : forall g,
  Forall (fun p => fst p > snd p /\ 0 <= fst p - mblocks g < ablocks g /\
                   0 <= snd p < Z.of_nat (length (n_edges g))) ps ->
  ablocks g <= Z.of_nat (length (edge_count g)) ->
  (forall i c, zget (edge_count g) i = Some c ->
     0 <= c /\ c + 2 * Z.of_nat (length ps) <= 2 ^ 31 - 1) ->
  exists g', fold_pairs init_stage1 g ps = Some g'.
Proof.
  induction ps as [|[a m] ps IH]; intros g Hall Hlen Hfit; [exists g; reflexivity|].
  inversion Hall as [|? ? Hhd Hall']; subst. cbn [fst snd] in Hhd.
  destruct Hhd as (Ha & Hb & Hc).
  cbn [fold_pairs]. unfold init_stage1.
  destruct (create_n_edge_ok g a m Ha Hc) as (ne & -> & Hne).
  cbn [mblocks ablocks edge_count set_n_edges].
  rewrite !c_assert_true by zcmp.
  destruct (zget_in_range (edge_count g) (a - mblocks g)) as [c Hc']; [lia|].
  rewrite Hc'.
  destruct (Hfit _ _ Hc') as [Hc0 Hcmax]. cbn [length] in Hcmax.
  rewrite int_add_Some by lia.
  destruct (zset_Some (edge_count g) (a - mblocks g) (c + 2)) as [ec Hec]; [lia|].
  rewrite Hec. apply IH.
  - cbn [mblocks ablocks n_edges set_edge_count set_n_edges].
    rewrite (zset_length _ _ _ _ Hne). exact Hall'.
  - cbn [ablocks edge_count set_edge_count set_n_edges].
    rewrite (zset_length _ _ _ _ Hec). exact Hlen.
  - cbn [edge_count set_edge_count set_n_edges]. intros i c' Hi.
    rewrite (zget_zset _ _ _ _ i Hec) in Hi.
    destruct (i =? a - mblocks g).
    + injection Hi as <-. lia.
    + destruct (Hfit _ _ Hi) as [H0 Hmax]. cbn [length] in Hmax. lia.
Qed.

Lemma map_pairs_length amap q (n : nat) : forall start,
  Forall (fun m => length (aux_row amap q m) = Z.to_nat q) (seq start n) ->
  length (map_pairs amap q start n) = (n * Z.to_nat q)%nat.
Proof.
  induction n as [|n IH]; intros start Hrows; [reflexivity|].
  cbn [seq] in Hrows. inversion Hrows as [|? ? Hrow Hrows']; subst.
  unfold map_pairs. cbn [seq flat_map]. rewrite length_app.
  fold (map_pairs amap q (S start) n). rewrite (IH _ Hrows').
  unfold row_pairs. rewrite length_map, Hrow. simpl. reflexivity.
Qed.

Lemma In_firstn_skipn {A} (x : A) (l : list A) : forall k q,
  In x (firstn q (skipn k l)) -> In x (firstn (k + q) l).
Proof.
  induction l as [|h t IH]; intros k q H.
  - rewrite skipn_nil, firstn_nil in H. contradiction.
  - destruct k as [|k]; [exact H|]. simpl in *. right. apply IH. exact H.
Qed.

Lemma In_firstn_le {A} (x : A) (l : list A) : forall n n',
  (n <= n')%nat -> In x (firstn n l) -> In x (firstn n' l).
Proof.
  induction l as [|h t IH]; intros n n' Hle H.
  - rewrite firstn_nil in H. contradiction.
  - destruct n as [|n]; [contradiction|]. destruct n' as [|n']; [lia|].
    simpl in *. destruct H as [H|H]; [auto|]. right. apply (IH n); [lia|exact H].
Qed.

Lemma aux_row_cells amap q m mb a :
  (m < mb)%nat -> In a (aux_row amap q m) ->
  In a (firstn (mb * Z.to_nat q) amap).
Proof.
  intros Hm H. unfold aux_row in H. apply In_firstn_skipn in H.
  apply (In_firstn_le a amap (m * Z.to_nat q + Z.to_nat q)); [|exact H].
  replace (m * Z.to_nat q + Z.to_nat q)%nat with (S m * Z.to_nat q)%nat by lia.
  apply Nat.mul_le_mono_r. lia.
Qed.

Lemma aux_row_full amap q m mb :
  (m < mb)%nat -> (mb * Z.to_nat q <= length amap)%nat ->
  length (aux_row amap q m) = Z.to_nat q.
Proof.
  intros Hm Hl. unfold aux_row. rewrite length_firstn, length_skipn.
  assert (S m * Z.to_nat q <= mb * Z.to_nat q)%nat by (apply Nat.mul_le_mono_r; lia).
  lia.
Qed.

(** X16: [oc_graph_init] returns 0 on every codec with positive block counts,
    [mblocks <= coblocks] and an auxiliary map of [mblocks * q] cells
    that name auxiliary nodes, when [fudge] exceeds 1, the check space
    computed from it is a non-negative [int], the sums
    [ablocks + check_space] and [coblocks + check_space] do not exceed
    the largest [int] and neither does twice the number of map cells: no
    [assert] of the three passes fails and the stores of the third pass
    stay inside the arrays allocated by the second. *)
Theorem init_succeeds codec fudge cs :
  codec_fits codec = true ->
  SFleb (Fp.double_of_float fudge) (Fp.double_of_int 1) = false ->
  check_space_of codec fudge = Some cs -> 0 <= cs ->
  Codec.ablocks codec + cs <= 2 ^ 31 - 1 ->
  Codec.coblocks codec + cs <= 2 ^ 31 - 1 ->
  exists g, oc_graph_init codec fudge = Some (InitOk g).
Proof.
  unfold codec_fits. intros Hfit Hf Hcs Hcs0 Hus Hns.
  destruct (Codec.auxiliary codec) as [amap|] eqn:Hamap;
    [|rewrite andb_false_r in Hfit; discriminate].
  cbv zeta in Hfit.
  apply andb_prop in Hfit as [Hfit H45]. apply andb_prop in H45 as [H4 H5].
  apply andb_prop in Hfit as [Hfit H6]. apply andb_prop in Hfit as [Hfit H3].
  apply andb_prop in Hfit as [H1 H2].
  apply Z.leb_le in H1, H2, H3, H4, H6. apply Nat2Z.inj_le in H4.
  rewrite forallb_forall in H5.
  set (mb := Codec.mblocks codec) in *. set (ab := Codec.ablocks codec) in *.
  set (co := Codec.coblocks codec) in *. set (q := Codec.q codec) in *.
  unfold oc_graph_init. fold mb ab co q.
  zbool (mb <? 1) false. zbool (ab <? 1) false. rewrite Hamap, Hf, Hcs.
  rewrite !int_add_Some by lia. unfold OC_ALLOC.
  rewrite !calloc_Some by lia.
  set (g0 := mk_graph mb ab co co (co + cs) mb false
               (repeat None (Z.to_nat (ab + cs))) (repeat [] (Z.to_nat co))
               (repeat 0 (Z.to_nat (ab + cs))) (repeat false (Z.to_nat co))
               (repeat None (Z.to_nat (co + cs))) []).
  set (ps := map_pairs amap q 0 (Z.to_nat mb)).
  assert (Hrows : Forall (fun m => length (aux_row amap q m) = Z.to_nat q)
                    (seq 0 (Z.to_nat mb))).
  { apply Forall_forall. intros m Hm. apply in_seq in Hm.
    apply (aux_row_full amap q m (Z.to_nat mb)); [lia|exact H4]. }
  assert (Hps : Forall (fun p => fst p > snd p /\ 0 <= fst p - mb < ab /\
                                 0 <= snd p < mb) ps).
  { apply Forall_forall. intros [a l] Hin. apply map_pairs_In in Hin as (m & Hm & -> & Ha).
    apply (aux_row_cells amap q m (Z.to_nat mb)) in Ha; [|lia].
    specialize (H5 a Ha). apply andb_prop in H5 as [Ha1 Ha2].
    apply Z.leb_le in Ha1. apply Z.ltb_lt in Ha2. cbn [fst snd]. lia. }
  assert (Hlps : 2 * Z.of_nat (length ps) <= 2 ^ 31 - 1).
  { unfold ps. rewrite (map_pairs_length amap q _ 0%nat Hrows). exact H6. }
  (* 1st stage *)
  destruct (stage1_run ps g0) as [g1 H1r].
  { eapply Forall_impl; [|exact Hps]. cbn [mblocks ablocks n_edges g0].
    rewrite repeat_length. intros p Hp. lia. }
  { cbn [ablocks edge_count g0]. rewrite repeat_length. lia. }
  { cbn [edge_count g0]. intros i c Hi.
    pose proof (zget_Some_range _ _ _ Hi) as Hr. rewrite repeat_length in Hr.
    rewrite zget_repeat in Hi by lia. injection Hi as <-. lia. }
  pose proof (map_rows_run init_stage1 (Z.to_nat mb) g0 amap q 0%nat g1 Hrows H1r) as Hmr1.
  change (Z.of_nat (0 * Z.to_nat q)) with 0 in Hmr1. change (Z.of_nat 0) with 0 in Hmr1.
  rewrite Hmr1.
  apply stage1_fold in H1r as (_ & Hg1 & Hln1 & Hle1 & _ & Hcnt1).
  cbn [mblocks edge_count g0] in Hcnt1.
  assert (Hec1 : forall i, 0 <= i < ab + cs ->
            zget (edge_count g1) i = Some (0 + 2 * Z.of_nat (length (members mb i ps)))).
  { intros i Hi. rewrite Hcnt1, zget_repeat by lia. reflexivity. }
  assert (Hv1 : v_edges g1 = repeat None (Z.to_nat (ab + cs))) by (rewrite Hg1; reflexivity).
  assert (Hm1 : mblocks g1 = mb) by (rewrite Hg1; reflexivity).
  (* 2nd stage *)
  destruct (init_stage2_ok (Z.to_nat ab) g1 0) as (ve2 & H2' & Hlv2 & Hget2).
  { lia. }
  { rewrite Hv1, repeat_length. lia. }
  { intros i Hi. rewrite Hec1 by lia. eexists. split; [reflexivity|]. lia. }
  rewrite H2'. rewrite Hv1 in Hlv2, Hget2. rewrite repeat_length in Hlv2.
  (* 3rd stage *)
  destruct (stage3_fold ab ps [] (set_v_edges g1 ve2)) as (ve & ec & Hrun).
  { cbn [mblocks set_v_edges]. rewrite Hm1.
    eapply Forall_impl; [|exact Hps]. simpl. tauto. }
  { cbn [mblocks set_v_edges app]. rewrite Hm1. intros i Hi.
    cbn [v_edges edge_count set_v_edges]. rewrite Hget2, Hec1 by lia.
    zbool (0 <=? i) true. zbool (i <? 0 + Z.of_nat (Z.to_nat ab)) true.
    cbn [andb option_map]. unfold blank_array, partial_array.
    change (members mb i []) with (@nil Z).
    rewrite shiftr_double by lia. rewrite Nat2Z.id. cbn [length rev].
    rewrite Nat.sub_0_r, app_nil_r. split; [reflexivity|]. f_equal. lia. }
  cbv zeta in Hrun. cbn [app] in Hrun. destruct Hrun as (Hrun & _).
  pose proof (map_rows_run init_stage3 (Z.to_nat mb) _ amap q 0%nat _ Hrows Hrun) as Hmr3.
  change (Z.of_nat (0 * Z.to_nat q)) with 0 in Hmr3. change (Z.of_nat 0) with 0 in Hmr3.
  rewrite Hmr3. eauto.
Qed.

Lemma init_succeeds_witness :
  exists g, oc_graph_init Scenario.codec5 Scenario.fudge15 = Some (InitOk g).
Proof.
  apply (init_succeeds Scenario.codec5 Scenario.fudge15 6); vm_compute;
    reflexivity || discriminate.
Defined.

Import Pool.

(** * The pool of cells *)

Lemma load_cell p a : load p (Some a) = match zget (heap p) a with Some c => c | None => None end.
Proof. unfold load. destruct (zget (heap p) a); reflexivity. Qed.

Lemma load_get p a b : load p (Some a) = Some b -> zget (heap p) a = Some (Some b).
Proof. rewrite load_cell. destruct (zget (heap p) a) as [[c|]|]; congruence. Qed.

Lemma set_next_ok p a b nx :
  load p (Some a) = Some b ->
  exists h, zset (heap p) a (Some (mk_block nx (b_value b))) = Some h /\
    set_next p (Some a) nx = Some (set_heap p h).
Proof.
  intros Hl. pose proof (load_get p a b Hl) as Hg.
  destruct (zset_Some (heap p) a (Some (mk_block nx (b_value b)))) as [h Hh].
  { eapply zget_Some_range. exact Hg. }
  exists h. split; [exact Hh|]. unfold set_next, store. rewrite Hl. cbn. rewrite Hh.
  reflexivity.
Qed.

Lemma load_set_heap p h a :
  load (set_heap p h) (Some a) = match zget h a with Some c => c | None => None end.
Proof. apply (load_cell (set_heap p h)). Qed.

Lemma chain_frame h h' cells stop :
  (forall a, In a cells -> zget h' a = zget h a) ->
  chain h cells stop -> chain h' cells stop.
Proof.
  induction cells as [|a rest IH]; intros Hf Hc; [exact I|].
  destruct Hc as [(b & Hb & Hn) Hrest]. split.
  - exists b. rewrite Hf by (left; reflexivity). auto.
  - apply IH; [|exact Hrest]. intros x Hx. apply Hf. right. exact Hx.
Qed.

Lemma chain_cell h cells stop a :
  chain h cells stop -> In a cells -> exists b, zget h a = Some (Some b).
Proof.
  induction cells as [|c rest IH]; intros Hc Hin; [contradiction|].
  destruct Hc as [(b & Hb & _) Hrest]. destruct Hin as [<-|Hin]; eauto.
Qed.

Lemma last_In {A} (l : list A) d : l <> [] -> In (last l d) l.
Proof.
  intros H. destruct (exists_last H) as (l0 & x & ->). rewrite last_last.
  apply in_or_app. right. left. reflexivity.
Qed.

(** The last cell relinked: the chain ends in the new target. *)
Lemma chain_relink h h' cells c0 stop stop' bl :
  chain h cells stop -> NoDup cells -> cells <> [] ->
  zget h (last cells c0) = Some (Some bl) ->
  zset h (last cells c0) (Some (mk_block stop' (b_value bl))) = Some h' ->
  chain h' cells stop'.
Proof.
  induction cells as [|a rest IH]; intros Hc Hnd Hne Hl Hz; [congruence|].
  destruct Hc as [(b & Hb & Hn) Hrest]. inversion Hnd as [|? ? Hnin Hnd']; subst.
  destruct rest as [|a' rest'].
  - cbn [last] in Hl, Hz. split; [|exact I].
    eexists. rewrite (zget_zset_same _ _ _ _ Hz). split; reflexivity.
  - change (last (a :: a' :: rest') c0) with (last (a' :: rest') c0) in Hl, Hz.
    split.
    + exists b. split; [|exact Hn]. rewrite (zget_zset_other _ _ _ _ _ Hz); [exact Hb|].
      intros E. apply Hnin. rewrite E. apply last_In. discriminate.
    + apply IH; auto. discriminate.
Qed.

Lemma chain_snoc h cells x stop bx :
  chain h cells (Some x) -> zget h x = Some (Some bx) -> a_next bx = stop ->
  chain h (cells ++ [x]) stop.
Proof.
  induction cells as [|a rest IH]; intros Hc Hx Hn.
  - split; [|exact I]. exists bx. auto.
  - destruct Hc as [(b & Hb & Hnb) Hrest]. split.
    + exists b. split; [exact Hb|]. destruct rest; exact Hnb.
    + apply IH; auto.
Qed.

(** X17: [hold_blocks] allocates one cell, links it to itself and makes it
    the free ring, whatever the pool was before; the cells allocated
    before are untouched. *)
Theorem hold_blocks_ring junk p :
  let a := Z.of_nat (length (heap p)) in
  exists p', hold_blocks junk p = Some (Some a, p') /\ ring p' [a] /\
    load p' (Some a) = Some (mk_block (Some a) (b_value junk)) /\
    (forall x, x <> a -> load p' (Some x) = load p (Some x)).
Proof.
  intros a. unfold hold_blocks, malloc. fold a.
  set (p1 := set_free_tail (set_heap p (heap p ++ [Some junk])) (Some a)).
  assert (Hl : load p1 (Some a) = Some junk).
  { rewrite load_cell. unfold p1, a. cbn [heap set_free_tail set_heap].
    rewrite zget_mid. reflexivity. }
  destruct (set_next_ok p1 a junk (Some a) Hl) as (h & Hh & Hs).
  change (free_tail p1) with (Some a). rewrite Hs.
  eexists. split; [reflexivity|].
  cbn [ring heap free_head free_tail null_ring set_free_head set_null_ring set_heap last].
  pose proof (zget_zset_same _ _ _ _ Hh) as Hga.
  split; [|split].
  - split; [constructor; [simpl; tauto|constructor]|].
    split; [reflexivity|]. split; [reflexivity|]. split; [discriminate|].
    split; [|exact I]. eexists. split; [exact Hga|reflexivity].
  - rewrite load_cell. cbn [heap set_free_head set_null_ring set_heap].
    rewrite Hga. reflexivity.
  - intros x Hx. rewrite !load_cell. cbn [heap set_free_head set_null_ring set_heap].
    rewrite (zget_zset_other _ _ _ _ _ Hh Hx). unfold p1.
    cbn [heap set_free_tail set_heap].
    destruct (Z_lt_le_dec x a) as [Hlt|Hge].
    + rewrite zget_app_l by exact Hlt. reflexivity.
    + rewrite (zget_None (heap p ++ [Some junk]) x), (zget_None (heap p) x);
        [reflexivity| |]; rewrite ?length_app; cbn [length]; unfold a in *; lia.
Qed.

Lemma free_block_ring p cells a b :
  ring p cells -> ~ In a cells -> load p (Some a) = Some b ->
  exists p', free_block p (Some a) = Some p' /\ ring p' (cells ++ [a]) /\
    load p' (Some a) = Some (mk_block (free_head p) (b_value b)) /\
    (forall x, ~ In x (cells ++ [a]) -> load p' (Some x) = load p (Some x)).
Proof.
  intros Hring Hnin Hl. destruct cells as [|c1 rest]; [contradiction|].
  destruct Hring as (Hnd & Hhead & Htail & Hnr & Hch).
  set (cells := c1 :: rest) in *. set (cn := last cells c1) in *.
  assert (Hcn : In cn cells) by (apply last_In; discriminate).
  assert (Hacn : a <> cn) by (intros E; apply Hnin; rewrite E; exact Hcn).
  assert (Hcna : cn <> a) by (intros E; apply Hacn; symmetry; exact E).
  unfold free_block.
  destruct (set_next_ok p a b (free_head p) Hl) as (h1 & Hh1 & Hs1).
  rewrite Hs1. cbn [free_tail free_head set_heap]. rewrite Htail.
  destruct (chain_cell _ _ _ cn Hch Hcn) as [bn Hbn].
  assert (Hl1 : load (set_heap p h1) (Some cn) = Some bn).
  { rewrite load_set_heap, (zget_zset_other _ _ _ _ _ Hh1 Hcna).
    rewrite Hbn. reflexivity. }
  destruct (set_next_ok (set_heap p h1) cn bn (Some a) Hl1) as (h2 & Hh2 & Hs2).
  rewrite Hs2. cbn [heap set_heap] in Hh2.
  eexists. split; [reflexivity|].
  assert (Hga : zget h2 a = Some (Some (mk_block (free_head p) (b_value b)))).
  { rewrite (zget_zset_other _ _ _ _ _ Hh2 Hacn). apply (zget_zset_same _ _ _ _ Hh1). }
  split; [|split].
  - unfold ring. change (cells ++ [a]) with (c1 :: (rest ++ [a])).
    cbn [heap free_head free_tail null_ring set_free_tail set_heap].
    split; [|split; [exact Hhead|split; [|split; [exact Hnr|]]]].
    + change (c1 :: rest ++ [a]) with (cells ++ [a]).
      apply NoDup_app; [exact Hnd|constructor; [simpl; tauto|constructor]|].
      intros x Hx [<-|[]]. contradiction.
    + change (c1 :: rest ++ [a]) with (cells ++ [a]). rewrite last_last. reflexivity.
    + change (c1 :: rest ++ [a]) with (cells ++ [a]).
      apply (chain_snoc h2 cells a (Some c1) (mk_block (free_head p) (b_value b)));
        [|exact Hga|exact Hhead].
      assert (Hch1 : chain h1 cells (Some c1)).
      { apply (chain_frame (heap p)); [|exact Hch].
        intros x Hx. apply (zget_zset_other _ _ _ _ _ Hh1). intros ->. contradiction. }
      apply (chain_relink h1 h2 cells c1 (Some c1) (Some a) bn Hch1 Hnd);
        [discriminate| |exact Hh2].
      fold cn. rewrite (zget_zset_other _ _ _ _ _ Hh1 Hcna). exact Hbn.
  - rewrite load_cell. cbn [heap set_free_tail set_heap]. rewrite Hga. reflexivity.
  - intros x Hx. rewrite !load_cell. cbn [heap set_free_tail set_heap].
    rewrite (zget_zset_other _ _ _ _ _ Hh2), (zget_zset_other _ _ _ _ _ Hh1);
      [reflexivity| |]; intros ->; apply Hx; apply in_or_app.
    + right. left. reflexivity.
    + left. exact Hcn.
Qed.

(** X18: [free_block] puts an allocated cell that is not in the ring at the
    tail of the ring; the value of the cell is kept, and the cells
    outside the ring are untouched. *)
Theorem free_block_joins_ring p cells a b :
  ring p cells -> ~ In a cells -> load p (Some a) = Some b ->
  exists p', free_block p (Some a) = Some p' /\ ring p' (cells ++ [a]) /\
    load p' (Some a) = Some (mk_block (free_head p) (b_value b)) /\
    (forall x, ~ In x (cells ++ [a]) -> load p' (Some x) = load p (Some x)).
Proof.
  intros Hring Hnin Hl.
  destruct (free_block_ring p cells a b Hring Hnin Hl) as (p' & Hrun & Hr' & Ha & Hout).
  exists p'. split; [exact Hrun|]. split; [exact Hr'|]. split; [exact Ha|exact Hout].
Qed.

Lemma last_default {A} (l : list A) d d' : l <> [] -> last l d = last l d'.
Proof.
  induction l as [|x l IH]; [congruence|]. intros _.
  destruct l as [|y l]; [reflexivity|]. apply IH. discriminate.
Qed.

Lemma alloc_head junk p c1 c2 rest :
  ring p (c1 :: c2 :: rest) ->
  exists p', alloc_block junk p = Some (Some c1, p') /\ ring p' (c2 :: rest) /\
    load p' (Some c1) = load p (Some c1) /\ load p (Some c1) <> None /\
    length (heap p') = length (heap p) /\
    (forall x, ~ In x (c2 :: rest) -> load p' (Some x) = load p (Some x)).
Proof.
  intros (Hnd & Hhead & Htail & Hnr & Hch).
  set (cn := last (c1 :: c2 :: rest) c1) in *.
  assert (Hcn2 : cn = last (c2 :: rest) c2).
  { unfold cn. change (last (c1 :: c2 :: rest) c1) with (last (c2 :: rest) c1).
    apply last_default. discriminate. }
  assert (Hcn : In cn (c2 :: rest)) by (rewrite Hcn2; apply last_In; discriminate).
  inversion Hnd as [|? ? Hnin Hnd']; subst.
  assert (Hne : c1 <> cn) by (intros E; apply Hnin; rewrite E; exact Hcn).
  destruct Hch as [(b1 & Hb1 & Hn1) Hch'].
  unfold alloc_block. rewrite Hhead, Htail. cbn [ptr_eqb].
  zbool (c1 =? cn) false.
  rewrite load_cell, Hb1, Hn1. cbn [free_tail free_head set_free_head].
  rewrite Htail.
  destruct (chain_cell _ _ _ cn Hch' Hcn) as [bn Hbn].
  assert (Hln : load (set_free_head p (Some c2)) (Some cn) = Some bn).
  { rewrite load_cell. cbn [heap set_free_head]. rewrite Hbn. reflexivity. }
  destruct (set_next_ok _ cn bn (Some c2) Hln) as (h' & Hh' & Hs).
  rewrite Hs. cbn [heap set_free_head] in Hh'.
  eexists. split; [reflexivity|].
  assert (Hother : forall x, x <> cn ->
            load (set_heap (set_free_head p (Some c2)) h') (Some x) = load p (Some x)).
  { intros x Hx. rewrite !load_cell. cbn [heap set_heap].
    rewrite (zget_zset_other _ _ _ _ _ Hh' Hx). reflexivity. }
  split; [|split; [|split; [|split]]].
  - unfold ring. cbn [heap free_head free_tail null_ring set_heap set_free_head].
    split; [exact Hnd'|]. split; [reflexivity|]. split; [congruence|].
    split; [exact Hnr|].
    apply (chain_relink (heap p) h' (c2 :: rest) c2 (Some c1) (Some c2) bn Hch' Hnd');
      [discriminate|rewrite <- Hcn2; exact Hbn|rewrite <- Hcn2; exact Hh'].
  - rewrite (Hother c1 Hne), load_cell, Hb1. reflexivity.
  - discriminate.
  - cbn [heap set_heap]. apply (zset_length _ _ _ _ Hh').
  - intros x Hx. apply Hother. intros ->. contradiction.
Qed.

(** X19: with more than one cell in the ring, [alloc_block] hands out the
    cell at the head, the one that has been in the ring longest, without
    calling [malloc]; the cell stays allocated and is no longer in the
    ring, whose other cells keep their order. *)
Theorem alloc_block_takes_head junk p c1 c2 rest :
  ring p (c1 :: c2 :: rest) ->
  exists p', alloc_block junk p = Some (Some c1, p') /\ ring p' (c2 :: rest) /\
    load p' (Some c1) = load p (Some c1) /\ load p (Some c1) <> None /\
    length (heap p') = length (heap p) /\
    (forall x, ~ In x (c2 :: rest) -> load p' (Some x) = load p (Some x)).
Proof.
  intros Hring.
  destruct (alloc_head junk p c1 c2 rest Hring) as (p' & Hrun & Hr' & Hrest).
  exists p'. split; [exact Hrun|]. split; [exact Hr'|exact Hrest].
Qed.

Lemma ptr_eqb_refl x : ptr_eqb x x = true.
Proof. destruct x; simpl; [apply Z.eqb_refl|reflexivity]. Qed.

Lemma chain_range h cells stop a :
  chain h cells stop -> In a cells -> 0 <= a < Z.of_nat (length h).
Proof.
  intros Hc Hin. destruct (chain_cell _ _ _ a Hc Hin) as [b Hb].
  eapply zget_Some_range. exact Hb.
Qed.

Lemma alloc_fresh junk p :
  free_head p = free_tail p ->
  let a := Z.of_nat (length (heap p)) in
  exists p', alloc_block junk p = Some (Some a, p') /\
    load p' (Some a) = Some junk /\ load p (Some a) = None /\
    (forall x, x <> a -> load p' (Some x) = load p (Some x)) /\
    (forall cells, ring p cells -> ring p' cells).
Proof.
  intros Heq a. unfold alloc_block, malloc. rewrite Heq, ptr_eqb_refl. fold a.
  eexists. split; [reflexivity|].
  assert (Hold : forall x, x <> a ->
            zget (heap p ++ [Some junk]) x = zget (heap p) x).
  { intros x Hx. destruct (Z_lt_le_dec x a) as [Hlt|Hge].
    - apply zget_app_l. exact Hlt.
    - rewrite (zget_None (heap p ++ [Some junk]) x), (zget_None (heap p) x);
        [reflexivity| |]; rewrite ?length_app; cbn [length]; unfold a in *; lia. }
  split; [|split; [|split]].
  - rewrite load_cell. cbn [heap set_heap]. unfold a. rewrite zget_mid. reflexivity.
  - rewrite load_cell, zget_None; [reflexivity|]. unfold a. lia.
  - intros x Hx. rewrite !load_cell. cbn [heap set_heap]. rewrite (Hold x Hx). reflexivity.
  - intros cells Hr. destruct cells as [|c rest]; [contradiction|].
    destruct Hr as (Hnd & Hhead & Htail & Hnr & Hch).
    unfold ring. cbn [heap free_head free_tail null_ring set_heap].
    split; [exact Hnd|]. split; [exact Hhead|].
    split; [exact Htail|]. split; [exact Hnr|].
    apply (chain_frame (heap p)); [|exact Hch].
    intros x Hx. apply Hold. pose proof (chain_range _ _ _ x Hch Hx). unfold a. lia.
Qed.

(** X20: with [free_head == free_tail], a ring of one cell or no ring at
    all, [alloc_block] falls back on [malloc]: it returns a new cell and
    leaves the ring and every other cell as they are. *)
Theorem alloc_block_mallocs junk p :
  free_head p = free_tail p ->
  let a := Z.of_nat (length (heap p)) in
  exists p', alloc_block junk p = Some (Some a, p') /\
    load p' (Some a) = Some junk /\ load p (Some a) = None /\
    (forall x, x <> a -> load p' (Some x) = load p (Some x)) /\
    (forall cells, ring p cells -> ring p' cells).
Proof.
  intros Heq a.
  destruct (alloc_fresh junk p Heq) as (p' & Hrun & Hnew & Hrest).
  exists p'. split; [exact Hrun|]. split; [exact Hnew|exact Hrest].
Qed.

Lemma alloc_block_mallocs_witness :
  exists p', alloc_block Runs.junk0 Runs.pool_held = Some (Some 1, p') /\
    load p' (Some 1) = Some Runs.junk0.
Proof.
  destruct (alloc_block_mallocs Runs.junk0 Runs.pool_held) as (p' & H1 & H2 & _).
  - reflexivity.
  - exists p'. split; [exact H1|exact H2].
Defined.

(** ** Releasing the ring *)

Lemma chain_length h cells stop :
  NoDup cells -> chain h cells stop -> (length cells <= length h)%nat.
Proof.
  intros Hnd Hc.
  assert (H : (length cells <= length (map Z.of_nat (seq 0 (length h))))%nat).
  { apply NoDup_incl_length; [exact Hnd|].
    intros x Hx. pose proof (chain_range _ _ _ x Hc Hx).
    apply in_map_iff. exists (Z.to_nat x). split; [lia|]. apply in_seq. lia. }
  rewrite length_map, length_seq in H. exact H.
Qed.

Lemma release_loop_chain (cells : list Z) : forall fuel p c rest,
  cells = c :: rest -> NoDup cells -> chain (heap p) cells None ->
  free_head p = Some c -> (length cells <= fuel)%nat ->
  exists h', release_loop fuel p = Some (mk_pool h' None (free_tail p) (null_ring p)) /\
    (forall x, In x cells -> zget h' x = Some None) /\
    (forall x, ~ In x cells -> zget h' x = zget (heap p) x).
Proof.
  induction cells as [|c0 rest0 IH]; intros fuel p c rest Hc Hnd Hch Hhead Hfuel;
    [discriminate|].
  injection Hc as -> ->. destruct fuel as [|fuel]; [simpl in Hfuel; lia|].
  inversion Hnd as [|? ? Hnin Hnd']; subst.
  destruct Hch as [(b & Hb & Hn) Hch'].
  cbn [release_loop]. rewrite Hhead, load_cell, Hb.
  unfold free. rewrite load_cell. cbn [heap set_free_head]. rewrite Hb.
  destruct (zset_Some (heap p) c (@None oc_uni_block)) as [h1 Hh1].
  { eapply zget_Some_range. exact Hb. }
  rewrite Hh1. cbn [free_head set_heap set_free_head].
  destruct rest as [|c' rest'].
  - rewrite Hn. eexists. split; [reflexivity|]. split.
    + intros x [<-|[]]. apply (zget_zset_same _ _ _ _ Hh1).
    + intros x Hx. apply (zget_zset_other _ _ _ _ _ Hh1). intros ->. apply Hx. left.
      reflexivity.
  - rewrite Hn.
    destruct (IH fuel (set_heap (set_free_head p (Some c')) h1) c' rest' eq_refl Hnd')
      as (h' & Hrun & Hin & Hout).
    + apply (chain_frame (heap p)); [|exact Hch'].
      intros x Hx. apply (zget_zset_other _ _ _ _ _ Hh1). intros ->. contradiction.
    + reflexivity.
    + simpl in Hfuel |- *. lia.
    + rewrite Hrun. eexists. split; [reflexivity|]. cbn [heap set_heap] in Hout. split.
      * intros x [<-|Hx]; [|apply Hin; exact Hx].
        rewrite Hout by exact Hnin. apply (zget_zset_same _ _ _ _ Hh1).
      * intros x Hx. rewrite Hout by (intros H; apply Hx; right; exact H).
        apply (zget_zset_other _ _ _ _ _ Hh1). intros ->. apply Hx. left. reflexivity.
Qed.

Lemma release_ring p cells :
  ring p cells ->
  exists h', release_blocks p = Some (mk_pool h' None None None) /\
    (forall x, In x cells -> zget h' x = Some None) /\
    (forall x, ~ In x cells -> zget h' x = zget (heap p) x).
Proof.
  intros Hr. destruct cells as [|c1 rest]; [contradiction|].
  destruct Hr as (Hnd & Hhead & Htail & Hnr & Hch).
  set (cells := c1 :: rest) in *. set (cn := last cells c1) in *.
  assert (Hcn : In cn cells) by (apply last_In; discriminate).
  destruct (chain_cell _ _ _ cn Hch Hcn) as [bn Hbn].
  assert (Hln : load p (Some cn) = Some bn) by (rewrite load_cell, Hbn; reflexivity).
  destruct (set_next_ok p cn bn None Hln) as (h1 & Hh1 & Hs).
  unfold release_blocks. rewrite Htail, Hs. cbn [heap set_heap].
  assert (Hch1 : chain h1 cells None).
  { apply (chain_relink (heap p) h1 cells c1 (Some c1) None bn Hch Hnd);
      [discriminate|exact Hbn|exact Hh1]. }
  destruct (release_loop_chain cells (length h1) (set_heap p h1) c1 rest eq_refl Hnd Hch1 Hhead)
    as (h' & Hrun & Hin & Hout).
  { apply (chain_length h1 cells None Hnd Hch1). }
  rewrite Hrun. exists h'. split; [reflexivity|]. split; [exact Hin|].
  intros x Hx. rewrite (Hout x Hx). cbn [heap set_heap].
  apply (zget_zset_other _ _ _ _ _ Hh1). intros ->. contradiction.
Qed.

(** X21: [release_blocks] frees every cell of the ring exactly once, touches
    no other cell, and leaves [free_head], [free_tail] and [null_ring]
    [NULL]. *)
Theorem release_blocks_frees_ring p cells :
  ring p cells ->
  exists p', release_blocks p = Some p' /\
    free_head p' = None /\ free_tail p' = None /\ null_ring p' = None /\
    (forall x, In x cells -> zget (heap p') x = Some None) /\
    (forall x, ~ In x cells -> zget (heap p') x = zget (heap p) x).
Proof.
  intros Hr. destruct (release_ring p cells Hr) as (h' & Hrun & Hin & Hout).
  eexists. split; [exact Hrun|]. cbn. auto.
Qed.

Lemma set_next_tail p ptr nx p1 :
  set_next p ptr nx = Some p1 -> free_tail p1 = free_tail p.
Proof.
  unfold set_next. intros H.
  destruct (load p ptr) as [b|] eqn:Hl; [|discriminate].
  unfold store in H. destruct ptr as [a|]; [|discriminate].
  rewrite Hl in H. destruct (zset (heap p) a _); [|discriminate].
  injection H as <-. reflexivity.
Qed.

(** X22: once [release_blocks] has run the pool has no ring: [alloc_block]
    still returns a cell from [malloc], but [free_block] dereferences the
    [NULL] tail, whatever cell it is given, until [hold_blocks] is called
    again. *)
Theorem released_pool_has_no_ring junk p cells p' :
  ring p cells -> release_blocks p = Some p' ->
  (forall ptr, free_block p' ptr = None) /\
  (exists p'', alloc_block junk p' = Some (Some (Z.of_nat (length (heap p'))), p'')).
Proof.
  intros Hr Hrun. destruct (release_ring p cells Hr) as (h' & Hrun' & _).
  rewrite Hrun in Hrun'. injection Hrun' as ->. split.
  - intros ptr. unfold free_block.
    destruct (set_next _ ptr _) as [p1|] eqn:H1; [|reflexivity].
    rewrite (set_next_tail _ _ _ _ H1). reflexivity.
  - eexists. reflexivity.
Qed.

(** ** Concrete pools *)

Module Rings.

Lemma one_out_ring : ring Runs.pool_one_out [0].
Proof.
  unfold ring. split; [constructor; [simpl; tauto|constructor]|].
  split; [reflexivity|]. split; [reflexivity|]. split; [discriminate|].
  split; [|exact I]. eexists. split; reflexivity.
Qed.

Lemma two_ring : ring Runs.pool_two [0; 1].
Proof.
  unfold ring. split.
  { constructor; [simpl; intros [H|[]]; discriminate|].
    constructor; [simpl; tauto|constructor]. }
  split; [reflexivity|]. split; [reflexivity|]. split; [discriminate|].
  split; [eexists; split; reflexivity|].
  split; [|exact I]. eexists. split; reflexivity.
Qed.

End Rings.

Lemma free_block_joins_ring_witness :
  exists p', free_block Runs.pool_one_out (Some 1) = Some p' /\ ring p' [0; 1].
Proof.
  destruct (free_block_joins_ring Runs.pool_one_out [0] 1 Runs.junk0 Rings.one_out_ring)
    as (p' & H1 & H2 & _).
  - simpl. intros [H|[]]. discriminate.
  - reflexivity.
  - exists p'. split; [exact H1|exact H2].
Defined.

Lemma alloc_block_takes_head_witness :
  exists p', alloc_block Runs.junk0 Runs.pool_two = Some (Some 0, p') /\ ring p' [1].
Proof.
  destruct (alloc_block_takes_head Runs.junk0 Runs.pool_two 0 1 [] Rings.two_ring)
    as (p' & H1 & H2 & _).
  exists p'. split; [exact H1|exact H2].
Defined.

Lemma release_blocks_frees_ring_witness :
  exists p', release_blocks Runs.pool_two = Some p' /\
    zget (heap p') 0 = Some None /\ zget (heap p') 1 = Some None.
Proof.
  destruct (release_blocks_frees_ring Runs.pool_two [0; 1] Rings.two_ring)
    as (p' & H1 & _ & _ & _ & H2 & _).
  exists p'. split; [exact H1|]. split; apply H2; simpl; tauto.
Defined.

Lemma released_pool_has_no_ring_witness :
  exists p', release_blocks Runs.pool_two = Some p' /\ free_block p' (Some 1) = None.
Proof.
  eexists. split; [vm_compute; reflexivity|].
  eapply (released_pool_has_no_ring Runs.junk0 Runs.pool_two [0; 1] _ Rings.two_ring).
  vm_compute. reflexivity.
Defined.

Import Pool.

(** * The queues, cell by cell *)

Lemma get_load p a b : zget (heap p) a = Some (Some b) -> load p (Some a) = Some b.
Proof. intros H. rewrite load_cell, H. reflexivity. Qed.

Lemma set_value_ok p a b v :
  load p (Some a) = Some b ->
  exists h, zset (heap p) a (Some (mk_block (a_next b) v)) = Some h /\
    Linked.set_value p (Some a) v = Some (set_heap p h).
Proof.
  intros Hl. pose proof (load_get p a b Hl) as Hg.
  destruct (zset_Some (heap p) a (Some (mk_block (a_next b) v))) as [h Hh].
  { eapply zget_Some_range. exact Hg. }
  exists h. split; [exact Hh|]. unfold Linked.set_value, store. rewrite Hl. cbn.
  rewrite Hh. reflexivity.
Qed.

Lemma ring_frame p p' R :
  ring p R ->
  free_head p' = free_head p -> free_tail p' = free_tail p ->
  null_ring p' = null_ring p ->
  (forall x, In x R -> zget (heap p') x = zget (heap p) x) ->
  ring p' R.
Proof.
  intros Hr H1 H2 H3 Hf. destruct R as [|c rest]; [contradiction|].
  destruct Hr as (Hnd & Hhead & Htail & Hnr & Hch). unfold ring.
  rewrite H1, H2, H3. repeat (split; [assumption|]).
  apply (chain_frame (heap p)); assumption.
Qed.

Lemma ring_cell p R x : ring p R -> In x R -> exists b, load p (Some x) = Some b.
Proof.
  intros Hr Hx. destruct R as [|c rest]; [contradiction|].
  destruct Hr as (_ & _ & _ & _ & Hch).
  destruct (chain_cell _ _ _ x Hch Hx) as [b Hb]. exists b. apply get_load. exact Hb.
Qed.

(** What [alloc_block] gives, whichever branch it takes. *)
Lemma alloc_spec junk p R :
  ring p R ->
  exists ptr p1 R1 b,
    alloc_block junk p = Some (Some ptr, p1) /\ ring p1 R1 /\
    ~ In ptr R1 /\ incl R1 R /\ load p1 (Some ptr) = Some b /\
    (In ptr R \/ load p (Some ptr) = None) /\
    (forall x, ~ In x R -> x <> ptr -> load p1 (Some x) = load p (Some x)).
Proof.
  intros Hr. destruct R as [|c1 [|c2 rest]]; [contradiction| |].
  - assert (Heq : free_head p = free_tail p).
    { destruct Hr as (_ & Hh & Ht & _). rewrite Hh, Ht. reflexivity. }
    destruct (alloc_fresh junk p Heq) as (p1 & Hrun & Hnew & Hold & Hfr & Hring).
    cbv zeta in *. set (a := Z.of_nat (length (heap p))) in *.
    exists a, p1, [c1], junk. split; [exact Hrun|]. split; [apply Hring; exact Hr|].
    split.
    { intros [<-|[]]. destruct (ring_cell p [c1] c1 Hr) as [b Hb]; [left; reflexivity|].
      congruence. }
    split; [apply incl_refl|]. split; [exact Hnew|]. split; [right; exact Hold|].
    intros x _ Hx. apply Hfr. exact Hx.
  - destruct (alloc_head junk p c1 c2 rest Hr) as (p1 & Hrun & Hring & Hsame & Hal & _ & Hfr).
    destruct (load p (Some c1)) as [b|] eqn:Hb; [|congruence].
    exists c1, p1, (c2 :: rest), b. split; [exact Hrun|]. split; [exact Hring|].
    destruct Hr as (Hnd & _). inversion Hnd as [|? ? Hnin _]; subst.
    split; [exact Hnin|]. split; [intros x Hx; right; exact Hx|].
    split; [exact Hsame|]. split; [left; left; reflexivity|].
    intros x Hx _. apply Hfr. intros H. apply Hx. right. exact H.
Qed.

Lemma list_rep_frame h h' start cells vals :
  (forall a, In a cells -> zget h' a = zget h a) ->
  Linked.list_rep h start cells vals -> Linked.list_rep h' start cells vals.
Proof.
  revert start vals. induction cells as [|a cs IH]; intros start vals Hf Hrep;
    destruct vals as [|v vs]; try exact Hrep.
  destruct Hrep as (Hs & nx & Ha & Hrest). split; [exact Hs|]. exists nx. split.
  - rewrite Hf by (left; reflexivity). exact Ha.
  - apply IH; [|exact Hrest]. intros x Hx. apply Hf. right. exact Hx.
Qed.

Lemma list_rep_cell h start cells vals x :
  Linked.list_rep h start cells vals -> In x cells ->
  exists b, zget h x = Some (Some b).
Proof.
  revert start vals. induction cells as [|a cs IH]; intros start vals Hrep Hx;
    [contradiction|].
  destruct vals as [|v vs]; [contradiction|].
  destruct Hrep as (_ & nx & Ha & Hrest). destruct Hx as [<-|Hx]; [eauto|].
  apply (IH nx vs Hrest Hx).
Qed.

Lemma list_rep_length h start cells vals :
  Linked.list_rep h start cells vals -> length cells = length vals.
Proof.
  revert start vals. induction cells as [|a cs IH]; intros start vals Hrep;
    destruct vals as [|v vs]; try contradiction; [reflexivity|].
  destruct Hrep as (_ & nx & _ & Hrest). simpl. f_equal. apply (IH nx vs Hrest).
Qed.

(** A cell linked behind the last cell of a list. *)
Lemma list_rep_snoc h h' x v : forall cells start vals,
  Linked.list_rep h start cells vals -> NoDup cells -> cells <> [] ->
  ~ In x cells ->
  (forall a, In a cells -> a <> last cells 0 -> zget h' a = zget h a) ->
  (forall bt, zget h (last cells 0) = Some (Some bt) ->
     zget h' (last cells 0) = Some (Some (mk_block (Some x) (b_value bt)))) ->
  zget h' x = Some (Some (mk_block None v)) ->
  Linked.list_rep h' start (cells ++ [x]) (vals ++ [v]).
Proof.
  induction cells as [|a cs IH]; intros start vals Hrep Hnd Hne Hx Hf Ht Hxv;
    [congruence|].
  destruct vals as [|w vs]; [contradiction|].
  destruct Hrep as (Hs & nx & Ha & Hrest).
  inversion Hnd as [|? ? Hnin Hnd']; subst.
  destruct cs as [|a' cs'].
  - destruct vs as [|? ?]; [|contradiction]. cbn [Linked.list_rep] in Hrest. subst nx.
    cbn [last] in Ht, Hf. cbn [app Linked.list_rep].
    split; [reflexivity|]. exists (Some x). split; [apply (Ht _ Ha)|].
    split; [reflexivity|]. exists None. split; [exact Hxv|reflexivity].
  - change (last (a :: a' :: cs') 0) with (last (a' :: cs') 0) in Ht, Hf.
    cbn [app]. split; [reflexivity|]. exists nx. split.
    + rewrite Hf; [exact Ha|left; reflexivity|].
      intros E. apply Hnin. rewrite E. apply last_In. discriminate.
    + apply IH; auto; try discriminate.
      * intros H. apply Hx. right. exact H.
      * intros y Hy Hyl. apply Hf; [right; exact Hy|exact Hyl].
Qed.

Lemma list_rep_last_cell h : forall cells start vals,
  Linked.list_rep h start cells vals -> cells <> [] ->
  exists v, zget h (last cells 0) = Some (Some (mk_block None v)).
Proof.
  induction cells as [|a cs IH]; intros start vals Hrep Hne; [congruence|].
  destruct vals as [|w vs]; [contradiction|].
  destruct Hrep as (Hs & nx & Ha & Hrest). destruct cs as [|a' cs'].
  - destruct vs; [|contradiction]. cbn in Hrest. subst nx. exists w. exact Ha.
  - apply (IH nx vs Hrest). discriminate.
Qed.

(** The last lines of [oc_push_pending] and of [oc_push_solved]: the
    cell [x] is linked behind the tail. *)
Lemma link_tail p q Q vals x v :
  Linked.queue_rep p q Q vals -> ~ In x Q ->
  load p (Some x) = Some (mk_block None v) ->
  exists p' q',
    match Linked.ptail q with
    | Some _ =>
        p <- set_next p (Linked.ptail q) (Some x) ;;
        Some (p, Linked.mk_queue (Linked.phead q) (Some x))
    | None => Some (p, Linked.mk_queue (Some x) (Some x))
    end = Some (p', q') /\
    Linked.queue_rep p' q' (Q ++ [x]) (vals ++ [v]) /\
    free_head p' = free_head p /\ free_tail p' = free_tail p /\
    null_ring p' = null_ring p /\
    (forall y, ~ In y Q -> load p' (Some y) = load p (Some y)).
Proof.
  intros (Hnd & Hrep & Htail) Hx Hl. pose proof (load_get _ _ _ Hl) as Hxg.
  assert (Hnd' : NoDup (Q ++ [x])).
  { apply NoDup_app; [exact Hnd|constructor; [simpl; tauto|constructor]|].
    intros y Hy [<-|[]]. contradiction. }
  destruct Q as [|a Q'].
  - destruct vals as [|? ?]; [|contradiction]. rewrite Htail.
    eexists _, _. split; [reflexivity|]. split; [|auto].
    split; [exact Hnd'|]. cbn [app Linked.phead Linked.ptail last Linked.list_rep].
    split; [|reflexivity]. split; [reflexivity|]. exists None. split; [exact Hxg|reflexivity].
  - set (Q := a :: Q') in *. set (t := last Q a) in *.
    assert (Ht0 : t = last Q 0) by (apply last_default; discriminate).
    assert (HtQ : In t Q) by (apply last_In; discriminate).
    rewrite Htail.
    destruct (list_rep_last_cell _ _ _ _ Hrep ltac:(discriminate)) as [w Hw].
    rewrite <- Ht0 in Hw.
    destruct (set_next_ok p t _ (Some x) (get_load _ _ _ Hw)) as (h' & Hh' & Hs).
    rewrite Hs. eexists _, _. split; [reflexivity|].
    assert (Hxt : x <> t) by (intros ->; contradiction).
    split; [|split; [reflexivity|split; [reflexivity|split; [reflexivity|]]]].
    + split; [exact Hnd'|]. cbn [heap set_heap Linked.phead Linked.ptail]. split.
      * apply (list_rep_snoc (heap p) h' x v Q _ _ Hrep Hnd); [discriminate|exact Hx| | |].
        -- intros y Hy Hyl. apply (zget_zset_other _ _ _ _ _ Hh'). congruence.
        -- rewrite <- Ht0. intros bt Hbt. rewrite (zget_zset_same _ _ _ _ Hh').
           rewrite Hw in Hbt. injection Hbt as <-. reflexivity.
        -- rewrite (zget_zset_other _ _ _ _ _ Hh' Hxt). exact Hxg.
      * unfold Q. cbn [app]. change (a :: Q' ++ [x]) with ((a :: Q') ++ [x]).
        rewrite last_last. reflexivity.
    + intros y Hy. rewrite !load_cell. cbn [heap set_heap].
      rewrite (zget_zset_other _ _ _ _ _ Hh'); [reflexivity|].
      intros ->. contradiction.
Qed.

(** X23: [oc_push_pending] appends: with the free ring and the queue in
    separate cells, the call takes a cell from [alloc_block], and the
    queue read from [phead] is the old one followed by [value], with
    [ptail] at the new cell; the ring stays a ring of cells of the old
    ring, apart from the queue, and no other cell outside the old ring is
    touched. *)
Theorem push_pending_appends junk p q R Q vals value :
  ring p R -> Linked.queue_rep p q Q vals -> Linked.apart R Q ->
  exists ptr p' q' R',
    Linked.oc_push_pending junk p q value = Some (Some ptr, p', q') /\
    Linked.queue_rep p' q' (Q ++ [ptr]) (vals ++ [value]) /\
    ring p' R' /\ Linked.apart R' (Q ++ [ptr]) /\ incl R' R /\
    (forall x, ~ In x R -> ~ In x Q -> x <> ptr ->
       load p' (Some x) = load p (Some x)).
Proof.
  intros Hr Hq Hap.
  destruct (alloc_spec junk p R Hr)
    as (ptr & p1 & R1 & b & Hrun & Hr1 & Hnin1 & Hincl & Hl1 & Hfresh & Hfr1).
  pose proof Hq as (Hnd & Hrep & Htail).
  assert (HptrQ : ~ In ptr Q).
  { intros Hin. destruct Hfresh as [HinR|Hnone].
    - exact (Hap ptr HinR Hin).
    - destruct (list_rep_cell _ _ _ _ ptr Hrep Hin) as [bq Hbq].
      rewrite (get_load _ _ _ Hbq) in Hnone. discriminate. }
  assert (HQR : forall x, In x Q -> ~ In x R).
  { intros x Hx HxR. exact (Hap x HxR Hx). }
  unfold Linked.oc_push_pending. rewrite Hrun.
  destruct (set_next_ok p1 ptr b None Hl1) as (h2 & Hh2 & Hs2). rewrite Hs2.
  assert (Hl2 : load (set_heap p1 h2) (Some ptr) = Some (mk_block None (b_value b))).
  { rewrite load_set_heap, (zget_zset_same _ _ _ _ Hh2). reflexivity. }
  destruct (set_value_ok _ ptr _ value Hl2) as (h3 & Hh3 & Hs3). rewrite Hs3.
  cbn [a_next heap set_heap] in Hh3.
  set (p3 := set_heap (set_heap p1 h2) h3).
  assert (Hsame3 : forall x, x <> ptr -> load p3 (Some x) = load p1 (Some x)).
  { intros x Hx. rewrite !load_cell. unfold p3. cbn [heap set_heap].
    rewrite (zget_zset_other _ _ _ _ _ Hh3 Hx), (zget_zset_other _ _ _ _ _ Hh2 Hx).
    reflexivity. }
  assert (Hq3 : Linked.queue_rep p3 q Q vals).
  { split; [exact Hnd|]. split; [|exact Htail].
    apply (list_rep_frame (heap p)); [|exact Hrep].
    intros x Hx. destruct (list_rep_cell _ _ _ _ x Hrep Hx) as [bx Hbx].
    assert (Hxp : x <> ptr) by (intros ->; contradiction).
    pose proof (Hsame3 x Hxp) as E. rewrite (Hfr1 x (HQR x Hx) Hxp) in E.
    rewrite (get_load _ _ _ Hbx) in E. rewrite (load_get _ _ _ E). symmetry. exact Hbx. }
  assert (Hl3 : load p3 (Some ptr) = Some (mk_block None value)).
  { rewrite load_cell. unfold p3. cbn [heap set_heap].
    rewrite (zget_zset_same _ _ _ _ Hh3). reflexivity. }
  destruct (link_tail p3 q Q vals ptr value Hq3 HptrQ Hl3)
    as (p' & q' & Hlink & Hq' & Hh & Ht & Hn & Hfr').
  exists ptr, p', q', R1.
  split.
  { destruct (Linked.ptail q) as [t|].
    - destruct (set_next p3 (Some t) (Some ptr)) as [p4|]; [|discriminate].
      injection Hlink as <- <-. reflexivity.
    - injection Hlink as <- <-. reflexivity. }
  split; [exact Hq'|]. split; [|split; [|split; [exact Hincl|]]].
  - apply (ring_frame p1 p' R1 Hr1); try assumption.
    intros x Hx.
    assert (HxQ : ~ In x Q) by (intros H; exact (Hap x (Hincl x Hx) H)).
    assert (Hxp : x <> ptr) by (intros ->; contradiction).
    pose proof (Hfr' x HxQ) as E. rewrite (Hsame3 x Hxp) in E.
    destruct (ring_cell p1 R1 x Hr1 Hx) as [bx Hbx]. rewrite Hbx in E.
    rewrite (load_get _ _ _ E), (load_get _ _ _ Hbx). reflexivity.
  - intros x Hx Hin. apply in_app_or in Hin as [Hin|[<-|[]]].
    + exact (Hap x (Hincl x Hx) Hin).
    + contradiction.
  - intros x HxR HxQ Hxp. rewrite (Hfr' x HxQ), (Hsame3 x Hxp). apply Hfr1; assumption.
Qed.

(** X24: [oc_push_solved] links the cell it is given behind the tail of the
    solved list and sets its [next] to [NULL]: the list is the old one
    followed by the value of the cell. *)
Theorem push_solved_appends p q Q vals pnode b :
  Linked.queue_rep p q Q vals -> ~ In pnode Q -> load p (Some pnode) = Some b ->
  exists p' q',
    Linked.oc_push_solved p (Some pnode) q = Some (p', q') /\
    Linked.queue_rep p' q' (Q ++ [pnode]) (vals ++ [b_value b]) /\
    (forall x, ~ In x Q -> x <> pnode -> load p' (Some x) = load p (Some x)).
Proof.
  intros Hq Hnin Hl. pose proof Hq as (Hnd & Hrep & Htail).
  unfold Linked.oc_push_solved.
  destruct (set_next_ok p pnode b None Hl) as (h1 & Hh1 & Hs1). rewrite Hs1.
  set (p1 := set_heap p h1).
  assert (Hsame : forall x, x <> pnode -> load p1 (Some x) = load p (Some x)).
  { intros x Hx. rewrite !load_cell. unfold p1. cbn [heap set_heap].
    rewrite (zget_zset_other _ _ _ _ _ Hh1 Hx). reflexivity. }
  assert (Hq1 : Linked.queue_rep p1 q Q vals).
  { split; [exact Hnd|]. split; [|exact Htail].
    apply (list_rep_frame (heap p)); [|exact Hrep].
    intros x Hx. apply (zget_zset_other _ _ _ _ _ Hh1). intros ->. contradiction. }
  assert (Hl1 : load p1 (Some pnode) = Some (mk_block None (b_value b))).
  { rewrite load_cell. unfold p1. cbn [heap set_heap].
    rewrite (zget_zset_same _ _ _ _ Hh1). reflexivity. }
  destruct (link_tail p1 q Q vals pnode (b_value b) Hq1 Hnin Hl1)
    as (p' & q' & Hlink & Hq' & _ & _ & _ & Hfr').
  exists p', q'. split; [exact Hlink|]. split; [exact Hq'|].
  intros x HxQ Hxp. rewrite (Hfr' x HxQ). apply Hsame. exact Hxp.
Qed.

(** X25: [oc_shift_pending] takes the first cell: it returns the cell at
    [phead], whose value is the first queued value, and leaves the rest
    of the queue, with both pointers [NULL] when nothing is left; on an
    empty queue its [assert] fails. *)
Theorem shift_pending_takes_first p q cells vals :
  Linked.queue_rep p q cells vals ->
  match cells, vals with
  | a :: Q, v :: vs =>
      exists q' nx, Linked.oc_shift_pending p q = Some (Some a, q') /\
        load p (Some a) = Some (mk_block nx v) /\ Linked.queue_rep p q' Q vs
  | _, _ => Linked.oc_shift_pending p q = None
  end.
Proof.
  intros (Hnd & Hrep & Htail). destruct cells as [|a Q]; destruct vals as [|v vs];
    try contradiction.
  - cbn in Hrep. unfold Linked.oc_shift_pending. rewrite Hrep. reflexivity.
  - destruct Hrep as (Hs & nx & Ha & Hrest). inversion Hnd as [|? ? Hnin Hnd']; subst.
    unfold Linked.oc_shift_pending. rewrite Hs. cbn [ptr_eqb negb c_assert].
    rewrite (get_load _ _ _ Ha). cbn [a_next].
    destruct Q as [|a' Q'].
    + destruct vs; [|contradiction]. cbn in Hrest. subst nx.
      eexists _, _. split; [reflexivity|]. split; [reflexivity|].
      split; [constructor|]. split; reflexivity.
    + destruct vs as [|v' vs']; [contradiction|]. destruct Hrest as (-> & Hrest).
      eexists _, _. split; [reflexivity|]. split; [reflexivity|].
      split; [exact Hnd'|]. cbn [Linked.phead Linked.ptail]. split.
      * split; [reflexivity|exact Hrest].
      * rewrite Htail. f_equal.
        change (last (a :: a' :: Q') a) with (last (a' :: Q') a).
        apply last_default. discriminate.
Qed.

Lemma list_rep_range h start cells vals x :
  Linked.list_rep h start cells vals -> In x cells -> 0 <= x < Z.of_nat (length h).
Proof.
  intros Hrep Hx. destruct (list_rep_cell _ _ _ _ x Hrep Hx) as [b Hb].
  eapply zget_Some_range. exact Hb.
Qed.

Lemma cells_fit {A} (h : list A) (cells : list Z) :
  NoDup cells -> (forall x, In x cells -> 0 <= x < Z.of_nat (length h)) ->
  (length cells <= length h)%nat.
Proof.
  intros Hnd Hr.
  assert (H : (length cells <= length (map Z.of_nat (seq 0 (length h))))%nat).
  { apply NoDup_incl_length; [exact Hnd|].
    intros x Hx. pose proof (Hr x Hx).
    apply in_map_iff. exists (Z.to_nat x). split; [lia|]. apply in_seq. lia. }
  rewrite length_map, length_seq in H. exact H.
Qed.

Lemma flush_loop_frees (cells : list Z) : forall fuel p start vals,
  Linked.list_rep (heap p) start cells vals -> NoDup cells ->
  (length cells <= fuel)%nat ->
  exists h', Linked.flush_loop fuel p start = Some (set_heap p h') /\
    (forall x, In x cells -> zget h' x = Some None) /\
    (forall x, ~ In x cells -> zget h' x = zget (heap p) x).
Proof.
  induction cells as [|a cs IH]; intros fuel p start vals Hrep Hnd Hfuel;
    destruct vals as [|v vs]; try contradiction.
  - cbn in Hrep. subst start. exists (heap p).
    split; [destruct fuel, p; reflexivity|]. split; [intros x []|reflexivity].
  - destruct Hrep as (-> & nx & Ha & Hrest). inversion Hnd as [|? ? Hnin Hnd']; subst.
    destruct fuel as [|fuel]; [simpl in Hfuel; lia|].
    cbn [Linked.flush_loop]. rewrite (get_load _ _ _ Ha). unfold free.
    rewrite (get_load _ _ _ Ha).
    destruct (zset_Some (heap p) a (@None oc_uni_block)) as [h1 Hh1].
    { eapply zget_Some_range. exact Ha. }
    rewrite Hh1. cbn [a_next].
    destruct (IH fuel (set_heap p h1) nx vs) as (h' & Hrun & Hin & Hout).
    + apply (list_rep_frame (heap p)); [|exact Hrest].
      intros x Hx. apply (zget_zset_other _ _ _ _ _ Hh1). intros ->. contradiction.
    + exact Hnd'.
    + simpl in Hfuel. lia.
    + rewrite Hrun. exists h'. split; [reflexivity|]. cbn [heap set_heap] in Hout. split.
      * intros x [<-|Hx]; [|apply Hin; exact Hx].
        rewrite Hout by exact Hnin. apply (zget_zset_same _ _ _ _ Hh1).
      * intros x Hx. rewrite Hout by (intros H; apply Hx; right; exact H).
        apply (zget_zset_other _ _ _ _ _ Hh1). intros ->. apply Hx. left. reflexivity.
Qed.

(** X26: [oc_flush_pending] empties the queue: every cell of the queue is
    given to [free], once, not to the ring of [free_block]; both queue
    pointers end [NULL], and the ring and every other cell are
    untouched. *)
Theorem flush_pending_frees p q Q vals :
  Linked.queue_rep p q Q vals ->
  exists p', Linked.oc_flush_pending p q = Some (p', Linked.mk_queue None None) /\
    (forall x, In x Q -> zget (heap p') x = Some None) /\
    (forall x, ~ In x Q -> zget (heap p') x = zget (heap p) x) /\
    free_head p' = free_head p /\ free_tail p' = free_tail p /\
    null_ring p' = null_ring p.
Proof.
  intros (Hnd & Hrep & _).
  destruct (flush_loop_frees Q (length (heap p)) p _ vals Hrep Hnd)
    as (h' & Hrun & Hin & Hout).
  { apply cells_fit; [exact Hnd|]. intros x Hx. apply (list_rep_range _ _ _ _ x Hrep Hx). }
  unfold Linked.oc_flush_pending. rewrite Hrun. eexists. split; [reflexivity|].
  cbn [heap free_head free_tail null_ring set_heap]. auto.
Qed.

(** ** Concrete queues *)

Module Queues.

Lemma held_ring : ring Runs.pool_held [0].
Proof.
  unfold ring. split; [constructor; [simpl; tauto|constructor]|].
  split; [reflexivity|]. split; [reflexivity|]. split; [discriminate|].
  split; [|exact I]. eexists. split; reflexivity.
Qed.

Lemma empty_rep p : Linked.queue_rep p Runs.queue_empty [] [].
Proof. split; [constructor|]. split; reflexivity. Qed.

Lemma q1_rep : Linked.queue_rep Runs.pool_q1 Runs.queue_q1 [1] [7].
Proof.
  split; [constructor; [simpl; tauto|constructor]|]. split; [|reflexivity].
  split; [reflexivity|]. exists None. split; reflexivity.
Qed.

End Queues.

Lemma push_pending_appends_witness :
  exists ptr p' q' R',
    Linked.oc_push_pending Runs.junk0 Runs.pool_held Runs.queue_empty 7
      = Some (Some ptr, p', q') /\
    Linked.queue_rep p' q' ([] ++ [ptr]) ([] ++ [7]) /\ ring p' R'.
Proof.
  destruct (push_pending_appends Runs.junk0 Runs.pool_held Runs.queue_empty [0] [] [] 7
              Queues.held_ring (Queues.empty_rep _))
    as (ptr & p' & q' & R' & H1 & H2 & H3 & _).
  - intros x _ [].
  - exists ptr, p', q', R'. auto.
Defined.

Lemma push_solved_appends_witness :
  exists p' q',
    Linked.oc_push_solved Runs.pool_q1 (Some 1) Runs.queue_empty = Some (p', q') /\
    Linked.queue_rep p' q' ([] ++ [1]) ([] ++ [7]).
Proof.
  destruct (push_solved_appends Runs.pool_q1 Runs.queue_empty [] [] 1
              (mk_block None 7) (Queues.empty_rep _))
    as (p' & q' & H1 & H2 & _).
  - intros [].
  - reflexivity.
  - exists p', q'. auto.
Defined.

Lemma shift_pending_takes_first_witness :
  exists q' nx, Linked.oc_shift_pending Runs.pool_q1 Runs.queue_q1 = Some (Some 1, q') /\
    load Runs.pool_q1 (Some 1) = Some (mk_block nx 7) /\
    Linked.queue_rep Runs.pool_q1 q' [] [].
Proof.
  apply (shift_pending_takes_first Runs.pool_q1 Runs.queue_q1 [1] [7] Queues.q1_rep).
Defined.

Lemma flush_pending_frees_witness :
  exists p', Linked.oc_flush_pending Runs.pool_q1 Runs.queue_q1
               = Some (p', Linked.mk_queue None None) /\
    zget (heap p') 1 = Some None.
Proof.
  destruct (flush_pending_frees Runs.pool_q1 Runs.queue_q1 [1] [7] Queues.q1_rep)
    as (p' & H1 & H2 & _).
  exists p'. split; [exact H1|]. apply H2. left. reflexivity.
Defined.

Import Pool.

(** * The n-edge lists, cell by cell *)

Lemma seg_rep_list h start cells vals :
  Linked.seg_rep h start cells vals None <-> Linked.list_rep h start cells vals.
Proof.
  revert start vals. induction cells as [|a cs IH]; intros start vals;
    destruct vals as [|v vs]; simpl; try tauto.
  split; intros (Hs & nx & Ha & Hrest); (split; [exact Hs|]); exists nx;
    (split; [exact Ha|]); apply IH; exact Hrest.
Qed.

Lemma seg_rep_frame h h' start cells vals stop :
  (forall a, In a cells -> zget h' a = zget h a) ->
  Linked.seg_rep h start cells vals stop -> Linked.seg_rep h' start cells vals stop.
Proof.
  revert start vals. induction cells as [|a cs IH]; intros start vals Hf Hrep;
    destruct vals as [|v vs]; try exact Hrep.
  destruct Hrep as (Hs & nx & Ha & Hrest). split; [exact Hs|]. exists nx. split.
  - rewrite Hf by (left; reflexivity). exact Ha.
  - apply IH; [|exact Hrest]. intros x Hx. apply Hf. right. exact Hx.
Qed.

Lemma seg_rep_app h : forall c1 v1 start c2 v2 mid stop,
  Linked.seg_rep h start c1 v1 mid -> Linked.seg_rep h mid c2 v2 stop ->
  Linked.seg_rep h start (c1 ++ c2) (v1 ++ v2) stop.
Proof.
  induction c1 as [|a cs IH]; intros v1 start c2 v2 mid stop H1 H2;
    destruct v1 as [|v vs]; try contradiction.
  - cbn in H1. subst start. exact H2.
  - destruct H1 as (Hs & nx & Ha & Hrest). cbn [app Linked.seg_rep].
    split; [exact Hs|]. exists nx. split; [exact Ha|]. apply (IH vs nx c2 v2 mid); assumption.
Qed.

Lemma seg_rep_length h start cells vals stop :
  Linked.seg_rep h start cells vals stop -> length cells = length vals.
Proof.
  revert start vals. induction cells as [|a cs IH]; intros start vals Hrep;
    destruct vals as [|v vs]; try contradiction; [reflexivity|].
  destruct Hrep as (_ & nx & _ & Hrest). simpl. f_equal. apply (IH nx vs Hrest).
Qed.

Lemma seg_rep_last h : forall cells start vals stop,
  Linked.seg_rep h start cells vals stop -> cells <> [] ->
  exists v, zget h (last cells 0) = Some (Some (mk_block stop v)).
Proof.
  induction cells as [|a cs IH]; intros start vals stop Hrep Hne; [congruence|].
  destruct vals as [|w vs]; [contradiction|].
  destruct Hrep as (Hs & nx & Ha & Hrest). destruct cs as [|a' cs'].
  - destruct vs; [|contradiction]. cbn in Hrest. subst nx. exists w. exact Ha.
  - apply (IH nx vs stop Hrest). discriminate.
Qed.

(** The last cell of a segment relinked. *)
Lemma seg_rep_relink h h' stop' : forall cells start vals stop,
  Linked.seg_rep h start cells vals stop -> NoDup cells -> cells <> [] ->
  (forall a, In a cells -> a <> last cells 0 -> zget h' a = zget h a) ->
  (forall v, zget h (last cells 0) = Some (Some (mk_block stop v)) ->
     zget h' (last cells 0) = Some (Some (mk_block stop' v))) ->
  Linked.seg_rep h' start cells vals stop'.
Proof.
  induction cells as [|a cs IH]; intros start vals stop Hrep Hnd Hne Hf Ht; [congruence|].
  destruct vals as [|w vs]; [contradiction|].
  destruct Hrep as (Hs & nx & Ha & Hrest). inversion Hnd as [|? ? Hnin Hnd']; subst.
  destruct cs as [|a' cs'].
  - destruct vs; [|contradiction]. cbn in Hrest. subst nx. cbn [last] in Ht.
    split; [reflexivity|]. exists stop'. split; [apply Ht; exact Ha|reflexivity].
  - change (last (a :: a' :: cs') 0) with (last (a' :: cs') 0) in Ht, Hf.
    split; [reflexivity|]. exists nx. split.
    + rewrite Hf; [exact Ha|left; reflexivity|].
      intros E. apply Hnin. rewrite E. apply last_In. discriminate.
    + apply (IH nx vs stop); auto; try discriminate.
      intros y Hy Hyl. apply Hf; [right; exact Hy|exact Hyl].
Qed.

Lemma seg_rep_cell h start cells vals stop x :
  Linked.seg_rep h start cells vals stop -> In x cells ->
  exists b, zget h x = Some (Some b).
Proof.
  revert start vals. induction cells as [|a cs IH]; intros start vals Hrep Hx;
    [contradiction|].
  destruct vals as [|v vs]; [contradiction|].
  destruct Hrep as (_ & nx & Ha & Hrest). destruct Hx as [<-|Hx]; [eauto|].
  apply (IH nx vs Hrest Hx).
Qed.

Lemma place_after_snoc lower pre a :
  Linked.place_after lower (pre ++ [a]) = Linked.Next a.
Proof.
  unfold Linked.place_after. destruct (pre ++ [a]) eqn:E.
  - destruct pre; discriminate.
  - rewrite <- E, last_last. reflexivity.
Qed.

(** X27: [oc_create_n_edge] takes a cell from [alloc_block], stores [upper]
    in it and links it in front of the list of [lower]: the list read
    from [n_edges[lower]] is [upper] followed by the old one. *)
Theorem create_n_edge_links junk p ne R upper lower head cells vals :
  ring p R -> upper > lower -> zget ne lower = Some head ->
  Linked.list_rep (heap p) head cells vals -> NoDup cells -> Linked.apart R cells ->
  exists ptr p' ne' R',
    Linked.oc_create_n_edge junk p ne upper lower = Some (Some ptr, p', ne') /\
    zset ne lower (Some ptr) = Some ne' /\
    Linked.list_rep (heap p') (Some ptr) (ptr :: cells) (upper :: vals) /\
    NoDup (ptr :: cells) /\ ring p' R' /\ Linked.apart R' (ptr :: cells) /\
    (forall x, ~ In x R -> x <> ptr -> load p' (Some x) = load p (Some x)).
Proof.
  intros Hr Hul Hhead Hrep Hnd Hap.
  destruct (alloc_spec junk p R Hr)
    as (ptr & p1 & R1 & b & Hrun & Hr1 & Hnin1 & Hincl & Hl1 & Hfresh & Hfr1).
  assert (Hptr : ~ In ptr cells).
  { intros Hin. destruct Hfresh as [HinR|Hnone].
    - exact (Hap ptr HinR Hin).
    - destruct (list_rep_cell _ _ _ _ ptr Hrep Hin) as [bq Hbq].
      rewrite (get_load _ _ _ Hbq) in Hnone. discriminate. }
  unfold Linked.oc_create_n_edge. rewrite c_assert_true by zcmp.
  rewrite Hrun, Hhead.
  destruct (set_next_ok p1 ptr b head Hl1) as (h2 & Hh2 & Hs2). rewrite Hs2.
  assert (Hl2 : load (set_heap p1 h2) (Some ptr) = Some (mk_block head (b_value b))).
  { rewrite load_set_heap, (zget_zset_same _ _ _ _ Hh2). reflexivity. }
  destruct (set_value_ok _ ptr _ upper Hl2) as (h3 & Hh3 & Hs3). rewrite Hs3.
  cbn [a_next heap set_heap] in Hh3.
  destruct (zset_Some ne lower (Some ptr)) as [ne' Hne'].
  { eapply zget_Some_range. exact Hhead. }
  rewrite Hne'. set (p3 := set_heap (set_heap p1 h2) h3).
  assert (Hsame3 : forall x, x <> ptr -> load p3 (Some x) = load p1 (Some x)).
  { intros x Hx. rewrite !load_cell. unfold p3. cbn [heap set_heap].
    rewrite (zget_zset_other _ _ _ _ _ Hh3 Hx), (zget_zset_other _ _ _ _ _ Hh2 Hx).
    reflexivity. }
  exists ptr, p3, ne', R1. split; [reflexivity|]. split; [exact Hne'|].
  split; [|split; [constructor; assumption|split; [|split]]].
  - split; [reflexivity|]. exists head. split.
    + unfold p3. cbn [heap set_heap]. apply (zget_zset_same _ _ _ _ Hh3).
    + apply (list_rep_frame (heap p)); [|exact Hrep].
      intros x Hx. destruct (list_rep_cell _ _ _ _ x Hrep Hx) as [bx Hbx].
      assert (Hxp : x <> ptr) by (intros ->; contradiction).
      assert (HxR : ~ In x R) by (intros H; exact (Hap x H Hx)).
      pose proof (Hsame3 x Hxp) as E. rewrite (Hfr1 x HxR Hxp) in E.
      rewrite (get_load _ _ _ Hbx) in E. rewrite (load_get _ _ _ E). symmetry. exact Hbx.
  - apply (ring_frame p1 p3 R1 Hr1); try reflexivity.
    intros x Hx. assert (Hxp : x <> ptr) by (intros ->; contradiction).
    unfold p3. cbn [heap set_heap].
    rewrite (zget_zset_other _ _ _ _ _ Hh3 Hxp), (zget_zset_other _ _ _ _ _ Hh2 Hxp).
    reflexivity.
  - intros x Hx [<-|Hin]; [contradiction|]. exact (Hap x (Hincl x Hx) Hin).
  - intros x HxR Hxp. rewrite (Hsame3 x Hxp). apply Hfr1; assumption.
Qed.

(** ** The walk of the deletion *)

Lemma read_after p ne lower head pre vpre mid :
  zget ne lower = Some head ->
  Linked.seg_rep (heap p) head pre vpre mid ->
  Linked.read_place p ne (Linked.place_after lower pre) = Some mid.
Proof.
  intros Hhead Hseg. destruct pre as [|a pre'].
  - destruct vpre; [|contradiction]. cbn in Hseg. subst mid. exact Hhead.
  - destruct (seg_rep_last _ _ _ _ _ Hseg ltac:(discriminate)) as [v Hv].
    cbn [Linked.place_after Linked.read_place]. rewrite (get_load _ _ _ Hv). reflexivity.
Qed.

Lemma delete_walk_spec upper lower R : forall cs pre vpre vs fuel p ne head mid,
  ring p R -> zget ne lower = Some head ->
  Linked.seg_rep (heap p) head pre vpre mid ->
  Linked.list_rep (heap p) mid cs vs ->
  NoDup (pre ++ cs) -> Linked.apart R (pre ++ cs) ->
  (length cs < fuel)%nat ->
  match unlink upper vs with
  | Some vs' =>
      exists p' ne' c1 c c2 head',
        Linked.delete_walk fuel p ne (Linked.place_after lower pre) upper
          = Some (p', ne') /\
        cs = c1 ++ c :: c2 /\ zget ne' lower = Some head' /\
        Linked.list_rep (heap p') head' (pre ++ c1 ++ c2) (vpre ++ vs') /\
        ring p' (R ++ [c]) /\
        (forall l, l <> lower -> zget ne' l = zget ne l) /\
        (forall x, ~ In x R -> ~ In x (pre ++ cs) ->
           load p' (Some x) = load p (Some x))
  | None =>
      Linked.delete_walk fuel p ne (Linked.place_after lower pre) upper = None
  end.
Proof.
  induction cs as [|a cs IH]; intros pre vpre vs fuel p ne head mid Hr Hhead Hseg Hrep
    Hnd Hap Hfuel.
  - destruct vs; [|contradiction]. cbn in Hrep. subst mid. cbn [unlink].
    destruct fuel as [|fuel]; [simpl in Hfuel; lia|]. cbn [Linked.delete_walk].
    rewrite (read_after p ne lower head pre vpre None Hhead Hseg). reflexivity.
  - destruct vs as [|v vs]; [contradiction|].
    destruct Hrep as (-> & nx & Ha & Hrest).
    destruct fuel as [|fuel]; [simpl in Hfuel; lia|]. cbn [Linked.delete_walk].
    rewrite (read_after p ne lower head pre vpre (Some a) Hhead Hseg).
    rewrite (get_load _ _ _ Ha). cbn [b_value a_next unlink].
    assert (HaR : ~ In a R).
    { intros H. apply (Hap a H). apply in_or_app. right. left. reflexivity. }
    assert (Hnd_pre : NoDup pre) by (apply NoDup_app_remove_r in Hnd; exact Hnd).
    assert (Hnd_cs : NoDup (a :: cs)) by (apply NoDup_app_remove_l in Hnd; exact Hnd).
    inversion Hnd_cs as [|? ? Ha_cs Hnd_cs']; subst.
    assert (Ha_pre : ~ In a pre).
    { intros H. apply NoDup_remove_2 in Hnd. apply Hnd. apply in_or_app. left. exact H. }
    assert (Hpre_cs : forall x, In x pre -> ~ In x cs).
    { intros x Hx Hc. apply NoDup_remove_1 in Hnd.
      revert Hnd Hx Hc. clear. induction pre as [|y pre IHp]; simpl; intros Hnd Hx Hc;
        [contradiction|].
      inversion Hnd as [|? ? Hn Hnd']; subst. destruct Hx as [<-|Hx].
      - apply Hn. apply in_or_app. right. exact Hc.
      - exact (IHp Hnd' Hx Hc). }
    destruct (v =? upper) eqn:Ev.
    + (* the cell is found *)
      assert (Hwrite : exists p1 ne1 head1,
                Linked.write_place p ne (Linked.place_after lower pre) nx = Some (p1, ne1) /\
                zget ne1 lower = Some head1 /\
                Linked.seg_rep (heap p1) head1 pre vpre nx /\
                (forall l, l <> lower -> zget ne1 l = zget ne l) /\
                free_head p1 = free_head p /\ free_tail p1 = free_tail p /\
                null_ring p1 = null_ring p /\
                (forall x, ~ In x pre -> zget (heap p1) x = zget (heap p) x)).
      { destruct pre as [|a0 pre'].
        - destruct vpre; [|contradiction]. cbn in Hseg.
          cbn [Linked.place_after Linked.write_place].
          destruct (zset_Some ne lower nx) as [ne1 Hne1].
          { eapply zget_Some_range. exact Hhead. }
          rewrite Hne1. exists p, ne1, nx. split; [reflexivity|].
          split; [apply (zget_zset_same _ _ _ _ Hne1)|]. split; [reflexivity|].
          split; [intros l Hl; apply (zget_zset_other _ _ _ _ _ Hne1 Hl)|]. auto.
        - set (pre := a0 :: pre') in *. set (t := last pre 0) in *.
          assert (Ht : In t pre) by (apply last_In; discriminate).
          destruct (seg_rep_last _ _ _ _ _ Hseg ltac:(discriminate)) as [w Hw].
          fold t in Hw.
          destruct (set_next_ok p t _ nx (get_load _ _ _ Hw)) as (h1 & Hh1 & Hs1).
          change (Linked.place_after lower pre) with (Linked.Next t).
          cbn [Linked.write_place]. rewrite Hs1.
          exists (set_heap p h1), ne, head. split; [reflexivity|]. split; [exact Hhead|].
          cbn [heap set_heap free_head free_tail null_ring]. split.
          { apply (seg_rep_relink (heap p) h1 nx pre head vpre (Some a) Hseg Hnd_pre);
              [discriminate| |].
            - intros y Hy Hyt. apply (zget_zset_other _ _ _ _ _ Hh1). exact Hyt.
            - fold t. intros v' Hv'. rewrite (zget_zset_same _ _ _ _ Hh1).
              rewrite Hw in Hv'. injection Hv' as <-. reflexivity. }
          split; [reflexivity|]. split; [reflexivity|]. split; [reflexivity|].
          split; [reflexivity|].
          intros x Hx. apply (zget_zset_other _ _ _ _ _ Hh1). intros ->. contradiction. }
      destruct Hwrite as (p1 & ne1 & head1 & Hw & Hhead1 & Hseg1 & Hslots & F1 & F2 & F3 & Hfr1).
      rewrite Hw.
      assert (Hr1 : ring p1 R).
      { apply (ring_frame p p1 R Hr F1 F2 F3). intros x Hx. apply Hfr1.
        intros Hp. apply (Hap x Hx). apply in_or_app. left. exact Hp. }
      assert (Hla : load p1 (Some a) = Some (mk_block nx v)).
      { apply get_load. rewrite (Hfr1 a Ha_pre). exact Ha. }
      destruct (free_block_ring p1 R a _ Hr1 HaR Hla) as (p' & Hfree & Hr' & _ & Hfr').
      rewrite Hfree.
      exists p', ne1, [], a, cs, head1. split; [reflexivity|]. split; [reflexivity|].
      split; [exact Hhead1|]. cbn [app].
      assert (Hkeep : forall x, In x (pre ++ cs) -> zget (heap p') x = zget (heap p1) x).
      { intros x Hx.
        assert (Hx' : ~ In x (R ++ [a])).
        { intros H. apply in_app_or in H as [H|[<-|[]]].
          - apply (Hap x H). apply in_app_or in Hx as [Hx|Hx]; apply in_or_app;
              [left; exact Hx|right; right; exact Hx].
          - apply in_app_or in Hx as [Hx|Hx]; contradiction. }
        pose proof (Hfr' x Hx') as E.
        assert (Hal : exists bx, zget (heap p1) x = Some (Some bx)).
        { apply in_app_or in Hx as [Hx|Hx].
          - apply (seg_rep_cell _ _ _ _ _ x Hseg1 Hx).
          - destruct (list_rep_cell _ _ _ _ x Hrest Hx) as [bx Hbx]. exists bx.
            rewrite (Hfr1 x); [exact Hbx|]. intros Hp. exact (Hpre_cs x Hp Hx). }
        destruct Hal as [bx Hbx]. rewrite (get_load _ _ _ Hbx) in E.
        rewrite (load_get _ _ _ E). symmetry. exact Hbx. }
      split; [|split; [exact Hr'|split; [exact Hslots|]]].
      * apply seg_rep_list. apply (seg_rep_app (heap p') pre vpre head1 cs vs nx None).
        -- apply (seg_rep_frame (heap p1)); [|exact Hseg1].
           intros x Hx. apply Hkeep. apply in_or_app. left. exact Hx.
        -- apply seg_rep_list. apply (list_rep_frame (heap p)); [|exact Hrest].
           intros x Hx. rewrite Hkeep by (apply in_or_app; right; exact Hx).
           apply Hfr1. intros Hp. exact (Hpre_cs x Hp Hx).
      * intros x HxR Hx.
        assert (Hxa : x <> a).
        { intros ->. apply Hx. apply in_or_app. right. left. reflexivity. }
        rewrite Hfr'.
        -- rewrite !load_cell. rewrite Hfr1; [reflexivity|].
           intros Hp. apply Hx. apply in_or_app. left. exact Hp.
        -- intros H. apply in_app_or in H as [H|[E|[]]]; [contradiction|].
           apply Hxa. symmetry. exact E.
    + (* the walk moves on *)
      assert (Hseg' : Linked.seg_rep (heap p) head (pre ++ [a]) (vpre ++ [v]) nx).
      { apply (seg_rep_app (heap p) pre vpre head [a] [v] (Some a) nx Hseg).
        split; [reflexivity|]. exists nx. split; [exact Ha|reflexivity]. }
      assert (Hnd2 : NoDup ((pre ++ [a]) ++ cs)) by (rewrite <- app_assoc; exact Hnd).
      assert (Hap2 : Linked.apart R ((pre ++ [a]) ++ cs))
        by (rewrite <- app_assoc; exact Hap).
      specialize (IH (pre ++ [a]) (vpre ++ [v]) vs fuel p ne head nx Hr Hhead Hseg' Hrest
                    Hnd2 Hap2 ltac:(simpl in Hfuel; lia)).
      rewrite place_after_snoc in IH.
      destruct (unlink upper vs) as [vs'|].
      * destruct IH as (p' & ne' & c1 & c & c2 & head' & Hrun & Hcs & Hh' & Hrep' & Hr'
                        & Hsl & Hfr).
        exists p', ne', (a :: c1), c, c2, head'. split; [exact Hrun|].
        split; [rewrite Hcs; reflexivity|]. split; [exact Hh'|].
        split; [|split; [exact Hr'|split; [exact Hsl|]]].
        -- rewrite <- !app_assoc in Hrep'. exact Hrep'.
        -- intros x HxR Hx. apply Hfr; [exact HxR|]. rewrite <- app_assoc. exact Hx.
      * exact IH.
Qed.

(** X28: [oc_delete_n_edge] on the cells is the unlinking of the value list:
    when a cell of the list of [lower] holds [upper], the first such
    cell leaves the list, which keeps its other cells in order, and
    joins the free ring at its tail through [free_block]; the edge count
    of [upper] drops by one when [decrement] is set; when no cell holds
    [upper] the walk reaches the end of the list and the final
    [assert] fails. *)
Theorem delete_n_edge_unlinks p ne ec mb upper lower dec R head cells vals :
  ring p R -> zget ne lower = Some head ->
  Linked.list_rep (heap p) head cells vals -> NoDup cells -> Linked.apart R cells ->
  upper > lower -> upper >= mb ->
  (dec = true -> exists c, zget ec (upper - mb) = Some c /\ c <> 0) ->
  match unlink upper vals with
  | Some vals' =>
      exists p' ne' ec' c1 c c2 head',
        Linked.oc_delete_n_edge p ne ec mb upper lower dec = Some (p', ne', ec') /\
        cells = c1 ++ c :: c2 /\ zget ne' lower = Some head' /\
        Linked.list_rep (heap p') head' (c1 ++ c2) vals' /\
        ring p' (R ++ [c]) /\
        (forall l, l <> lower -> zget ne' l = zget ne l) /\
        (forall x, ~ In x R -> ~ In x cells -> load p' (Some x) = load p (Some x)) /\
        (if dec
         then exists cnt, zget ec (upper - mb) = Some cnt /\
                zset ec (upper - mb) (cnt - 1) = Some ec'
         else ec' = ec)
  | None => Linked.oc_delete_n_edge p ne ec mb upper lower dec = None
  end.
Proof.
  intros Hr Hhead Hrep Hnd Hap Hul Hum Hdec.
  assert (Hfuel : (length cells < S (length (heap p)))%nat).
  { apply Nat.lt_succ_r. apply cells_fit; [exact Hnd|].
    intros x Hx. apply (list_rep_range _ _ _ _ x Hrep Hx). }
  pose proof (delete_walk_spec upper lower R cells [] [] vals (S (length (heap p))) p ne
                head head Hr Hhead eq_refl Hrep Hnd Hap Hfuel) as Hwalk.
  cbn [app Linked.place_after] in Hwalk.
  assert (Hec : exists ec',
            (if dec then
               c <- zget ec (upper - mb) ;;
               c_assert (negb (c =? 0)) ;;; zset ec (upper - mb) (c - 1)
             else Some ec) = Some ec' /\
            (if dec
             then exists cnt, zget ec (upper - mb) = Some cnt /\
                    zset ec (upper - mb) (cnt - 1) = Some ec'
             else ec' = ec)).
  { destruct dec.
    - destruct Hdec as (c & Hc & Hnz); [reflexivity|]. rewrite Hc.
      rewrite c_assert_true by (apply negb_true_iff; zcmp).
      destruct (zset_Some ec (upper - mb) (c - 1)) as [ec' Hec'].
      { eapply zget_Some_range. exact Hc. }
      exists ec'. split; [exact Hec'|]. exists c. auto.
    - exists ec. auto. }
  destruct Hec as (ec' & Hec1 & Hec2).
  unfold Linked.oc_delete_n_edge. rewrite !c_assert_true by zcmp. rewrite Hec1.
  destruct (unlink upper vals) as [vals'|].
  - destruct Hwalk as (p' & ne' & c1 & c & c2 & head' & Hrun & Hcs & Hh' & Hrep' & Hr'
                       & Hsl & Hfr).
    rewrite Hrun. exists p', ne', ec', c1, c, c2, head'.
    split; [reflexivity|]. split; [exact Hcs|]. split; [exact Hh'|].
    split; [exact Hrep'|]. split; [exact Hr'|]. split; [exact Hsl|].
    split; [exact Hfr|exact Hec2].
  - rewrite Hwalk. reflexivity.
Qed.

(** ** Concrete lists *)

Module Edges.

Lemma e1_rep : Linked.list_rep (heap Runs.pool_e1) (Some 1) [1] [5].
Proof. split; [reflexivity|]. exists None. split; reflexivity. Qed.

Lemma e1_ring : ring Runs.pool_e1 [0].
Proof.
  unfold ring. split; [constructor; [simpl; tauto|constructor]|].
  split; [reflexivity|]. split; [reflexivity|]. split; [discriminate|].
  split; [|exact I]. eexists. split; reflexivity.
Qed.

End Edges.

Lemma create_n_edge_links_witness :
  exists ptr p' ne' R',
    Linked.oc_create_n_edge Runs.junk0 Runs.pool_held Runs.ne_empty 5 0
      = Some (Some ptr, p', ne') /\
    Linked.list_rep (heap p') (Some ptr) [ptr] [5] /\ ring p' R'.
Proof.
  destruct (create_n_edge_links Runs.junk0 Runs.pool_held Runs.ne_empty [0] 5 0 None [] []
              Queues.held_ring)
    as (ptr & p' & ne' & R' & H1 & _ & H2 & _ & H3 & _).
  - lia.
  - reflexivity.
  - reflexivity.
  - constructor.
  - intros x _ [].
  - exists ptr, p', ne', R'. auto.
Defined.

Lemma delete_n_edge_unlinks_witness :
  exists p' ne' ec',
    Linked.oc_delete_n_edge Runs.pool_e1 Runs.ne_e1 [1; 1] 4 5 0 true
      = Some (p', ne', ec') /\
    zget ne' 0 = Some None /\ ring p' [0; 1] /\ ec' = [1; 0].
Proof.
  assert (Hnd : NoDup [1]) by (constructor; [simpl; tauto|constructor]).
  assert (Hap : Linked.apart [0] [1]).
  { intros x [<-|[]] [H|[]]. discriminate. }
  assert (Hdec : true = true -> exists c, zget [1; 1] (5 - 4) = Some c /\ c <> 0).
  { intros _. exists 1. split; [reflexivity|lia]. }
  pose proof (delete_n_edge_unlinks Runs.pool_e1 Runs.ne_e1 [1; 1] 4 5 0 true [0] (Some 1)
                [1] [5] Edges.e1_ring eq_refl Edges.e1_rep Hnd Hap ltac:(lia) ltac:(lia)
                Hdec) as H.
  cbn [unlink Z.eqb Pos.eqb] in H.
  destruct H as (p' & ne' & ec' & c1 & c & c2 & head' & Hrun & Hcs & Hh & Hrep & Hr & _ & _
                 & Hec).
  assert (Hc : c1 = [] /\ c = 1 /\ c2 = []).
  { destruct c1 as [|y c1]; [injection Hcs as <- <-; auto|].
    injection Hcs as _ Hcs. destruct c1; discriminate. }
  destruct Hc as (-> & -> & ->). cbn [app] in Hrep, Hr. cbn in Hrep. subst head'.
  destruct Hec as (cnt & Hcnt & Hset). cbn in Hcnt. injection Hcnt as <-.
  cbn in Hset. injection Hset as <-.
  exists p', ne', [1; 0]. auto.
Defined.

(** * The order of the queue *)

Lemma first_failing {A} (P : A -> Prop) : forall s1 x1 r1 s2 x2 r2,
  s1 ++ x1 :: r1 = s2 ++ x2 :: r2 ->
  Forall P s1 -> ~ P x1 -> Forall P s2 -> ~ P x2 ->
  s1 = s2 /\ x1 = x2 /\ r1 = r2.
Proof.
  induction s1 as [|a s1 IH]; intros x1 r1 s2 x2 r2 E H1 N1 H2 N2.
  - destruct s2 as [|b s2].
    + injection E as -> ->. auto.
    + injection E as -> _. inversion H2; subst. contradiction.
  - destruct s2 as [|b s2].
    + injection E as -> _. inversion H1; subst. contradiction.
    + injection E as -> E. inversion H1; subst. inversion H2; subst.
      destruct (IH x1 r1 s2 x2 r2 E) as (-> & -> & ->); auto.
Qed.

(** X30: the resolver serves the queue in order: from a reachable graph that
    is not done, it drops the queued nodes that can fire no rule (more
    than one unsolved edge, no unsolved edge on a check node or a solved
    auxiliary node, one unsolved edge on an unsolved auxiliary node) and
    fires a rule on the first node [from] that can; the call solves one
    node, [from] itself by the auxiliary rule or a down-edge of [from] by
    the propagation rule. *)
Theorem resolve_fires_first g skipped from rest :
  reachable g -> done g = false -> pending g = skipped ++ from :: rest ->
  Forall (discardable g) skipped -> ~ discardable g from ->
  exists d n g', oc_graph_resolve g = Some (d, [n], g') /\
    is_solved (solved g) n = false /\ is_solved (solved g') n = true /\
    ((n = from /\ from < coblocks g) \/ vedge g from n).
Proof.
  intros Hr Hd Hp Hsk Hfire.
  pose proof (reachable_inv g Hr) as Hinv.
  destruct (reachable_count g Hr) as [_ Hcnt].
  destruct (resolve_spec g Hinv) as (sl & g' & Hrun & _ & _ & Hcase).
  destruct Hcase as [(_ & _ & [Hq|Hq])|[(_ & H0 & _)|(_ & _ & _ & Hout)]].
  - rewrite Hp in Hq. destruct skipped; discriminate.
  - congruence.
  - specialize (Hcnt H0). congruence.
  - destruct Hout as [Hq Hsv Hxl Huc Hdn Hpe
                     |skipped' from' rest' arr Hq Hdis Hec Hfr Hun Hva Hsv Hxl Huc Hdn
                     |skipped' from' rest' arr E1 t E2 xarr Hq Hdis Hec Hsp Hva HE Hall
                        Hun Htr Hxf Hsv Hxl Huc Hdn].
    + exfalso. rewrite Hp in Hq. apply Forall_app in Hq as [_ Hq].
      inversion Hq; subst. contradiction.
    + assert (Hnf : ~ discardable g from').
      { intros (c & Hc & Hcases). rewrite Hec in Hc. injection Hc as <-.
        destruct Hcases as [H|[(_ & [H|H])|(H & _)]]; try lia. congruence. }
      rewrite Hp in Hq.
      destruct (first_failing _ _ _ _ _ _ _ Hq Hsk Hfire Hdis Hnf) as (_ & <- & _).
      exists (done g'), from, g'. split; [exact Hrun|]. split; [exact Hun|].
      split; [|left; split; [reflexivity|lia]].
      rewrite (is_solved_mark _ _ _ from Hsv), Z.eqb_refl. reflexivity.
    + assert (Hnf : ~ discardable g from').
      { intros (c & Hc & Hcases). rewrite Hec in Hc. injection Hc as <-.
        destruct Hcases as [H|[(H & _)|(_ & H1 & H2)]]; try lia.
        destruct Hsp as [H|H]; [lia|congruence]. }
      rewrite Hp in Hq.
      destruct (first_failing _ _ _ _ _ _ _ Hq Hsk Hfire Hdis Hnf) as (_ & <- & _).
      exists (done g'), t, g'. split; [exact Hrun|]. split; [exact Hun|].
      split.
      * rewrite (is_solved_mark _ _ _ t Hsv), Z.eqb_refl. reflexivity.
      * right. exists arr. split; [exact Hva|]. rewrite HE. apply in_elt.
Qed.

Lemma resolve_fires_first_witness :
  exists d n g', oc_graph_resolve Scenario.s5_b = Some (d, [n], g') /\
    is_solved (solved g') n = true.
Proof.
  destruct (resolve_fires_first Scenario.s5_b [] 5 [6] Reach.s5_b_reachable)
    as (d & n & g' & H1 & _ & H2 & _).
  - reflexivity.
  - reflexivity.
  - constructor.
  - intros (c & Hc & Hcases). vm_compute in Hc. injection Hc as <-.
    destruct Hcases as [H|[(H & _)|(_ & H & _)]]; [lia|lia|].
    vm_compute in H. discriminate.
  - exists d, n, g'. auto.
Defined.

(** * Entries out of range *)

Lemma count_solved_loop_bad (n : nat) : forall g v ep sc (i : nat) d,
  (i < n)%nat -> zget v (ep + Z.of_nat i) = Some d ->
  ~ (0 <= d < Z.of_nat (length (solved g))) \/ coblocks g <= d ->
  count_solved_loop n g v ep sc = None.
Proof.
  induction n as [|n IH]; intros g v ep sc i d Hi Hd Hbad; [lia|].
  cbn [count_solved_loop].
  destruct (zget v ep) as [tmp|] eqn:Htmp; [|reflexivity].
  destruct (c_assert (tmp <? coblocks g)) eqn:Ha; [|reflexivity].
  apply c_assert_inv, Z.ltb_lt in Ha.
  destruct (zget (solved g) tmp) as [s|] eqn:Hs; [|reflexivity].
  destruct i as [|i].
  - rewrite Z.add_0_r in Hd. rewrite Hd in Htmp. injection Htmp as <-.
    exfalso. pose proof (zget_Some_range _ _ _ Hs). destruct Hbad; [tauto|lia].
  - apply (IH g v (ep + 1) _ i d); [lia| |exact Hbad].
    rewrite <- Hd. f_equal. lia.
Qed.

Lemma entries_cell v (i : nat) d :
  nth_error (entries v) i = Some d ->
  (i < Z.to_nat (hd 0%Z v))%nat /\ zget v (1 + Z.of_nat i) = Some d.
Proof.
  unfold entries. intros Hi.
  assert (Hlt : (i < length (firstn (Z.to_nat (hd 0%Z v)) (tl v)))%nat).
  { apply nth_error_Some. congruence. }
  rewrite length_firstn in Hlt. split; [lia|].
  rewrite nth_error_firstn in Hi.
  destruct (Nat.ltb i (Z.to_nat (hd 0%Z v))) eqn:E; [|discriminate].
  destruct v as [|k t]; [destruct i; discriminate|].
  rewrite zget_cons_succ by lia. unfold zget.
  zbool (Z.of_nat i <? 0) false. rewrite Nat2Z.id. exact Hi.
Qed.

(** The first entry not below [c] in a list of non-negative entries. *)
Lemma first_above (c : Z) (E : list Z) d :
  Forall (fun e => 0 <= e) E -> In d E -> c <= d ->
  exists (j : nat) e,
    nth_error E j = Some e /\ c <= e /\
    forall (i : nat) x, (i < j)%nat -> nth_error E i = Some x -> 0 <= x < c.
Proof.
  induction E as [|h t IH]; intros Hall Hin Hd; [contradiction|].
  inversion Hall as [|? ? Hh Hall']; subst.
  destruct (Z_lt_le_dec h c) as [Hlt|Hge].
  - destruct Hin as [->|Hin]; [lia|].
    destruct (IH Hall' Hin Hd) as (j & e & Hj & He & Hpre).
    exists (S j), e. split; [exact Hj|]. split; [exact He|].
    intros [|i] x Hi Hx.
    + injection Hx as <-. lia.
    + apply (Hpre i x); [lia|exact Hx].
  - exists 0%nat, h. split; [reflexivity|]. split; [exact Hge|]. intros i x Hi. lia.
Qed.

(** The first pass over entries that are lower nodes. *)
Lemma count_solved_loop_runs (n : nat) : forall g v ep sc,
  (forall i : nat, (i < n)%nat ->
     exists e, zget v (ep + Z.of_nat i) = Some e /\
               0 <= e < Z.of_nat (length (solved g)) /\ e < coblocks g) ->
  exists sc', count_solved_loop n g v ep sc = Some sc'.
Proof.
  induction n as [|n IH]; intros g v ep sc H; [exists sc; reflexivity|].
  cbn [count_solved_loop].
  destruct (H 0%nat) as (e & He & Hr & Hc); [lia|].
  rewrite Z.add_0_r in He. rewrite He.
  rewrite c_assert_true by zcmp.
  destruct (zget_in_range (solved g) e Hr) as [s ->].
  apply IH. intros i Hi. destruct (H (S i)) as (e' & He' & H'); [lia|].
  exists e'. split; [|exact H']. rewrite <- He'. f_equal. lia.
Qed.

(** X29: [oc_graph_check_block] does not accept an index above the lower
    nodes: in a reachable state with room for the block, a check block
    of non-negative entries that lists an entry not below [coblocks]
    makes the call stop in its first pass, which runs over the entries
    before the first such entry and fails the [assert] on it. *)
Theorem check_block_entry_out_of_range g v d :
  reachable g -> nodes g < node_space g ->
  Forall (fun e => 0 <= e) (entries v) ->
  In d (entries v) -> coblocks g <= d ->
  oc_graph_check_block g v = None /\
  exists (j : nat) e sc,
    count_solved_loop j (set_nodes g (nodes g + 1)) v 1 0 = Some sc /\
    zget v (1 + Z.of_nat j) = Some e /\ coblocks g <= e.
Proof.
  intros Hr Hroom Hall Hin Hbad. pose proof (reachable_inv g Hr) as [Hs _].
  destruct (first_above (coblocks g) (entries v) d Hall Hin Hbad)
    as (j & e & Hj & He & Hpre).
  destruct (entries_cell v j e Hj) as [Hjk Hje].
  split.
  - unfold oc_graph_check_block. cbn [node_space set_nodes].
    zbool (nodes g >=? node_space g) false.
    destruct (zget v 0) as [k|] eqn:Hk; [|reflexivity].
    assert (Hk' : hd 0 v = k).
    { destruct v as [|z l]; [discriminate|]. cbn in Hk |- *. congruence. }
    rewrite Hk' in Hjk.
    unfold while_count. zbool (k <? 0) false.
    rewrite (count_solved_loop_bad (Z.to_nat k) _ v 1 0 j e Hjk Hje); [reflexivity|].
    right. exact He.
  - destruct (count_solved_loop_runs j (set_nodes g (nodes g + 1)) v 1 0) as [sc Hsc].
    { intros i Hi.
      destruct (nth_error (entries v) i) as [x|] eqn:Hx.
      - destruct (entries_cell v i x Hx) as [_ Hxi]. exists x. split; [exact Hxi|].
        cbn [solved coblocks set_nodes]. rewrite (str_len_solved g Hs).
        pose proof (Hpre i x Hi Hx). lia.
      - exfalso. apply nth_error_None in Hx.
        assert (j < length (entries v))%nat by (apply nth_error_Some; congruence).
        lia. }
    exists j, e, sc. auto.
Qed.

Lemma check_block_entry_out_of_range_witness :
  oc_graph_check_block Scenario.s3_init [2; 0; 3] = None.
Proof.
  apply (check_block_entry_out_of_range Scenario.s3_init [2; 0; 3] 3
           Reach.s3_init_reachable).
  - reflexivity.
  - vm_compute. repeat constructor; discriminate.
  - simpl. tauto.
  - vm_compute. discriminate.
Defined.
